(** * BioSim: a shallow embedding of the island population simulation

    The development follows the three layers of the package:
    [animal.py] (module [Animal]), [landscape.py] (module [Landscape]) and
    [island.py] (module [Island]).

    Conventions of the embedding.
    - Python numbers are real numbers ([R]); [math.e ** x] is [exp x].  Ages
      and counts are integers ([Z]).
    - The process-wide pseudo-random generator of Python's [random] module is
      a state [generator]: a cursor over the outcomes of the successive calls.
      Every call of [random.random], [random.gauss] or [random.choice]
      consumes one position.
    - Exceptions are the constructor [Raise] of [result].
    - Animals are objects: cells hold references ([nat]) into a [store]. *)

From Stdlib Require Import Reals Lra Lia ZArith List Ascii String Bool Arith.
From Stdlib Require Import Permutation Sorted.
Import ListNotations.

Open Scope list_scope.
Open Scope R_scope.

(** ** Comparisons of numbers as booleans

    [x < y] and [x <= y] on real numbers are decided, not computed: the two
    deciders are opaque, and the comparisons are known by the lemmas
    [ltb_R_true], [ltb_R_false], [leb_R_true] and [leb_R_false]. *)

Lemma lt_decide (x y : R) : {x < y} + {~ x < y}.
Proof. exact (Rlt_dec x y). Qed.

Lemma le_decide (x y : R) : {x <= y} + {~ x <= y}.
Proof. exact (Rle_dec x y). Qed.

Definition ltb_R (x y : R) : bool := if lt_decide x y then true else false.
Definition leb_R (x y : R) : bool := if le_decide x y then true else false.

(** ** Exceptions *)

Inductive exn : Type :=
| ValueError (msg : string)
| KeyError
| IndexError
| AttributeError.

Inductive result (A : Type) : Type :=
| Ok (a : A)
| Raise (e : exn).
Arguments Ok {A} a.
Arguments Raise {A} e.

Definition bind {A B : Type} (m : result A) (k : A -> result B) : result B :=
  match m with
  | Ok a => k a
  | Raise e => Raise e
  end.

Notation "x <- m ;; k" := (bind m (fun x => k))
  (at level 61, m at next level, right associativity).

(** ** The pseudo-random generator *)

Module Random.

(** [position] counts the calls made so far.  [unit_draws k] is what the
    k-th call returns when it is [random.random()], [normal_draws k] the
    standard normal deviate behind a k-th call [random.gauss(m, s)], and
    [index_draws k] the raw integer behind a k-th call [random.choice]. *)
Record generator : Type := mkGenerator {
  position : nat;
  unit_draws : nat -> R;
  normal_draws : nat -> R;
  index_draws : nat -> nat
}.

Definition advance (g : generator) : generator :=
  mkGenerator (S (position g)) (unit_draws g) (normal_draws g) (index_draws g).

(** [random.random()] returns a value of the half-open interval [0, 1). *)
Definition valid (g : generator) : Prop :=
  forall k, 0 <= unit_draws g k < 1.

Definition random (g : generator) : R * generator :=
  (unit_draws g (position g), advance g).

Definition gauss (m s : R) (g : generator) : R * generator :=
  (m + normal_draws g (position g) * s, advance g).

(** [random.choice(range(n))] *)
Definition choice_range (n : nat) (g : generator) : nat * generator :=
  (Nat.modulo (index_draws g (position g)) n, advance g).

(** [random.shuffle(x)]: for [i] from [len(x) - 1] down to [1], exchange
    [x[i]] with [x[j]] for a drawn [j <= i]. *)
Definition exchange {A : Type} (i j : nat) (x : list A) : list A :=
  match nth_error x i, nth_error x j with
  | Some a, Some b =>
      let x1 := firstn i x ++ b :: skipn (S i) x in
      firstn j x1 ++ a :: skipn (S j) x1
  | _, _ => x
  end.

Fixpoint shuffle_from {A : Type} (i : nat) (x : list A) (g : generator)
  : list A * generator :=
  match i with
  | O => (x, g)
  | S i' =>
      let (j, g') := choice_range (S i) g in
      shuffle_from i' (exchange i j x) g'
  end.

Definition shuffle {A : Type} (x : list A) (g : generator) : list A * generator :=
  shuffle_from (List.length x - 1) x g.

(** The generator that answers every [random.random()] with [u]. *)
Definition constant (u : R) : generator :=
  mkGenerator 0 (fun _ => u) (fun _ => 0) (fun _ => 0%nat).

End Random.

(** ** Parameter tables: the class attribute [params] *)

Definition params : Type := list (string * R).

Fixpoint lookup (name : string) (p : params) : option R :=
  match p with
  | [] => None
  | (k, v) :: rest => if String.eqb k name then Some v else lookup name rest
  end.

(** [param in cls.params] *)
Definition has_key (name : string) (p : params) : bool :=
  match lookup name p with Some _ => true | None => false end.

(** [cls.params[param]]; the tables have a fixed set of keys, all the keys
    the code reads are present in them. *)
Definition item (p : params) (name : string) : R :=
  match lookup name p with Some v => v | None => 0 end.

(** [cls.params[param] = value] for a key of the table. *)
Fixpoint assign (name : string) (value : R) (p : params) : params :=
  match p with
  | [] => []
  | (k, v) :: rest =>
      if String.eqb k name then (k, value) :: rest
      else (k, v) :: assign name value rest
  end.

(** The body of [set_params], the same in [Animal] and [Landscape] up to the
    wording of the second message: the loop over
    [given_parameters.items()].  The table is mutated in place, so the value
    it has when the exception is raised is part of the outcome. *)
Fixpoint set_params_loop (unknown : string) (given : list (string * R)) (p : params)
  : params * option exn :=
  match given with
  | [] => (p, None)
  | (name, value) :: rest =>
      if ltb_R value 0 then
        (p, Some (ValueError (name ++ " cannot be negative")))
      else if negb (has_key name p) then
        (p, Some (ValueError (name ++ unknown)))
      else set_params_loop unknown rest (assign name value p)
  end.


(** ** animal.py *)

Module Animal.

Inductive species : Type := Herbivore | Carnivore.

Definition species_eqb (s t : species) : bool :=
  match s, t with
  | Herbivore, Herbivore | Carnivore, Carnivore => true
  | _, _ => false
  end.

(** An instance: its class and its two attributes. *)
Record animal : Type := mkAnimal {
  kind : species;
  weight : R;
  age : Z
}.

Definition herbivore_params : params :=
  [ ("zeta", 3.5); ("a_half", 40.0); ("w_birth", 8.0); ("sigma_birth", 1.5);
    ("beta", 0.9); ("eta", 0.05); ("phi_age", 0.6); ("w_half", 10.0);
    ("phi_weight", 0.1); ("mu", 0.25); ("gamma", 0.2); ("xi", 1.2);
    ("omega", 0.4); ("F", 10.0) ]%string.

Definition carnivore_params : params :=
  [ ("zeta", 3.5); ("a_half", 40.0); ("w_birth", 6.0); ("sigma_birth", 1.0);
    ("beta", 0.75); ("eta", 0.125); ("phi_age", 0.3); ("w_half", 4.0);
    ("phi_weight", 0.4); ("mu", 0.4); ("gamma", 0.8); ("xi", 1.1);
    ("omega", 0.8); ("F", 50.0); ("DeltaPhiMax", 10.0) ]%string.

(** The class attributes [params] of the two subclasses and their instance
    counters [count]. *)
Record classes : Type := mkClasses {
  herb_params : params;
  carn_params : params;
  herb_count : Z;
  carn_count : Z
}.

Definition params_of (cl : classes) (s : species) : params :=
  match s with
  | Herbivore => herb_params cl
  | Carnivore => carn_params cl
  end.

Definition amount (cl : classes) (s : species) : Z :=
  match s with
  | Herbivore => herb_count cl
  | Carnivore => carn_count cl
  end.

Definition add_count (d : Z) (s : species) (cl : classes) : classes :=
  match s with
  | Herbivore =>
      mkClasses (herb_params cl) (carn_params cl) (herb_count cl + d) (carn_count cl)
  | Carnivore =>
      mkClasses (herb_params cl) (carn_params cl) (herb_count cl) (carn_count cl + d)
  end.

Definition count_new : species -> classes -> classes := add_count 1.
Definition remove_one_count : species -> classes -> classes := add_count (-1).

Definition reset_counter (s : species) (cl : classes) : classes :=
  add_count (- amount cl s) s cl.

(** [cls.set_params(given_parameters)]: the table of the class is replaced by
    the one the loop leaves, also when the loop raises. *)
Definition set_params (s : species) (given : list (string * R)) (cl : classes)
  : classes * option exn :=
  let (p, e) := set_params_loop " is not a recognized parameter" given (params_of cl s) in
  (match s with
   | Herbivore => mkClasses p (carn_params cl) (herb_count cl) (carn_count cl)
   | Carnivore => mkClasses (herb_params cl) p (herb_count cl) (carn_count cl)
   end, e).

(** [prob_true_or_false(prob)] *)
Definition prob_true_or_false (prob : R) (g : Random.generator)
  : bool * Random.generator :=
  let (random_probability, g') := Random.random g in
  (ltb_R random_probability prob, g').

(** The property [fitness]. *)
Definition fitness (p : params) (a : animal) : R :=
  if ltb_R 0 (weight a) then
    let q_plus :=
      1 / (1 + exp (item p "phi_age" * (IZR (age a) - item p "a_half"))) in
    let q_minus :=
      1 / (1 + exp (- item p "phi_weight" * (weight a - item p "w_half"))) in
    q_plus * q_minus
  else 0.

(** [initiate_weight(weight)] and [initiate_age(age)] for a given weight, as
    [island.py] and [birth] call the constructor.  The branch for
    [weight is None], which draws the weight with [random.gauss] until it is
    not negative, is not part of the model. *)
Definition initiate_weight (w : R) : result R :=
  if leb_R w 0 then Raise (ValueError "Weight must be positive") else Ok w.

Definition initiate_age (n : Z) : result Z :=
  if (n <? 0)%Z then Raise (ValueError "Age cannot be negative") else Ok n.

(** [Herbivore(weight, age)] and [Carnivore(weight, age)] *)
Definition init (s : species) (w : R) (n : Z) (cl : classes)
  : result (animal * classes) :=
  w' <- initiate_weight w ;;
  n' <- initiate_age n ;;
  Ok (mkAnimal s w' n', count_new s cl).

Definition aging (a : animal) : animal :=
  mkAnimal (kind a) (weight a) (age a + 1).

Definition weight_loss (p : params) (a : animal) : animal :=
  mkAnimal (kind a) (weight a * (1 - item p "eta")) (age a).

Definition eat (p : params) (feed : R) (a : animal) : animal :=
  mkAnimal (kind a) (weight a + item p "beta" * feed) (age a).

Definition death_probability (p : params) (a : animal) : R :=
  item p "omega" * (1 - fitness p a).

(** [update_life_status()]; [die()] decrements the counter of the class. *)
Definition update_life_status (a : animal) (cl : classes) (g : Random.generator)
  : bool * classes * Random.generator :=
  let (dead, g') := prob_true_or_false (death_probability (params_of cl (kind a)) a) g in
  if dead then (true, remove_one_count (kind a) cl, g') else (false, cl, g').

(** The value [procreation_probability] that
    [calculate_procreation_probability(N)] hands to [prob_true_or_false]. *)
Definition procreation_probability (p : params) (a : animal) (N : Z) : R :=
  let procreation_probability := item p "gamma" * fitness p a * (IZR N - 1) in
  if ltb_R 1 procreation_probability then 1 else procreation_probability.

Definition calculate_procreation_probability
  (p : params) (a : animal) (N : Z) (g : Random.generator)
  : bool * Random.generator :=
  prob_true_or_false (procreation_probability p a N) g.

(** [birth()]: the mother after the call, and the offspring or [None]. *)
Definition birth (a : animal) (cl : classes) (g : Random.generator)
  : result (animal * option animal * classes * Random.generator) :=
  let p := params_of cl (kind a) in
  let (birth_weight, g') := Random.gauss (item p "w_birth") (item p "sigma_birth") g in
  if ltb_R 0 birth_weight then
    let weight_loss := item p "xi" * birth_weight in
    if leb_R weight_loss (weight a) then
      let mother := mkAnimal (kind a) (weight a - weight_loss) (age a) in
      born <- init (kind a) birth_weight 0 cl ;;
      Ok (mother, Some (fst born), snd born, g')
    else Ok (a, None, cl, g')
  else Ok (a, None, cl, g').

Definition migrate_or_not (p : params) (a : animal) (g : Random.generator)
  : bool * Random.generator :=
  let migration_probability := item p "mu" * fitness p a in
  prob_true_or_false migration_probability g.

Definition migration_direction (g : Random.generator) : nat * Random.generator :=
  Random.choice_range 4 g.

(** [Carnivore.killing_probability(prey)]; [pc] is the table of the
    attacker's class, [pp] the one of the prey's. *)
Definition killing_probability
  (pc pp : params) (self prey : animal) (g : Random.generator)
  : bool * Random.generator :=
  let fitness_disparity := fitness pc self - fitness pp prey in
  if leb_R fitness_disparity 0 then (false, g)
  else if ltb_R fitness_disparity (item pc "DeltaPhiMax") then
    let probability := fitness_disparity / item pc "DeltaPhiMax" in
    prob_true_or_false probability g
  else (true, g).

End Animal.


(** ** landscape.py *)

Module Landscape.

Import Animal.

(** The four subclasses of [Landscape]. *)
Inductive terrain : Type := Lowland | Highland | Desert | Water.

(** What a list [herb_list] or [carn_list] can hold: a reference to an
    [Animal] instance, or the string [","] that the migration methods put in. *)
Inductive entry : Type :=
| Sentinel
| Ref (r : nat).

Definition entry_eqb (x y : entry) : bool :=
  match x, y with
  | Sentinel, Sentinel => true
  | Ref r, Ref r' => Nat.eqb r r'
  | _, _ => false
  end.

(** Grid positions [(x, y)], the keys of the dictionary [island]. *)
Definition coord : Type := (Z * Z)%type.

Definition coord_eqb (a b : coord) : bool :=
  (fst a =? fst b)%Z && (snd a =? snd b)%Z.

(** A cell object.  A neighbour is referred to by its key in [island];
    [None] stands for the missing neighbour at the edge of the grid. *)
Record cell : Type := mkCell {
  terrain_of : terrain;
  herb_list : list entry;
  carn_list : list entry;
  adjacent_cells : list (option coord);
  available_fodder : R;
  accessability : bool
}.

(** The class attributes [params] of the four subclasses. *)
Record terrain_tables : Type := mkTables {
  lowland_params : params;
  highland_params : params;
  desert_params : params;
  water_params : params
}.

Definition default_tables : terrain_tables :=
  mkTables [("f_max", 800.0)]%string [("f_max", 300.0)]%string
           [("f_max", 0)]%string [("f_max", 0)]%string.

Definition table_of (tt : terrain_tables) (t : terrain) : params :=
  match t with
  | Lowland => lowland_params tt
  | Highland => highland_params tt
  | Desert => desert_params tt
  | Water => water_params tt
  end.

(** What the methods record of their calls on animals; the trace is not
    part of the program, it is what the statements about "once per stage"
    are made of. *)
Inductive event : Type :=
| Decided (s : species) (r : nat) (migrates : bool)
| Directed (s : species) (r : nat) (direction : nat)
| Moved (s : species) (r : nat) (src dst : coord)
| Ate (r : nat) (feed : R)
| LifeChecked (r : nat) (dead : bool).

Definition store : Type := nat -> animal.

(** The state of the process: the two animal classes, the four landscape
    classes, the animal objects, the generator and the dictionary [island]
    in insertion order. *)
Record state : Type := mkState {
  classes_of : classes;
  tables : terrain_tables;
  objects : store;
  next_ref : nat;
  gen : Random.generator;
  island : list (coord * cell);
  trace : list event
}.

Definition with_classes (cl : classes) (st : state) : state :=
  mkState cl (tables st) (objects st) (next_ref st) (gen st) (island st) (trace st).
Definition with_tables (tt : terrain_tables) (st : state) : state :=
  mkState (classes_of st) tt (objects st) (next_ref st) (gen st) (island st) (trace st).
Definition with_objects (o : store) (st : state) : state :=
  mkState (classes_of st) (tables st) o (next_ref st) (gen st) (island st) (trace st).
Definition with_next_ref (n : nat) (st : state) : state :=
  mkState (classes_of st) (tables st) (objects st) n (gen st) (island st) (trace st).
Definition with_gen (g : Random.generator) (st : state) : state :=
  mkState (classes_of st) (tables st) (objects st) (next_ref st) g (island st) (trace st).
Definition with_island (isl : list (coord * cell)) (st : state) : state :=
  mkState (classes_of st) (tables st) (objects st) (next_ref st) (gen st) isl (trace st).
Definition record (e : event) (st : state) : state :=
  mkState (classes_of st) (tables st) (objects st) (next_ref st) (gen st) (island st)
          (trace st ++ [e]).

Definition update_object (r : nat) (a : animal) (st : state) : state :=
  with_objects (fun r' => if Nat.eqb r' r then a else objects st r') st.

(** A new object: its reference is the next unused one. *)
Definition allocate (a : animal) (st : state) : nat * state :=
  (next_ref st, with_next_ref (S (next_ref st)) (update_object (next_ref st) a st)).

Fixpoint find_cell (k : coord) (isl : list (coord * cell)) : option cell :=
  match isl with
  | [] => None
  | (k', c) :: rest => if coord_eqb k' k then Some c else find_cell k rest
  end.

Fixpoint replace_cell (k : coord) (c : cell) (isl : list (coord * cell))
  : list (coord * cell) :=
  match isl with
  | [] => []
  | (k', c') :: rest =>
      if coord_eqb k' k then (k', c) :: rest else (k', c') :: replace_cell k c rest
  end.

Definition get_cell (k : coord) (st : state) : result cell :=
  match find_cell k (island st) with
  | Some c => Ok c
  | None => Raise KeyError
  end.

Definition put_cell (k : coord) (c : cell) (st : state) : state :=
  with_island (replace_cell k c (island st)) st.

Definition animals_of (s : species) (c : cell) : list entry :=
  match s with
  | Herbivore => herb_list c
  | Carnivore => carn_list c
  end.

Definition with_animals (s : species) (l : list entry) (c : cell) : cell :=
  match s with
  | Herbivore =>
      mkCell (terrain_of c) l (carn_list c) (adjacent_cells c) (available_fodder c)
             (accessability c)
  | Carnivore =>
      mkCell (terrain_of c) (herb_list c) l (adjacent_cells c) (available_fodder c)
             (accessability c)
  end.

Definition with_fodder (f : R) (c : cell) : cell :=
  mkCell (terrain_of c) (herb_list c) (carn_list c) (adjacent_cells c) f (accessability c).

Definition with_adjacent (adj : list (option coord)) (c : cell) : cell :=
  mkCell (terrain_of c) (herb_list c) (carn_list c) adj (available_fodder c)
         (accessability c).

(** [for x in l: body(x)] over a list that the body does not change. *)
Fixpoint for_each {A : Type} (body : A -> state -> result state) (l : list A)
  (st : state) : result state :=
  match l with
  | [] => Ok st
  | x :: rest => st' <- body x st ;; for_each body rest st'
  end.

(** [x in l], [l.index(",")] (or [len(l)]), [l.remove(x)] and the loop
    [while "," in l: l.remove(",")]. *)
Definition mem (x : entry) (l : list entry) : bool := existsb (entry_eqb x) l.

Fixpoint index_of_sentinel (l : list entry) : nat :=
  match l with
  | [] => 0
  | Sentinel :: _ => 0
  | Ref _ :: rest => S (index_of_sentinel rest)
  end.

Fixpoint remove_first (x : entry) (l : list entry) : option (list entry) :=
  match l with
  | [] => None
  | y :: rest =>
      if entry_eqb y x then Some rest
      else match remove_first x rest with
           | Some rest' => Some (y :: rest')
           | None => None
           end
  end.

Fixpoint remove_sentinels (l : list entry) : list entry :=
  match l with
  | [] => []
  | Sentinel :: rest => remove_sentinels rest
  | Ref r :: rest => Ref r :: remove_sentinels rest
  end.

Definition list_remove (s : species) (k : coord) (r : nat) (st : state)
  : result state :=
  c <- get_cell k st ;;
  match remove_first (Ref r) (animals_of s c) with
  | Some l => Ok (put_cell k (with_animals s l c) st)
  | None => Raise (ValueError "list.remove(x): x not in list")
  end.

(** The instances behind the entries of a list; reading an attribute of
    [","] raises. *)
Fixpoint instances (l : list entry) : result (list nat) :=
  match l with
  | [] => Ok []
  | Sentinel :: _ => Raise AttributeError
  | Ref r :: rest => rs <- instances rest ;; Ok (r :: rs)
  end.

Definition fitness_of (st : state) (r : nat) : R :=
  let a := objects st r in fitness (params_of (classes_of st) (kind a)) a.

(** [__init__] of the subclass [t]. *)
Definition new_cell (tt : terrain_tables) (t : terrain) : cell :=
  mkCell t [] [] [] (item (table_of tt t) "f_max")
         (match t with Water => false | _ => true end).

(** [cls.set_params(given_parameters)] *)
Definition set_params (t : terrain) (given : list (string * R)) (tt : terrain_tables)
  : terrain_tables * option exn :=
  let (p, e) := set_params_loop " is not a valid parameter" given (table_of tt t) in
  (match t with
   | Lowland => mkTables p (highland_params tt) (desert_params tt) (water_params tt)
   | Highland => mkTables (lowland_params tt) p (desert_params tt) (water_params tt)
   | Desert => mkTables (lowland_params tt) (highland_params tt) p (water_params tt)
   | Water => mkTables (lowland_params tt) (highland_params tt) (desert_params tt) p
   end, e).

(** [set_fodder()] *)
Definition set_fodder (k : coord) (st : state) : result state :=
  c <- get_cell k st ;;
  Ok (put_cell k (with_fodder (item (table_of (tables st) (terrain_of c)) "f_max") c) st).

(** [sorted(l, key=lambda x: x.fitness, reverse=descending)]: a stable sort.
    [x] stood before every element of [sorted]; it goes behind those that
    must come strictly before it. *)
Fixpoint insert_by_fitness (descending : bool) (key : nat -> R) (x : nat)
  (sorted : list nat) : list nat :=
  match sorted with
  | [] => [x]
  | y :: rest =>
      if (if descending then ltb_R (key x) (key y) else ltb_R (key y) (key x))
      then y :: insert_by_fitness descending key x rest
      else x :: y :: rest
  end.

Fixpoint sorted_by_fitness (descending : bool) (key : nat -> R) (l : list nat)
  : list nat :=
  match l with
  | [] => []
  | x :: rest => insert_by_fitness descending key x (sorted_by_fitness descending key rest)
  end.

Definition _sort_fitness (descending : bool) (k : coord) (st : state)
  : result (list nat) :=
  c <- get_cell k st ;;
  rs <- instances (herb_list c) ;;
  Ok (sorted_by_fitness descending (fitness_of st) rs).

(** [feed_herbivores()]: the loop [while self.available_fodder > 0 and
    i + 1 <= len(herbs)] over the sorted snapshot [herbs]. *)
Fixpoint feed_loop (herbs : list nat) (k : coord) (st : state) : result state :=
  match herbs with
  | [] => Ok st
  | herb :: rest =>
      c <- get_cell k st ;;
      if ltb_R 0 (available_fodder c) then
        let p := params_of (classes_of st) (kind (objects st herb)) in
        let F :=
          if leb_R 0 (available_fodder c - item p "F") then item p "F"
          else available_fodder c in
        let st1 := put_cell k (with_fodder (available_fodder c - F) c) st in
        let st2 := update_object herb (eat p F (objects st1 herb)) st1 in
        feed_loop rest k (record (Ate herb F) st2)
      else Ok st
  end.

Definition feed_herbivores (k : coord) (st : state) : result state :=
  herbs <- _sort_fitness true k st ;;
  feed_loop herbs k st.

(** [facilitate_hunting()]: the turn of one carnivore over the snapshot
    [herbs], weakest first. *)
Fixpoint hunt_loop (carnivore : nat) (herbs : list nat) (weight_eaten : R)
  (k : coord) (st : state) : result state :=
  match herbs with
  | [] => Ok st
  | herbivore :: rest =>
      let hunter := objects st carnivore in
      let pc := params_of (classes_of st) (kind hunter) in
      if ltb_R weight_eaten (item pc "F") then
        match kind hunter with
        | Herbivore => Raise AttributeError
        | Carnivore =>
            let prey := objects st herbivore in
            let pp := params_of (classes_of st) (kind prey) in
            let (kills, g) := killing_probability pc pp hunter prey (gen st) in
            let st1 := with_gen g st in
            if kills then
              let st2 := update_object carnivore (eat pc (weight prey) hunter) st1 in
              let st3 := with_classes (remove_one_count (kind prey) (classes_of st2)) st2 in
              st4 <- list_remove Herbivore k herbivore st3 ;;
              hunt_loop carnivore rest (weight_eaten + weight prey) k st4
            else hunt_loop carnivore rest weight_eaten k st1
        end
      else Ok st
  end.

Definition hunt (k : coord) (x : entry) (st : state) : result state :=
  match x with
  | Sentinel => Raise AttributeError
  | Ref carnivore =>
      sorted_herbivores <- _sort_fitness false k st ;;
      hunt_loop carnivore sorted_herbivores 0 k st
  end.

Definition facilitate_hunting (k : coord) (st : state) : result state :=
  c <- get_cell k st ;;
  let (shuffled, g) := Random.shuffle (carn_list c) (gen st) in
  let st1 := put_cell k (with_animals Carnivore shuffled c) (with_gen g st) in
  for_each (hunt k) shuffled st1.

(** [procreate_herbivores()] and [procreate_carnivores()]: the loop over the
    residents; it returns the references of the newborn. *)
Fixpoint procreate_loop (N : Z) (l : list entry) (st : state)
  : result (list entry * state) :=
  match l with
  | [] => Ok ([], st)
  | Sentinel :: _ => Raise AttributeError
  | Ref r :: rest =>
      let a := objects st r in
      let (procreates, g1) :=
        calculate_procreation_probability (params_of (classes_of st) (kind a)) a N
                                          (gen st) in
      let st1 := with_gen g1 st in
      if procreates then
        born <- birth a (classes_of st1) (gen st1) ;;
        let '(mother, child, cl, g2) := born in
        let st2 := update_object r mother (with_classes cl (with_gen g2 st1)) in
        match child with
        | Some new_animal =>
            let (r', st3) := allocate new_animal st2 in
            more <- procreate_loop N rest st3 ;;
            Ok (Ref r' :: fst more, snd more)
        | None => procreate_loop N rest st2
        end
      else procreate_loop N rest st1
  end.

Definition procreate (s : species) (k : coord) (st : state) : result state :=
  c <- get_cell k st ;;
  let l := animals_of s c in
  out <- procreate_loop (Z.of_nat (List.length l)) l st ;;
  let (new_list, st1) := out in
  c1 <- get_cell k st1 ;;
  Ok (put_cell k (with_animals s (animals_of s c1 ++ new_list) c1) st1).

Definition procreate_herbivores : coord -> state -> result state := procreate Herbivore.
Definition procreate_carnivores : coord -> state -> result state := procreate Carnivore.

(** [migrate_herbivores()] and [migrate_carnivores()]: the body of the loop
    over the slice [l[0:index]], for the list of species [s] of cell [self]. *)
Definition migrate_one (s : species) (self : coord) (x : entry) (st : state)
  : result state :=
  match x with
  | Sentinel => Raise AttributeError
  | Ref r =>
      let a := objects st r in
      let (migrates, g1) :=
        migrate_or_not (params_of (classes_of st) (kind a)) a (gen st) in
      let st1 := record (Decided s r migrates) (with_gen g1 st) in
      if migrates then
        let (direction, g2) := migration_direction g1 in
        let st2 := record (Directed s r direction) (with_gen g2 st1) in
        c <- get_cell self st2 ;;
        match nth_error (adjacent_cells c) direction with
        | None => Raise IndexError
        | Some None => Raise AttributeError
        | Some (Some dst) =>
            destination <- get_cell dst st2 ;;
            if accessability destination then
              let l := animals_of s destination in
              let l1 :=
                if (0 <? direction)%nat && (direction <? 3)%nat && negb (mem Sentinel l)
                then l ++ [Sentinel] else l in
              let st3 := put_cell dst (with_animals s (l1 ++ [Ref r]) destination) st2 in
              st4 <- list_remove s self r st3 ;;
              Ok (record (Moved s r self dst) st4)
            else Ok st2
        end
      else Ok st1
  end.

Definition migrate (s : species) (self : coord) (st : state) : result state :=
  c <- get_cell self st ;;
  let l := animals_of s c in
  let index := index_of_sentinel l in
  st1 <- for_each (migrate_one s self) (firstn index l) st ;;
  c1 <- get_cell self st1 ;;
  Ok (put_cell self (with_animals s (remove_sentinels (animals_of s c1)) c1) st1).

Definition migrate_herbivores : coord -> state -> result state := migrate Herbivore.
Definition migrate_carnivores : coord -> state -> result state := migrate Carnivore.

(** [get_animals()] on lists that the loop does not change. *)
Definition get_animals (c : cell) : list entry := herb_list c ++ carn_list c.

Definition age_one (x : entry) (st : state) : result state :=
  match x with
  | Sentinel => Raise AttributeError
  | Ref r => Ok (update_object r (aging (objects st r)) st)
  end.

Definition age_animals (k : coord) (st : state) : result state :=
  c <- get_cell k st ;;
  for_each age_one (get_animals c) st.

Definition lose_weight_one (x : entry) (st : state) : result state :=
  match x with
  | Sentinel => Raise AttributeError
  | Ref r =>
      let a := objects st r in
      Ok (update_object r (weight_loss (params_of (classes_of st) (kind a)) a) st)
  end.

Definition animals_lose_weight (k : coord) (st : state) : result state :=
  c <- get_cell k st ;;
  for_each lose_weight_one (get_animals c) st.

(** The body of the loop of [update_life_status_of_animals()]:
    [update_life_status()] and then [remove_animal_if_dead(dead, animal)],
    which removes from the list that [get_animal_list] picks by the class
    of the animal. *)
Definition check_life (k : coord) (x : entry) (st : state) : result state :=
  match x with
  | Sentinel => Raise AttributeError
  | Ref r =>
      let a := objects st r in
      let '(dead_or_not, cl, g) := update_life_status a (classes_of st) (gen st) in
      let st1 := record (LifeChecked r dead_or_not) (with_gen g (with_classes cl st)) in
      if dead_or_not then list_remove (kind a) k r st1 else Ok st1
  end.

(** The iterator of a list that the body of the loop shortens: it keeps a
    position [i] into the list as it is now, and stops when [i] is past the
    end.  [len(l) - i] decreases with every step, so a [fuel] of the length
    of the list is enough. *)
Fixpoint iterate_live (fuel : nat) (s : species) (i : nat) (k : coord) (st : state)
  : result state :=
  match fuel with
  | O => Ok st
  | S fuel' =>
      c <- get_cell k st ;;
      match nth_error (animals_of s c) i with
      | None => Ok st
      | Some x => st' <- check_life k x st ;; iterate_live fuel' s (S i) k st'
      end
  end.

(** [update_life_status_of_animals()]: [itertools.chain] runs through
    [herb_list] and, when that is exhausted, through [carn_list]. *)
Definition update_life_status_of_animals (k : coord) (st : state) : result state :=
  c <- get_cell k st ;;
  st1 <- iterate_live (List.length (herb_list c)) Herbivore 0 k st ;;
  c1 <- get_cell k st1 ;;
  iterate_live (List.length (carn_list c1)) Carnivore 0 k st1.

(** The module-level function [set_animal_parameters(species, parameters)];
    [title] is the result of [species.title()]. *)
Definition set_animal_parameters (title : string) (parameters : list (string * R))
  (st : state) : state * option exn :=
  if String.eqb title "Herbivore" then
    let (cl, e) := Animal.set_params Herbivore parameters (classes_of st) in
    (with_classes cl st, e)
  else if String.eqb title "Carnivore" then
    let (cl, e) := Animal.set_params Carnivore parameters (classes_of st) in
    (with_classes cl st, e)
  else (st, Some (ValueError (title ++ " is not a species"))).

(** [get_age()], [get_weight()] and [get_fitness()]: the values of the
    herbivores and of the carnivores of the cell, in the order of the lists. *)
Definition attributes {A : Type} (f : nat -> A) (c : cell)
  : result (list A * list A) :=
  herbivores <- instances (herb_list c) ;;
  carnivores <- instances (carn_list c) ;;
  Ok (map f herbivores, map f carnivores).

Definition get_age (c : cell) (st : state) : result (list Z * list Z) :=
  attributes (fun r => age (objects st r)) c.

Definition get_weight (c : cell) (st : state) : result (list R * list R) :=
  attributes (fun r => weight (objects st r)) c.

Definition get_fitness (c : cell) (st : state) : result (list R * list R) :=
  attributes (fitness_of st) c.

(** The module-level function [num_animals_per_species()]: the dictionary
    of the two counters. *)
Definition num_animals_per_species (st : state) : list (string * Z) :=
  [ ("Herbivore", amount (classes_of st) Herbivore);
    ("Carnivore", amount (classes_of st) Carnivore) ]%string.

End Landscape.

(** ** island.py *)

Module Island.

Import Animal Landscape.

(** [s.split("\n")] and [s.splitlines()], for a text whose only line
    boundary is the newline character.  The text has been passed through
    [textwrap.dedent] by the caller. *)
Definition newline : Ascii.ascii := Ascii.ascii_of_nat 10.

Fixpoint split_newline (s : string) : list string :=
  match s with
  | EmptyString => [EmptyString]
  | String ch rest =>
      if Ascii.eqb ch newline then EmptyString :: split_newline rest
      else match split_newline rest with
           | line :: lines => String ch line :: lines
           | [] => [String ch EmptyString]
           end
  end.

Definition splitlines (s : string) : list string :=
  let rows := split_newline s in
  match rev rows with
  | EmptyString :: front => rev front
  | _ => rows
  end.

Definition enumerate {A : Type} (l : list A) : list (nat * A) :=
  combine (seq 0 (List.length l)) l.

Definition type_dict (landscape : Ascii.ascii) : option terrain :=
  if Ascii.eqb landscape "H"%char then Some Highland
  else if Ascii.eqb landscape "L"%char then Some Lowland
  else if Ascii.eqb landscape "D"%char then Some Desert
  else if Ascii.eqb landscape "W"%char then Some Water
  else None.

(** [direction_dict.values()]: up, right, down, left. *)
Definition direction_dict : list (Z * Z) :=
  [ (-1, 0); (0, 1); (1, 0); (0, -1) ]%Z.

Definition adjacent_pairs {A : Type} (ok : A -> A -> bool) : list A -> bool :=
  fix go (l : list A) : bool :=
    match l with
    | a :: ((b :: _) as rest) => ok a b && go rest
    | _ => true
    end.

Definition _check_if_consistent_rows_input (landscape_string : string) : result unit :=
  let rows := split_newline landscape_string in
  if adjacent_pairs (fun a b => Nat.eqb (String.length a) (String.length b)) rows
  then Ok tt
  else Raise (ValueError "Island input must have consistent row length").

(** [_find_island_shape]; [text_split[0]] raises on a text without lines. *)
Definition _find_island_shape (landscape_string : string) : result (nat * nat) :=
  match splitlines landscape_string with
  | [] => Raise IndexError
  | first :: _ as text_split => Ok (List.length text_split, String.length first)
  end.

Definition _check_if_island (landscape_string : string) : result unit :=
  let lines := splitlines landscape_string in
  if forallb
       (fun row : nat * string =>
          let (row_nr, line) := row in
          forallb
            (fun col : nat * Ascii.ascii =>
               let (column_nr, letter) := col in
               if Nat.eqb row_nr 0 || Nat.eqb row_nr (List.length lines - 1)
                  || Nat.eqb column_nr 0 || Nat.eqb column_nr (String.length line - 1)
               then Ascii.eqb letter "W"%char
               else true)
            (enumerate (list_ascii_of_string line)))
       (enumerate lines)
  then Ok tt
  else Raise (ValueError "Island must be surrounded by water").

Definition _create_cell (tt : terrain_tables) (landscape : Ascii.ascii) : result cell :=
  match type_dict landscape with
  | Some t => Ok (new_cell tt t)
  | None => Raise (ValueError "The following input is not a valid landscape code")
  end.

(** The cells of one line, and of all the lines from row [x] on, in the
    order in which the two loops of [_create_island] insert them. *)
Fixpoint create_line (tt : terrain_tables) (x : Z) (y : Z) (line : list Ascii.ascii)
  : result (list (coord * cell)) :=
  match line with
  | [] => Ok []
  | letter :: rest =>
      c <- _create_cell tt letter ;;
      more <- create_line tt x (y + 1) rest ;;
      Ok (((x + 1, y + 1)%Z, c) :: more)
  end.

Fixpoint create_lines (tt : terrain_tables) (x : Z) (lines : list string)
  : result (list (coord * cell)) :=
  match lines with
  | [] => Ok []
  | line :: rest =>
      cells <- create_line tt x 0 (list_ascii_of_string line) ;;
      more <- create_lines tt (x + 1) rest ;;
      Ok (cells ++ more)
  end.

(** [_insert_adjacent_cells()] *)
Definition neighbour (isl : list (coord * cell)) (k : coord) (d : Z * Z)
  : option coord :=
  let new := (fst k + fst d, snd k + snd d)%Z in
  match find_cell new isl with
  | Some _ => Some new
  | None => None
  end.

Definition _insert_adjacent_cells (isl : list (coord * cell)) : list (coord * cell) :=
  map (fun kc : coord * cell =>
         let (k, c) := kc in
         (k, with_adjacent (adjacent_cells c ++ map (neighbour isl k) direction_dict) c))
      isl.

(** [_create_island(landscape_string)].  When a check or a letter raises,
    no island is returned. *)
Definition _create_island (landscape_string : string) (st : state) : result state :=
  _ <- _check_if_consistent_rows_input landscape_string ;;
  _ <- _find_island_shape landscape_string ;;
  _ <- _check_if_island landscape_string ;;
  isl <- create_lines (tables st) 0 (split_newline landscape_string) ;;
  Ok (with_island (_insert_adjacent_cells isl) st).

(** [_get_cells()]: the accessible cells, in the order of the dictionary. *)
Definition _get_cells (st : state) : list coord :=
  map fst (filter (fun kc : coord * cell => accessability (snd kc)) (island st)).

(** One entry of a population: [{"species": ..., "age": ..., "weight": ...}]. *)
Record descriptor : Type := mkDescriptor {
  species_tag : string;
  given_weight : R;
  given_age : Z
}.

Definition append_animal (s : species) (loc : coord) (r : nat) (st : state) : state :=
  match find_cell loc (island st) with
  | Some c => put_cell loc (with_animals s (animals_of s c ++ [Ref r]) c) st
  | None => st
  end.

(** The inner loop of [_add_animal_to_island] over [cell['pop']].  What has
    been inserted stays inserted when a later entry raises. *)
Fixpoint add_population (loc : coord) (pop : list descriptor) (st : state)
  : state * option exn :=
  match pop with
  | [] => (st, None)
  | animal :: rest =>
      let tag :=
        if String.eqb (species_tag animal) "Herbivore" then Some Herbivore
        else if String.eqb (species_tag animal) "Carnivore" then Some Carnivore
        else None in
      match tag with
      | Some s =>
          match init s (given_weight animal) (given_age animal) (classes_of st) with
          | Ok (a, cl) =>
              let (r, st1) := allocate a (with_classes cl st) in
              add_population loc rest (append_animal s loc r st1)
          | Raise e => (st, Some e)
          end
      | None =>
          (st, Some (ValueError
                       "'Herbivore' and 'Carnivore' are the only accepted species."))
      end
  end.

Fixpoint _add_animal_to_island (entries : list (coord * list descriptor)) (st : state)
  : state * option exn :=
  match entries with
  | [] => (st, None)
  | (loc, pop) :: rest =>
      match find_cell loc (island st) with
      | None => (st, Some KeyError)
      | Some c =>
          if accessability c then
            match add_population loc pop st with
            | (st1, None) => _add_animal_to_island rest st1
            | (st1, Some e) => (st1, Some e)
            end
          else
            (st, Some (ValueError
                         "is a water cell. Animals cannot be placed in water cell."))
      end
  end.

Definition _set_landscape_parameters (landscape : Ascii.ascii)
  (parameters : list (string * R)) (st : state) : state * option exn :=
  match type_dict landscape with
  | Some t =>
      let (tt, e) := Landscape.set_params t parameters (tables st) in
      (with_tables tt st, e)
  | None => (st, Some KeyError)
  end.

Definition _set_animal_parameters (title : string) (parameters : list (string * R))
  (st : state) : state * option exn :=
  set_animal_parameters title parameters st.

Definition _feed_herbivores_stage (cells : list coord) (st : state) : result state :=
  for_each (fun cell st => st1 <- set_fodder cell st ;; feed_herbivores cell st1) cells st.

Definition _feed_carnivores_stage (cells : list coord) (st : state) : result state :=
  for_each facilitate_hunting cells st.

Definition _procreation_stage (cells : list coord) (st : state) : result state :=
  for_each (fun cell st =>
              st1 <- procreate_herbivores cell st ;; procreate_carnivores cell st1)
           cells st.

Definition _migration_stage (cells : list coord) (st : state) : result state :=
  for_each (fun cell st =>
              st1 <- migrate_herbivores cell st ;; migrate_carnivores cell st1)
           cells st.

Definition _aging_stage (cells : list coord) (st : state) : result state :=
  for_each age_animals cells st.

Definition _weight_loss_stage (cells : list coord) (st : state) : result state :=
  for_each animals_lose_weight cells st.

Definition _death_stage (cells : list coord) (st : state) : result state :=
  for_each update_life_status_of_animals cells st.

Definition _cycle (st : state) : result state :=
  let cells := _get_cells st in
  st1 <- _feed_herbivores_stage cells st ;;
  st2 <- _feed_carnivores_stage cells st1 ;;
  st3 <- _procreation_stage cells st2 ;;
  st4 <- _migration_stage cells st3 ;;
  st5 <- _aging_stage cells st4 ;;
  st6 <- _weight_loss_stage cells st5 ;;
  _death_stage cells st6.

Definition _num_animals_per_species (st : state) : list (string * Z) :=
  num_animals_per_species st.

(** [_num_animals()]: [sum] over the values of the dictionary. *)
Definition _num_animals (st : state) : Z :=
  let per_species := _num_animals_per_species st in
  fold_left Z.add (map snd per_species) 0%Z.

Definition _reset_counter (st : state) : state :=
  with_classes (reset_counter Carnivore (reset_counter Herbivore (classes_of st))) st.

(** [_get_animal_vitals()]: the ages, weights and fitnesses of the animals
    of the accessible cells, herbivores first in every pair. *)
Record vitals : Type := mkVitals {
  vital_age : list Z * list Z;
  vital_weight : list R * list R;
  vital_fitness : list R * list R
}.

Definition extend {A : Type} (acc more : list A * list A) : list A * list A :=
  (fst acc ++ fst more, snd acc ++ snd more).

Fixpoint vitals_loop (cells : list coord) (acc : vitals) (st : state) : result vitals :=
  match cells with
  | [] => Ok acc
  | k :: rest =>
      cell <- get_cell k st ;;
      ages <- get_age cell st ;;
      weights <- get_weight cell st ;;
      fitnesses <- get_fitness cell st ;;
      vitals_loop rest
                  (mkVitals (extend (vital_age acc) ages)
                            (extend (vital_weight acc) weights)
                            (extend (vital_fitness acc) fitnesses))
                  st
  end.

Definition _get_animal_vitals (st : state) : result vitals :=
  vitals_loop (_get_cells st) (mkVitals ([], []) ([], []) ([], [])) st.

End Island.

(** ** simulation.py *)

Module Simulation.

Import Animal Landscape Island.

(** The attributes of a [BioSim] object that [simulate] reads.  The
    graphics object, and what it draws and writes, are not part of the
    model. *)
Record BioSim : Type := mkBioSim {
  _vis_years : Z;
  _img_years : option Z;
  years : Z
}.

(** [random.seed(seed)]; [seed] stands for the generator that it makes. *)
Definition set_seed (seed : Random.generator) (st : state) : state :=
  with_gen seed st.

Definition reset_counter (st : state) : state := _reset_counter st.

(** [BioSim(island_map, ini_pop, seed, vis_years, img_years)]: the object
    and the state of the process when the constructor returns.  When it
    raises, no object is made. *)
Definition __init__ (island_map : string) (ini_pop : list (coord * list descriptor))
  (seed : Random.generator) (vis_years : Z) (img_years : option Z) (st : state)
  : result (state * BioSim) :=
  let st1 := reset_counter (set_seed seed st) in
  st2 <- _create_island island_map st1 ;;
  match _add_animal_to_island ini_pop st2 with
  | (st3, None) => Ok (st3, mkBioSim vis_years img_years 0)
  | (_, Some e) => Raise e
  end.

Definition set_animal_parameters (title : string) (parameters : list (string * R))
  (st : state) : state * option exn :=
  _set_animal_parameters title parameters st.

Definition set_landscape_parameters (landscape : Ascii.ascii)
  (parameters : list (string * R)) (st : state) : state * option exn :=
  _set_landscape_parameters landscape parameters st.

Definition add_population (population : list (coord * list descriptor)) (st : state)
  : state * option exn :=
  _add_animal_to_island population st.

Definition year (self : BioSim) : Z := years self.

Definition num_animals (st : state) : Z := _num_animals st.

Definition num_animals_per_species (st : state) : list (string * Z) :=
  _num_animals_per_species st.

(** The loop [while self.years < self._final_year] of [simulate], for the
    [n] years that are left. *)
Fixpoint simulate_loop (n : nat) (self : BioSim) (st : state)
  : result (state * BioSim) :=
  match n with
  | O => Ok (st, self)
  | S n' =>
      st' <- _cycle st ;;
      simulate_loop n' (mkBioSim (_vis_years self) (_img_years self) (years self + 1)) st'
  end.

(** [simulate(num_years, vis_years, img_steps)] *)
Definition simulate (num_years : Z) (vis_years img_steps : option Z) (self : BioSim)
  (st : state) : result (state * BioSim) :=
  let vis_years :=
    match vis_years with
    | None => _vis_years self
    | Some given => given
    end in
  let img_steps :=
    match img_steps with
    | None => match _img_years self with
              | None => vis_years
              | Some given => given
              end
    | Some given => given
    end in
  if negb (vis_years =? 0)%Z && negb (img_steps mod vis_years =? 0)%Z
  then Raise (ValueError "img_steps must be multiple of vis_steps")
  else simulate_loop (Z.to_nat num_years) self st.

End Simulation.

(** * Properties *)

Import Animal Landscape Island.

(** ** Numbers and the generator *)

Lemma ltb_R_true (x y : R) : ltb_R x y = true <-> x < y.
Proof. unfold ltb_R. destruct (lt_decide x y); split; intros; try easy. Qed.

Lemma ltb_R_false (x y : R) : ltb_R x y = false <-> y <= x.
Proof.
  unfold ltb_R. destruct (lt_decide x y); split; intros; try easy; lra.
Qed.

Lemma leb_R_true (x y : R) : leb_R x y = true <-> x <= y.
Proof. unfold leb_R. destruct (le_decide x y); split; intros; try easy. Qed.

Lemma leb_R_false (x y : R) : leb_R x y = false <-> y < x.
Proof.
  unfold leb_R. destruct (le_decide x y); split; intros; try easy; lra.
Qed.

Lemma advance_neq (g : Random.generator) : Random.advance g <> g.
Proof.
  intros E. apply (f_equal Random.position) in E. simpl in E. lia.
Qed.

Lemma constant_valid (u : R) : 0 <= u < 1 -> Random.valid (Random.constant u).
Proof. intros H k. exact H. Qed.

(** ** Fitness *)

Lemma logistic_range (x : R) : 0 < 1 / (1 + exp x) < 1.
Proof.
  pose proof (exp_pos x) as Hx.
  split.
  - apply Rdiv_lt_0_compat; lra.
  - apply (Rmult_lt_reg_r (1 + exp x)); [lra |].
    unfold Rdiv. rewrite Rmult_assoc, Rinv_l by lra. lra.
Qed.

Lemma fitness_of_positive_weight (p : params) (a : animal) :
  0 < weight a -> 0 < fitness p a < 1.
Proof.
  intros Hw. unfold fitness.
  apply ltb_R_true in Hw. rewrite Hw. cbv zeta.
  set (x := item p "phi_age" * (IZR (age a) - item p "a_half")).
  set (y := - item p "phi_weight" * (weight a - item p "w_half")).
  destruct (logistic_range x) as [Hx0 Hx1], (logistic_range y) as [Hy0 Hy1].
  split; [apply Rmult_lt_0_compat; assumption | nra].
Qed.

Lemma fitness_of_nonpositive_weight (p : params) (a : animal) :
  weight a <= 0 -> fitness p a = 0.
Proof.
  intros Hw. unfold fitness.
  apply ltb_R_false in Hw. now rewrite Hw.
Qed.

Lemma fitness_range (p : params) (a : animal) : 0 <= fitness p a < 1.
Proof.
  destruct (Rlt_le_dec 0 (weight a)) as [Hw | Hw].
  - pose proof (fitness_of_positive_weight p a Hw). lra.
  - rewrite (fitness_of_nonpositive_weight p a Hw). lra.
Qed.

(** C3.  The fitness of an animal, whatever its age and its weight, lies
    between 0 and 1, and it is 0 as soon as the weight is not positive. *)
Theorem fitness_bounds (p : params) (a : animal) :
  0 <= fitness p a <= 1 /\ (weight a <= 0 -> fitness p a = 0).
Proof.
  split.
  - pose proof (fitness_range p a). lra.
  - apply fitness_of_nonpositive_weight.
Qed.

Lemma fitness_bounds_witness :
  let a := mkAnimal Herbivore (-1) 7 in
  weight a <= 0 /\ 0 <= fitness herbivore_params a <= 1 /\
  fitness herbivore_params a = 0.
Proof.
  cbv zeta.
  pose proof (fitness_bounds herbivore_params (mkAnimal Herbivore (-1) 7)) as [Hr Hz].
  assert (Hw : weight (mkAnimal Herbivore (-1) 7) <= 0) by (simpl; lra).
  split; [exact Hw | split; [exact Hr | exact (Hz Hw)]].
Defined.

(** ** Procreation probability *)

Lemma prob_true_or_false_spec (prob : R) (g : Random.generator) :
  prob_true_or_false prob g =
  (ltb_R (Random.unit_draws g (Random.position g)) prob, Random.advance g).
Proof. reflexivity. Qed.

Lemma prob_true_or_false_nonpositive (prob : R) (g : Random.generator) :
  Random.valid g -> prob <= 0 ->
  prob_true_or_false prob g = (false, Random.advance g).
Proof.
  intros Hg Hp. rewrite prob_true_or_false_spec. f_equal.
  apply ltb_R_false. specialize (Hg (Random.position g)). lra.
Qed.

Lemma procreation_probability_nonpositive (p : params) (a : animal) (N : Z) :
  (N <= 1)%Z -> 0 <= item p "gamma" ->
  procreation_probability p a N <= 0.
Proof.
  intros HN Hgamma. unfold procreation_probability. cbv zeta.
  pose proof (fitness_range p a) as Hf.
  assert (HN' : IZR N - 1 <= 0) by (apply IZR_le in HN; lra).
  assert (H : item p "gamma" * fitness p a * (IZR N - 1) <= 0).
  { assert (0 <= item p "gamma" * fitness p a) by (apply Rmult_le_pos; lra). nra. }
  destruct (ltb_R 1 _) eqn:E; [apply ltb_R_true in E; lra | exact H].
Qed.

(** C4, as the code has it.  With [N <= 1] the probability handed to
    [prob_true_or_false] is not positive (it is 0 for [N = 1]) and the answer
    is [False] whatever the generator holds; the call still draws once, so
    the generator is one position further. *)
Theorem procreation_alone_is_false_after_one_draw
  (p : params) (a : animal) (N : Z) (g : Random.generator) :
  (N <= 1)%Z -> 0 <= item p "gamma" -> Random.valid g ->
  procreation_probability p a N <= 0 /\
  (N = 1%Z -> procreation_probability p a N = 0) /\
  calculate_procreation_probability p a N g = (false, Random.advance g).
Proof.
  intros HN Hgamma Hg.
  pose proof (procreation_probability_nonpositive p a N HN Hgamma) as Hp.
  split; [exact Hp | split].
  - intros ->. unfold procreation_probability. cbv zeta.
    replace (IZR 1 - 1) with 0 by lra. rewrite Rmult_0_r.
    destruct (ltb_R 1 0) eqn:E; [apply ltb_R_true in E; lra | reflexivity].
  - unfold calculate_procreation_probability.
    now apply prob_true_or_false_nonpositive.
Qed.

Lemma herbivore_gamma : item herbivore_params "gamma" = 0.2.
Proof. reflexivity. Qed.

Lemma procreation_alone_witness :
  let a := mkAnimal Herbivore 20 5 in
  calculate_procreation_probability herbivore_params a 1 (Random.constant 0)
  = (false, Random.advance (Random.constant 0)).
Proof.
  cbv zeta.
  apply (procreation_alone_is_false_after_one_draw
           herbivore_params (mkAnimal Herbivore 20 5) 1 (Random.constant 0)).
  - lia.
  - rewrite herbivore_gamma. lra.
  - apply constant_valid. lra.
Defined.

(** C4, as the specification words it, fails: the call with [N = 1] leaves
    the generator in another state than it found it. *)
Lemma procreation_alone_draws :
  ~ (forall (p : params) (a : animal) (N : Z) (g : Random.generator),
        (N <= 1)%Z ->
        calculate_procreation_probability p a N g = (false, g)).
Proof.
  intros H.
  specialize (H herbivore_params (mkAnimal Herbivore 20 5) 1%Z (Random.constant 0)).
  assert (H1 : (1 <= 1)%Z) by lia. specialize (H H1).
  unfold calculate_procreation_probability in H.
  rewrite prob_true_or_false_spec in H.
  apply (f_equal snd) in H. simpl snd in H.
  exact (advance_neq _ H).
Qed.

(** ** Predation *)

(** C6.  With [delta] the fitness of the attacker minus the fitness of the
    prey, read in the order of the three cases: [delta <= 0] answers [False]
    without a draw; [0 < delta < DeltaPhiMax] answers by one draw [u], and it
    is a kill exactly when [u < delta / DeltaPhiMax]; a positive
    [delta >= DeltaPhiMax] answers [True] without a draw. *)
Theorem killing_probability_cases
  (pc pp : params) (self prey : animal) (g : Random.generator) :
  let delta := fitness pc self - fitness pp prey in
  let u := Random.unit_draws g (Random.position g) in
  (delta <= 0 -> killing_probability pc pp self prey g = (false, g)) /\
  (0 < delta < item pc "DeltaPhiMax" ->
   killing_probability pc pp self prey g
   = (ltb_R u (delta / item pc "DeltaPhiMax"), Random.advance g)) /\
  (0 < delta -> item pc "DeltaPhiMax" <= delta ->
   killing_probability pc pp self prey g = (true, g)).
Proof.
  cbv zeta. unfold killing_probability. cbv zeta.
  set (delta := fitness pc self - fitness pp prey).
  repeat split.
  - intros H. apply leb_R_true in H. now rewrite H.
  - intros [H0 H1]. apply leb_R_false in H0. apply ltb_R_true in H1.
    now rewrite H0, H1.
  - intros H0 H1. apply leb_R_false in H0. apply ltb_R_false in H1.
    now rewrite H0, H1.
Qed.

(** A carnivore in its prime and a herbivore without weight, with the
    threshold set to 0: the kill is certain. *)
Lemma killing_probability_cases_witness :
  let pc := assign "DeltaPhiMax" 0 carnivore_params in
  let hunter := mkAnimal Carnivore 60 5 in
  let prey := mkAnimal Herbivore 0 5 in
  killing_probability pc herbivore_params hunter prey (Random.constant 0)
  = (true, Random.constant 0).
Proof.
  cbv zeta.
  set (pc := assign "DeltaPhiMax" 0 carnivore_params).
  set (hunter := mkAnimal Carnivore 60 5).
  set (prey := mkAnimal Herbivore 0 5).
  assert (Hh : 0 < fitness pc hunter)
    by (apply fitness_of_positive_weight; simpl; lra).
  assert (Hp : fitness herbivore_params prey = 0)
    by (apply fitness_of_nonpositive_weight; simpl; lra).
  apply (killing_probability_cases pc herbivore_params hunter prey (Random.constant 0)).
  - lra.
  - replace (item pc "DeltaPhiMax") with 0 by reflexivity. lra.
Defined.

(** ** Birth *)

(** C8.  [birth()] draws a birth weight [w].  If [w] is not positive there is
    no offspring and the mother is as before.  If [w] is positive and the
    mother weighs at least [xi * w], she loses exactly that much and the
    offspring is a new animal of her class with age 0 and weight [w].
    Otherwise there is no offspring and the mother is as before. *)
Theorem birth_cases (a : animal) (cl : classes) (g : Random.generator) :
  let p := params_of cl (kind a) in
  let w := fst (Random.gauss (item p "w_birth") (item p "sigma_birth") g) in
  let g' := Random.advance g in
  (w <= 0 -> birth a cl g = Ok (a, None, cl, g')) /\
  (0 < w -> item p "xi" * w <= weight a ->
   birth a cl g =
   Ok (mkAnimal (kind a) (weight a - item p "xi" * w) (age a),
       Some (mkAnimal (kind a) w 0), count_new (kind a) cl, g')) /\
  (0 < w -> weight a < item p "xi" * w -> birth a cl g = Ok (a, None, cl, g')).
Proof.
  cbv zeta. unfold birth. cbv zeta. unfold Random.gauss. simpl fst.
  set (p := params_of cl (kind a)).
  set (w := item p "w_birth" + _ * item p "sigma_birth").
  repeat split.
  - intros H. apply ltb_R_false in H. now rewrite H.
  - intros H0 H1. pose proof H0 as H0'.
    apply ltb_R_true in H0. apply leb_R_true in H1. rewrite H0, H1.
    unfold init, initiate_weight, initiate_age.
    apply leb_R_false in H0'. rewrite H0'. reflexivity.
  - intros H0 H1. apply ltb_R_true in H0. apply leb_R_false in H1.
    now rewrite H0, H1.
Qed.

Definition classes0 : classes :=
  mkClasses herbivore_params carnivore_params 0 0.

(** A generator whose first normal deviate is [-6]: the birth weight drawn
    for a herbivore is [8 - 6 * 1.5 = -1]. *)
Lemma birth_cases_witness :
  let g := Random.mkGenerator 0 (fun _ => 0) (fun _ => -6) (fun _ => 0%nat) in
  let a := mkAnimal Herbivore 30 5 in
  birth a classes0 g = Ok (a, None, classes0, Random.advance g).
Proof.
  cbv zeta.
  refine (proj1 (birth_cases (mkAnimal Herbivore 30 5) classes0 _) _).
  unfold Random.gauss, classes0, item. simpl. lra.
Defined.

(** ** Parameter configuration *)

Lemma lookup_assign (name name' : string) (value : R) (p : params) :
  has_key name' (assign name value p) = has_key name' p.
Proof.
  unfold has_key. induction p as [| [k v] rest IH]; [reflexivity |].
  simpl. destruct (String.eqb k name) eqn:E; simpl.
  - destruct (String.eqb k name'); reflexivity.
  - destruct (String.eqb k name'); [reflexivity | exact IH].
Qed.

(** The entries that [set_params] accepts, and the table after they have
    been assigned in order. *)
Definition acceptable (p : params) (entry : string * R) : Prop :=
  0 <= snd entry /\ has_key (fst entry) p = true.

Definition offending (p : params) (entry : string * R) : Prop :=
  snd entry < 0 \/ has_key (fst entry) p = false.

Definition assign_all (entries : list (string * R)) (p : params) : params :=
  fold_left (fun q entry => assign (fst entry) (snd entry) q) entries p.

Lemma set_params_loop_prefix
  (unknown : string) (good : list (string * R)) (bad : string * R)
  (rest : list (string * R)) (p : params) :
  Forall (acceptable p) good -> offending p bad ->
  exists e,
    set_params_loop unknown (good ++ bad :: rest) p = (assign_all good p, Some e).
Proof.
  revert p. induction good as [| [name value] good IH]; intros p Hgood Hbad.
  - destruct bad as [name value]. simpl.
    destruct (ltb_R value 0) eqn:E; [eexists; reflexivity |].
    destruct Hbad as [Hneg | Hkey].
    + simpl in Hneg. apply ltb_R_false in E. lra.
    + simpl in Hkey. rewrite Hkey. simpl. eexists; reflexivity.
  - inversion Hgood as [| ? ? [Hv Hk] Hgood']; subst. simpl in Hv, Hk.
    simpl. replace (ltb_R value 0) with false
      by (symmetry; apply ltb_R_false; lra).
    rewrite Hk. simpl. apply IH.
    + eapply Forall_impl; [| exact Hgood'].
      intros entry [H1 H2]. split; [exact H1 | now rewrite lookup_assign].
    + destruct Hbad as [H | H]; [left; exact H | right; now rewrite lookup_assign].
Qed.

(** C5, as the code has it.  A call of [set_params], on a species or on a
    terrain category, whose mapping holds an unknown name or a negative
    value is rejected at the first such entry: the entries before it have
    been applied to the table of the class, that entry and those behind it
    have not. *)
Theorem set_params_rejects_at_first_offender
  (good : list (string * R)) (bad : string * R) (rest : list (string * R)) :
  (forall (s : species) (cl : classes),
      Forall (acceptable (params_of cl s)) good -> offending (params_of cl s) bad ->
      exists e,
        snd (Animal.set_params s (good ++ bad :: rest) cl) = Some e /\
        params_of (fst (Animal.set_params s (good ++ bad :: rest) cl)) s
        = assign_all good (params_of cl s)) /\
  (forall (t : terrain) (tt : terrain_tables),
      Forall (acceptable (table_of tt t)) good -> offending (table_of tt t) bad ->
      exists e,
        snd (Landscape.set_params t (good ++ bad :: rest) tt) = Some e /\
        table_of (fst (Landscape.set_params t (good ++ bad :: rest) tt)) t
        = assign_all good (table_of tt t)).
Proof.
  split.
  - intros s cl Hgood Hbad.
    destruct (set_params_loop_prefix " is not a recognized parameter"
                good bad rest _ Hgood Hbad) as [e He].
    exists e. unfold Animal.set_params. rewrite He. destruct s; split; reflexivity.
  - intros t tt Hgood Hbad.
    destruct (set_params_loop_prefix " is not a valid parameter"
                good bad rest _ Hgood Hbad) as [e He].
    exists e. unfold Landscape.set_params. rewrite He. destruct t; split; reflexivity.
Qed.

Lemma set_params_rejects_witness :
  exists e,
    snd (Animal.set_params Herbivore [("eta", 0.1); ("bogus", 1)]%string classes0)
    = Some e /\
    params_of (fst (Animal.set_params Herbivore [("eta", 0.1); ("bogus", 1)]%string
                                      classes0)) Herbivore
    = assign_all [("eta", 0.1)]%string herbivore_params.
Proof.
  apply (proj1 (set_params_rejects_at_first_offender
                  [("eta", 0.1)]%string ("bogus", 1)%string []) Herbivore classes0).
  - constructor; [| constructor]. split; [simpl; lra | reflexivity].
  - right. reflexivity.
Defined.

(** C5, as the specification words it, fails: the rejected call below has
    already changed [eta]. *)
Lemma set_params_partial_application :
  let given := [("eta", 0.1); ("bogus", 1)]%string in
  let after := fst (Animal.set_params Herbivore given classes0) in
  snd (Animal.set_params Herbivore given classes0) <> None /\
  item (herb_params classes0) "eta" = 0.05 /\
  item (herb_params after) "eta" = 0.1 /\
  item (herb_params after) "eta" <> item (herb_params classes0) "eta".
Proof.
  cbv zeta.
  assert (E : Animal.set_params Herbivore [("eta", 0.1); ("bogus", 1)]%string classes0
              = (mkClasses (assign "eta" 0.1 herbivore_params) carnivore_params 0 0,
                 Some (ValueError "bogus is not a recognized parameter"))).
  { unfold Animal.set_params, classes0, params_of, herb_params.
    unfold set_params_loop.
    replace (ltb_R 0.1 0) with false by (symmetry; apply ltb_R_false; lra).
    replace (has_key "eta" herbivore_params) with true by reflexivity.
    replace (ltb_R 1 0) with false by (symmetry; apply ltb_R_false; lra).
    replace (has_key "bogus" (assign "eta" 0.1 herbivore_params)) with false
      by reflexivity.
    reflexivity. }
  rewrite E. cbn [fst snd].
  assert (H1 : item (herb_params classes0) "eta" = 0.05) by reflexivity.
  assert (H2 : item (herb_params (mkClasses (assign "eta" 0.1 herbivore_params)
                                            carnivore_params 0 0)) "eta" = 0.1)
    by reflexivity.
  split; [discriminate | split; [exact H1 | split; [exact H2 |]]].
  rewrite H1, H2. intros H. lra.
Qed.

(** ** The dictionary [island] *)

Lemma coord_eqb_eq (a b : coord) : coord_eqb a b = true <-> a = b.
Proof.
  destruct a as [ax ay], b as [bx b_y]. unfold coord_eqb. simpl.
  rewrite andb_true_iff, !Z.eqb_eq. split.
  - intros [-> ->]. reflexivity.
  - intros E. inversion E. split; reflexivity.
Qed.

Lemma coord_eqb_refl (a : coord) : coord_eqb a a = true.
Proof. now apply coord_eqb_eq. Qed.

Lemma coord_eqb_neq (a b : coord) : coord_eqb a b = false <-> a <> b.
Proof.
  split.
  - intros E H. apply coord_eqb_eq in H. congruence.
  - intros H. destruct (coord_eqb a b) eqn:E; [| reflexivity].
    apply coord_eqb_eq in E. contradiction.
Qed.

Lemma coord_eq_dec (a b : coord) : {a = b} + {a <> b}.
Proof.
  destruct (coord_eqb a b) eqn:E.
  - left. now apply coord_eqb_eq.
  - right. now apply coord_eqb_neq.
Qed.

Lemma find_replace_same (k : coord) (c c0 : cell) (isl : list (coord * cell)) :
  find_cell k isl = Some c0 -> find_cell k (replace_cell k c isl) = Some c.
Proof.
  induction isl as [| [k' c'] rest IH]; simpl; [discriminate |].
  destruct (coord_eqb k' k) eqn:E; simpl; rewrite E; [reflexivity | exact IH].
Qed.

Lemma find_replace_other (k k' : coord) (c : cell) (isl : list (coord * cell)) :
  k' <> k -> find_cell k' (replace_cell k c isl) = find_cell k' isl.
Proof.
  intros Hne. induction isl as [| [k0 c0] rest IH]; simpl; [reflexivity |].
  destruct (coord_eqb k0 k) eqn:E; simpl.
  - apply coord_eqb_eq in E. subst k0.
    replace (coord_eqb k k') with false; [reflexivity |].
    symmetry. apply coord_eqb_neq. congruence.
  - destruct (coord_eqb k0 k'); [reflexivity | exact IH].
Qed.

Lemma keys_replace (k : coord) (c : cell) (isl : list (coord * cell)) :
  map fst (replace_cell k c isl) = map fst isl.
Proof.
  induction isl as [| [k0 c0] rest IH]; simpl; [reflexivity |].
  destruct (coord_eqb k0 k); simpl; [reflexivity | now rewrite IH].
Qed.

Lemma find_cell_in_keys (k : coord) (isl : list (coord * cell)) :
  In k (map fst isl) <-> exists c, find_cell k isl = Some c.
Proof.
  induction isl as [| [k0 c0] rest IH]; simpl.
  - split; [contradiction | intros [c H]; discriminate].
  - destruct (coord_eqb k0 k) eqn:E.
    + apply coord_eqb_eq in E. split; [intros _; eauto | intros _; left; exact E].
    + apply coord_eqb_neq in E. rewrite <- IH. tauto.
Qed.

Lemma entry_eqb_eq (x y : entry) : entry_eqb x y = true <-> x = y.
Proof.
  destruct x, y; simpl; try (split; [discriminate | congruence]).
  - tauto.
  - rewrite Nat.eqb_eq. split; congruence.
Qed.

Lemma entry_eqb_refl (x : entry) : entry_eqb x x = true.
Proof. now apply entry_eqb_eq. Qed.

Lemma mem_In (x : entry) (l : list entry) : mem x l = true <-> In x l.
Proof.
  unfold mem. rewrite existsb_exists. split.
  - intros [y [Hy E]]. apply entry_eqb_eq in E. now subst.
  - intros H. exists x. split; [exact H | apply entry_eqb_refl].
Qed.

Lemma remove_first_length (x : entry) (l l' : list entry) :
  remove_first x l = Some l' -> List.length l = S (List.length l').
Proof.
  revert l'. induction l as [| y rest IH]; simpl; intros l' H; [discriminate |].
  destruct (entry_eqb y x).
  - inversion H. reflexivity.
  - destruct (remove_first x rest) as [rest' |]; [| discriminate].
    inversion H. simpl. now rewrite (IH rest').
Qed.

(** ** The death stage *)

Lemma update_life_status_at_zero (a : animal) (cl : classes) (g : Random.generator) :
  0 < item (params_of cl (kind a)) "omega" ->
  Random.unit_draws g (Random.position g) = 0 ->
  update_life_status a cl g = (true, remove_one_count (kind a) cl, Random.advance g).
Proof.
  intros Homega Hu. unfold update_life_status.
  rewrite prob_true_or_false_spec, Hu.
  replace (ltb_R 0 _) with true; [reflexivity |].
  symmetry. apply ltb_R_true. unfold death_probability.
  pose proof (fitness_range (params_of cl (kind a)) a).
  apply Rmult_lt_0_compat; lra.
Qed.

Lemma list_remove_length (s s' : species) (k : coord) (r : nat) (st st' : state)
  (c : cell) :
  list_remove s' k r st = Ok st' -> find_cell k (island st) = Some c ->
  exists c', find_cell k (island st') = Some c' /\
             (List.length (animals_of s c') <= List.length (animals_of s c))%nat.
Proof.
  unfold list_remove, get_cell. intros H Hc. rewrite Hc in H. simpl in H.
  destruct (remove_first (Ref r) (animals_of s' c)) as [l |] eqn:E; [| discriminate].
  inversion H; subst st'. simpl.
  exists (with_animals s' l c). split; [now apply find_replace_same with c |].
  apply remove_first_length in E.
  destruct s, s'; simpl in *; lia.
Qed.

Lemma check_life_length (s : species) (k : coord) (x : entry) (st st' : state)
  (c : cell) :
  check_life k x st = Ok st' -> find_cell k (island st) = Some c ->
  exists c', find_cell k (island st') = Some c' /\
             (List.length (animals_of s c') <= List.length (animals_of s c))%nat.
Proof.
  unfold check_life. destruct x as [| r]; [discriminate |].
  destruct (update_life_status _ _ _) as [[dead cl] g].
  destruct dead; intros H Hc.
  - eapply list_remove_length; [exact H | exact Hc].
  - inversion H; subst st'. simpl. exists c. split; [exact Hc | lia].
Qed.

(** The fuel that [update_life_status_of_animals] gives to the iterator is
    enough: more of it does not change the outcome. *)
Lemma iterate_live_enough_fuel (fuel extra : nat) (s : species) (i : nat)
  (k : coord) (st : state) (c : cell) :
  find_cell k (island st) = Some c ->
  (List.length (animals_of s c) - i <= fuel)%nat ->
  iterate_live (fuel + extra) s i k st = iterate_live fuel s i k st.
Proof.
  revert i st c. induction fuel as [| fuel IH]; intros i st c Hc Hlen.
  - destruct extra as [| extra]; [reflexivity |].
    simpl. unfold get_cell. rewrite Hc. simpl.
    replace (nth_error (animals_of s c) i) with (@None entry); [reflexivity |].
    symmetry. apply nth_error_None. lia.
  - simpl. unfold get_cell. rewrite Hc. simpl.
    destruct (nth_error (animals_of s c) i) as [x |] eqn:Ex; [| reflexivity].
    destruct (check_life k x st) as [st' | e] eqn:Est'; [| reflexivity].
    simpl. destruct (check_life_length s k x st st' c Est' Hc) as [c' [Hc' Hle]].
    apply (IH (S i) st' c' Hc'). lia.
Qed.

(** A lowland cell with two herbivores of weight 20 and age 5, and a
    generator whose every [random.random()] is 0: whoever is checked dies. *)
Definition pasture : state :=
  mkState (mkClasses herbivore_params carnivore_params 2 0) default_tables
          (fun _ => mkAnimal Herbivore 20 5) 2 (Random.constant 0)
          [ ((2, 2)%Z, mkCell Lowland [Ref 0; Ref 1] [] [] 800 true) ] [].

(** C2 fails on the code.  In [pasture] the first herbivore is checked and
    dies; its removal moves the second one to the position that the iterator
    has just left, so the second one is never checked: it survives a stage
    in which every check is fatal. *)
Theorem death_stage_skips_the_successor_of_the_dead :
  exists st',
    _death_stage [(2, 2)%Z] pasture = Ok st' /\
    trace st' = [LifeChecked 0 true] /\
    find_cell (2, 2)%Z (island st')
    = Some (mkCell Lowland [Ref 1] [] [] 800 true) /\
    herb_count (classes_of st') = 1%Z.
Proof.
  assert (Hdies : forall cl g,
             herb_params cl = herbivore_params ->
             Random.unit_draws g (Random.position g) = 0 ->
             update_life_status (mkAnimal Herbivore 20 5) cl g
             = (true, remove_one_count Herbivore cl, Random.advance g)).
  { intros cl g Hp Hu. apply update_life_status_at_zero; [| exact Hu].
    simpl. rewrite Hp. replace (item herbivore_params "omega") with 0.4 by reflexivity.
    lra. }
  unfold _death_stage, for_each, update_life_status_of_animals, pasture.
  cbn -[update_life_status].
  rewrite Hdies by reflexivity.
  cbn -[update_life_status].
  eexists. split; [reflexivity |]. cbn. repeat split.
Qed.

(** For contrast: with every [random.random()] at one half nobody dies in
    [pasture], and both herbivores are checked, once each. *)
Lemma update_life_status_survives (a : animal) (cl : classes) (g : Random.generator) :
  0 <= item (params_of cl (kind a)) "omega" <= Random.unit_draws g (Random.position g) ->
  update_life_status a cl g = (false, cl, Random.advance g).
Proof.
  intros Hu. unfold update_life_status. rewrite prob_true_or_false_spec.
  replace (ltb_R _ _) with false; [reflexivity |].
  symmetry. apply ltb_R_false. unfold death_probability.
  pose proof (fitness_range (params_of cl (kind a)) a). nra.
Qed.

Example death_stage_without_deaths_checks_everyone :
  exists st',
    _death_stage [(2, 2)%Z] (with_gen (Random.constant (1 / 2)) pasture) = Ok st' /\
    trace st' = [LifeChecked 0 false; LifeChecked 1 false] /\
    find_cell (2, 2)%Z (island st')
    = Some (mkCell Lowland [Ref 0; Ref 1] [] [] 800 true).
Proof.
  assert (Hlives : forall cl g,
             herb_params cl = herbivore_params ->
             Random.unit_draws g (Random.position g) = 1 / 2 ->
             update_life_status (mkAnimal Herbivore 20 5) cl g
             = (false, cl, Random.advance g)).
  { intros cl g Hp Hu. apply update_life_status_survives.
    simpl. rewrite Hp, Hu.
    replace (item herbivore_params "omega") with 0.4 by reflexivity. lra. }
  unfold _death_stage, for_each, update_life_status_of_animals, pasture.
  cbn -[update_life_status].
  rewrite Hlives by reflexivity.
  cbn -[update_life_status].
  rewrite Hlives by reflexivity.
  cbn -[update_life_status].
  eexists. split; [reflexivity |]. split; reflexivity.
Qed.

(** ** Sorting by fitness *)

Definition eqb_R (x y : R) : bool := if Req_dec_T x y then true else false.

Lemma eqb_R_true (x y : R) : eqb_R x y = true <-> x = y.
Proof. unfold eqb_R. destruct (Req_dec_T x y); split; intros; try easy. Qed.

Section Sorting.

Variable key : nat -> R.

(** The order of the result: [descending] puts the larger key first. *)
Definition in_order (descending : bool) (x y : nat) : Prop :=
  if descending then key y <= key x else key x <= key y.

Lemma insert_by_fitness_perm (d : bool) (x : nat) (l : list nat) :
  Permutation (insert_by_fitness d key x l) (x :: l).
Proof.
  induction l as [| y rest IH]; simpl; [reflexivity |].
  destruct (if d then ltb_R (key x) (key y) else ltb_R (key y) (key x)).
  - rewrite IH. apply perm_swap.
  - reflexivity.
Qed.

Lemma sorted_by_fitness_perm (d : bool) (l : list nat) :
  Permutation (sorted_by_fitness d key l) l.
Proof.
  induction l as [| x rest IH]; simpl; [reflexivity |].
  rewrite insert_by_fitness_perm. now constructor.
Qed.

Lemma insert_by_fitness_sorted (d : bool) (x : nat) (l : list nat) :
  StronglySorted (in_order d) l ->
  StronglySorted (in_order d) (insert_by_fitness d key x l).
Proof.
  induction l as [| y rest IH]; simpl; intros Hs.
  - constructor; constructor.
  - inversion Hs as [| ? ? Hrest Hy]; subst.
    destruct (if d then ltb_R (key x) (key y) else ltb_R (key y) (key x)) eqn:E.
    + constructor; [now apply IH |].
      assert (Hyx : in_order d y x).
      { unfold in_order. destruct d; apply ltb_R_true in E; lra. }
      eapply Permutation_Forall.
      * symmetry. apply insert_by_fitness_perm.
      * constructor; assumption.
    + constructor; [exact Hs |].
      assert (Hxy : in_order d x y).
      { unfold in_order. destruct d; apply ltb_R_false in E; lra. }
      constructor; [exact Hxy |].
      eapply Forall_impl; [| exact Hy].
      intros z Hz. unfold in_order in *. destruct d; lra.
Qed.

Lemma sorted_by_fitness_sorted (d : bool) (l : list nat) :
  StronglySorted (in_order d) (sorted_by_fitness d key l).
Proof.
  induction l as [| x rest IH]; simpl; [constructor |].
  now apply insert_by_fitness_sorted.
Qed.

(** Stability: the elements of a given key keep the order they had. *)
Lemma insert_by_fitness_stable (d : bool) (v : R) (x : nat) (l : list nat) :
  filter (fun z => eqb_R (key z) v) (insert_by_fitness d key x l)
  = filter (fun z => eqb_R (key z) v) (x :: l).
Proof.
  induction l as [| y rest IH]; [reflexivity |].
  simpl insert_by_fitness.
  destruct (if d then ltb_R (key x) (key y) else ltb_R (key y) (key x)) eqn:E;
    [| reflexivity].
  assert (Hne : key x <> key y).
  { destruct d; apply ltb_R_true in E; lra. }
  change (filter (fun z => eqb_R (key z) v) (y :: insert_by_fitness d key x rest))
    with (if eqb_R (key y) v
          then y :: filter (fun z => eqb_R (key z) v) (insert_by_fitness d key x rest)
          else filter (fun z => eqb_R (key z) v) (insert_by_fitness d key x rest)).
  rewrite IH. simpl.
  destruct (eqb_R (key y) v) eqn:Ey, (eqb_R (key x) v) eqn:Ex; try reflexivity.
  apply eqb_R_true in Ey, Ex. congruence.
Qed.

Lemma sorted_by_fitness_stable (d : bool) (v : R) (l : list nat) :
  filter (fun z => eqb_R (key z) v) (sorted_by_fitness d key l)
  = filter (fun z => eqb_R (key z) v) l.
Proof.
  induction l as [| x rest IH]; [reflexivity |].
  simpl sorted_by_fitness. rewrite insert_by_fitness_stable. simpl.
  now rewrite IH.
Qed.

End Sorting.

(** ** Feeding *)

(** The appetite of an animal: [herb.params['F']]. *)
Definition appetite (st : state) (r : nat) : R :=
  item (params_of (classes_of st) (kind (objects st r))) "F".

(** The calls [herb.eat(F)] of one feeding, in order, from a supply of
    [fodder]: every call is made while fodder is left and passes the smaller
    of the appetite and what is left. *)
Fixpoint served (F : nat -> R) (fodder : R) (meals : list (nat * R)) : Prop :=
  match meals with
  | [] => True
  | (r, f) :: rest =>
      0 < fodder /\ f = Rmin (F r) fodder /\ served F (fodder - f) rest
  end.

Definition eaten (meals : list (nat * R)) : R :=
  fold_right (fun m total => snd m + total) 0 meals.

Definition ate (m : nat * R) : event := Ate (fst m) (snd m).

Lemma served_ext (F G : nat -> R) (fodder : R) (meals : list (nat * R)) :
  (forall r, F r = G r) -> served F fodder meals -> served G fodder meals.
Proof.
  intros HFG. revert fodder. induction meals as [| [r f] rest IH]; simpl; [tauto |].
  intros fodder [H0 [H1 H2]]. rewrite <- HFG. auto.
Qed.

Lemma served_leaves (F : nat -> R) (fodder : R) (meals : list (nat * R)) :
  0 <= fodder -> served F fodder meals -> 0 <= fodder - eaten meals.
Proof.
  revert fodder. induction meals as [| [r f] rest IH]; simpl; intros fodder H0 Hs.
  - lra.
  - destruct Hs as [Hpos [Hf Hrest]].
    assert (Hle : f <= fodder) by (rewrite Hf; apply Rmin_r).
    specialize (IH (fodder - f)). simpl in IH.
    assert (0 <= fodder - f - eaten rest) by (apply IH; [lra | exact Hrest]).
    lra.
Qed.

Lemma feed_loop_spec (herbs : list nat) (k : coord) (st : state) (c : cell) :
  find_cell k (island st) = Some c ->
  exists (meals : list (nat * R)) (hungry : list nat) (st' : state),
    feed_loop herbs k st = Ok st' /\
    herbs = map fst meals ++ hungry /\
    served (appetite st) (available_fodder c) meals /\
    (hungry = [] \/ available_fodder c - eaten meals <= 0) /\
    find_cell k (island st')
    = Some (with_fodder (available_fodder c - eaten meals) c) /\
    trace st' = trace st ++ map ate meals /\
    classes_of st' = classes_of st /\
    (forall r, kind (objects st' r) = kind (objects st r)).
Proof.
  revert st c. induction herbs as [| herb rest IH]; intros st c Hc.
  - exists [], [], st. simpl. repeat split; auto.
    + rewrite Hc. destruct c; simpl. now rewrite Rminus_0_r.
    + now rewrite app_nil_r.
  - simpl. unfold get_cell. rewrite Hc. simpl.
    destruct (ltb_R 0 (available_fodder c)) eqn:Epos.
    + set (p := params_of (classes_of st) (kind (objects st herb))).
      set (F := if leb_R 0 (available_fodder c - item p "F") then item p "F"
                else available_fodder c).
      set (st1 := put_cell k (with_fodder (available_fodder c - F) c) st).
      set (st2 := update_object herb (eat p F (objects st1 herb)) st1).
      assert (Hc2 : find_cell k (island (record (Ate herb F) st2))
                    = Some (with_fodder (available_fodder c - F) c)).
      { simpl. now apply find_replace_same with c. }
      destruct (IH _ _ Hc2) as [meals [hungry [st' [Hrun [Hsplit [Hserved
                                 [Hstop [Hfind [Htrace [Hcl Hkind]]]]]]]]]].
      assert (Hkind2 : forall r, kind (objects (record (Ate herb F) st2) r)
                                 = kind (objects st r)).
      { intros r. simpl. destruct (Nat.eqb r herb) eqn:E; [| reflexivity].
        apply Nat.eqb_eq in E. subst r. reflexivity. }
      assert (HF : F = Rmin (appetite st herb) (available_fodder c)).
      { unfold F, appetite. fold p. unfold Rmin.
        destruct (leb_R 0 (available_fodder c - item p "F")) eqn:E;
          destruct (Rle_dec (item p "F") (available_fodder c)) as [Hle | Hgt];
          try reflexivity.
        - apply leb_R_true in E. lra.
        - apply leb_R_false in E. lra. }
      exists ((herb, F) :: meals), hungry, st'. simpl in *.
      repeat split.
      * exact Hrun.
      * now rewrite Hsplit.
      * now apply ltb_R_true.
      * exact HF.
      * eapply served_ext; [| exact Hserved].
        intros r. unfold appetite. simpl.
        destruct (Nat.eqb r herb) eqn:E; [| reflexivity].
        apply Nat.eqb_eq in E. subst r. reflexivity.
      * destruct Hstop as [Hstop | Hstop]; [left; exact Hstop | right; lra].
      * rewrite Hfind. unfold with_fodder. simpl. f_equal. f_equal. lra.
      * rewrite Htrace. now rewrite <- app_assoc.
      * exact Hcl.
      * intros r. rewrite Hkind. exact (Hkind2 r).
    + exists [], (herb :: rest), st. simpl. repeat split; auto.
      * right. apply ltb_R_false in Epos. lra.
      * rewrite Hc. destruct c; simpl. now rewrite Rminus_0_r.
      * now rewrite app_nil_r.
Qed.

Lemma instances_of_refs (rs : list nat) : instances (map Ref rs) = Ok rs.
Proof.
  induction rs as [| r rest IH]; simpl; [reflexivity | now rewrite IH].
Qed.

(** C7.  The turn of one cell in the feeding stage, on a cell whose
    [herb_list] holds the distinct herbivores [rs] and whose terrain has a
    maximum [f_max] that is not negative.  The herbivores are ranked by
    fitness, larger first, those of equal fitness in the order of
    [herb_list].  They eat in that order: [meals] lists who ate and how much,
    [hungry] who got no turn.  Every meal is the smaller of the appetite and
    the fodder left at that moment, nobody eats twice, the turns end when all
    have eaten or no fodder is left, and what has been eaten in total is at
    most [f_max]. *)
Theorem feeding_respects_rank_and_supply
  (k : coord) (st : state) (c : cell) (rs : list nat) :
  find_cell k (island st) = Some c ->
  herb_list c = map Ref rs -> NoDup rs ->
  0 <= item (table_of (tables st) (terrain_of c)) "f_max" ->
  let f_max := item (table_of (tables st) (terrain_of c)) "f_max" in
  let ranked := sorted_by_fitness true (fitness_of st) rs in
  exists (st' : state) (meals : list (nat * R)) (hungry : list nat),
    _feed_herbivores_stage [k] st = Ok st' /\
    trace st' = trace st ++ map ate meals /\
    Permutation ranked rs /\
    StronglySorted (fun x y => fitness_of st y <= fitness_of st x) ranked /\
    (forall v, filter (fun r => eqb_R (fitness_of st r) v) ranked
               = filter (fun r => eqb_R (fitness_of st r) v) rs) /\
    ranked = map fst meals ++ hungry /\
    served (appetite st) f_max meals /\
    NoDup (map fst meals) /\
    (hungry = [] \/ f_max - eaten meals <= 0) /\
    eaten meals <= f_max /\
    find_cell k (island st') = Some (with_fodder (f_max - eaten meals) c).
Proof.
  intros Hc Hrs Hnodup Hmax. cbv zeta.
  set (f_max := item (table_of (tables st) (terrain_of c)) "f_max") in *.
  set (ranked := sorted_by_fitness true (fitness_of st) rs).
  set (c1 := with_fodder f_max c).
  set (st1 := put_cell k c1 st).
  assert (Hc1 : find_cell k (island st1) = Some c1).
  { simpl. now apply find_replace_same with c. }
  destruct (feed_loop_spec ranked k st1 c1 Hc1)
    as [meals [hungry [st' [Hrun [Hsplit [Hserved [Hstop [Hfind [Htrace _]]]]]]]]].
  assert (Hperm : Permutation ranked rs) by apply sorted_by_fitness_perm.
  exists st', meals, hungry.
  split; [| split; [| split; [| split; [| split; [| split; [| split;
    [| split; [| split; [| split]]]]]]]]].
  - unfold _feed_herbivores_stage, for_each, set_fodder, get_cell.
    rewrite Hc. simpl bind. fold f_max. fold c1. fold st1.
    unfold feed_herbivores, _sort_fitness, get_cell. rewrite Hc1. simpl bind.
    rewrite Hrs, instances_of_refs. simpl bind.
    change (sorted_by_fitness true (fitness_of st1) rs) with ranked.
    rewrite Hrun. reflexivity.
  - exact Htrace.
  - exact Hperm.
  - exact (sorted_by_fitness_sorted (fitness_of st) true rs).
  - intros v. apply sorted_by_fitness_stable.
  - exact Hsplit.
  - exact Hserved.
  - assert (Hnd : NoDup ranked).
    { eapply Permutation_NoDup; [symmetry; exact Hperm | exact Hnodup]. }
    rewrite Hsplit in Hnd. now apply NoDup_app_remove_r in Hnd.
  - exact Hstop.
  - pose proof (served_leaves _ _ _ Hmax Hserved) as H. simpl in H. lra.
  - rewrite Hfind. unfold c1, with_fodder. reflexivity.
Qed.

Lemma feeding_witness :
  exists (st' : state) (meals : list (nat * R)),
    _feed_herbivores_stage [(2, 2)%Z] pasture = Ok st' /\
    trace st' = map ate meals /\
    eaten meals <= 800.0.
Proof.
  destruct (feeding_respects_rank_and_supply
              (2, 2)%Z pasture (mkCell Lowland [Ref 0; Ref 1] [] [] 800 true)
              [0; 1]%nat)
    as [st' [meals [hungry [Hrun [Htrace [_ [_ [_ [_ [_ [_ [_ [Hsum _]]]]]]]]]]]]].
  - reflexivity.
  - reflexivity.
  - constructor; [simpl; intros [H | []]; discriminate |].
    constructor; [simpl; tauto | constructor].
  - replace (item _ "f_max") with 800.0 by reflexivity. lra.
  - exists st', meals. split; [exact Hrun | split; [exact Htrace | exact Hsum]].
Defined.

(** ** The layout of an island *)

(** The order in which [_create_island] inserts the keys: row by row. *)
Definition coord_lt (a b : coord) : Prop :=
  (fst a < fst b)%Z \/ (fst a = fst b /\ (snd a < snd b)%Z).

Definition shift (k : coord) (d : Z * Z) : coord :=
  (fst k + fst d, snd k + snd d)%Z.

(** An island as [_create_island] leaves it: the keys stand in row-major
    order, and an accessible cell has its four neighbours on the island, in
    the order of [direction_dict]. *)
Record wf_island (isl : list (coord * cell)) : Prop := {
  wf_order : StronglySorted coord_lt (map fst isl);
  wf_adjacent :
    forall k c, find_cell k isl = Some c -> accessability c = true ->
                adjacent_cells c = map (fun d => Some (shift k d)) direction_dict;
  wf_inside :
    forall k c d, find_cell k isl = Some c -> accessability c = true ->
                  In d direction_dict ->
                  exists c', find_cell (shift k d) isl = Some c'
}.

(** What no method changes in a cell, and what no method changes in a cell
    that is not accessible. *)
Definition cell_stable (c c' : cell) : Prop :=
  accessability c' = accessability c /\
  adjacent_cells c' = adjacent_cells c /\
  terrain_of c' = terrain_of c /\
  (accessability c = false ->
   herb_list c' = herb_list c /\ carn_list c' = carn_list c).

Definition stable (isl isl' : list (coord * cell)) : Prop :=
  Forall2 (fun kc kc' => fst kc = fst kc' /\ cell_stable (snd kc) (snd kc')) isl isl'.

Definition contents (s : species) (isl : list (coord * cell)) (k : coord) : list entry :=
  match find_cell k isl with
  | Some c => animals_of s c
  | None => []
  end.

Lemma entry_eq_dec (x y : entry) : {x = y} + {x <> y}.
Proof. decide equality. apply Nat.eq_dec. Defined.

(** How often the animal [r] stands in the lists of species [s], all cells
    taken together. *)
Definition occurrences (s : species) (r : nat) (isl : list (coord * cell)) : nat :=
  list_sum (map (fun kc => count_occ entry_eq_dec (animals_of s (snd kc)) (Ref r)) isl).

Lemma coord_lt_irrefl (a : coord) : ~ coord_lt a a.
Proof. unfold coord_lt. lia. Qed.

Lemma coord_lt_trans (a b c : coord) : coord_lt a b -> coord_lt b c -> coord_lt a c.
Proof. unfold coord_lt. lia. Qed.

Lemma coord_lt_asym (a b : coord) : coord_lt a b -> ~ coord_lt b a.
Proof. unfold coord_lt. lia. Qed.

Lemma cell_stable_refl (c : cell) : cell_stable c c.
Proof. unfold cell_stable. tauto. Qed.

Lemma cell_stable_trans (a b c : cell) :
  cell_stable a b -> cell_stable b c -> cell_stable a c.
Proof.
  unfold cell_stable. intros [H1 [H2 [H3 H4]]] [G1 [G2 [G3 G4]]].
  split; [congruence | split; [congruence | split; [congruence |]]].
  intros Ha. destruct (H4 Ha) as [E1 E2].
  assert (Hb : accessability b = false) by congruence.
  destruct (G4 Hb) as [F1 F2]. split; congruence.
Qed.

Lemma stable_refl (isl : list (coord * cell)) : stable isl isl.
Proof.
  induction isl as [| kc rest IH]; constructor; [| exact IH].
  split; [reflexivity | apply cell_stable_refl].
Qed.

Lemma stable_trans (a b c : list (coord * cell)) :
  stable a b -> stable b c -> stable a c.
Proof.
  intros Hab. revert c. induction Hab as [| x y a b [Hk Hc] Hab IH]; intros c Hbc.
  - inversion Hbc. constructor.
  - inversion Hbc as [| ? z ? c' [Hk' Hc'] Hbc']; subst.
    constructor; [| now apply IH].
    split; [congruence | eapply cell_stable_trans; eassumption].
Qed.

Lemma stable_keys (isl isl' : list (coord * cell)) :
  stable isl isl' -> map fst isl' = map fst isl.
Proof.
  induction 1 as [| x y a b [Hk _] _ IH]; simpl; [reflexivity | congruence].
Qed.

Lemma stable_find (isl isl' : list (coord * cell)) (k : coord) (c : cell) :
  stable isl isl' -> find_cell k isl = Some c ->
  exists c', find_cell k isl' = Some c' /\ cell_stable c c'.
Proof.
  induction 1 as [| [k1 c1] [k2 c2] a b [Hk Hc] _ IH]; simpl; [discriminate |].
  simpl in Hk, Hc. subst k2.
  destruct (coord_eqb k1 k).
  - intros E. inversion E; subst. eauto.
  - exact IH.
Qed.

Lemma stable_find_back (isl isl' : list (coord * cell)) (k : coord) (c' : cell) :
  stable isl isl' -> find_cell k isl' = Some c' ->
  exists c, find_cell k isl = Some c /\ cell_stable c c'.
Proof.
  induction 1 as [| [k1 c1] [k2 c2] a b [Hk Hc] _ IH]; simpl; [discriminate |].
  simpl in Hk, Hc. subst k2.
  destruct (coord_eqb k1 k).
  - intros E. inversion E; subst. eauto.
  - exact IH.
Qed.

Lemma stable_replace (k : coord) (c c' : cell) (isl : list (coord * cell)) :
  find_cell k isl = Some c -> cell_stable c c' -> stable isl (replace_cell k c' isl).
Proof.
  intros Hfind Hc. induction isl as [| [k0 c0] rest IH]; simpl in *; [discriminate |].
  destruct (coord_eqb k0 k).
  - inversion Hfind; subst. constructor; [split; [reflexivity | exact Hc] |].
    apply stable_refl.
  - constructor; [split; [reflexivity | apply cell_stable_refl] | now apply IH].
Qed.

Lemma stable_get_cells (st st' : state) :
  stable (island st) (island st') -> _get_cells st' = _get_cells st.
Proof.
  unfold _get_cells. generalize (island st) (island st').
  induction 1 as [| [k1 c1] [k2 c2] a b [Hk [Hacc _]] _ IH]; [reflexivity |].
  simpl in *. rewrite Hacc. destruct (accessability c1); simpl; congruence.
Qed.

Lemma stable_wf (isl isl' : list (coord * cell)) :
  stable isl isl' -> wf_island isl -> wf_island isl'.
Proof.
  intros Hs [Ho Ha Hi]. split.
  - now rewrite (stable_keys _ _ Hs).
  - intros k c' Hc' Hacc.
    destruct (stable_find_back _ _ _ _ Hs Hc') as [c [Hc [E1 [E2 _]]]].
    rewrite E2. apply Ha; [exact Hc | congruence].
  - intros k c' d Hc' Hacc Hd.
    destruct (stable_find_back _ _ _ _ Hs Hc') as [c [Hc [E1 _]]].
    destruct (Hi k c d Hc) as [n Hn]; [congruence | exact Hd |].
    destruct (stable_find _ _ _ _ Hs Hn) as [n' [Hn' _]]. eauto.
Qed.

Lemma species_eqb_eq (s t : species) : species_eqb s t = true <-> s = t.
Proof. destruct s, t; simpl; split; congruence. Qed.

Lemma contents_replace_same (s : species) (k : coord) (c c0 : cell)
  (isl : list (coord * cell)) :
  find_cell k isl = Some c0 ->
  contents s (replace_cell k c isl) k = animals_of s c.
Proof.
  intros H. unfold contents. now rewrite (find_replace_same k c c0 isl H).
Qed.

Lemma contents_replace_other (s : species) (k k' : coord) (c : cell)
  (isl : list (coord * cell)) :
  k' <> k -> contents s (replace_cell k c isl) k' = contents s isl k'.
Proof.
  intros H. unfold contents. now rewrite find_replace_other.
Qed.

Lemma contents_replace_species (s s' : species) (k k' : coord) (l : list entry)
  (c0 : cell) (isl : list (coord * cell)) :
  s' <> s -> find_cell k isl = Some c0 ->
  contents s' (replace_cell k (with_animals s l c0) isl) k' = contents s' isl k'.
Proof.
  intros Hs H. destruct (coord_eq_dec k' k) as [-> | Hne].
  - rewrite (contents_replace_same s' k _ c0 isl H). unfold contents. rewrite H.
    destruct s, s'; try reflexivity; contradiction.
  - now apply contents_replace_other.
Qed.

Lemma occurrences_replace (s : species) (r : nat) (k : coord) (c c0 : cell)
  (isl : list (coord * cell)) :
  find_cell k isl = Some c0 ->
  (occurrences s r (replace_cell k c isl) + count_occ entry_eq_dec (animals_of s c0) (Ref r)
   = occurrences s r isl + count_occ entry_eq_dec (animals_of s c) (Ref r))%nat.
Proof.
  unfold occurrences. induction isl as [| [k1 c1] rest IH]; simpl; [discriminate |].
  destruct (coord_eqb k1 k); simpl.
  - intros E. inversion E; subst. lia.
  - intros E. specialize (IH E). lia.
Qed.

Lemma occurrences_bound (s : species) (r : nat) (k : coord) (c : cell)
  (isl : list (coord * cell)) :
  find_cell k isl = Some c ->
  (count_occ entry_eq_dec (animals_of s c) (Ref r) <= occurrences s r isl)%nat.
Proof.
  unfold occurrences. induction isl as [| [k1 c1] rest IH]; simpl; [discriminate |].
  destruct (coord_eqb k1 k).
  - intros E. inversion E; subst. lia.
  - intros E. specialize (IH E). lia.
Qed.

Lemma remove_first_middle (x : entry) (front back : list entry) :
  ~ In x front -> remove_first x (front ++ x :: back) = Some (front ++ back).
Proof.
  induction front as [| y front IH]; simpl; intros Hn.
  - now rewrite entry_eqb_refl.
  - destruct (entry_eqb y x) eqn:E.
    + apply entry_eqb_eq in E. subst. tauto.
    + rewrite IH by tauto. reflexivity.
Qed.

Lemma remove_sentinels_clean (l : list entry) : ~ In Sentinel (remove_sentinels l).
Proof.
  induction l as [| [| r] rest IH]; simpl; [tauto | exact IH |].
  intros [H | H]; [discriminate | tauto].
Qed.

Lemma remove_sentinels_count (r : nat) (l : list entry) :
  count_occ entry_eq_dec (remove_sentinels l) (Ref r)
  = count_occ entry_eq_dec l (Ref r).
Proof.
  induction l as [| [| r'] rest IH]; simpl; [reflexivity | |].
  - destruct (entry_eq_dec Sentinel (Ref r)); [discriminate | exact IH].
  - destruct (entry_eq_dec (Ref r') (Ref r)); now rewrite IH.
Qed.

Lemma remove_sentinels_id (l : list entry) :
  ~ In Sentinel l -> remove_sentinels l = l.
Proof.
  induction l as [| [| r] rest IH]; simpl; intros H; [reflexivity | tauto |].
  rewrite IH by tauto. reflexivity.
Qed.

Lemma firstn_index_of_sentinel (front back : list entry) :
  ~ In Sentinel front -> (back = [] \/ exists tl, back = Sentinel :: tl) ->
  firstn (index_of_sentinel (front ++ back)) (front ++ back) = front.
Proof.
  intros Hfront Hback. induction front as [| [| r] front IH]; simpl in *.
  - destruct Hback as [-> | [tl ->]]; reflexivity.
  - tauto.
  - rewrite IH by tauto. reflexivity.
Qed.

(** ** What the trace says about one animal *)

Definition is_decision (s : species) (r : nat) (e : event) : bool :=
  match e with
  | Decided s' r' _ => species_eqb s' s && Nat.eqb r' r
  | _ => false
  end.

Definition is_direction (s : species) (r : nat) (e : event) : bool :=
  match e with
  | Directed s' r' _ => species_eqb s' s && Nat.eqb r' r
  | _ => false
  end.

Definition is_move (s : species) (r : nat) (e : event) : bool :=
  match e with
  | Moved s' r' _ _ => species_eqb s' s && Nat.eqb r' r
  | _ => false
  end.

Definition times (what : event -> bool) (tr : list event) : nat :=
  List.length (filter what tr).

(** The events of the migration of species [s]. *)
Definition tagged (s : species) (e : event) : Prop :=
  match e with
  | Decided s' _ _ | Directed s' _ _ | Moved s' _ _ _ => s' = s
  | _ => False
  end.

Lemma times_app (what : event -> bool) (tr ev : list event) :
  times what (tr ++ ev) = (times what tr + times what ev)%nat.
Proof. unfold times. now rewrite filter_app, length_app. Qed.

Lemma times_other_species (s s' : species) (r : nat) (ev : list event) :
  s <> s' -> Forall (tagged s') ev ->
  times (is_decision s r) ev = 0%nat /\ times (is_direction s r) ev = 0%nat /\
  times (is_move s r) ev = 0%nat.
Proof.
  intros Hs. unfold times. induction 1 as [| e ev He _ IH]; [now simpl |].
  destruct IH as [I1 [I2 I3]].
  assert (Hse : forall t, t = s' -> species_eqb t s = false).
  { intros t ->. destruct s', s; try reflexivity; contradiction. }
  destruct e; simpl in He; try contradiction; simpl;
    rewrite ?(Hse _ He); simpl; auto.
Qed.

(** What the migration of species [s] leaves alone: the lists of the other
    species. *)
Definition frame (s : species) (isl isl' : list (coord * cell)) : Prop :=
  forall s', s' <> s ->
    (forall k, contents s' isl' k = contents s' isl k) /\
    (forall r, occurrences s' r isl' = occurrences s' r isl).

Lemma frame_refl (s : species) (isl : list (coord * cell)) : frame s isl isl.
Proof. intros s' _. split; reflexivity. Qed.

Lemma frame_trans (s : species) (a b c : list (coord * cell)) :
  frame s a b -> frame s b c -> frame s a c.
Proof.
  intros Hab Hbc s' Hs. destruct (Hab s' Hs) as [A1 A2], (Hbc s' Hs) as [B1 B2].
  split; intros; [rewrite B1 | rewrite B2]; auto.
Qed.

Lemma frame_replace (s : species) (k : coord) (l : list entry) (c0 : cell)
  (isl : list (coord * cell)) :
  find_cell k isl = Some c0 ->
  frame s isl (replace_cell k (with_animals s l c0) isl).
Proof.
  intros H s' Hs. split.
  - intros k'. now apply contents_replace_species.
  - intros r.
    pose proof (occurrences_replace s' r k (with_animals s l c0) c0 isl H) as E.
    replace (animals_of s' (with_animals s l c0)) with (animals_of s' c0) in E; [lia |].
    destruct s, s'; try reflexivity; contradiction.
Qed.

Lemma cell_stable_with_animals (s : species) (l : list entry) (c : cell) :
  accessability c = true -> cell_stable c (with_animals s l c).
Proof.
  intros H. unfold cell_stable. destruct s; simpl; repeat split; congruence.
Qed.

Lemma occurrences_two (s : species) (r : nat) (k k' : coord) (c c' : cell)
  (isl : list (coord * cell)) :
  k <> k' -> find_cell k isl = Some c -> find_cell k' isl = Some c' ->
  (count_occ entry_eq_dec (animals_of s c) (Ref r)
   + count_occ entry_eq_dec (animals_of s c') (Ref r) <= occurrences s r isl)%nat.
Proof.
  intros Hne. unfold occurrences.
  induction isl as [| [k1 c1] rest IH]; simpl; [discriminate |].
  destruct (coord_eqb k1 k) eqn:E1, (coord_eqb k1 k') eqn:E2.
  - apply coord_eqb_eq in E1, E2. congruence.
  - intros H H'. inversion H; subst.
    pose proof (occurrences_bound s r k' c' rest H') as B. unfold occurrences in B. lia.
  - intros H H'. inversion H'; subst.
    pose proof (occurrences_bound s r k c rest H) as B. unfold occurrences in B. lia.
  - intros H H'. specialize (IH H H'). lia.
Qed.

(** Every animal is asked at most once whether it migrates, is given a
    direction at most as often, and moves at most as often as that. *)
Record once (s : species) (tr : list event) : Prop := {
  once_decided : forall r, (times (is_decision s r) tr <= 1)%nat;
  once_directed :
    forall r, (times (is_direction s r) tr <= times (is_decision s r) tr)%nat;
  once_moved :
    forall r, (times (is_move s r) tr <= times (is_direction s r) tr)%nat
}.

(** The events that one turn of the loop of [migrate] appends. *)
Inductive turn (s : species) (r : nat) (k : coord) : list event -> Prop :=
| turn_stays : turn s r k [Decided s r false]
| turn_blocked (d : nat) : turn s r k [Decided s r true; Directed s r d]
| turn_moves (d : nat) (dst : coord) :
    turn s r k [Decided s r true; Directed s r d; Moved s r k dst].

Lemma turn_tagged (s : species) (r : nat) (k : coord) (ev : list event) :
  turn s r k ev -> Forall (tagged s) ev.
Proof. destruct 1; repeat constructor. Qed.

Lemma species_eqb_refl (s : species) : species_eqb s s = true.
Proof. now destruct s. Qed.

Lemma turn_times (s : species) (r r' : nat) (k : coord) (ev : list event) :
  turn s r k ev ->
  (r' <> r ->
   times (is_decision s r') ev = 0 /\ times (is_direction s r') ev = 0 /\
   times (is_move s r') ev = 0)%nat /\
  (times (is_decision s r) ev = 1 /\
   times (is_move s r) ev <= times (is_direction s r) ev /\
   times (is_direction s r) ev <= 1)%nat.
Proof.
  intros H. split.
  - intros Hne. apply Nat.eqb_neq in Hne.
    assert (Hne' : Nat.eqb r r' = false) by (rewrite Nat.eqb_sym; exact Hne).
    destruct H; unfold times; simpl; rewrite ?species_eqb_refl, ?Hne'; simpl; auto.
  - destruct H; unfold times; simpl; rewrite ?species_eqb_refl, ?Nat.eqb_refl; simpl;
      repeat split; lia.
Qed.

Lemma once_turn (s : species) (r : nat) (k : coord) (tr ev : list event) :
  once s tr -> times (is_decision s r) tr = 0%nat -> turn s r k ev ->
  once s (tr ++ ev).
Proof.
  intros [H1 H2 H3] Hfresh Hturn.
  assert (Hdir : times (is_direction s r) tr = 0%nat) by (specialize (H2 r); lia).
  assert (Hmov : times (is_move s r) tr = 0%nat) by (specialize (H3 r); lia).
  split; intros r'; rewrite !times_app;
    destruct (Nat.eq_dec r' r) as [-> | Hne];
    try (destruct (proj2 (turn_times s r r k ev Hturn)) as [T1 [T2 T3]]; lia);
    destruct (proj1 (turn_times s r r' k ev Hturn) Hne) as [T1 [T2 T3]];
    specialize (H1 r'); specialize (H2 r'); specialize (H3 r'); lia.
Qed.

(** ** The migration stage in row-major order *)

Section MigrationStage.

(** The island before the stage: well formed, no [","] in any list, and no
    animal in two places. *)
Variable isl0 : list (coord * cell).
Hypothesis Hwf : wf_island isl0.
Hypothesis Hclean : forall s k, ~ In Sentinel (contents s isl0 k).
Hypothesis Hdistinct : forall s r, (occurrences s r isl0 <= 1)%nat.

Definition accessible (k : coord) : Prop :=
  exists c, find_cell k isl0 = Some c /\ accessability c = true.

(** What has arrived in a cell that is still to be visited: nothing, or the
    marker and behind it the animals that came. *)
Definition arrivals (arr : list entry) : Prop :=
  arr = [] \/ exists rs, arr = Sentinel :: map Ref rs.

(** The cells still to be visited: in row-major order, and every accessible
    cell is among them or comes before all of them. *)
Definition ahead (todo : list coord) : Prop :=
  StronglySorted coord_lt todo /\ Forall accessible todo /\
  forall k, accessible k -> In k todo \/ Forall (coord_lt k) todo.

(** The invariant between the visits of two cells, for the lists of species
    [s]; [tr] is the trace of the stage so far. *)
Record Inv (s : species) (todo : list coord) (isl : list (coord * cell))
  (tr : list event) : Prop := {
  inv_stable : stable isl0 isl;
  inv_todo :
    forall k, In k todo ->
      exists arr, contents s isl k = contents s isl0 k ++ arr /\ arrivals arr;
  inv_done : forall k, ~ In k todo -> ~ In Sentinel (contents s isl k);
  inv_occ : forall r, occurrences s r isl = occurrences s r isl0;
  inv_once : once s tr;
  inv_fresh :
    forall k r, In k todo -> In (Ref r) (contents s isl0 k) ->
                times (is_decision s r) tr = 0%nat
}.

(** The invariant of the loop of [migrate] in cell [k]; [rest] is the part
    of the slice that the loop still has to go through. *)
Record LoopInv (s : species) (k : coord) (todo : list coord) (rest : list entry)
  (isl : list (coord * cell)) (tr : list event) : Prop := {
  loop_stable : stable isl0 isl;
  loop_self :
    exists stay arr,
      contents s isl k = stay ++ rest ++ arr /\ ~ In Sentinel stay /\ arrivals arr;
  loop_rest : ~ In Sentinel rest;
  loop_todo :
    forall k', In k' todo ->
      exists arr, contents s isl k' = contents s isl0 k' ++ arr /\ arrivals arr;
  loop_done :
    forall k', k' <> k -> ~ In k' todo -> ~ In Sentinel (contents s isl k');
  loop_occ : forall r, occurrences s r isl = occurrences s r isl0;
  loop_once : once s tr;
  loop_fresh_rest :
    forall r, In (Ref r) rest -> times (is_decision s r) tr = 0%nat;
  loop_fresh :
    forall k' r, In k' todo -> In (Ref r) (contents s isl0 k') ->
                 times (is_decision s r) tr = 0%nat
}.

Lemma accessible_now (k : coord) (isl : list (coord * cell)) :
  accessible k -> stable isl0 isl ->
  exists c, find_cell k isl = Some c /\ accessability c = true /\
            adjacent_cells c = map (fun d => Some (shift k d)) direction_dict.
Proof.
  intros [c0 [Hc0 Hacc]] Hst.
  destruct (stable_find _ _ _ _ Hst Hc0) as [c [Hc [E1 [E2 _]]]].
  exists c. split; [exact Hc | split; [congruence |]].
  rewrite E2. now apply (wf_adjacent _ Hwf k c0).
Qed.

Lemma count_occ_zero_not_In (l : list entry) (x : entry) :
  count_occ entry_eq_dec l x = 0%nat -> ~ In x l.
Proof. intros H. now apply count_occ_not_In in H. Qed.

(** The animal whose turn it is stands nowhere else. *)
Lemma loop_unique (s : species) (k : coord) (todo : list coord) (r : nat)
  (rest : list entry) (isl : list (coord * cell)) (tr : list event)
  (stay arr : list entry) :
  accessible k ->
  LoopInv s k todo (Ref r :: rest) isl tr ->
  contents s isl k = stay ++ (Ref r :: rest) ++ arr ->
  ~ In (Ref r) stay /\ ~ In (Ref r) rest /\
  forall k', k' <> k -> ~ In (Ref r) (contents s isl k').
Proof.
  intros Hk HL Hself.
  destruct (accessible_now k isl Hk (loop_stable _ _ _ _ _ _ HL)) as [c [Hc _]].
  assert (Hocc : (occurrences s r isl <= 1)%nat).
  { rewrite (loop_occ _ _ _ _ _ _ HL). apply Hdistinct. }
  assert (Hcount : (count_occ entry_eq_dec (animals_of s c) (Ref r)
                    = count_occ entry_eq_dec stay (Ref r)
                      + (S (count_occ entry_eq_dec rest (Ref r))
                         + count_occ entry_eq_dec arr (Ref r)))%nat).
  { unfold contents in Hself. rewrite Hc in Hself. rewrite Hself.
    rewrite !count_occ_app, (count_occ_cons_eq entry_eq_dec rest (eq_refl (Ref r))).
    reflexivity. }
  pose proof (occurrences_bound s r k c isl Hc) as Hb.
  split; [| split].
  - apply count_occ_zero_not_In. lia.
  - apply count_occ_zero_not_In. lia.
  - intros k' Hne Hin. unfold contents in Hin.
    destruct (find_cell k' isl) as [c' |] eqn:Hc'; [| contradiction].
    assert (Hne' : k <> k') by congruence.
    pose proof (occurrences_two s r k k' c c' isl Hne' Hc Hc') as H2.
    apply (count_occ_In entry_eq_dec) in Hin. lia.
Qed.

Lemma loop_stays (s : species) (k : coord) (todo : list coord) (r : nat)
  (rest : list entry) (isl : list (coord * cell)) (tr ev : list event) :
  accessible k -> ~ In k todo ->
  LoopInv s k todo (Ref r :: rest) isl tr -> turn s r k ev ->
  LoopInv s k todo rest isl (tr ++ ev).
Proof.
  intros Hk Hnot HL Hturn.
  destruct (loop_self _ _ _ _ _ _ HL) as [stay [arr [Hself [Hstay Harr]]]].
  destruct (loop_unique s k todo r rest isl tr stay arr Hk HL Hself)
    as [U1 [U2 U3]].
  assert (Hfresh : times (is_decision s r) tr = 0%nat).
  { apply (loop_fresh_rest _ _ _ _ _ _ HL). now left. }
  split.
  - apply (loop_stable _ _ _ _ _ _ HL).
  - exists (stay ++ [Ref r]), arr. split; [| split; [| exact Harr]].
    + rewrite Hself. now rewrite <- app_assoc.
    + intros Hin. apply in_app_or in Hin. destruct Hin as [H | [H | []]];
        [tauto | discriminate].
  - intros H. apply (loop_rest _ _ _ _ _ _ HL). now right.
  - apply (loop_todo _ _ _ _ _ _ HL).
  - apply (loop_done _ _ _ _ _ _ HL).
  - apply (loop_occ _ _ _ _ _ _ HL).
  - eapply once_turn; [apply (loop_once _ _ _ _ _ _ HL) | exact Hfresh | exact Hturn].
  - intros r' Hin. rewrite times_app.
    assert (Hne : r' <> r) by (intros ->; tauto).
    destruct (proj1 (turn_times s r r' k ev Hturn) Hne) as [T _].
    rewrite T, (loop_fresh_rest _ _ _ _ _ _ HL r'); [reflexivity | now right].
  - intros k' r' Hk' Hin. rewrite times_app.
    assert (Hne : r' <> r).
    { intros ->. assert (Hkk : k' <> k) by (intros ->; tauto).
      apply (U3 k' Hkk).
      destruct (loop_todo _ _ _ _ _ _ HL k' Hk') as [arr' [E _]].
      rewrite E. apply in_or_app. now left. }
    destruct (proj1 (turn_times s r r' k ev Hturn) Hne) as [T _].
    rewrite T, (loop_fresh _ _ _ _ _ _ HL k' r' Hk' Hin). reflexivity.
Qed.

Lemma animals_of_with_animals (s : species) (l : list entry) (c : cell) :
  animals_of s (with_animals s l c) = l.
Proof. now destruct s. Qed.

Lemma count_occ_snoc_ref (l : list entry) (r r' : nat) :
  count_occ entry_eq_dec (l ++ [Ref r]) (Ref r')
  = (count_occ entry_eq_dec l (Ref r')
     + count_occ entry_eq_dec [Ref r] (Ref r'))%nat.
Proof. apply count_occ_app. Qed.

Lemma count_occ_snoc_sentinel (l : list entry) (r' : nat) :
  count_occ entry_eq_dec (l ++ [Sentinel]) (Ref r')
  = count_occ entry_eq_dec l (Ref r').
Proof.
  rewrite count_occ_app.
  rewrite (count_occ_cons_neq entry_eq_dec []); [simpl; lia | discriminate].
Qed.

(** The turn of an animal that moves to the accessible neighbour [dst];
    [later] tells whether [dst] is still to be visited, which is when the
    code may put the marker. *)
Lemma loop_moves (s : species) (k : coord) (todo : list coord) (r : nat)
  (rest : list entry) (isl : list (coord * cell)) (tr : list event)
  (d : nat) (dst : coord) (dc : cell) (later : bool) :
  accessible k -> ~ In k todo ->
  LoopInv s k todo (Ref r :: rest) isl tr ->
  dst <> k -> find_cell dst isl = Some dc -> accessability dc = true ->
  (later = true -> In dst todo) -> (later = false -> ~ In dst todo) ->
  let l := animals_of s dc in
  let l1 := if later && negb (mem Sentinel l) then l ++ [Sentinel] else l in
  let isl3 := replace_cell dst (with_animals s (l1 ++ [Ref r]) dc) isl in
  exists c l',
    find_cell k isl3 = Some c /\
    remove_first (Ref r) (animals_of s c) = Some l' /\
    LoopInv s k todo rest (replace_cell k (with_animals s l' c) isl3)
            (tr ++ [Decided s r true; Directed s r d; Moved s r k dst]) /\
    frame s isl (replace_cell k (with_animals s l' c) isl3) /\
    stable isl (replace_cell k (with_animals s l' c) isl3).
Proof.
  intros Hk Hnot HL Hne Hdc Hacc Hlater Hearlier l l1 isl3.
  destruct (loop_self _ _ _ _ _ _ HL) as [stay [arr [Hself [Hstay Harr]]]].
  destruct (loop_unique s k todo r rest isl tr stay arr Hk HL Hself)
    as [U1 [U2 U3]].
  pose proof (loop_stays s k todo r rest isl tr _ Hk Hnot HL (turn_moves s r k d dst))
    as HS.
  destruct (accessible_now k isl Hk (loop_stable _ _ _ _ _ _ HL))
    as [c [Hc [Hcacc _]]].
  assert (Hc3 : find_cell k isl3 = Some c).
  { unfold isl3. rewrite find_replace_other; [exact Hc | congruence]. }
  assert (Hlist : animals_of s c = stay ++ Ref r :: rest ++ arr).
  { unfold contents in Hself. now rewrite Hc in Hself. }
  set (l' := stay ++ rest ++ arr).
  assert (Hrem : remove_first (Ref r) (animals_of s c) = Some l').
  { rewrite Hlist. now apply remove_first_middle. }
  set (isl4 := replace_cell k (with_animals s l' c) isl3).
  assert (Hdst4 : contents s isl4 dst = l1 ++ [Ref r]).
  { unfold isl4. rewrite contents_replace_other by exact Hne.
    unfold isl3. rewrite (contents_replace_same s dst _ dc isl Hdc).
    apply animals_of_with_animals. }
  assert (Hother : forall k', k' <> k -> k' <> dst ->
                              contents s isl4 k' = contents s isl k').
  { intros k' H1 H2. unfold isl4, isl3.
    now rewrite !contents_replace_other. }
  assert (Hl : contents s isl dst = l).
  { unfold contents. now rewrite Hdc. }
  assert (Hst : stable isl isl4).
  { apply stable_trans with isl3.
    - apply (stable_replace dst dc (with_animals s (l1 ++ [Ref r]) dc) isl Hdc).
      now apply cell_stable_with_animals.
    - apply (stable_replace k c (with_animals s l' c) isl3 Hc3).
      now apply cell_stable_with_animals. }
  exists c, l'. fold isl4.
  split; [exact Hc3 | split; [exact Hrem | split; [| split]]].
  - split.
    + eapply stable_trans; [apply (loop_stable _ _ _ _ _ _ HL) | exact Hst].
    + exists stay, arr. split; [| split; assumption].
      unfold isl4. rewrite (contents_replace_same s k _ c isl3 Hc3).
      apply animals_of_with_animals.
    + apply (loop_rest _ _ _ _ _ _ HS).
    + intros k' Hk'. assert (Hkk : k' <> k) by (intros ->; tauto).
      destruct (loop_todo _ _ _ _ _ _ HL k' Hk') as [arr' [E Harr']].
      destruct (coord_eq_dec k' dst) as [-> | Hkd].
      * rewrite Hl in E.
        destruct later; [| exfalso; now apply Hearlier].
        destruct Harr' as [-> | [rs ->]].
        -- rewrite app_nil_r in E.
           assert (M : mem Sentinel l = false).
           { destruct (mem Sentinel l) eqn:M; [| reflexivity].
             apply mem_In in M. rewrite E in M. now apply Hclean in M. }
           exists (Sentinel :: map Ref [r]). rewrite Hdst4. unfold l1.
           rewrite M. simpl. rewrite E.
           split; [now rewrite <- app_assoc | right; now exists [r]].
        -- assert (M : mem Sentinel l = true).
           { apply mem_In. rewrite E. apply in_or_app. right. now left. }
           exists (Sentinel :: map Ref (rs ++ [r])). rewrite Hdst4. unfold l1.
           rewrite M. simpl. rewrite E.
           split; [| right; now exists (rs ++ [r])].
           rewrite <- app_assoc. simpl. now rewrite map_app.
      * exists arr'. rewrite (Hother k' Hkk Hkd). now split.
    + intros k' Hkk Hk'.
      destruct (coord_eq_dec k' dst) as [-> | Hkd].
      * rewrite Hdst4. unfold l1.
        destruct later; [exfalso; apply Hk'; now apply Hlater |].
        simpl. intros Hin. apply in_app_or in Hin.
        destruct Hin as [Hin | [Hin | []]]; [| discriminate].
        apply (loop_done _ _ _ _ _ _ HL dst Hkk Hk'). now rewrite Hl.
      * rewrite (Hother k' Hkk Hkd). now apply (loop_done _ _ _ _ _ _ HL).
    + intros r'. rewrite <- (loop_occ _ _ _ _ _ _ HL r').
      pose proof (occurrences_replace s r' dst (with_animals s (l1 ++ [Ref r]) dc)
                                      dc isl Hdc) as E1.
      pose proof (occurrences_replace s r' k (with_animals s l' c) c isl3 Hc3) as E2.
      fold isl3 in E1. fold isl4 in E2.
      rewrite !animals_of_with_animals in *. rewrite Hlist in E2. fold l in E1.
      assert (C1 : count_occ entry_eq_dec l1 (Ref r') = count_occ entry_eq_dec l (Ref r')).
      { unfold l1. destruct (later && negb (mem Sentinel l)); [| reflexivity].
        apply count_occ_snoc_sentinel. }
      rewrite count_occ_snoc_ref, C1 in E1.
      unfold l' in E2. rewrite !count_occ_app in E2.
      destruct (Nat.eq_dec r r') as [-> | Hrr].
      * rewrite (count_occ_cons_eq entry_eq_dec [] (eq_refl (Ref r'))) in E1.
        rewrite (count_occ_cons_eq entry_eq_dec (rest ++ arr) (eq_refl (Ref r'))) in E2.
        rewrite count_occ_app in E2. simpl in E1. lia.
      * assert (Hrr' : Ref r <> Ref r') by congruence.
        rewrite (count_occ_cons_neq entry_eq_dec [] Hrr') in E1.
        rewrite (count_occ_cons_neq entry_eq_dec (rest ++ arr) Hrr') in E2.
        rewrite count_occ_app in E2. simpl in E1. lia.
    + apply (loop_once _ _ _ _ _ _ HS).
    + apply (loop_fresh_rest _ _ _ _ _ _ HS).
    + apply (loop_fresh _ _ _ _ _ _ HS).
  - apply frame_trans with isl3.
    + apply (frame_replace s dst (l1 ++ [Ref r]) dc isl Hdc).
    + apply (frame_replace s k l' c isl3 Hc3).
  - exact Hst.
Qed.

Lemma direction_order (k : coord) (d : nat) :
  (d < 4)%nat ->
  exists off,
    nth_error direction_dict d = Some off /\ In off direction_dict /\
    shift k off <> k /\
    (((0 <? d)%nat && (d <? 3)%nat = true /\ coord_lt k (shift k off)) \/
     ((0 <? d)%nat && (d <? 3)%nat = false /\ coord_lt (shift k off) k)).
Proof.
  intros Hd. destruct k as [x y].
  destruct d as [| [| [| [| d]]]]; [| | | | lia]; simpl;
    eexists; (split; [reflexivity |]); (split; [simpl; tauto |]);
    unfold shift, coord_lt; simpl; (split; [intros E; inversion E; lia |]).
  - right. split; [reflexivity | lia].
  - left. split; [reflexivity | lia].
  - left. split; [reflexivity | lia].
  - right. split; [reflexivity | lia].
Qed.

Lemma migration_direction_range (g g' : Random.generator) (d : nat) :
  migration_direction g = (d, g') -> (d < 4)%nat.
Proof.
  unfold migration_direction, Random.choice_range. intros E.
  apply (f_equal fst) in E. cbn [fst] in E. rewrite <- E.
  apply Nat.mod_upper_bound. discriminate.
Qed.

Lemma ahead_head (k : coord) (todo : list coord) :
  ahead (k :: todo) ->
  accessible k /\ ~ In k todo /\ ahead todo /\
  (forall dst, accessible dst -> coord_lt k dst -> In dst todo) /\
  (forall dst, coord_lt dst k -> ~ In dst todo).
Proof.
  intros [Hsorted [Hacc Hcover]].
  inversion Hsorted as [| ? ? Hsorted' Hlater]; subst.
  inversion Hacc as [| ? ? Hk Hacc']; subst.
  assert (Hafter : forall t, In t todo -> coord_lt k t).
  { intros t Ht. rewrite Forall_forall in Hlater. now apply Hlater. }
  split; [exact Hk | split; [| split; [| split]]].
  - intros Hin. apply (coord_lt_irrefl k). now apply Hafter.
  - split; [exact Hsorted' | split; [exact Hacc' |]].
    intros k' Hk'. destruct (Hcover k' Hk') as [[-> | Hin] | Hall].
    + right. exact Hlater.
    + now left.
    + right. inversion Hall; assumption.
  - intros dst Hdst Hlt. destruct (Hcover dst Hdst) as [[-> | Hin] | Hall].
    + exfalso. now apply (coord_lt_irrefl dst).
    + exact Hin.
    + exfalso. inversion Hall; subst. now apply (coord_lt_asym k dst).
  - intros dst Hlt Hin. apply (coord_lt_asym dst k Hlt). now apply Hafter.
Qed.

Lemma migrate_one_step (s : species) (k : coord) (todo : list coord) (r : nat)
  (rest : list entry) (st : state) (tr : list event) :
  ahead (k :: todo) ->
  LoopInv s k todo (Ref r :: rest) (island st) tr ->
  exists st' ev,
    migrate_one s k (Ref r) st = Ok st' /\
    trace st' = trace st ++ ev /\ Forall (tagged s) ev /\
    LoopInv s k todo rest (island st') (tr ++ ev) /\
    frame s (island st) (island st') /\ stable (island st) (island st').
Proof.
  intros Hahead HL.
  destruct (ahead_head k todo Hahead) as [Hk [Hnot [_ [Hafter Hbefore]]]].
  unfold migrate_one.
  destruct (migrate_or_not _ _ _) as [migrates g1].
  destruct migrates.
  2:{ eexists. exists [Decided s r false].
      split; [reflexivity | split; [reflexivity | split]].
      - repeat constructor.
      - split; [| split; [apply frame_refl | apply stable_refl]].
        apply (loop_stays s k todo r rest (island st) tr _ Hk Hnot HL).
        constructor. }
  destruct (migration_direction g1) as [d g2] eqn:Ed.
  pose proof (migration_direction_range _ _ _ Ed) as Hd.
  destruct (accessible_now k (island st) Hk (loop_stable _ _ _ _ _ _ HL))
    as [c [Hc [Hcacc Hadj]]].
  destruct (direction_order k d Hd) as [off [Hnth [Hoff [Hne Hside]]]].
  set (dst := shift k off) in *.
  assert (Hdst0 : exists c0, find_cell dst isl0 = Some c0).
  { destruct Hk as [c0 [Hc0 Hacc0]]. apply (wf_inside _ Hwf k c0 off Hc0 Hacc0 Hoff). }
  destruct Hdst0 as [dc0 Hdc0].
  destruct (stable_find _ _ _ _ (loop_stable _ _ _ _ _ _ HL) Hdc0)
    as [dc [Hdc [Haccdc _]]].
  unfold get_cell at 1. simpl island. rewrite Hc. simpl bind.
  rewrite Hadj, (map_nth_error _ _ _ Hnth).
  unfold get_cell at 1. simpl island. fold dst. rewrite Hdc. simpl bind.
  destruct (accessability dc) eqn:Eacc.
  - assert (Hdstacc : accessible dst).
    { exists dc0. split; [exact Hdc0 | congruence]. }
    destruct (loop_moves s k todo r rest (island st) tr d dst dc
                         ((0 <? d)%nat && (d <? 3)%nat) Hk Hnot HL Hne Hdc Eacc)
      as [c' [l' [Hc3 [Hrem [HL' [Hframe Hstable]]]]]].
    + intros E. destruct Hside as [[_ Hlt] | [E' _]]; [| congruence].
      now apply Hafter.
    + intros E. destruct Hside as [[E' _] | [_ Hlt]]; [congruence |].
      now apply Hbefore.
    + unfold list_remove, get_cell. simpl island. rewrite Hc3. simpl bind.
      rewrite Hrem.
      eexists. exists [Decided s r true; Directed s r d; Moved s r k dst].
      split; [reflexivity | split; [| split; [| split; [| split]]]].
      * simpl. rewrite <- !app_assoc. reflexivity.
      * repeat constructor.
      * exact HL'.
      * exact Hframe.
      * exact Hstable.
  - eexists. exists [Decided s r true; Directed s r d].
    split; [reflexivity | split; [| split; [| split; [| split]]]].
    + simpl. rewrite <- !app_assoc. reflexivity.
    + repeat constructor.
    + apply (loop_stays s k todo r rest (island st) tr _ Hk Hnot HL). constructor.
    + apply frame_refl.
    + apply stable_refl.
Qed.

Lemma migrate_loop (s : species) (k : coord) (todo : list coord)
  (rest : list entry) (st : state) (tr : list event) :
  ahead (k :: todo) ->
  LoopInv s k todo rest (island st) tr ->
  exists st' ev,
    for_each (migrate_one s k) rest st = Ok st' /\
    trace st' = trace st ++ ev /\ Forall (tagged s) ev /\
    LoopInv s k todo [] (island st') (tr ++ ev) /\
    frame s (island st) (island st') /\ stable (island st) (island st').
Proof.
  intros Hahead. revert st tr.
  induction rest as [| x rest IH]; intros st tr HL.
  - exists st, []. simpl. rewrite !app_nil_r.
    split; [reflexivity | split; [reflexivity | split; [constructor |]]].
    split; [exact HL | split; [apply frame_refl | apply stable_refl]].
  - destruct x as [| r].
    { exfalso. apply (loop_rest _ _ _ _ _ _ HL). now left. }
    destruct (migrate_one_step s k todo r rest st tr Hahead HL)
      as [st1 [ev1 [Hrun1 [Htr1 [Htag1 [HL1 [Hfr1 Hst1]]]]]]].
    destruct (IH st1 (tr ++ ev1) HL1)
      as [st2 [ev2 [Hrun2 [Htr2 [Htag2 [HL2 [Hfr2 Hst2]]]]]]].
    exists st2, (ev1 ++ ev2).
    split; [| split; [| split; [| split; [| split]]]].
    + cbn [for_each]. rewrite Hrun1. cbn [bind]. exact Hrun2.
    + rewrite Htr2, Htr1. now rewrite app_assoc.
    + apply Forall_app. now split.
    + now rewrite app_assoc.
    + eapply frame_trans; eassumption.
    + eapply stable_trans; eassumption.
Qed.

Lemma migrate_visit (s : species) (k : coord) (todo : list coord)
  (st : state) (tr : list event) :
  ahead (k :: todo) ->
  Inv s (k :: todo) (island st) tr ->
  exists st' ev,
    migrate s k st = Ok st' /\
    trace st' = trace st ++ ev /\ Forall (tagged s) ev /\
    Inv s todo (island st') (tr ++ ev) /\
    frame s (island st) (island st') /\ stable (island st) (island st').
Proof.
  intros Hahead HI.
  destruct (ahead_head k todo Hahead) as [Hk [Hnot _]].
  destruct (accessible_now k (island st) Hk (inv_stable _ _ _ _ HI))
    as [c [Hc [Hcacc _]]].
  destruct (inv_todo _ _ _ _ HI k (or_introl eq_refl)) as [arr [Hself Harr]].
  assert (Hlist : animals_of s c = contents s isl0 k ++ arr).
  { unfold contents in Hself at 1. now rewrite Hc in Hself. }
  assert (Hslice : firstn (index_of_sentinel (animals_of s c)) (animals_of s c)
                   = contents s isl0 k).
  { rewrite Hlist. apply firstn_index_of_sentinel; [apply Hclean |].
    destruct Harr as [-> | [rs ->]]; [now left | right; eauto]. }
  assert (HL : LoopInv s k todo (contents s isl0 k) (island st) tr).
  { split.
    - apply (inv_stable _ _ _ _ HI).
    - exists [], arr. split; [exact Hself | split; [tauto | exact Harr]].
    - apply Hclean.
    - intros k' Hk'. apply (inv_todo _ _ _ _ HI). now right.
    - intros k' Hne Hk'. apply (inv_done _ _ _ _ HI).
      intros [E | Hin]; [congruence | tauto].
    - apply (inv_occ _ _ _ _ HI).
    - apply (inv_once _ _ _ _ HI).
    - intros r Hr. apply (inv_fresh _ _ _ _ HI k r); [now left | exact Hr].
    - intros k' r Hk' Hr. apply (inv_fresh _ _ _ _ HI k' r); [now right | exact Hr]. }
  destruct (migrate_loop s k todo _ st tr Hahead HL)
    as [st1 [ev [Hrun [Htr [Htag [HL1 [Hfr Hst]]]]]]].
  destruct (accessible_now k (island st1) Hk (loop_stable _ _ _ _ _ _ HL1))
    as [c1 [Hc1 [Hc1acc _]]].
  set (final := with_animals s (remove_sentinels (animals_of s c1)) c1).
  exists (put_cell k final st1), ev.
  assert (Hself1 : contents s (island st1) k = animals_of s c1).
  { unfold contents. now rewrite Hc1. }
  split; [| split; [exact Htr | split; [exact Htag | split; [| split]]]].
  - unfold migrate, get_cell. rewrite Hc. simpl bind.
    rewrite Hslice, Hrun. simpl bind. rewrite Hc1. reflexivity.
  - simpl island. split.
    + eapply stable_trans; [apply (loop_stable _ _ _ _ _ _ HL1) |].
      apply (stable_replace k c1 final _ Hc1). now apply cell_stable_with_animals.
    + intros k' Hk'. assert (Hne : k' <> k) by (intros ->; tauto).
      rewrite contents_replace_other by exact Hne.
      now apply (loop_todo _ _ _ _ _ _ HL1).
    + intros k' Hk'. destruct (coord_eq_dec k' k) as [-> | Hne].
      * rewrite (contents_replace_same s k final c1 _ Hc1).
        unfold final. rewrite animals_of_with_animals. apply remove_sentinels_clean.
      * rewrite contents_replace_other by exact Hne.
        now apply (loop_done _ _ _ _ _ _ HL1).
    + intros r. rewrite <- (loop_occ _ _ _ _ _ _ HL1 r).
      pose proof (occurrences_replace s r k final c1 _ Hc1) as E.
      unfold final in E at 2. rewrite animals_of_with_animals in E.
      rewrite remove_sentinels_count in E. lia.
    + apply (loop_once _ _ _ _ _ _ HL1).
    + apply (loop_fresh _ _ _ _ _ _ HL1).
  - simpl island. eapply frame_trans; [exact Hfr |].
    apply (frame_replace s k _ c1 _ Hc1).
  - simpl island. eapply stable_trans; [exact Hst |].
    apply (stable_replace k c1 final _ Hc1). now apply cell_stable_with_animals.
Qed.

(** The visit of a cell by the other species leaves the invariant alone. *)
Lemma Inv_frame (s s' : species) (todo : list coord)
  (isl isl' : list (coord * cell)) (tr ev : list event) :
  s <> s' -> Inv s todo isl tr ->
  frame s' isl isl' -> stable isl isl' -> Forall (tagged s') ev ->
  Inv s todo isl' (tr ++ ev).
Proof.
  intros Hs HI Hfr Hst Htag.
  destruct (Hfr s Hs) as [Hcont Hocc].
  assert (Hzero : forall r, times (is_decision s r) ev = 0%nat /\
                            times (is_direction s r) ev = 0%nat /\
                            times (is_move s r) ev = 0%nat).
  { intros r. now apply (times_other_species s s'). }
  split.
  - eapply stable_trans; [apply (inv_stable _ _ _ _ HI) | exact Hst].
  - intros k Hk. rewrite Hcont. now apply (inv_todo _ _ _ _ HI).
  - intros k Hk. rewrite Hcont. now apply (inv_done _ _ _ _ HI).
  - intros r. rewrite Hocc. apply (inv_occ _ _ _ _ HI).
  - destruct (inv_once _ _ _ _ HI) as [O1 O2 O3].
    split; intros r; rewrite !times_app; destruct (Hzero r) as [Z1 [Z2 Z3]];
      specialize (O1 r); specialize (O2 r); specialize (O3 r); lia.
  - intros k r Hk Hr. rewrite times_app. destruct (Hzero r) as [Z1 _].
    rewrite Z1, (inv_fresh _ _ _ _ HI k r Hk Hr). reflexivity.
Qed.

Lemma migration_stage_run (cells : list coord) (st : state) (tr : list event) :
  ahead cells ->
  Inv Herbivore cells (island st) tr -> Inv Carnivore cells (island st) tr ->
  exists st' ev,
    _migration_stage cells st = Ok st' /\ trace st' = trace st ++ ev /\
    Inv Herbivore [] (island st') (tr ++ ev) /\
    Inv Carnivore [] (island st') (tr ++ ev).
Proof.
  revert st tr. induction cells as [| k todo IH]; intros st tr Hahead HH HC.
  - exists st, []. rewrite !app_nil_r.
    split; [reflexivity | split; [reflexivity | split; assumption]].
  - destruct (migrate_visit Herbivore k todo st tr Hahead HH)
      as [st1 [ev1 [Hrun1 [Htr1 [Htag1 [HH1 [Hfr1 Hst1]]]]]]].
    assert (HC1 : Inv Carnivore (k :: todo) (island st1) (tr ++ ev1)).
    { apply (Inv_frame Carnivore Herbivore _ (island st)); auto. discriminate. }
    destruct (migrate_visit Carnivore k todo st1 (tr ++ ev1) Hahead HC1)
      as [st2 [ev2 [Hrun2 [Htr2 [Htag2 [HC2 [Hfr2 Hst2]]]]]]].
    assert (HH2 : Inv Herbivore todo (island st2) ((tr ++ ev1) ++ ev2)).
    { apply (Inv_frame Herbivore Carnivore _ (island st1)); auto. discriminate. }
    destruct (ahead_head k todo Hahead) as [_ [_ [Htodo _]]].
    destruct (IH st2 ((tr ++ ev1) ++ ev2) Htodo HH2 HC2)
      as [st3 [ev3 [Hrun3 [Htr3 [HH3 HC3]]]]].
    exists st3, (ev1 ++ ev2 ++ ev3).
    split; [| split; [| split]].
    + unfold _migration_stage in *. cbn [for_each].
      unfold migrate_herbivores, migrate_carnivores.
      rewrite Hrun1. cbn [bind]. rewrite Hrun2. cbn [bind]. exact Hrun3.
    + rewrite Htr3, Htr2, Htr1. now rewrite <- !app_assoc.
    + now rewrite !app_assoc in *.
    + now rewrite !app_assoc in *.
Qed.

Lemma find_cell_In (k : coord) (c : cell) (isl : list (coord * cell)) :
  find_cell k isl = Some c -> In (k, c) isl.
Proof.
  induction isl as [| [k1 c1] rest IH]; simpl; [discriminate |].
  destruct (coord_eqb k1 k) eqn:E.
  - apply coord_eqb_eq in E. intros H. inversion H; subst. now left.
  - intros H. right. now apply IH.
Qed.

Lemma In_find_cell (k : coord) (c : cell) (isl : list (coord * cell)) :
  StronglySorted coord_lt (map fst isl) -> In (k, c) isl -> find_cell k isl = Some c.
Proof.
  induction isl as [| [k1 c1] rest IH]; simpl; [contradiction |].
  intros Hs Hin. inversion Hs as [| ? ? Hs' Hall]; subst.
  destruct (coord_eqb k1 k) eqn:E.
  - apply coord_eqb_eq in E. subst k1.
    destruct Hin as [Hin | Hin]; [now inversion Hin |].
    exfalso. apply (coord_lt_irrefl k).
    rewrite Forall_forall in Hall. apply Hall.
    apply in_map_iff. now exists (k, c).
  - destruct Hin as [Hin | Hin].
    + inversion Hin; subst. rewrite coord_eqb_refl in E. discriminate.
    + now apply IH.
Qed.

Lemma sorted_filter_keys (p : coord * cell -> bool) (isl : list (coord * cell)) :
  StronglySorted coord_lt (map fst isl) ->
  StronglySorted coord_lt (map fst (filter p isl)).
Proof.
  induction isl as [| kc rest IH]; simpl; intros Hs; [constructor |].
  inversion Hs as [| ? ? Hs' Hall]; subst.
  destruct (p kc); simpl; [| now apply IH].
  constructor; [now apply IH |].
  rewrite Forall_forall in *. intros k Hk. apply Hall.
  apply in_map_iff in Hk. destruct Hk as [x [Hx Hin]].
  apply filter_In in Hin. apply in_map_iff. exists x. tauto.
Qed.

Definition cells0 : list coord :=
  map fst (filter (fun kc : coord * cell => accessability (snd kc)) isl0).

Lemma ahead_initial : ahead cells0.
Proof.
  unfold cells0. split; [| split].
  - apply sorted_filter_keys. apply (wf_order _ Hwf).
  - rewrite Forall_forall. intros k Hk.
    apply in_map_iff in Hk. destruct Hk as [[k' c] [Hx Hin]]. simpl in Hx. subst k'.
    apply filter_In in Hin. destruct Hin as [Hin Hacc].
    exists c. split; [| exact Hacc].
    apply In_find_cell; [apply (wf_order _ Hwf) | exact Hin].
  - intros k [c [Hc Hacc]]. left.
    apply in_map_iff. exists (k, c). split; [reflexivity |].
    apply filter_In. split; [now apply find_cell_In | exact Hacc].
Qed.

Lemma Inv_initial (s : species) : Inv s cells0 isl0 [].
Proof.
  split.
  - apply stable_refl.
  - intros k _. exists []. split; [now rewrite app_nil_r | now left].
  - intros k _. apply Hclean.
  - reflexivity.
  - split; intros r; unfold times; simpl; lia.
  - reflexivity.
Qed.

End MigrationStage.

(** ** States on which the stage is run *)

(** No list holds the marker, and no animal stands twice in the lists of its
    species. *)
Definition no_sentinel (isl : list (coord * cell)) : Prop :=
  forall k c, In (k, c) isl ->
              ~ In Sentinel (herb_list c) /\ ~ In Sentinel (carn_list c).

Definition population (s : species) (isl : list (coord * cell)) : list entry :=
  flat_map (fun kc : coord * cell => animals_of s (snd kc)) isl.

Definition distinct_animals (isl : list (coord * cell)) : Prop :=
  forall s, NoDup (population s isl).

Lemma occurrences_population (s : species) (r : nat) (isl : list (coord * cell)) :
  occurrences s r isl = count_occ entry_eq_dec (population s isl) (Ref r).
Proof.
  unfold occurrences, population.
  induction isl as [| kc rest IH]; simpl; [reflexivity |].
  now rewrite count_occ_app, IH.
Qed.

Lemma no_sentinel_contents (isl : list (coord * cell)) :
  no_sentinel isl -> forall s k, ~ In Sentinel (contents s isl k).
Proof.
  intros H s k. unfold contents.
  destruct (find_cell k isl) as [c |] eqn:E; [| simpl; tauto].
  apply find_cell_In in E. destruct (H k c E). now destruct s.
Qed.

Lemma contents_no_sentinel (isl : list (coord * cell)) :
  StronglySorted coord_lt (map fst isl) ->
  (forall s k, ~ In Sentinel (contents s isl k)) -> no_sentinel isl.
Proof.
  intros Hs H k c Hin. apply (In_find_cell k c isl Hs) in Hin.
  pose proof (H Herbivore k) as H1. pose proof (H Carnivore k) as H2.
  unfold contents in H1, H2. rewrite Hin in H1, H2. now split.
Qed.

Lemma distinct_occurrences (isl : list (coord * cell)) :
  distinct_animals isl -> forall s r, (occurrences s r isl <= 1)%nat.
Proof.
  intros H s r. rewrite occurrences_population.
  now apply (NoDup_count_occ entry_eq_dec).
Qed.

(** A test for [wf_island]. *)
Definition option_coord_eqb (a b : option coord) : bool :=
  match a, b with
  | Some x, Some y => coord_eqb x y
  | None, None => true
  | _, _ => false
  end.

Fixpoint adjacency_eqb (a b : list (option coord)) : bool :=
  match a, b with
  | [], [] => true
  | x :: a', y :: b' => option_coord_eqb x y && adjacency_eqb a' b'
  | _, _ => false
  end.

Definition coord_ltb (a b : coord) : bool :=
  (fst a <? fst b)%Z || ((fst a =? fst b)%Z && (snd a <? snd b)%Z).

Definition wf_cellb (isl : list (coord * cell)) (kc : coord * cell) : bool :=
  negb (accessability (snd kc)) ||
  (adjacency_eqb (adjacent_cells (snd kc))
                 (map (fun d => Some (shift (fst kc) d)) direction_dict) &&
   forallb (fun d => match find_cell (shift (fst kc) d) isl with
                     | Some _ => true
                     | None => false
                     end) direction_dict).

Definition wf_islandb (isl : list (coord * cell)) : bool :=
  adjacent_pairs coord_ltb (map fst isl) && forallb (wf_cellb isl) isl.

Lemma coord_ltb_lt (a b : coord) : coord_ltb a b = true <-> coord_lt a b.
Proof.
  unfold coord_ltb, coord_lt.
  rewrite orb_true_iff, andb_true_iff, !Z.ltb_lt, Z.eqb_eq. tauto.
Qed.

Lemma adjacent_pairs_sorted (l : list coord) :
  adjacent_pairs coord_ltb l = true -> StronglySorted coord_lt l.
Proof.
  intros H. apply Sorted_StronglySorted.
  - intros a b c. apply coord_lt_trans.
  - induction l as [| a [| b rest] IH]; [constructor | repeat constructor |].
    simpl in H. apply andb_true_iff in H. destruct H as [Hab Hrest].
    constructor; [now apply IH | constructor; now apply coord_ltb_lt].
Qed.

Lemma adjacency_eqb_eq (a b : list (option coord)) :
  adjacency_eqb a b = true -> a = b.
Proof.
  revert b. induction a as [| x a IH]; destruct b as [| y b]; simpl;
    try discriminate; [reflexivity |].
  intros H. apply andb_true_iff in H. destruct H as [Hxy Hab].
  rewrite (IH b Hab). f_equal.
  destruct x, y; simpl in Hxy; try discriminate; [| reflexivity].
  apply coord_eqb_eq in Hxy. now subst.
Qed.

Lemma wf_islandb_sound (isl : list (coord * cell)) :
  wf_islandb isl = true -> wf_island isl.
Proof.
  unfold wf_islandb. intros H. apply andb_true_iff in H. destruct H as [Hs Hc].
  assert (Hcell : forall k c, find_cell k isl = Some c -> accessability c = true ->
                              adjacency_eqb (adjacent_cells c)
                                (map (fun d => Some (shift k d)) direction_dict) = true /\
                              forallb (fun d => match find_cell (shift k d) isl with
                                                | Some _ => true
                                                | None => false
                                                end) direction_dict = true).
  { intros k c Hfind Hacc. apply find_cell_In in Hfind.
    rewrite forallb_forall in Hc. specialize (Hc (k, c) Hfind).
    unfold wf_cellb in Hc. simpl in Hc. rewrite Hacc in Hc. simpl in Hc.
    now apply andb_true_iff in Hc. }
  split.
  - now apply adjacent_pairs_sorted.
  - intros k c Hfind Hacc. apply adjacency_eqb_eq. now apply (Hcell k c).
  - intros k c d Hfind Hacc Hd.
    destruct (Hcell k c Hfind Hacc) as [_ Hall].
    rewrite forallb_forall in Hall. specialize (Hall d Hd).
    destruct (find_cell (shift k d) isl) as [c' |]; [eauto | discriminate].
Qed.

Lemma migration_stage_invariant (st : state) :
  wf_island (island st) -> no_sentinel (island st) ->
  distinct_animals (island st) ->
  exists st' ev,
    _migration_stage (_get_cells st) st = Ok st' /\
    trace st' = trace st ++ ev /\
    forall s, Inv (island st) s [] (island st') ev.
Proof.
  intros Hwf Hclean Hdistinct.
  pose proof (no_sentinel_contents _ Hclean) as Hclean'.
  pose proof (distinct_occurrences _ Hdistinct) as Hdistinct'.
  destruct (migration_stage_run (island st) Hwf Hclean' Hdistinct'
              (_get_cells st) st []
              (ahead_initial (island st) Hwf)
              (Inv_initial (island st) Hclean' Herbivore)
              (Inv_initial (island st) Hclean' Carnivore))
    as [st' [ev [Hrun [Htr [HH HC]]]]].
  exists st', ev. split; [exact Hrun | split; [exact Htr |]].
  intros [|]; assumption.
Qed.

(** C1, as the code has it.  On a well-formed island without markers and
    with every animal in one place, the migration stage over the accessible
    cells in the order of construction (row by row) returns, and in its
    trace [ev] every animal is asked at most once whether it migrates, is
    given at most one direction and moves at most once; afterwards every
    animal stands as often in the lists of its species as before, so it
    is in exactly one cell. *)
Theorem migration_stage_once_in_row_major_order (st : state) :
  wf_island (island st) -> no_sentinel (island st) ->
  distinct_animals (island st) ->
  exists st' ev,
    _migration_stage (_get_cells st) st = Ok st' /\
    trace st' = trace st ++ ev /\
    distinct_animals (island st') /\
    forall s r,
      occurrences s r (island st') = occurrences s r (island st) /\
      (times (is_decision s r) ev <= 1)%nat /\
      (times (is_direction s r) ev <= 1)%nat /\
      (times (is_move s r) ev <= 1)%nat.
Proof.
  intros Hwf Hclean Hdistinct.
  destruct (migration_stage_invariant st Hwf Hclean Hdistinct)
    as [st' [ev [Hrun [Htr HI]]]].
  exists st', ev. split; [exact Hrun | split; [exact Htr | split]].
  - intros s. apply (NoDup_count_occ entry_eq_dec). intros [| r].
    + assert (H0 : ~ In Sentinel (population s (island st'))).
      { unfold population. intros Hin. apply in_flat_map in Hin.
        destruct Hin as [[k c] [Hkc Hin]]. simpl in Hin.
        assert (Hsorted : StronglySorted coord_lt (map fst (island st'))).
        { rewrite (stable_keys _ _ (inv_stable _ _ _ _ _ (HI s))).
          apply (wf_order _ Hwf). }
        apply (In_find_cell k c _ Hsorted) in Hkc.
        apply (inv_done _ _ _ _ _ (HI s) k (fun H => H)).
        unfold contents. now rewrite Hkc. }
      apply (count_occ_not_In entry_eq_dec) in H0. lia.
    + rewrite <- occurrences_population, (inv_occ _ _ _ _ _ (HI s) r).
      now apply distinct_occurrences.
  - intros s r. destruct (inv_once _ _ _ _ _ (HI s)) as [O1 O2 O3].
    specialize (O1 r). specialize (O2 r). specialize (O3 r).
    split; [apply (inv_occ _ _ _ _ _ (HI s)) | lia].
Qed.

(** C10.  On a well-formed island without markers and with every animal in
    one place, the migration stage over the accessible cells in the order of
    construction returns, and afterwards no list of any cell holds the
    marker. *)
Theorem migration_stage_leaves_no_sentinel (st : state) :
  wf_island (island st) -> no_sentinel (island st) ->
  distinct_animals (island st) ->
  exists st',
    _migration_stage (_get_cells st) st = Ok st' /\
    no_sentinel (island st').
Proof.
  intros Hwf Hclean Hdistinct.
  destruct (migration_stage_invariant st Hwf Hclean Hdistinct)
    as [st' [ev [Hrun [Htr HI]]]].
  exists st'. split; [exact Hrun |].
  apply contents_no_sentinel.
  - rewrite (stable_keys _ _ (inv_stable _ _ _ _ _ (HI Herbivore))).
    apply (wf_order _ Hwf).
  - intros s k. apply (inv_done _ _ _ _ _ (HI s) k). tauto.
Qed.

(** ** A strip of two lowland cells *)

Definition line_break : string := String newline EmptyString.

(** The layout [WWW / WLW / WLW / WWW]: the accessible cells are [(2, 2)]
    and, below it, [(3, 2)]. *)
Definition strip_layout : string :=
  ("WWW" ++ line_break ++ "WLW" ++ line_break ++ "WLW" ++ line_break ++ "WWW")%string.

(** A process in which no island has been created yet.  The generator
    answers every [random.random()] with 0, and its [random.choice] gives
    the direction 0 (up) at the call in position 1 and the direction 2
    (down) at every other position. *)
Definition fresh_process : state :=
  mkState classes0 default_tables (fun _ => mkAnimal Herbivore 20 5) 0
          (Random.mkGenerator 0 (fun _ => 0) (fun _ => 0)
                              (fun n => if Nat.eqb n 1 then 0%nat else 2%nat))
          [] [].

Definition or_else (st : state) (r : result state) : state :=
  match r with
  | Ok st' => st'
  | Raise _ => st
  end.

(** The strip, with one herbivore of weight 20 and age 5 in the lower
    cell. *)
Definition strip : state :=
  fst (_add_animal_to_island
         [ ((3, 2)%Z, [ mkDescriptor "Herbivore" 20 5 ]) ]
         (or_else fresh_process (_create_island strip_layout fresh_process))).

Lemma strip_cells : _get_cells strip = [(2, 2)%Z; (3, 2)%Z].
Proof.
  unfold strip, _add_animal_to_island, _create_island.
  cbn -[init item]. unfold init, initiate_weight, initiate_age.
  replace (leb_R 20 0) with false by (symmetry; apply leb_R_false; lra).
  reflexivity.
Qed.

Definition placed (t : terrain) (adj : list (option coord)) (herbs : list entry) : cell :=
  with_animals Herbivore herbs (with_adjacent adj (new_cell default_tables t)).

Definition strip_island : list (coord * cell) :=
  [ ((1, 1), placed Water [None; Some (1, 2); Some (2, 1); None] []);
    ((1, 2), placed Water [None; Some (1, 3); Some (2, 2); Some (1, 1)] []);
    ((1, 3), placed Water [None; None; Some (2, 3); Some (1, 2)] []);
    ((2, 1), placed Water [Some (1, 1); Some (2, 2); Some (3, 1); None] []);
    ((2, 2), placed Lowland [Some (1, 2); Some (2, 3); Some (3, 2); Some (2, 1)] []);
    ((2, 3), placed Water [Some (1, 3); None; Some (3, 3); Some (2, 2)] []);
    ((3, 1), placed Water [Some (2, 1); Some (3, 2); Some (4, 1); None] []);
    ((3, 2), placed Lowland [Some (2, 2); Some (3, 3); Some (4, 2); Some (3, 1)]
                    [Ref 0]);
    ((3, 3), placed Water [Some (2, 3); None; Some (4, 3); Some (3, 2)] []);
    ((4, 1), placed Water [Some (3, 1); Some (4, 2); None; None] []);
    ((4, 2), placed Water [Some (3, 2); Some (4, 3); None; Some (4, 1)] []);
    ((4, 3), placed Water [Some (3, 3); None; None; Some (4, 2)] []) ]%Z.

Lemma strip_eq :
  strip = mkState (count_new Herbivore classes0) default_tables
                  (fun r => if Nat.eqb r 0 then mkAnimal Herbivore 20 5
                            else mkAnimal Herbivore 20 5)
                  1 (gen fresh_process) strip_island [].
Proof.
  unfold strip, _add_animal_to_island, _create_island.
  cbn -[init item]. unfold init, initiate_weight, initiate_age.
  replace (leb_R 20 0) with false by (symmetry; apply leb_R_false; lra).
  reflexivity.
Qed.

Definition no_sentinelb (isl : list (coord * cell)) : bool :=
  forallb (fun kc : coord * cell =>
             negb (mem Sentinel (herb_list (snd kc))) &&
             negb (mem Sentinel (carn_list (snd kc)))) isl.

Lemma no_sentinelb_sound (isl : list (coord * cell)) :
  no_sentinelb isl = true -> no_sentinel isl.
Proof.
  unfold no_sentinelb. rewrite forallb_forall. intros H k c Hin.
  specialize (H (k, c) Hin). simpl in H.
  apply andb_true_iff in H. destruct H as [H1 H2].
  split; intros Hs; apply mem_In in Hs; rewrite Hs in *; discriminate.
Qed.

Lemma strip_wf : wf_island (island strip).
Proof. rewrite strip_eq. apply wf_islandb_sound. reflexivity. Qed.

Lemma strip_no_sentinel : no_sentinel (island strip).
Proof. rewrite strip_eq. apply no_sentinelb_sound. reflexivity. Qed.

Lemma strip_distinct : distinct_animals (island strip).
Proof.
  rewrite strip_eq. intros [|]; cbn; repeat constructor. simpl. tauto.
Qed.

Lemma migration_stage_once_witness :
  exists st' ev,
    _migration_stage (_get_cells strip) strip = Ok st' /\
    trace st' = trace strip ++ ev /\
    distinct_animals (island st') /\
    forall s r,
      occurrences s r (island st') = occurrences s r (island strip) /\
      (times (is_decision s r) ev <= 1)%nat /\
      (times (is_direction s r) ev <= 1)%nat /\
      (times (is_move s r) ev <= 1)%nat.
Proof.
  exact (migration_stage_once_in_row_major_order
           strip strip_wf strip_no_sentinel strip_distinct).
Defined.

Lemma migration_stage_no_sentinel_witness :
  exists st',
    _migration_stage (_get_cells strip) strip = Ok st' /\ no_sentinel (island st').
Proof.
  exact (migration_stage_leaves_no_sentinel
           strip strip_wf strip_no_sentinel strip_distinct).
Defined.

Lemma migrate_or_not_at_zero (p : params) (a : animal) (g : Random.generator) :
  0 < item p "mu" -> 0 < weight a ->
  Random.unit_draws g (Random.position g) = 0 ->
  migrate_or_not p a g = (true, Random.advance g).
Proof.
  intros Hmu Hw Hu. unfold migrate_or_not. cbv zeta.
  rewrite prob_true_or_false_spec, Hu.
  replace (ltb_R 0 _) with true; [reflexivity |].
  symmetry. apply ltb_R_true.
  pose proof (fitness_of_positive_weight p a Hw).
  apply Rmult_lt_0_compat; lra.
Qed.


(** The three outcomes of a visit of [migrate] that the strip needs, as
    equations. *)
Lemma migrate_one_moves (s : species) (k : coord) (r : nat) (st : state)
  (g1 g2 : Random.generator) (d : nat) (c dc c3 : cell) (dst : coord)
  (l' : list entry) :
  migrate_or_not (params_of (classes_of st) (kind (objects st r))) (objects st r)
                 (gen st) = (true, g1) ->
  migration_direction g1 = (d, g2) ->
  find_cell k (island st) = Some c ->
  nth_error (adjacent_cells c) d = Some (Some dst) ->
  find_cell dst (island st) = Some dc -> accessability dc = true ->
  let l := animals_of s dc in
  let l1 :=
    if (0 <? d)%nat && (d <? 3)%nat && negb (mem Sentinel l) then l ++ [Sentinel]
    else l in
  let st2 :=
    record (Directed s r d)
           (with_gen g2 (record (Decided s r true) (with_gen g1 st))) in
  let st3 := put_cell dst (with_animals s (l1 ++ [Ref r]) dc) st2 in
  find_cell k (island st3) = Some c3 ->
  remove_first (Ref r) (animals_of s c3) = Some l' ->
  migrate_one s k (Ref r) st
  = Ok (record (Moved s r k dst) (put_cell k (with_animals s l' c3) st3)).
Proof.
  intros Hgo Hdir Hc Hnth Hdc Hacc l l1 st2 st3 Hc3 Hrem.
  unfold migrate_one. rewrite Hgo, Hdir.
  unfold get_cell at 1. simpl island. rewrite Hc. cbn [bind]. rewrite Hnth.
  unfold get_cell at 1. simpl island. rewrite Hdc. cbn [bind]. rewrite Hacc.
  fold l. fold l1. fold st2. fold st3.
  unfold list_remove, get_cell. rewrite Hc3. cbn [bind]. rewrite Hrem.
  reflexivity.
Qed.

Lemma migrate_single (s : species) (k : coord) (r : nat) (st st1 : state)
  (c c1 : cell) :
  find_cell k (island st) = Some c -> animals_of s c = [Ref r] ->
  migrate_one s k (Ref r) st = Ok st1 ->
  find_cell k (island st1) = Some c1 ->
  migrate s k st
  = Ok (put_cell k (with_animals s (remove_sentinels (animals_of s c1)) c1) st1).
Proof.
  intros Hc Hl Hone Hc1. unfold migrate, get_cell. rewrite Hc. cbn [bind].
  rewrite Hl. cbn [index_of_sentinel firstn for_each]. rewrite Hone. cbn [bind].
  rewrite Hc1. reflexivity.
Qed.

Lemma migrate_empty (s : species) (k : coord) (st : state) (c : cell) :
  find_cell k (island st) = Some c -> animals_of s c = [] ->
  migrate s k st = Ok (put_cell k (with_animals s [] c) st).
Proof.
  intros Hc Hl. unfold migrate, get_cell. rewrite Hc. cbn [bind].
  rewrite Hl. cbn [index_of_sentinel firstn for_each bind]. rewrite Hc.
  cbn [bind]. rewrite Hl. reflexivity.
Qed.

(** C1, as the specification words it, fails: the order of the visits
    matters.  On the strip, with the two accessible cells visited in the
    reverse of the order of construction, the herbivore of the lower cell
    moves up, is asked again when the upper cell is visited, and moves back
    down; the marker that this second move puts in the lower cell stays
    there. *)
Lemma migration_stage_in_reverse_order_moves_twice :
  wf_island (island strip) /\ no_sentinel (island strip) /\
  distinct_animals (island strip) /\
  Permutation (rev (_get_cells strip)) (_get_cells strip) /\
  exists st',
    _migration_stage (rev (_get_cells strip)) strip = Ok st' /\
    trace st' =
      [ Decided Herbivore 0 true; Directed Herbivore 0 0;
        Moved Herbivore 0 (3, 2)%Z (2, 2)%Z;
        Decided Herbivore 0 true; Directed Herbivore 0 2;
        Moved Herbivore 0 (2, 2)%Z (3, 2)%Z ] /\
    times (is_move Herbivore 0) (trace st') = 2%nat /\
    contents Herbivore (island st') (3, 2)%Z = [Sentinel; Ref 0].
Proof.
  split; [exact strip_wf | split; [exact strip_no_sentinel |
    split; [exact strip_distinct | split; [symmetry; apply Permutation_rev |]]]].
  assert (Hgo : forall g,
             Random.unit_draws g (Random.position g) = 0 ->
             migrate_or_not herbivore_params (mkAnimal Herbivore 20 5) g
             = (true, Random.advance g)).
  { intros g Hu. apply migrate_or_not_at_zero; [| simpl; lra | exact Hu].
    replace (item herbivore_params "mu") with 0.25 by reflexivity. lra. }
  rewrite strip_cells, strip_eq.
  unfold _migration_stage, migrate_herbivores, migrate_carnivores.
  cbn [rev app for_each].
  erewrite (migrate_single Herbivore (3, 2)%Z 0);
    [ | reflexivity | reflexivity
      | eapply migrate_one_moves;
        [ apply Hgo; reflexivity | reflexivity | reflexivity | reflexivity
          | reflexivity | reflexivity | reflexivity | reflexivity ]
      | reflexivity ].
  cbn [bind].
  erewrite (migrate_empty Carnivore (3, 2)%Z); [ | reflexivity | reflexivity ].
  cbn [bind].
  erewrite (migrate_single Herbivore (2, 2)%Z 0);
    [ | reflexivity | reflexivity
      | eapply migrate_one_moves;
        [ apply Hgo; reflexivity | reflexivity | reflexivity | reflexivity
          | reflexivity | reflexivity | reflexivity | reflexivity ]
      | reflexivity ].
  cbn [bind].
  erewrite (migrate_empty Carnivore (2, 2)%Z); [ | reflexivity | reflexivity ].
  cbn [bind].
  eexists. split; [reflexivity |].
  split; [reflexivity | split; reflexivity].
Qed.

(** ** Cells that are not accessible *)

(** What every method leaves as it is: the layout, and the lists of the
    cells that are not accessible. *)
Definition accessible_in (k : coord) (st : state) : Prop :=
  exists c, find_cell k (island st) = Some c /\ accessability c = true.

Definition keeps (st st' : state) : Prop := stable (island st) (island st').

Lemma keeps_refl (st : state) : keeps st st.
Proof. apply stable_refl. Qed.

Lemma keeps_island (st st' : state) : island st' = island st -> keeps st st'.
Proof. intros E. unfold keeps. rewrite E. apply stable_refl. Qed.

Lemma keeps_trans (a b c : state) : keeps a b -> keeps b c -> keeps a c.
Proof. apply stable_trans. Qed.

Lemma keeps_accessible (k : coord) (st st' : state) :
  keeps st st' -> accessible_in k st -> accessible_in k st'.
Proof.
  intros Hk [c [Hc Hacc]].
  destruct (stable_find _ _ _ _ Hk Hc) as [c' [Hc' [E _]]].
  exists c'. split; [exact Hc' | congruence].
Qed.

Lemma keeps_put (k : coord) (c c' : cell) (st : state) :
  find_cell k (island st) = Some c -> cell_stable c c' -> keeps st (put_cell k c' st).
Proof. intros Hc Hs. unfold keeps. simpl. now apply (stable_replace k c c'). Qed.

Lemma cell_stable_with_fodder (f : R) (c : cell) : cell_stable c (with_fodder f c).
Proof. unfold cell_stable. simpl. tauto. Qed.

Lemma for_each_keeps {A : Type} (body : A -> state -> result state)
  (P : state -> Prop) (l : list A) :
  (forall st st', keeps st st' -> P st -> P st') ->
  (forall x st st', P st -> body x st = Ok st' -> keeps st st') ->
  forall st st', P st -> for_each body l st = Ok st' -> keeps st st'.
Proof.
  intros HP Hbody. induction l as [| x rest IH]; intros st st' Hst Hrun.
  - inversion Hrun. apply keeps_refl.
  - cbn [for_each] in Hrun.
    destruct (body x st) as [st1 | e] eqn:E; [| discriminate].
    cbn [bind] in Hrun.
    pose proof (Hbody x st st1 Hst E) as H1.
    eapply keeps_trans; [exact H1 |].
    apply IH; [now apply (HP st) | exact Hrun].
Qed.

Lemma list_remove_keeps (s : species) (k : coord) (r : nat) (st st' : state) :
  accessible_in k st -> list_remove s k r st = Ok st' -> keeps st st'.
Proof.
  intros [c [Hc Hacc]]. unfold list_remove, get_cell. rewrite Hc. cbn [bind].
  destruct (remove_first (Ref r) (animals_of s c)) as [l |]; [| discriminate].
  intros E. inversion E. apply (keeps_put k c (with_animals s l c) st Hc).
  now apply cell_stable_with_animals.
Qed.

Lemma set_fodder_keeps (k : coord) (st st' : state) :
  set_fodder k st = Ok st' -> keeps st st'.
Proof.
  unfold set_fodder, get_cell.
  destruct (find_cell k (island st)) as [c |] eqn:Hc; [| discriminate].
  cbn [bind]. intros E. inversion E.
  apply (keeps_put k c (with_fodder _ c) st Hc). apply cell_stable_with_fodder.
Qed.

Lemma feed_loop_keeps (herbs : list nat) (k : coord) (st st' : state) :
  feed_loop herbs k st = Ok st' -> keeps st st'.
Proof.
  revert st. induction herbs as [| herb rest IH]; intros st; cbn [feed_loop].
  - intros E. inversion E. apply keeps_refl.
  - unfold get_cell. destruct (find_cell k (island st)) as [c |] eqn:Hc;
      [| discriminate].
    cbn [bind]. destruct (ltb_R 0 (available_fodder c)).
    + intros E. apply IH in E. eapply keeps_trans; [| exact E].
      unfold keeps. simpl island.
      apply (stable_replace k c (with_fodder _ c) _ Hc).
      apply cell_stable_with_fodder.
    + intros E. inversion E. apply keeps_refl.
Qed.

Lemma feed_herbivores_keeps (k : coord) (st st' : state) :
  feed_herbivores k st = Ok st' -> keeps st st'.
Proof.
  unfold feed_herbivores.
  destruct (_sort_fitness true k st) as [herbs | e]; [| discriminate].
  cbn [bind]. apply feed_loop_keeps.
Qed.

Lemma hunt_loop_keeps (carnivore : nat) (herbs : list nat) (eaten_so_far : R)
  (k : coord) (st st' : state) :
  accessible_in k st ->
  hunt_loop carnivore herbs eaten_so_far k st = Ok st' -> keeps st st'.
Proof.
  revert eaten_so_far st. induction herbs as [| herbivore rest IH];
    intros w st Hk; cbn [hunt_loop].
  - intros E. inversion E. apply keeps_refl.
  - destruct (ltb_R w _); [| intros E; inversion E; apply keeps_refl].
    destruct (kind (objects st carnivore)); [discriminate |].
    destruct (killing_probability _ _ _ _ _) as [kills g].
    destruct kills.
    + destruct (list_remove Herbivore k herbivore _) as [st4 | e] eqn:E4;
        [| discriminate].
      cbn [bind]. intros E.
      assert (H4 : keeps st st4).
      { apply list_remove_keeps in E4; [exact E4 | exact Hk]. }
      eapply keeps_trans; [exact H4 |].
      eapply IH; [| exact E]. now apply (keeps_accessible k st).
    + intros E. apply IH in E; [exact E | exact Hk].
Qed.

Lemma hunt_keeps (k : coord) (x : entry) (st st' : state) :
  accessible_in k st -> hunt k x st = Ok st' -> keeps st st'.
Proof.
  intros Hk. destruct x as [| carnivore]; [discriminate |]. cbn [hunt].
  destruct (_sort_fitness false k st) as [herbs | e]; [| discriminate].
  cbn [bind]. now apply hunt_loop_keeps.
Qed.

Lemma facilitate_hunting_keeps (k : coord) (st st' : state) :
  accessible_in k st -> facilitate_hunting k st = Ok st' -> keeps st st'.
Proof.
  intros Hk. pose proof Hk as [c [Hc Hacc]].
  unfold facilitate_hunting, get_cell. rewrite Hc. cbn [bind].
  destruct (Random.shuffle (carn_list c) (gen st)) as [shuffled g].
  intros E.
  assert (H1 : keeps st (put_cell k (with_animals Carnivore shuffled c) (with_gen g st))).
  { unfold keeps. simpl island.
    apply (stable_replace k c (with_animals Carnivore shuffled c) _ Hc).
    now apply cell_stable_with_animals. }
  eapply keeps_trans; [exact H1 |].
  eapply (for_each_keeps (hunt k) (accessible_in k)); [| | | exact E].
  - intros a b Hab. now apply keeps_accessible.
  - intros x a b Ha. now apply hunt_keeps.
  - now apply (keeps_accessible k st).
Qed.

Lemma procreate_loop_island (N : Z) (l : list entry) (st st' : state)
  (new_list : list entry) :
  procreate_loop N l st = Ok (new_list, st') -> island st' = island st.
Proof.
  revert st new_list. induction l as [| [| r] rest IH]; intros st new_list;
    cbn [procreate_loop].
  - intros E. now inversion E.
  - discriminate.
  - destruct (calculate_procreation_probability _ _ _ _) as [procreates g1].
    destruct procreates; [| intros E; now apply IH in E].
    destruct (birth _ _ _) as [[[[mother child] cl] g2] | e]; [| discriminate].
    cbn [bind]. destruct child as [new_animal |].
    + unfold allocate.
      destruct (procreate_loop N rest _) as [[more st3] | e] eqn:E3; [| discriminate].
      cbn [bind fst snd]. intros E. inversion E; subst.
      now apply IH in E3.
    + intros E. now apply IH in E.
Qed.

Lemma procreate_keeps (s : species) (k : coord) (st st' : state) :
  accessible_in k st -> procreate s k st = Ok st' -> keeps st st'.
Proof.
  intros [c [Hc Hacc]]. unfold procreate, get_cell. rewrite Hc. cbn [bind].
  destruct (procreate_loop _ _ st) as [[new_list st1] | e] eqn:E1; [| discriminate].
  cbn [bind]. apply procreate_loop_island in E1. rewrite E1, Hc. cbn [bind].
  intros E. inversion E. unfold keeps. simpl island. rewrite E1.
  apply (stable_replace k c (with_animals s (animals_of s c ++ new_list) c) _ Hc).
  now apply cell_stable_with_animals.
Qed.

Lemma migrate_one_keeps (s : species) (k : coord) (x : entry) (st st' : state) :
  accessible_in k st -> migrate_one s k x st = Ok st' -> keeps st st'.
Proof.
  intros Hk. destruct x as [| r]; [discriminate |]. cbn [migrate_one].
  destruct (migrate_or_not _ _ _) as [migrates g1].
  destruct migrates; [| intros E; inversion E; now apply keeps_island].
  destruct (migration_direction g1) as [d g2].
  unfold get_cell at 1. simpl island.
  destruct (find_cell k (island st)) as [c |]; [| discriminate]. cbn [bind].
  destruct (nth_error (adjacent_cells c) d) as [[dst |] |]; try discriminate.
  unfold get_cell at 1. simpl island.
  destruct (find_cell dst (island st)) as [dc |] eqn:Hdc; [| discriminate].
  cbn [bind].
  destruct (accessability dc) eqn:Hacc;
    [| intros E; inversion E; now apply keeps_island].
  match goal with
  | |- context [put_cell dst (with_animals s (?l ++ [Ref r]) dc) ?st2] =>
      set (l1 := l); set (st3 := put_cell dst (with_animals s (l1 ++ [Ref r]) dc) st2)
  end.
  destruct (list_remove s k r st3) as [st4 | e] eqn:E4; [| discriminate].
  cbn [bind]. intros E. inversion E; subst st'.
  assert (H3 : keeps st st3).
  { unfold keeps, st3. simpl island.
    apply (stable_replace dst dc (with_animals s (l1 ++ [Ref r]) dc) _ Hdc).
    now apply cell_stable_with_animals. }
  apply list_remove_keeps in E4; [| now apply (keeps_accessible k st)].
  apply (keeps_trans st st3); [exact H3 |]. exact E4.
Qed.

Lemma migrate_keeps (s : species) (k : coord) (st st' : state) :
  accessible_in k st -> migrate s k st = Ok st' -> keeps st st'.
Proof.
  intros Hk. pose proof Hk as [c [Hc Hacc]].
  unfold migrate, get_cell at 1. rewrite Hc. cbn [bind].
  destruct (for_each _ _ st) as [st1 | e] eqn:E1; [| discriminate]. cbn [bind].
  assert (H1 : keeps st st1).
  { eapply (for_each_keeps (migrate_one s k) (accessible_in k)); [| | | exact E1].
    - intros a b Hab. now apply keeps_accessible.
    - intros x a b Ha. now apply migrate_one_keeps.
    - exact Hk. }
  destruct (keeps_accessible k st st1 H1 Hk) as [c1 [Hc1 Hacc1]].
  unfold get_cell. rewrite Hc1. cbn [bind]. intros E. inversion E.
  eapply keeps_trans; [exact H1 |].
  apply (keeps_put k c1 (with_animals s _ c1) st1 Hc1).
  now apply cell_stable_with_animals.
Qed.

Lemma for_each_island {A : Type} (body : A -> state -> result state) (l : list A) :
  (forall x st st', body x st = Ok st' -> island st' = island st) ->
  forall st st', for_each body l st = Ok st' -> island st' = island st.
Proof.
  intros Hbody. induction l as [| x rest IH]; intros st st' Hrun.
  - now inversion Hrun.
  - cbn [for_each] in Hrun.
    destruct (body x st) as [st1 | e] eqn:E; [| discriminate]. cbn [bind] in Hrun.
    rewrite (IH st1 st' Hrun). now apply (Hbody x).
Qed.

Lemma age_animals_keeps (k : coord) (st st' : state) :
  age_animals k st = Ok st' -> keeps st st'.
Proof.
  unfold age_animals. destruct (get_cell k st) as [c | e]; [| discriminate].
  cbn [bind]. intros E. apply keeps_island.
  apply (for_each_island age_one (get_animals c)); [| exact E].
  intros [| r] a b H; [discriminate |]. cbn [age_one] in H. now inversion H.
Qed.

Lemma animals_lose_weight_keeps (k : coord) (st st' : state) :
  animals_lose_weight k st = Ok st' -> keeps st st'.
Proof.
  unfold animals_lose_weight. destruct (get_cell k st) as [c | e]; [| discriminate].
  cbn [bind]. intros E. apply keeps_island.
  apply (for_each_island lose_weight_one (get_animals c)); [| exact E].
  intros [| r] a b H; [discriminate |]. cbn [lose_weight_one] in H. now inversion H.
Qed.

Lemma check_life_keeps (k : coord) (x : entry) (st st' : state) :
  accessible_in k st -> check_life k x st = Ok st' -> keeps st st'.
Proof.
  intros Hk. destruct x as [| r]; [discriminate |]. cbn [check_life].
  destruct (update_life_status _ _ _) as [[dead cl] g].
  destruct dead.
  - intros E. apply list_remove_keeps in E; [| exact Hk]. exact E.
  - intros E. inversion E. now apply keeps_island.
Qed.

Lemma iterate_live_keeps (fuel : nat) (s : species) (i : nat) (k : coord)
  (st st' : state) :
  accessible_in k st -> iterate_live fuel s i k st = Ok st' -> keeps st st'.
Proof.
  revert i st. induction fuel as [| fuel IH]; intros i st Hk; cbn [iterate_live].
  - intros E. inversion E. apply keeps_refl.
  - destruct (get_cell k st) as [c | e]; [| discriminate]. cbn [bind].
    destruct (nth_error (animals_of s c) i) as [x |];
      [| intros E; inversion E; apply keeps_refl].
    destruct (check_life k x st) as [st1 | e] eqn:E1; [| discriminate].
    cbn [bind]. intros E.
    pose proof (check_life_keeps k x st st1 Hk E1) as H1.
    eapply keeps_trans; [exact H1 |].
    eapply IH; [| exact E]. now apply (keeps_accessible k st).
Qed.

Lemma update_life_status_of_animals_keeps (k : coord) (st st' : state) :
  accessible_in k st -> update_life_status_of_animals k st = Ok st' -> keeps st st'.
Proof.
  intros Hk. unfold update_life_status_of_animals.
  destruct (get_cell k st) as [c | e]; [| discriminate]. cbn [bind].
  destruct (iterate_live _ Herbivore 0 k st) as [st1 | e] eqn:E1; [| discriminate].
  cbn [bind]. pose proof (iterate_live_keeps _ _ _ _ _ _ Hk E1) as H1.
  destruct (get_cell k st1) as [c1 | e]; [| discriminate]. cbn [bind].
  intros E. eapply keeps_trans; [exact H1 |].
  eapply iterate_live_keeps; [| exact E]. now apply (keeps_accessible k st).
Qed.

(** A stage: the method [f] on every cell of [cells]. *)
Lemma stage_keeps (f : coord -> state -> result state) (cells : list coord) :
  (forall k st st', accessible_in k st -> f k st = Ok st' -> keeps st st') ->
  forall st st',
    Forall (fun k => accessible_in k st) cells ->
    for_each f cells st = Ok st' -> keeps st st'.
Proof.
  intros Hf. induction cells as [| k rest IH]; intros st st' Hall Hrun.
  - inversion Hrun. apply keeps_refl.
  - cbn [for_each] in Hrun. inversion Hall as [| ? ? Hk Hrest]; subst.
    destruct (f k st) as [st1 | e] eqn:E; [| discriminate]. cbn [bind] in Hrun.
    pose proof (Hf k st st1 Hk E) as H1.
    eapply keeps_trans; [exact H1 |].
    apply IH; [| exact Hrun].
    eapply Forall_impl; [| exact Hrest].
    intros k' Hk'. now apply (keeps_accessible k' st).
Qed.

Lemma get_cells_accessible (st : state) :
  StronglySorted coord_lt (map fst (island st)) ->
  Forall (fun k => accessible_in k st) (_get_cells st).
Proof.
  intros Hs. rewrite Forall_forall. intros k Hk. unfold _get_cells in Hk.
  apply in_map_iff in Hk. destruct Hk as [[k' c] [E Hin]]. simpl in E. subst k'.
  apply filter_In in Hin. destruct Hin as [Hin Hacc]. simpl in Hacc.
  exists c. split; [now apply In_find_cell | exact Hacc].
Qed.

(** The seven stages of [_cycle]. *)
Definition stages : list (list coord -> state -> result state) :=
  [ _feed_herbivores_stage; _feed_carnivores_stage; _procreation_stage;
    _migration_stage; _aging_stage; _weight_loss_stage; _death_stage ].

Lemma stage_run_keeps (stage : list coord -> state -> result state)
  (cells : list coord) (st st' : state) :
  In stage stages ->
  Forall (fun k => accessible_in k st) cells ->
  stage cells st = Ok st' -> keeps st st'.
Proof.
  intros Hstage Hcells.
  simpl in Hstage.
  destruct Hstage as [<- | [<- | [<- | [<- | [<- | [<- | [<- | []]]]]]]];
    intros E; (eapply (stage_keeps _ cells); [| exact Hcells | exact E]).
  - intros k a b Ha. cbv beta.
    destruct (set_fodder k a) as [a1 | e] eqn:Ea; [| discriminate]. cbn [bind].
    intros Eb. apply (keeps_trans a a1 b).
    + exact (set_fodder_keeps k a a1 Ea).
    + exact (feed_herbivores_keeps k a1 b Eb).
  - intros k a b. apply facilitate_hunting_keeps.
  - intros k a b Ha. cbv beta. unfold procreate_herbivores, procreate_carnivores.
    destruct (procreate Herbivore k a) as [a1 | e] eqn:Ea; [| discriminate].
    cbn [bind]. intros Eb.
    pose proof (procreate_keeps _ _ _ _ Ha Ea) as Ka.
    eapply keeps_trans; [exact Ka |].
    eapply procreate_keeps; [| exact Eb]. now apply (keeps_accessible k a).
  - intros k a b Ha. cbv beta. unfold migrate_herbivores, migrate_carnivores.
    destruct (migrate Herbivore k a) as [a1 | e] eqn:Ea; [| discriminate].
    cbn [bind]. intros Eb.
    pose proof (migrate_keeps _ _ _ _ Ha Ea) as Ka.
    eapply keeps_trans; [exact Ka |].
    eapply migrate_keeps; [| exact Eb]. now apply (keeps_accessible k a).
  - intros k a b _. apply age_animals_keeps.
  - intros k a b _. apply animals_lose_weight_keeps.
  - intros k a b. apply update_life_status_of_animals_keeps.
Qed.

Lemma cycle_keeps (st st' : state) :
  StronglySorted coord_lt (map fst (island st)) ->
  _cycle st = Ok st' -> keeps st st'.
Proof.
  intros Hs. unfold _cycle.
  pose proof (get_cells_accessible st Hs) as Hcells.
  set (cells := _get_cells st) in *.
  assert (Hnext : forall a b, keeps a b ->
                              Forall (fun k => accessible_in k a) cells ->
                              Forall (fun k => accessible_in k b) cells).
  { intros a b Hab. apply Forall_impl. intros k. now apply keeps_accessible. }
  assert (Hrun : forall stage a b,
             In stage stages -> keeps st a -> stage cells a = Ok b -> keeps st b).
  { intros stage a b Hin Ha E. apply (keeps_trans st a b Ha).
    apply (stage_run_keeps stage cells a b Hin); [| exact E].
    now apply (Hnext st). }
  destruct (_feed_herbivores_stage cells st) as [st1 | e] eqn:E1; [| discriminate].
  cbn [bind].
  destruct (_feed_carnivores_stage cells st1) as [st2 | e] eqn:E2; [| discriminate].
  cbn [bind].
  destruct (_procreation_stage cells st2) as [st3 | e] eqn:E3; [| discriminate].
  cbn [bind].
  destruct (_migration_stage cells st3) as [st4 | e] eqn:E4; [| discriminate].
  cbn [bind].
  destruct (_aging_stage cells st4) as [st5 | e] eqn:E5; [| discriminate].
  cbn [bind].
  destruct (_weight_loss_stage cells st5) as [st6 | e] eqn:E6; [| discriminate].
  cbn [bind]. intros E7.
  assert (K1 : keeps st st1).
  { apply (Hrun _feed_herbivores_stage st st1); [simpl; tauto | apply keeps_refl | easy]. }
  assert (K2 : keeps st st2).
  { apply (Hrun _feed_carnivores_stage st1 st2); [simpl; tauto | easy | easy]. }
  assert (K3 : keeps st st3).
  { apply (Hrun _procreation_stage st2 st3); [simpl; tauto | easy | easy]. }
  assert (K4 : keeps st st4).
  { apply (Hrun _migration_stage st3 st4); [simpl; tauto | easy | easy]. }
  assert (K5 : keeps st st5).
  { apply (Hrun _aging_stage st4 st5); [simpl; tauto | easy | easy]. }
  assert (K6 : keeps st st6).
  { apply (Hrun _weight_loss_stage st5 st6); [simpl; tauto | easy | easy]. }
  apply (Hrun _death_stage st6 st'); [simpl; tauto | easy | easy].
Qed.

Lemma append_animal_keeps (s : species) (loc : coord) (r : nat) (st : state) :
  accessible_in loc st -> keeps st (append_animal s loc r st).
Proof.
  intros [c [Hc Hacc]]. unfold append_animal. rewrite Hc.
  apply (keeps_put loc c (with_animals s (animals_of s c ++ [Ref r]) c) st Hc).
  now apply cell_stable_with_animals.
Qed.

Lemma add_population_keeps (loc : coord) (pop : list descriptor) (st : state) :
  accessible_in loc st -> keeps st (fst (add_population loc pop st)).
Proof.
  revert st. induction pop as [| animal rest IH]; intros st Hloc;
    cbn [add_population]; [apply keeps_refl |].
  destruct (if String.eqb (species_tag animal) "Herbivore" then Some Herbivore
            else if String.eqb (species_tag animal) "Carnivore" then Some Carnivore
                 else None) as [s |]; [| apply keeps_refl].
  destruct (init s _ _ _) as [[a cl] | e]; [| apply keeps_refl].
  unfold allocate.
  match goal with
  | |- keeps st (fst (add_population loc rest (append_animal s loc ?r ?st1))) =>
      assert (H1 : keeps st (append_animal s loc r st1))
  end.
  { apply (keeps_trans st (with_next_ref (S (next_ref (with_classes cl st)))
                             (update_object (next_ref (with_classes cl st)) a
                                            (with_classes cl st)))).
    - now apply keeps_island.
    - apply append_animal_keeps. destruct Hloc as [c Hc]. now exists c. }
  eapply keeps_trans; [exact H1 |]. apply IH. now apply (keeps_accessible loc st).
Qed.

Lemma add_animal_to_island_keeps (entries : list (coord * list descriptor))
  (st : state) :
  keeps st (fst (_add_animal_to_island entries st)).
Proof.
  revert st. induction entries as [| [loc pop] rest IH]; intros st;
    cbn [_add_animal_to_island]; [apply keeps_refl |].
  destruct (find_cell loc (island st)) as [c |] eqn:Hc; [| apply keeps_refl].
  destruct (accessability c) eqn:Hacc; [| apply keeps_refl].
  assert (Hloc : accessible_in loc st) by (exists c; now split).
  pose proof (add_population_keeps loc pop st Hloc) as H1.
  destruct (add_population loc pop st) as [st1 [e |]]; cbn [fst] in *;
    [exact H1 |].
  eapply keeps_trans; [exact H1 | apply IH].
Qed.

(** ** The island that [_create_island] builds *)

(** The letter of the layout at row [i] and column [j], counted from 0. *)
Definition letter_at (rows : list string) (i j : nat) : option ascii :=
  match nth_error rows i with
  | Some line => nth_error (list_ascii_of_string line) j
  | None => None
  end.

(** The cell that the loops of [_create_island] put under the key [k], for
    the lines [rows] that start at row [x]. *)
Definition grid_cell (tt : terrain_tables) (x : Z) (rows : list string) (k : coord)
  : option cell :=
  if ((x <? fst k) && (0 <? snd k))%Z then
    match letter_at rows (Z.to_nat (fst k - x - 1)) (Z.to_nat (snd k - 1)) with
    | Some ch => option_map (new_cell tt) (type_dict ch)
    | None => None
    end
  else None.

Lemma find_cell_app (k : coord) (a b : list (coord * cell)) :
  find_cell k (a ++ b)
  = match find_cell k a with
    | Some c => Some c
    | None => find_cell k b
    end.
Proof.
  induction a as [| [k1 c1] rest IH]; simpl; [reflexivity |].
  destruct (coord_eqb k1 k); [reflexivity | exact IH].
Qed.

Lemma create_line_find (tt : terrain_tables) (x y : Z) (line : list ascii)
  (cells : list (coord * cell)) :
  create_line tt x y line = Ok cells ->
  forall k,
    find_cell k cells
    = if ((fst k =? x + 1) && (y <? snd k))%Z then
        match nth_error line (Z.to_nat (snd k - y - 1)) with
        | Some ch => option_map (new_cell tt) (type_dict ch)
        | None => None
        end
      else None.
Proof.
  revert y cells. induction line as [| letter rest IH]; intros y cells;
    cbn [create_line].
  - intros E. inversion E. intros k. simpl.
    destruct ((fst k =? x + 1) && (y <? snd k))%Z; [| reflexivity].
    now destruct (Z.to_nat (snd k - y - 1)).
  - unfold _create_cell.
    destruct (type_dict letter) as [t |] eqn:Et; [| discriminate]. cbn [bind].
    destruct (create_line tt x (y + 1) rest) as [more | e] eqn:Em; [| discriminate].
    cbn [bind]. intros E. inversion E; subst cells. clear E.
    intros [kx ky]. cbn [find_cell fst snd]. unfold coord_eqb. cbn [fst snd].
    rewrite (IH (y + 1)%Z more Em (kx, ky)). cbn [fst snd].
    destruct (Z.eqb_spec (x + 1) kx) as [E1 | E1];
      destruct (Z.eqb_spec (y + 1) ky) as [E2 | E2]; cbn [andb].
    + subst kx ky. rewrite Z.eqb_refl.
      replace (y <? y + 1)%Z with true by (symmetry; apply Z.ltb_lt; lia).
      cbn [andb]. replace (Z.to_nat (y + 1 - y - 1)) with 0%nat by lia.
      cbn [nth_error]. now rewrite Et.
    + subst kx. rewrite Z.eqb_refl. cbn [andb].
      destruct (y + 1 <? ky)%Z eqn:E3.
      * apply Z.ltb_lt in E3.
        replace (y <? ky)%Z with true by (symmetry; apply Z.ltb_lt; lia).
        replace (Z.to_nat (ky - y - 1)) with (S (Z.to_nat (ky - (y + 1) - 1))) by lia.
        reflexivity.
      * apply Z.ltb_ge in E3.
        replace (y <? ky)%Z with false by (symmetry; apply Z.ltb_ge; lia).
        reflexivity.
    + replace (kx =? x + 1)%Z with false by (symmetry; apply Z.eqb_neq; lia).
      reflexivity.
    + replace (kx =? x + 1)%Z with false by (symmetry; apply Z.eqb_neq; lia).
      reflexivity.
Qed.

Lemma create_lines_find (tt : terrain_tables) (x : Z) (rows : list string)
  (isl : list (coord * cell)) :
  create_lines tt x rows = Ok isl ->
  forall k, find_cell k isl = grid_cell tt x rows k.
Proof.
  revert x isl. induction rows as [| line rest IH]; intros x isl;
    cbn [create_lines].
  - intros E. inversion E. intros k. unfold grid_cell, letter_at. simpl.
    destruct ((x <? fst k) && (0 <? snd k))%Z; [| reflexivity].
    now destruct (Z.to_nat (fst k - x - 1)).
  - destruct (create_line tt x 0 (list_ascii_of_string line)) as [cells | e] eqn:Ec;
      [| discriminate].
    cbn [bind].
    destruct (create_lines tt (x + 1) rest) as [more | e] eqn:Em; [| discriminate].
    cbn [bind]. intros E. inversion E; subst isl. clear E.
    intros [kx ky]. rewrite find_cell_app.
    rewrite (create_line_find tt x 0 _ cells Ec (kx, ky)).
    rewrite (IH (x + 1)%Z more Em (kx, ky)).
    unfold grid_cell, letter_at. cbn [fst snd].
    destruct (Z.eqb_spec kx (x + 1)) as [E1 | E1].
    + subst kx.
      replace (x <? x + 1)%Z with true by (symmetry; apply Z.ltb_lt; lia).
      replace (x + 1 <? x + 1)%Z with false by (symmetry; apply Z.ltb_ge; lia).
      replace (Z.to_nat (x + 1 - x - 1)) with 0%nat by lia.
      cbn [andb nth_error].
      destruct (0 <? ky)%Z; [| reflexivity].
      replace (ky - 0 - 1)%Z with (ky - 1)%Z by lia.
      destruct (nth_error (list_ascii_of_string line) (Z.to_nat (ky - 1)))
        as [ch |]; [| reflexivity].
      now destruct (type_dict ch).
    + cbn [andb].
      destruct (x + 1 <? kx)%Z eqn:E3.
      * apply Z.ltb_lt in E3.
        replace (x <? kx)%Z with true by (symmetry; apply Z.ltb_lt; lia).
        replace (Z.to_nat (kx - x - 1)) with (S (Z.to_nat (kx - (x + 1) - 1))) by lia.
        reflexivity.
      * apply Z.ltb_ge in E3. cbn [andb].
        destruct (x <? kx)%Z eqn:E4; [| reflexivity].
        apply Z.ltb_lt in E4. lia.
Qed.

Lemma create_line_keys (tt : terrain_tables) (x y : Z) (line : list ascii)
  (cells : list (coord * cell)) :
  create_line tt x y line = Ok cells ->
  StronglySorted coord_lt (map fst cells) /\
  Forall (fun k => fst k = (x + 1)%Z /\ (y < snd k)%Z) (map fst cells).
Proof.
  revert y cells. induction line as [| letter rest IH]; intros y cells;
    cbn [create_line].
  - intros E. inversion E. simpl. split; constructor.
  - destruct (_create_cell tt letter) as [c |]; [| discriminate]. cbn [bind].
    destruct (create_line tt x (y + 1) rest) as [more | e] eqn:Em; [| discriminate].
    cbn [bind]. intros E. inversion E; subst cells. clear E.
    destruct (IH (y + 1)%Z more Em) as [Hs Hall]. simpl. split.
    + constructor; [exact Hs |].
      eapply Forall_impl; [| exact Hall].
      intros k [H1 H2]. unfold coord_lt. simpl. lia.
    + constructor; [simpl; lia |].
      eapply Forall_impl; [| exact Hall]. intros k [H1 H2]. lia.
Qed.

Lemma sorted_app (a b : list coord) :
  StronglySorted coord_lt a -> StronglySorted coord_lt b ->
  (forall p q, In p a -> In q b -> coord_lt p q) ->
  StronglySorted coord_lt (a ++ b).
Proof.
  intros Ha Hb Hab. induction Ha as [| p a Ha IH Hp]; simpl; [exact Hb |].
  constructor.
  - apply IH. intros p' q Hp' Hq. apply Hab; [now right | exact Hq].
  - apply Forall_app. split; [exact Hp |].
    rewrite Forall_forall. intros q Hq. apply Hab; [now left | exact Hq].
Qed.

Lemma create_lines_keys (tt : terrain_tables) (x : Z) (rows : list string)
  (isl : list (coord * cell)) :
  create_lines tt x rows = Ok isl ->
  StronglySorted coord_lt (map fst isl) /\
  Forall (fun k => (x < fst k)%Z) (map fst isl).
Proof.
  revert x isl. induction rows as [| line rest IH]; intros x isl;
    cbn [create_lines].
  - intros E. inversion E. simpl. split; constructor.
  - destruct (create_line tt x 0 (list_ascii_of_string line)) as [cells | e] eqn:Ec;
      [| discriminate].
    cbn [bind].
    destruct (create_lines tt (x + 1) rest) as [more | e] eqn:Em; [| discriminate].
    cbn [bind]. intros E. inversion E; subst isl. clear E.
    destruct (create_line_keys tt x 0 _ cells Ec) as [Hs1 Hall1].
    destruct (IH (x + 1)%Z more Em) as [Hs2 Hall2].
    rewrite map_app. rewrite Forall_forall in Hall1, Hall2. split.
    + apply sorted_app; [exact Hs1 | exact Hs2 |].
      intros p q Hp Hq. specialize (Hall1 p Hp). specialize (Hall2 q Hq).
      unfold coord_lt. lia.
    + apply Forall_app. split; rewrite Forall_forall; intros k Hk.
      * specialize (Hall1 k Hk). lia.
      * specialize (Hall2 k Hk). lia.
Qed.

Lemma create_line_letters (tt : terrain_tables) (x y : Z) (line : list ascii)
  (cells : list (coord * cell)) :
  create_line tt x y line = Ok cells ->
  forall j ch, nth_error line j = Some ch -> exists t, type_dict ch = Some t.
Proof.
  revert y cells. induction line as [| letter rest IH]; intros y cells;
    cbn [create_line].
  - intros _ [| j] ch H; discriminate.
  - unfold _create_cell.
    destruct (type_dict letter) as [t |] eqn:Et; [| discriminate]. cbn [bind].
    destruct (create_line tt x (y + 1) rest) as [more | e] eqn:Em; [| discriminate].
    intros _ [| j] ch H; simpl in H.
    + inversion H; subst. eauto.
    + now apply (IH (y + 1)%Z more Em j).
Qed.

Lemma create_lines_letters (tt : terrain_tables) (x : Z) (rows : list string)
  (isl : list (coord * cell)) :
  create_lines tt x rows = Ok isl ->
  forall i j ch, letter_at rows i j = Some ch -> exists t, type_dict ch = Some t.
Proof.
  revert x isl. induction rows as [| line rest IH]; intros x isl;
    cbn [create_lines].
  - intros _ [| i] j ch H; discriminate.
  - destruct (create_line tt x 0 (list_ascii_of_string line)) as [cells | e] eqn:Ec;
      [| discriminate].
    cbn [bind].
    destruct (create_lines tt (x + 1) rest) as [more | e] eqn:Em; [| discriminate].
    intros _ [| i] j ch H; unfold letter_at in H; simpl in H.
    + now apply (create_line_letters tt x 0 _ cells Ec j).
    + now apply (IH (x + 1)%Z more Em i j).
Qed.

Lemma insert_adjacent_keys (isl : list (coord * cell)) :
  map fst (_insert_adjacent_cells isl) = map fst isl.
Proof.
  unfold _insert_adjacent_cells. rewrite map_map.
  apply map_ext. now intros [k c].
Qed.

Lemma find_cell_map (g : coord -> cell -> cell) (k : coord)
  (l : list (coord * cell)) :
  find_cell k (map (fun kc : coord * cell => let (k', c) := kc in (k', g k' c)) l)
  = option_map (g k) (find_cell k l).
Proof.
  induction l as [| [k1 c1] rest IH]; simpl; [reflexivity |].
  destruct (coord_eqb k1 k) eqn:E; [| exact IH].
  apply coord_eqb_eq in E. now subst.
Qed.

Lemma insert_adjacent_find (isl : list (coord * cell)) (k : coord) :
  find_cell k (_insert_adjacent_cells isl)
  = option_map
      (fun c => with_adjacent (adjacent_cells c ++ map (neighbour isl k) direction_dict) c)
      (find_cell k isl).
Proof.
  unfold _insert_adjacent_cells.
  apply (find_cell_map
           (fun k c => with_adjacent
                         (adjacent_cells c ++ map (neighbour isl k) direction_dict) c)).
Qed.

Lemma length_list_ascii (s : string) :
  List.length (list_ascii_of_string s) = String.length s.
Proof. induction s as [| ch s IH]; simpl; [reflexivity | now rewrite IH]. Qed.

Lemma consistent_rows (rows : list string) :
  adjacent_pairs (fun a b => Nat.eqb (String.length a) (String.length b)) rows = true ->
  forall a b, In a rows -> In b rows -> String.length a = String.length b.
Proof.
  intros H.
  assert (Hhead : forall a0 rest,
             adjacent_pairs (fun a b => Nat.eqb (String.length a) (String.length b))
                            (a0 :: rest) = true ->
             forall b, In b rest -> String.length a0 = String.length b).
  { intros a0 rest. revert a0. induction rest as [| b0 rest IH]; intros a0 H0 b Hb;
      [contradiction |].
    simpl in H0. apply andb_true_iff in H0. destruct H0 as [E Hrest].
    apply Nat.eqb_eq in E. destruct Hb as [-> | Hb]; [exact E |].
    rewrite E. now apply (IH b0). }
  assert (Hall : forall a, In a rows ->
                           String.length a = String.length (hd EmptyString rows)).
  { destruct rows as [| a0 rest]; [contradiction |].
    intros a [<- | Ha]; [reflexivity |]. simpl. symmetry. now apply (Hhead a0 rest). }
  intros a b Ha Hb. now rewrite (Hall a Ha), (Hall b Hb).
Qed.

Lemma forallb_combine_seq {A : Type} (f : nat * A -> bool) (l : list A) (a : nat) :
  forallb f (combine (seq a (List.length l)) l) = true ->
  forall i x, nth_error l i = Some x -> f ((a + i)%nat, x) = true.
Proof.
  revert a. induction l as [| y rest IH]; intros a H i x Hx.
  - destruct i; discriminate.
  - simpl in H. apply andb_true_iff in H. destruct H as [Hy Hrest].
    destruct i as [| i]; simpl in Hx.
    + inversion Hx; subst. now rewrite Nat.add_0_r.
    + replace (a + S i)%nat with (S a + i)%nat by lia. now apply IH.
Qed.

Lemma forallb_enumerate {A : Type} (f : nat * A -> bool) (l : list A) :
  forallb f (enumerate l) = true ->
  forall i x, nth_error l i = Some x -> f (i, x) = true.
Proof. intros H i x Hx. exact (forallb_combine_seq f l 0 H i x Hx). Qed.

(** What [_check_if_island] has checked. *)
Lemma check_if_island_spec (landscape_string : string) :
  _check_if_island landscape_string = Ok tt ->
  forall i j line ch,
    nth_error (splitlines landscape_string) i = Some line ->
    nth_error (list_ascii_of_string line) j = Some ch ->
    i = 0%nat \/ i = (List.length (splitlines landscape_string) - 1)%nat \/
    j = 0%nat \/ j = (String.length line - 1)%nat ->
    ch = "W"%char.
Proof.
  unfold _check_if_island.
  destruct (forallb _ (enumerate (splitlines landscape_string))) eqn:E;
    [| discriminate].
  intros _ i j line ch Hline Hch Hedge.
  pose proof (forallb_enumerate _ _ E i line Hline) as Hrow. cbv beta iota in Hrow.
  pose proof (forallb_enumerate _ _ Hrow j ch Hch) as Hcol. cbv beta iota in Hcol.
  replace (Nat.eqb i 0 || Nat.eqb i (List.length (splitlines landscape_string) - 1)
           || Nat.eqb j 0 || Nat.eqb j (String.length line - 1)) with true in Hcol.
  - now apply Ascii.eqb_eq.
  - symmetry. rewrite !orb_true_iff, !Nat.eqb_eq. tauto.
Qed.

Lemma splitlines_rows (landscape_string : string) (row : string) :
  adjacent_pairs (fun a b => Nat.eqb (String.length a) (String.length b))
                 (split_newline landscape_string) = true ->
  In row (split_newline landscape_string) -> row <> EmptyString ->
  splitlines landscape_string = split_newline landscape_string.
Proof.
  intros Hcons Hrow Hne. unfold splitlines.
  destruct (rev (split_newline landscape_string)) as [| last front] eqn:E;
    [reflexivity |].
  destruct last as [| ch last]; [| reflexivity].
  exfalso. apply Hne.
  assert (Hlast : In EmptyString (split_newline landscape_string)).
  { apply in_rev. rewrite E. now left. }
  pose proof (consistent_rows _ Hcons row EmptyString Hrow Hlast) as Hlen.
  destruct row; [reflexivity | discriminate].
Qed.

(** A letter other than [W] stands in the interior of the layout, so its
    four neighbours are letters of the layout too. *)
Lemma interior_letter (landscape_string : string) (i j : nat) (ch : ascii) :
  _check_if_consistent_rows_input landscape_string = Ok tt ->
  _check_if_island landscape_string = Ok tt ->
  letter_at (split_newline landscape_string) i j = Some ch ->
  ch <> "W"%char ->
  (0 < i)%nat /\ (0 < j)%nat /\
  forall i' j',
    (i' = (i - 1)%nat /\ j' = j) \/ (i' = i /\ j' = S j) \/
    (i' = S i /\ j' = j) \/ (i' = i /\ j' = (j - 1)%nat) ->
    exists ch', letter_at (split_newline landscape_string) i' j' = Some ch'.
Proof.
  unfold _check_if_consistent_rows_input.
  set (rows := split_newline landscape_string).
  destruct (adjacent_pairs _ rows) eqn:Hcons; [| discriminate].
  intros _ Hcheck Hletter Hnot.
  unfold letter_at in Hletter.
  destruct (nth_error rows i) as [line |] eqn:Hline; [| discriminate].
  assert (Hin : In line rows) by (eapply nth_error_In; exact Hline).
  assert (Hj : (j < String.length line)%nat).
  { rewrite <- length_list_ascii. apply nth_error_Some. congruence. }
  assert (Hsame : splitlines landscape_string = rows).
  { apply (splitlines_rows landscape_string line Hcons Hin).
    intros ->. simpl in Hj. lia. }
  pose proof (check_if_island_spec landscape_string Hcheck i j line ch) as Hedge.
  rewrite Hsame in Hedge. specialize (Hedge Hline Hletter).
  assert (Hi : (i < List.length rows)%nat) by (apply nth_error_Some; congruence).
  assert (Hinner : (0 < i /\ S i < List.length rows /\ 0 < j /\
                    S j < String.length line)%nat).
  { repeat split.
    - destruct i; [| lia]. exfalso. apply Hnot, Hedge. tauto.
    - destruct (Nat.eq_dec i (List.length rows - 1)); [| lia].
      exfalso. apply Hnot, Hedge. tauto.
    - destruct j; [| lia]. exfalso. apply Hnot, Hedge. tauto.
    - destruct (Nat.eq_dec j (String.length line - 1)); [| lia].
      exfalso. apply Hnot, Hedge. tauto. }
  destruct Hinner as [Hi0 [Hi1 [Hj0 Hj1]]].
  split; [exact Hi0 | split; [exact Hj0 |]].
  intros i' j' Hcase.
  assert (Hi' : (i' < List.length rows)%nat) by lia.
  destruct (nth_error rows i') as [line' |] eqn:Hline';
    [| apply nth_error_None in Hline'; lia].
  assert (Hlen : String.length line' = String.length line).
  { apply (consistent_rows rows Hcons); [eapply nth_error_In; exact Hline' | exact Hin]. }
  assert (Hj' : (j' < List.length (list_ascii_of_string line'))%nat).
  { rewrite length_list_ascii, Hlen. lia. }
  unfold letter_at. rewrite Hline'.
  destruct (nth_error (list_ascii_of_string line') j') as [ch' |] eqn:Hch';
    [eauto | apply nth_error_None in Hch'; lia].
Qed.

Lemma grid_cell_accessible (tt : terrain_tables) (rows : list string) (k : coord)
  (c : cell) :
  grid_cell tt 0 rows k = Some c -> accessability c = true ->
  exists i j ch,
    k = (Z.of_nat i + 1, Z.of_nat j + 1)%Z /\
    letter_at rows i j = Some ch /\ ch <> "W"%char.
Proof.
  unfold grid_cell. destruct k as [kx ky]. cbn [fst snd].
  destruct ((0 <? kx) && (0 <? ky))%Z eqn:E; [| discriminate].
  apply andb_true_iff in E. destruct E as [Ex Ey].
  apply Z.ltb_lt in Ex, Ey.
  destruct (letter_at rows (Z.to_nat (kx - 0 - 1)) (Z.to_nat (ky - 1)))
    as [ch |] eqn:Hch; [| discriminate].
  destruct (type_dict ch) as [t |] eqn:Et; [| discriminate].
  cbn [option_map]. intros E Hacc. inversion E; subst c. clear E.
  exists (Z.to_nat (kx - 0 - 1)), (Z.to_nat (ky - 1)), ch.
  split; [f_equal; lia | split; [exact Hch |]].
  intros ->. cbv in Et. inversion Et; subst t. discriminate.
Qed.

Lemma grid_cell_of_letter (tt : terrain_tables) (rows : list string) (i j : nat)
  (ch : ascii) (t : terrain) :
  letter_at rows i j = Some ch -> type_dict ch = Some t ->
  grid_cell tt 0 rows (Z.of_nat i + 1, Z.of_nat j + 1)%Z = Some (new_cell tt t).
Proof.
  intros Hch Ht. unfold grid_cell. cbn [fst snd].
  replace ((0 <? Z.of_nat i + 1) && (0 <? Z.of_nat j + 1))%Z with true
    by (symmetry; apply andb_true_iff; split; apply Z.ltb_lt; lia).
  replace (Z.to_nat (Z.of_nat i + 1 - 0 - 1)) with i by lia.
  replace (Z.to_nat (Z.of_nat j + 1 - 1)) with j by lia.
  now rewrite Hch, Ht.
Qed.

(** [_create_island] builds a well-formed island whose lists are empty. *)
Lemma created_island (landscape_string : string) (st st' : state) :
  _create_island landscape_string st = Ok st' ->
  wf_island (island st') /\
  forall k c, In (k, c) (island st') -> herb_list c = [] /\ carn_list c = [].
Proof.
  unfold _create_island.
  destruct (_check_if_consistent_rows_input landscape_string) as [[] | e] eqn:Hcons;
    [| discriminate].
  cbn [bind].
  destruct (_find_island_shape landscape_string) as [shape | e]; [| discriminate].
  cbn [bind].
  destruct (_check_if_island landscape_string) as [[] | e] eqn:Hcheck;
    [| discriminate].
  cbn [bind].
  set (rows := split_newline landscape_string).
  destruct (create_lines (tables st) 0 rows) as [isl | e] eqn:Hisl; [| discriminate].
  cbn [bind]. intros E. inversion E; subst st'. clear E. simpl island.
  pose proof (create_lines_find _ _ _ _ Hisl) as Hfind.
  pose proof (create_lines_letters _ _ _ _ Hisl) as Hletters.
  destruct (create_lines_keys _ _ _ _ Hisl) as [Hsorted _].
  assert (Hnew : forall k c, find_cell k isl = Some c -> adjacent_cells c = [] /\
                             herb_list c = [] /\ carn_list c = []).
  { intros k c Hc. rewrite Hfind in Hc. unfold grid_cell in Hc.
    destruct ((0 <? fst k) && (0 <? snd k))%Z; [| discriminate].
    destruct (letter_at rows _ _) as [ch |]; [| discriminate].
    destruct (type_dict ch) as [t |]; [| discriminate].
    inversion Hc. simpl. tauto. }
  assert (Hneigh : forall k c d,
             find_cell k isl = Some c -> accessability c = true ->
             In d direction_dict ->
             exists c', find_cell (shift k d) isl = Some c').
  { intros k c d Hc Hacc Hd. rewrite Hfind in Hc.
    destruct (grid_cell_accessible _ _ _ _ Hc Hacc) as [i [j [ch [-> [Hch Hnot]]]]].
    destruct (interior_letter landscape_string i j ch Hcons Hcheck Hch Hnot)
      as [Hi [Hj Hnear]].
    assert (Hat : forall i' j',
               (i' = (i - 1)%nat /\ j' = j) \/ (i' = i /\ j' = S j) \/
               (i' = S i /\ j' = j) \/ (i' = i /\ j' = (j - 1)%nat) ->
               exists c', find_cell (Z.of_nat i' + 1, Z.of_nat j' + 1)%Z isl = Some c').
    { intros i' j' Hcase. destruct (Hnear i' j' Hcase) as [ch' Hch'].
      destruct (Hletters i' j' ch' Hch') as [t' Ht'].
      exists (new_cell (tables st) t'). rewrite Hfind.
      now apply grid_cell_of_letter with ch'. }
    unfold shift. cbn [fst snd].
    simpl in Hd. destruct Hd as [<- | [<- | [<- | [<- | []]]]]; cbn [fst snd].
    - destruct (Hat (i - 1)%nat j) as [c' Hc']; [tauto |]. exists c'.
      rewrite <- Hc'. f_equal. f_equal; lia.
    - destruct (Hat i (S j)) as [c' Hc']; [tauto |]. exists c'.
      rewrite <- Hc'. f_equal. f_equal; lia.
    - destruct (Hat (S i) j) as [c' Hc']; [tauto |]. exists c'.
      rewrite <- Hc'. f_equal. f_equal; lia.
    - destruct (Hat i (j - 1)%nat) as [c' Hc']; [tauto |]. exists c'.
      rewrite <- Hc'. f_equal. f_equal; lia. }
  split; [split |].
  - rewrite insert_adjacent_keys. exact Hsorted.
  - intros k c' Hc' Hacc. rewrite insert_adjacent_find in Hc'.
    destruct (find_cell k isl) as [c |] eqn:Hc; [| discriminate].
    cbn [option_map] in Hc'. inversion Hc'; subst c'. clear Hc'.
    destruct (Hnew k c Hc) as [Hadj _]. simpl in Hacc.
    unfold with_adjacent. cbn [adjacent_cells].
    rewrite Hadj. cbn [app].
    change (map (neighbour isl k) direction_dict
            = map (fun d => Some (shift k d)) direction_dict).
    apply map_ext_in. intros d Hd.
    unfold neighbour. fold (shift k d).
    destruct (Hneigh k c d Hc Hacc Hd) as [n Hn]. now rewrite Hn.
  - intros k c' d Hc' Hacc Hd. rewrite insert_adjacent_find in Hc'.
    destruct (find_cell k isl) as [c |] eqn:Hc; [| discriminate].
    cbn [option_map] in Hc'. inversion Hc'; subst c'. clear Hc'. simpl in Hacc.
    destruct (Hneigh k c d Hc Hacc Hd) as [n Hn].
    rewrite insert_adjacent_find, Hn. cbn [option_map]. eauto.
  - intros k c' Hin.
    assert (Hs' : StronglySorted coord_lt (map fst (_insert_adjacent_cells isl))).
    { rewrite insert_adjacent_keys. exact Hsorted. }
    apply (In_find_cell k c' _ Hs') in Hin. rewrite insert_adjacent_find in Hin.
    destruct (find_cell k isl) as [c |] eqn:Hc; [| discriminate].
    cbn [option_map] in Hin. inversion Hin; subst c'.
    destruct (Hnew k c Hc) as [_ [H1 H2]]. simpl. now split.
Qed.

(** ** Reachable states *)

(** The states of a process after an island has been created: populations
    are inserted (what an insertion has put in before it raises stays),
    parameters are set, and stages or whole cycles are run over the
    accessible cells. *)
Inductive reachable : state -> Prop :=
| reach_create (landscape_string : string) (st st' : state) :
    _create_island landscape_string st = Ok st' -> reachable st'
| reach_add (entries : list (coord * list descriptor)) (st : state) :
    reachable st -> reachable (fst (_add_animal_to_island entries st))
| reach_animal_parameters (title : string) (parameters : list (string * R))
    (st : state) :
    reachable st -> reachable (fst (_set_animal_parameters title parameters st))
| reach_landscape_parameters (landscape : ascii) (parameters : list (string * R))
    (st : state) :
    reachable st ->
    reachable (fst (_set_landscape_parameters landscape parameters st))
| reach_stage (stage : list coord -> state -> result state) (st st' : state) :
    In stage stages -> reachable st -> stage (_get_cells st) st = Ok st' ->
    reachable st'
| reach_cycle (st st' : state) :
    reachable st -> _cycle st = Ok st' -> reachable st'.

Definition water_empty (isl : list (coord * cell)) : Prop :=
  forall k c, In (k, c) isl -> accessability c = false ->
              herb_list c = [] /\ carn_list c = [].

Lemma stable_water_empty (isl isl' : list (coord * cell)) :
  stable isl isl' -> water_empty isl -> water_empty isl'.
Proof.
  unfold water_empty.
  induction 1 as [| [k1 c1] [k2 c2] a b [Hk [Hacc [_ [_ Hlists]]]] _ IH];
    intros Hw k c Hin Hc; [contradiction |].
  simpl in Hk, Hacc, Hlists. destruct Hin as [E | Hin].
  - inversion E; subst k2 c2. rewrite Hacc in Hc.
    destruct (Hlists Hc) as [H1 H2]. rewrite H1, H2.
    apply (Hw k1 c1); [now left | exact Hc].
  - apply (IH (fun k' c' H => Hw k' c' (or_intror H)) k c Hin Hc).
Qed.

Lemma set_animal_parameters_island (title : string) (parameters : list (string * R))
  (st : state) :
  island (fst (_set_animal_parameters title parameters st)) = island st.
Proof.
  unfold _set_animal_parameters, set_animal_parameters.
  destruct (String.eqb title "Herbivore").
  - now destruct (Animal.set_params Herbivore parameters (classes_of st)).
  - destruct (String.eqb title "Carnivore"); [| reflexivity].
    now destruct (Animal.set_params Carnivore parameters (classes_of st)).
Qed.

Lemma set_landscape_parameters_island (landscape : ascii)
  (parameters : list (string * R)) (st : state) :
  island (fst (_set_landscape_parameters landscape parameters st)) = island st.
Proof.
  unfold _set_landscape_parameters.
  destruct (type_dict landscape) as [t |]; [| reflexivity].
  now destruct (Landscape.set_params t parameters (tables st)).
Qed.

Lemma reachable_invariant (st : state) :
  reachable st -> wf_island (island st) /\ water_empty (island st).
Proof.
  induction 1 as [layout st st' Hcreate
                 | entries st _ [Hwf Hw]
                 | title parameters st _ IH
                 | landscape parameters st _ IH
                 | stage st st' Hstage _ [Hwf Hw] Hrun
                 | st st' _ [Hwf Hw] Hrun].
  - destruct (created_island layout st st' Hcreate) as [Hwf Hempty].
    split; [exact Hwf |]. intros k c Hin _. now apply (Hempty k).
  - pose proof (add_animal_to_island_keeps entries st) as Hk.
    split; [now apply (stable_wf _ _ Hk) | now apply (stable_water_empty _ _ Hk)].
  - now rewrite set_animal_parameters_island.
  - now rewrite set_landscape_parameters_island.
  - assert (Hk : keeps st st').
    { apply (stage_run_keeps stage (_get_cells st) st st' Hstage); [| exact Hrun].
      apply get_cells_accessible. apply (wf_order _ Hwf). }
    split; [now apply (stable_wf _ _ Hk) | now apply (stable_water_empty _ _ Hk)].
  - assert (Hk : keeps st st').
    { apply cycle_keeps; [apply (wf_order _ Hwf) | exact Hrun]. }
    split; [now apply (stable_wf _ _ Hk) | now apply (stable_water_empty _ _ Hk)].
Qed.

(** ** A destination that is not accessible *)

Lemma migrate_one_blocked (s : species) (self : coord) (r : nat) (st : state)
  (g1 g2 : Random.generator) (d : nat) (c dc : cell) (dst : coord) :
  migrate_or_not (params_of (classes_of st) (kind (objects st r))) (objects st r)
                 (gen st) = (true, g1) ->
  migration_direction g1 = (d, g2) ->
  find_cell self (island st) = Some c ->
  nth_error (adjacent_cells c) d = Some (Some dst) ->
  find_cell dst (island st) = Some dc -> accessability dc = false ->
  migrate_one s self (Ref r) st
  = Ok (record (Directed s r d)
               (with_gen g2 (record (Decided s r true) (with_gen g1 st)))).
Proof.
  intros Hgo Hdir Hc Hnth Hdc Hacc.
  unfold migrate_one. rewrite Hgo, Hdir.
  unfold get_cell at 1. simpl island. rewrite Hc. cbn [bind]. rewrite Hnth.
  unfold get_cell at 1. simpl island. rewrite Hdc. cbn [bind]. now rewrite Hacc.
Qed.

Lemma in_get_cells (k : coord) (c : cell) (st : state) :
  find_cell k (island st) = Some c -> accessability c = true ->
  In k (_get_cells st).
Proof.
  intros Hc Hacc. unfold _get_cells. apply in_map_iff. exists (k, c).
  split; [reflexivity |]. apply filter_In. split; [now apply find_cell_In | exact Hacc].
Qed.

Lemma migrate_one_sanctuary (s : species) (k : coord) (r : nat) (st : state) :
  wf_island (island st) -> _get_cells st = [k] ->
  exists st', migrate_one s k (Ref r) st = Ok st' /\ island st' = island st.
Proof.
  intros Hwf Hcells.
  assert (Hk : accessible_in k st).
  { pose proof (get_cells_accessible st (wf_order _ Hwf)) as H.
    rewrite Hcells in H. now inversion H. }
  destruct Hk as [c [Hc Hacc]].
  destruct (migrate_or_not (params_of (classes_of st) (kind (objects st r)))
                           (objects st r) (gen st)) as [migrates g1] eqn:Hgo.
  destruct migrates.
  2:{ eexists. unfold migrate_one. rewrite Hgo. split; reflexivity. }
  destruct (migration_direction g1) as [d g2] eqn:Hdir.
  pose proof (migration_direction_range _ _ _ Hdir) as Hd.
  destruct (direction_order k d Hd) as [off [Hnth [Hoff [Hne _]]]].
  destruct (wf_inside _ Hwf k c off Hc Hacc Hoff) as [dc Hdc].
  assert (Hblocked : accessability dc = false).
  { destruct (accessability dc) eqn:E; [| reflexivity].
    pose proof (in_get_cells _ _ _ Hdc E) as Hin. rewrite Hcells in Hin.
    destruct Hin as [Hin | []]. congruence. }
  eexists. split.
  - apply (migrate_one_blocked s k r st g1 g2 d c dc (shift k off) Hgo Hdir Hc);
      [| exact Hdc | exact Hblocked].
    rewrite (wf_adjacent _ Hwf k c Hc Hacc).
    exact (map_nth_error (fun d0 => Some (shift k d0)) d direction_dict Hnth).
  - reflexivity.
Qed.

Lemma firstn_no_sentinel (l : list entry) :
  ~ In Sentinel (firstn (index_of_sentinel l) l).
Proof.
  induction l as [| [| r] rest IH]; simpl; [tauto | tauto |].
  intros [H | H]; [discriminate | tauto].
Qed.

Lemma migrate_loop_sanctuary (s : species) (k : coord) (l : list entry) (st : state) :
  wf_island (island st) -> _get_cells st = [k] -> ~ In Sentinel l ->
  exists st', for_each (migrate_one s k) l st = Ok st' /\ island st' = island st.
Proof.
  revert st. induction l as [| [| r] rest IH]; intros st Hwf Hcells Hl.
  - exists st. now split.
  - exfalso. apply Hl. now left.
  - destruct (migrate_one_sanctuary s k r st Hwf Hcells) as [st1 [E1 I1]].
    destruct (IH st1) as [st2 [E2 I2]].
    + now rewrite I1.
    + unfold _get_cells in *. now rewrite I1.
    + intros H. apply Hl. now right.
    + exists st2. split; [| congruence].
      cbn [for_each]. rewrite E1. cbn [bind]. exact E2.
Qed.

Lemma migrate_sanctuary (s : species) (k : coord) (st : state) (c : cell) :
  wf_island (island st) -> _get_cells st = [k] ->
  find_cell k (island st) = Some c ->
  exists st',
    migrate s k st = Ok st' /\
    island st'
    = replace_cell k (with_animals s (remove_sentinels (animals_of s c)) c) (island st).
Proof.
  intros Hwf Hcells Hc.
  destruct (migrate_loop_sanctuary s k
              (firstn (index_of_sentinel (animals_of s c)) (animals_of s c)) st
              Hwf Hcells (firstn_no_sentinel _)) as [st1 [E1 I1]].
  eexists. split.
  - unfold migrate, get_cell. rewrite Hc. cbn [bind]. rewrite E1. cbn [bind].
    rewrite I1, Hc. reflexivity.
  - simpl island. now rewrite I1.
Qed.

(** The stage on an island with one accessible cell: the animals of that
    cell are the same afterwards, in the same order. *)
Lemma migration_stage_sanctuary (k : coord) (st : state) :
  wf_island (island st) -> _get_cells st = [k] ->
  exists st',
    _migration_stage (_get_cells st) st = Ok st' /\
    forall s, contents s (island st') k = remove_sentinels (contents s (island st) k).
Proof.
  intros Hwf Hcells.
  assert (Hk : accessible_in k st).
  { pose proof (get_cells_accessible st (wf_order _ Hwf)) as H.
    rewrite Hcells in H. now inversion H. }
  destruct Hk as [c [Hc Hacc]].
  destruct (migrate_sanctuary Herbivore k st c Hwf Hcells Hc) as [st1 [E1 I1]].
  set (c1 := with_animals Herbivore (remove_sentinels (animals_of Herbivore c)) c) in *.
  assert (K1 : keeps st st1).
  { unfold keeps. rewrite I1. apply (stable_replace k c c1 _ Hc).
    now apply cell_stable_with_animals. }
  assert (Hc1 : find_cell k (island st1) = Some c1).
  { rewrite I1. now apply find_replace_same with c. }
  destruct (migrate_sanctuary Carnivore k st1 c1 (stable_wf _ _ K1 Hwf)) as [st2 [E2 I2]];
    [now rewrite (stable_get_cells st st1 K1) | exact Hc1 |].
  exists st2. split.
  - rewrite Hcells. unfold _migration_stage, migrate_herbivores, migrate_carnivores.
    cbn [for_each]. rewrite E1. cbn [bind]. rewrite E2. reflexivity.
  - intros s. rewrite I2.
    rewrite (contents_replace_same s k _ c1 _ Hc1).
    unfold contents. rewrite Hc. unfold c1. now destruct s.
Qed.

(** C9.  (1) In every reachable state the lists of a cell that is not
    accessible are empty.  (2) [_add_animal_to_island] rejects an entry whose
    cell is not accessible, and changes nothing for it.  (3) An animal that
    decides to migrate and is given a direction whose neighbour is not
    accessible stays where it is: no list of the island changes.  (4) On a
    reachable island with a single accessible cell the migration stage
    returns, and the lists of that cell hold the same animals, in the same
    order, as before. *)
Theorem inaccessible_cells_hold_no_animals :
  (forall st, reachable st ->
     forall k c, In (k, c) (island st) -> accessability c = false ->
                 herb_list c = [] /\ carn_list c = []) /\
  (forall st loc pop rest c,
     find_cell loc (island st) = Some c -> accessability c = false ->
     exists e, _add_animal_to_island ((loc, pop) :: rest) st = (st, Some e)) /\
  (forall s self r st g1 g2 d c dc dst,
     migrate_or_not (params_of (classes_of st) (kind (objects st r))) (objects st r)
                    (gen st) = (true, g1) ->
     migration_direction g1 = (d, g2) ->
     find_cell self (island st) = Some c ->
     nth_error (adjacent_cells c) d = Some (Some dst) ->
     find_cell dst (island st) = Some dc -> accessability dc = false ->
     exists st', migrate_one s self (Ref r) st = Ok st' /\ island st' = island st) /\
  (forall st k,
     reachable st -> _get_cells st = [k] ->
     exists st',
       _migration_stage (_get_cells st) st = Ok st' /\
       forall s, contents s (island st') k
                 = remove_sentinels (contents s (island st) k)).
Proof.
  split; [| split; [| split]].
  - intros st Hreach. apply (proj2 (reachable_invariant st Hreach)).
  - intros st loc pop rest c Hc Hacc. cbn [_add_animal_to_island].
    rewrite Hc, Hacc. eexists. reflexivity.
  - intros s self r st g1 g2 d c dc dst Hgo Hdir Hc Hnth Hdc Hacc.
    eexists. split.
    + apply (migrate_one_blocked s self r st g1 g2 d c dc dst); assumption.
    + reflexivity.
  - intros st k Hreach Hcells.
    apply migration_stage_sanctuary; [| exact Hcells].
    apply (proj1 (reachable_invariant st Hreach)).
Qed.

(** A single lowland cell in the water, with one herbivore. *)
Definition sanctuary_layout : string :=
  ("WWW" ++ line_break ++ "WLW" ++ line_break ++ "WWW")%string.

Definition sanctuary : state :=
  fst (_add_animal_to_island
         [ ((2, 2)%Z, [ mkDescriptor "Herbivore" 20 5 ]) ]
         (or_else fresh_process (_create_island sanctuary_layout fresh_process))).

Lemma sanctuary_reachable : reachable sanctuary.
Proof.
  apply reach_add.
  apply (reach_create sanctuary_layout fresh_process). reflexivity.
Qed.

Lemma sanctuary_cells : _get_cells sanctuary = [(2, 2)%Z].
Proof.
  unfold sanctuary, _add_animal_to_island, _create_island.
  cbn -[init item]. unfold init, initiate_weight, initiate_age.
  replace (leb_R 20 0) with false by (symmetry; apply leb_R_false; lra).
  reflexivity.
Qed.

Lemma sanctuary_herbivores :
  contents Herbivore (island sanctuary) (2, 2)%Z = [Ref 0].
Proof.
  unfold sanctuary, _add_animal_to_island, _create_island.
  cbn -[init item]. unfold init, initiate_weight, initiate_age.
  replace (leb_R 20 0) with false by (symmetry; apply leb_R_false; lra).
  reflexivity.
Qed.

Lemma inaccessible_cells_witness :
  exists st',
    _migration_stage (_get_cells sanctuary) sanctuary = Ok st' /\
    contents Herbivore (island st') (2, 2)%Z = [Ref 0].
Proof.
  destruct (proj2 (proj2 (proj2 inaccessible_cells_hold_no_animals))
              sanctuary (2, 2)%Z sanctuary_reachable sanctuary_cells)
    as [st' [Hrun Hsame]].
  exists st'. split; [exact Hrun |].
  rewrite (Hsame Herbivore), sanctuary_herbivores. reflexivity.
Defined.

(** * Further properties of the code *)

(** ** animal.py: fitness, probabilities and parameters *)

Lemma logistic_antitone (x y : R) : x <= y -> 1 / (1 + exp y) <= 1 / (1 + exp x).
Proof.
  intros Hxy.
  assert (Hexp : exp x <= exp y).
  { destruct Hxy as [Hlt | ->]; [left; now apply exp_increasing | right; reflexivity]. }
  pose proof (exp_pos x) as Hx. pose proof (exp_pos y) as Hy.
  unfold Rdiv. rewrite !Rmult_1_l.
  apply Rinv_le_contravar; lra.
Qed.

(** X1.  Fitness grows with the weight and falls with the age: of two
    animals of one species, the one that is at least as heavy and at most as
    old is at least as fit (for shape parameters [phi_weight] and [phi_age]
    that are not negative, as [set_params] enforces). *)
Theorem fitness_monotone (p : params) (a b : animal) :
  0 <= item p "phi_weight" -> 0 <= item p "phi_age" ->
  weight a <= weight b -> (age b <= age a)%Z ->
  fitness p a <= fitness p b.
Proof.
  intros Hpw Hpa Hw Hage.
  destruct (Rlt_le_dec 0 (weight a)) as [Ha | Ha].
  2:{ rewrite (fitness_of_nonpositive_weight p a Ha).
      apply (fitness_range p b). }
  assert (Hb : 0 < weight b) by lra.
  unfold fitness.
  apply ltb_R_true in Ha, Hb. rewrite Ha, Hb. cbv zeta.
  apply ltb_R_true in Ha, Hb.
  apply IZR_le in Hage.
  set (xa := item p "phi_age" * (IZR (age a) - item p "a_half")).
  set (xb := item p "phi_age" * (IZR (age b) - item p "a_half")).
  set (ya := - item p "phi_weight" * (weight a - item p "w_half")).
  set (yb := - item p "phi_weight" * (weight b - item p "w_half")).
  assert (Hx : 1 / (1 + exp xa) <= 1 / (1 + exp xb)).
  { apply logistic_antitone. unfold xa, xb. nra. }
  assert (Hy : 1 / (1 + exp ya) <= 1 / (1 + exp yb)).
  { apply logistic_antitone. unfold ya, yb. nra. }
  destruct (logistic_range xa) as [Hxa _], (logistic_range ya) as [Hya _].
  apply Rmult_le_compat; lra.
Qed.

Lemma fitness_monotone_witness :
  fitness herbivore_params (mkAnimal Herbivore 10 9)
  <= fitness herbivore_params (mkAnimal Herbivore 30 4).
Proof.
  apply fitness_monotone.
  - replace (item herbivore_params "phi_weight") with 0.1 by reflexivity. lra.
  - replace (item herbivore_params "phi_age") with 0.6 by reflexivity. lra.
  - simpl. lra.
  - simpl. lia.
Defined.

(** X2.  The probability of death lies between 0 and [omega]; an animal
    without weight dies with probability [omega] exactly, and when [omega]
    is 1 or more it dies whatever the generator draws. *)
Theorem death_probability_range (a : animal) (cl : classes) (g : Random.generator) :
  let p := params_of cl (kind a) in
  0 <= item p "omega" -> Random.valid g ->
  0 <= death_probability p a <= item p "omega" /\
  (weight a <= 0 -> death_probability p a = item p "omega") /\
  (weight a <= 0 -> 1 <= item p "omega" ->
   update_life_status a cl g = (true, remove_one_count (kind a) cl, Random.advance g)).
Proof.
  cbv zeta. intros Homega Hg.
  set (p := params_of cl (kind a)) in *.
  pose proof (fitness_range p a) as Hf.
  unfold death_probability. split; [split; nra | split].
  - intros Hw. rewrite (fitness_of_nonpositive_weight p a Hw). lra.
  - intros Hw Hone. unfold update_life_status. fold p.
    rewrite prob_true_or_false_spec.
    replace (ltb_R _ _) with true; [reflexivity |].
    symmetry. apply ltb_R_true. unfold death_probability.
    rewrite (fitness_of_nonpositive_weight p a Hw).
    specialize (Hg (Random.position g)). lra.
Qed.

Lemma death_probability_range_witness :
  let a := mkAnimal Herbivore 0 3 in
  death_probability herbivore_params a = item herbivore_params "omega".
Proof.
  cbv zeta.
  refine (proj1 (proj2 (death_probability_range
                          (mkAnimal Herbivore 0 3) classes0 (Random.constant 0) _ _)) _).
  - simpl. replace (item herbivore_params "omega") with 0.4 by reflexivity. lra.
  - apply constant_valid. lra.
  - simpl. lra.
Defined.

(** X3.  A rate of 0 switches its event off, whatever the generator draws:
    with [omega = 0] no animal dies, with [gamma = 0] none procreates, with
    [mu = 0] none migrates.  Each call still consumes one draw. *)
Theorem zero_rate_disables_event (a : animal) (cl : classes) (N : Z)
  (g : Random.generator) :
  let p := params_of cl (kind a) in
  Random.valid g ->
  (item p "omega" = 0 ->
   update_life_status a cl g = (false, cl, Random.advance g)) /\
  (item p "gamma" = 0 ->
   calculate_procreation_probability p a N g = (false, Random.advance g)) /\
  (item p "mu" = 0 -> migrate_or_not p a g = (false, Random.advance g)).
Proof.
  cbv zeta. intros Hg. set (p := params_of cl (kind a)).
  split; [| split]; intros Hzero.
  - unfold update_life_status. fold p.
    rewrite (prob_true_or_false_nonpositive _ g Hg); [reflexivity |].
    unfold death_probability. rewrite Hzero. lra.
  - unfold calculate_procreation_probability.
    apply (prob_true_or_false_nonpositive _ g Hg).
    unfold procreation_probability. cbv zeta. rewrite Hzero, !Rmult_0_l.
    destruct (ltb_R 1 0) eqn:E; [apply ltb_R_true in E; lra | lra].
  - unfold migrate_or_not. cbv zeta.
    apply (prob_true_or_false_nonpositive _ g Hg). rewrite Hzero. lra.
Qed.

Lemma zero_rate_witness :
  let cl := fst (Animal.set_params Herbivore [("mu", 0)]%string classes0) in
  let a := mkAnimal Herbivore 20 5 in
  migrate_or_not (params_of cl Herbivore) a (Random.constant 0)
  = (false, Random.advance (Random.constant 0)).
Proof.
  cbv zeta.
  refine (proj2 (proj2 (zero_rate_disables_event
                          (mkAnimal Herbivore 20 5)
                          (fst (Animal.set_params Herbivore [("mu", 0)]%string classes0))
                          0 (Random.constant 0) _)) _).
  - apply constant_valid. lra.
  - unfold Animal.set_params, classes0, params_of, herb_params, set_params_loop.
    replace (ltb_R 0 0) with false by (symmetry; apply ltb_R_false; lra).
    reflexivity.
Defined.

(** ** Parameter tables *)

Lemma assign_keys (name : string) (value : R) (p : params) :
  map fst (assign name value p) = map fst p.
Proof.
  induction p as [| [k v] rest IH]; [reflexivity |].
  simpl. destruct (String.eqb k name); simpl; [reflexivity | now rewrite IH].
Qed.

Lemma lookup_assign_same (name : string) (value : R) (p : params) :
  has_key name p = true -> lookup name (assign name value p) = Some value.
Proof.
  unfold has_key. induction p as [| [k v] rest IH]; simpl; [discriminate |].
  destruct (String.eqb k name) eqn:E; simpl; rewrite E; [reflexivity | exact IH].
Qed.

Lemma lookup_assign_other (name name' : string) (value : R) (p : params) :
  name' <> name -> lookup name' (assign name value p) = lookup name' p.
Proof.
  intros Hne. induction p as [| [k v] rest IH]; [reflexivity |].
  simpl. destruct (String.eqb k name) eqn:E; simpl.
  - apply String.eqb_eq in E. subst k.
    destruct (String.eqb name name') eqn:E'; [| reflexivity].
    apply String.eqb_eq in E'. congruence.
  - destruct (String.eqb k name'); [reflexivity | exact IH].
Qed.

Lemma assign_nonnegative (name : string) (value : R) (p : params) :
  0 <= value -> Forall (fun kv => 0 <= snd kv) p ->
  Forall (fun kv => 0 <= snd kv) (assign name value p).
Proof.
  intros Hv. induction 1 as [| [k v] rest Hk Hrest IH]; simpl; [constructor |].
  destruct (String.eqb k name); constructor; assumption.
Qed.

Lemma set_params_loop_accepts (unknown : string) (given : list (string * R)) (p : params) :
  Forall (acceptable p) given ->
  set_params_loop unknown given p = (assign_all given p, None).
Proof.
  revert p. induction given as [| [name value] rest IH]; intros p Hall; [reflexivity |].
  inversion Hall as [| x l [Hv Hk] Hrest]; subst. simpl in Hv, Hk.
  simpl. replace (ltb_R value 0) with false by (symmetry; apply ltb_R_false; exact Hv).
  rewrite Hk. simpl. apply IH.
  eapply Forall_impl; [| exact Hrest].
  intros [n v] [H1 H2]. split; [exact H1 |]. simpl in *. now rewrite lookup_assign.
Qed.

(** What the loop leaves in the table, raising or not: the keys it had, and
    no negative value where there was none. *)
Lemma set_params_loop_frame (unknown : string) (given : list (string * R)) (p : params) :
  map fst (fst (set_params_loop unknown given p)) = map fst p /\
  (Forall (fun kv => 0 <= snd kv) p ->
   Forall (fun kv => 0 <= snd kv) (fst (set_params_loop unknown given p))).
Proof.
  revert p. induction given as [| [name value] rest IH]; intros p; [now split |].
  simpl. destruct (ltb_R value 0) eqn:Hneg; [now split |].
  destruct (has_key name p); simpl; [| now split].
  destruct (IH (assign name value p)) as [Hkeys Hpos]. split.
  - now rewrite Hkeys, assign_keys.
  - intros Hp. apply Hpos. apply assign_nonnegative; [| exact Hp].
    now apply ltb_R_false.
Qed.

Lemma item_assign_all (given : list (string * R)) (p : params) (name : string) :
  Forall (acceptable p) given ->
  item (assign_all given p) name
  = match lookup name (rev given) with
    | Some v => v
    | None => item p name
    end.
Proof.
  revert p. induction given as [| [n v] rest IH]; intros p Hall; [reflexivity |].
  inversion Hall as [| x l [Hv Hk] Hrest]; subst. simpl in Hv, Hk.
  change (assign_all ((n, v) :: rest) p) with (assign_all rest (assign n v p)).
  rewrite IH.
  2:{ eapply Forall_impl; [| exact Hrest].
      intros [n' v'] [H1 H2]. split; [exact H1 |]. simpl in *. now rewrite lookup_assign. }
  simpl rev.
  assert (Happ : forall (a b : params), lookup name (a ++ b)
                 = match lookup name a with Some x => Some x | None => lookup name b end).
  { induction a as [| [k w] a IHa]; intros b; [reflexivity |].
    simpl. destruct (String.eqb k name); [reflexivity | apply IHa]. }
  rewrite Happ. destruct (lookup name (rev rest)) as [w |]; [reflexivity |].
  simpl. unfold item. destruct (String.eqb n name) eqn:E.
  - apply String.eqb_eq in E. subst n. now rewrite lookup_assign_same.
  - apply String.eqb_neq in E. rewrite lookup_assign_other; [reflexivity | congruence].
Qed.

Lemma animal_set_params_table (s : species) (given : list (string * R)) (cl : classes) :
  params_of (fst (Animal.set_params s given cl)) s
  = fst (set_params_loop " is not a recognized parameter" given (params_of cl s)) /\
  snd (Animal.set_params s given cl)
  = snd (set_params_loop " is not a recognized parameter" given (params_of cl s)) /\
  (forall s', s' <> s ->
              params_of (fst (Animal.set_params s given cl)) s' = params_of cl s') /\
  (forall s', amount (fst (Animal.set_params s given cl)) s' = amount cl s').
Proof.
  unfold Animal.set_params.
  destruct (set_params_loop _ given (params_of cl s)) as [p e].
  destruct s; simpl; repeat split; intros s'; destruct s'; simpl; congruence.
Qed.

Lemma landscape_set_params_table (t : terrain) (given : list (string * R))
  (tt : terrain_tables) :
  table_of (fst (Landscape.set_params t given tt)) t
  = fst (set_params_loop " is not a valid parameter" given (table_of tt t)) /\
  snd (Landscape.set_params t given tt)
  = snd (set_params_loop " is not a valid parameter" given (table_of tt t)) /\
  (forall t', t' <> t ->
              table_of (fst (Landscape.set_params t given tt)) t' = table_of tt t').
Proof.
  unfold Landscape.set_params.
  destruct (set_params_loop _ given (table_of tt t)) as [p e].
  destruct t; simpl; repeat split; intros t'; destruct t'; simpl; congruence.
Qed.

(** X4.  When every entry of [given_parameters] is acceptable (its value is
    not negative and its key is a key of the table), [set_params] of an
    animal class and of a landscape class returns without raising, and the
    table then holds, under every key, the value that the entries give it
    (the last one, if a key comes twice) and, under a key that is not
    given, the value it had. *)
Theorem set_params_applies_every_entry (given : list (string * R)) :
  (forall (s : species) (cl : classes),
      Forall (acceptable (params_of cl s)) given ->
      let cl' := fst (Animal.set_params s given cl) in
      snd (Animal.set_params s given cl) = None /\
      forall name,
        item (params_of cl' s) name
        = match lookup name (rev given) with
          | Some v => v
          | None => item (params_of cl s) name
          end) /\
  (forall (t : terrain) (tt : terrain_tables),
      Forall (acceptable (table_of tt t)) given ->
      let tt' := fst (Landscape.set_params t given tt) in
      snd (Landscape.set_params t given tt) = None /\
      forall name,
        item (table_of tt' t) name
        = match lookup name (rev given) with
          | Some v => v
          | None => item (table_of tt t) name
          end).
Proof.
  split.
  - intros s cl Hall. cbv zeta.
    destruct (animal_set_params_table s given cl) as [Htable [Herr _]].
    rewrite Htable, Herr, (set_params_loop_accepts _ given _ Hall). simpl.
    split; [reflexivity |]. intros name. now apply item_assign_all.
  - intros t tt Hall. cbv zeta.
    destruct (landscape_set_params_table t given tt) as [Htable [Herr _]].
    rewrite Htable, Herr, (set_params_loop_accepts _ given _ Hall). simpl.
    split; [reflexivity |]. intros name. now apply item_assign_all.
Qed.

Lemma set_params_applies_witness :
  let given := [("eta", 0.1); ("mu", 0.5); ("eta", 0.2)]%string in
  snd (Animal.set_params Herbivore given classes0) = None /\
  item (params_of (fst (Animal.set_params Herbivore given classes0)) Herbivore) "eta"
  = 0.2 /\
  item (params_of (fst (Animal.set_params Herbivore given classes0)) Herbivore) "zeta"
  = 3.5.
Proof.
  cbv zeta.
  assert (Hall : Forall (acceptable (params_of classes0 Herbivore))
                        [("eta", 0.1); ("mu", 0.5); ("eta", 0.2)]%string).
  { repeat constructor; simpl; lra. }
  destruct (proj1 (set_params_applies_every_entry
                     [("eta", 0.1); ("mu", 0.5); ("eta", 0.2)]%string)
                  Herbivore classes0 Hall) as [Hnone Hitem].
  split; [exact Hnone | split].
  - exact (Hitem "eta"%string).
  - exact (Hitem "zeta"%string).
Defined.

(** X5.  Whatever [given_parameters] is, and whether the method raises or
    not, [set_params] leaves the table with the keys it had, in their
    order; it stores no negative value in a table that had none; and it
    touches neither the tables of the other classes nor the counters. *)
Theorem set_params_keeps_the_table_sound (given : list (string * R)) :
  (forall (s : species) (cl : classes),
      let cl' := fst (Animal.set_params s given cl) in
      map fst (params_of cl' s) = map fst (params_of cl s) /\
      (Forall (fun kv => 0 <= snd kv) (params_of cl s) ->
       Forall (fun kv => 0 <= snd kv) (params_of cl' s)) /\
      (forall s', s' <> s -> params_of cl' s' = params_of cl s') /\
      (forall s', amount cl' s' = amount cl s')) /\
  (forall (t : terrain) (tt : terrain_tables),
      let tt' := fst (Landscape.set_params t given tt) in
      map fst (table_of tt' t) = map fst (table_of tt t) /\
      (Forall (fun kv => 0 <= snd kv) (table_of tt t) ->
       Forall (fun kv => 0 <= snd kv) (table_of tt' t)) /\
      (forall t', t' <> t -> table_of tt' t' = table_of tt t')).
Proof.
  split.
  - intros s cl. cbv zeta.
    destruct (animal_set_params_table s given cl) as [Htable [_ [Hother Hcount]]].
    rewrite Htable.
    destruct (set_params_loop_frame " is not a recognized parameter" given
                                    (params_of cl s)) as [Hkeys Hpos].
    repeat split; assumption.
  - intros t tt. cbv zeta.
    destruct (landscape_set_params_table t given tt) as [Htable [_ Hother]].
    rewrite Htable.
    destruct (set_params_loop_frame " is not a valid parameter" given
                                    (table_of tt t)) as [Hkeys Hpos].
    repeat split; assumption.
Qed.

Lemma set_params_keeps_the_table_sound_witness :
  let given := [("eta", 0.1); ("mu", -1); ("zeta", 2)]%string in
  Forall (fun kv => 0 <= snd kv)
         (params_of (fst (Animal.set_params Herbivore given classes0)) Herbivore).
Proof.
  cbv zeta.
  refine (proj1 (proj2 (proj1 (set_params_keeps_the_table_sound
                                 [("eta", 0.1); ("mu", -1); ("zeta", 2)]%string)
                              Herbivore classes0)) _).
  repeat constructor; simpl; lra.
Defined.

(** ** island.py: the island that is created *)

(** The letters of the layout with the keys that the two loops of
    [_create_island] give them, row by row from row [x] on. *)
Fixpoint line_positions (x y : Z) (line : list ascii) : list (coord * ascii) :=
  match line with
  | [] => []
  | letter :: rest => ((x + 1, y + 1)%Z, letter) :: line_positions x (y + 1) rest
  end.

Fixpoint positions (x : Z) (rows : list string) : list (coord * ascii) :=
  match rows with
  | [] => []
  | line :: rest =>
      line_positions x 0 (list_ascii_of_string line) ++ positions (x + 1) rest
  end.



(** A cell as its constructor leaves it, under the key of its letter. *)
Definition newly_made (tt : terrain_tables) (kc : coord * cell) (p : coord * ascii) : Prop :=
  fst kc = fst p /\
  exists t, type_dict (snd p) = Some t /\ snd kc = new_cell tt t.

Lemma create_line_positions (tt : terrain_tables) (x y : Z) (line : list ascii)
  (cells : list (coord * cell)) :
  create_line tt x y line = Ok cells ->
  Forall2 (newly_made tt) cells (line_positions x y line).
Proof.
  revert y cells. induction line as [| letter rest IH]; intros y cells; simpl.
  - intros E. inversion E. constructor.
  - unfold _create_cell. destruct (type_dict letter) as [t |] eqn:Ht; [| discriminate].
    cbn [bind].
    destruct (create_line tt x (y + 1) rest) as [more |] eqn:Hmore; [| discriminate].
    cbn [bind]. intros E. inversion E; subst. constructor.
    + split; [reflexivity |]. exists t. now split.
    + now apply IH.
Qed.

Lemma create_lines_positions (tt : terrain_tables) (x : Z) (rows : list string)
  (isl : list (coord * cell)) :
  create_lines tt x rows = Ok isl -> Forall2 (newly_made tt) isl (positions x rows).
Proof.
  revert x isl. induction rows as [| line rest IH]; intros x isl; simpl.
  - intros E. inversion E. constructor.
  - destruct (create_line tt x 0 (list_ascii_of_string line)) as [cells |] eqn:Hline;
      [| discriminate].
    cbn [bind].
    destruct (create_lines tt (x + 1) rest) as [more |] eqn:Hmore; [| discriminate].
    cbn [bind]. intros E. inversion E; subst.
    apply Forall2_app; [now apply create_line_positions | now apply IH].
Qed.



Lemma type_dict_water (tt : terrain_tables) (ch : ascii) (t : terrain) :
  type_dict ch = Some t ->
  accessability (new_cell tt t) = negb (Ascii.eqb ch "W").
Proof.
  unfold type_dict.
  destruct (Ascii.eqb ch "H") eqn:EH.
  { apply Ascii.eqb_eq in EH. subst ch. intros E. inversion E. reflexivity. }
  destruct (Ascii.eqb ch "L") eqn:EL.
  { apply Ascii.eqb_eq in EL. subst ch. intros E. inversion E. reflexivity. }
  destruct (Ascii.eqb ch "D") eqn:ED.
  { apply Ascii.eqb_eq in ED. subst ch. intros E. inversion E. reflexivity. }
  destruct (Ascii.eqb ch "W") eqn:EW; [| discriminate].
  intros E. inversion E. reflexivity.
Qed.

(** [k in island] for the keys [keys] of the dictionary. *)
Definition on_island (keys : list coord) (k : coord) : bool :=
  existsb (coord_eqb k) keys.

Lemma on_island_find (isl : list (coord * cell)) (k : coord) :
  on_island (map fst isl) k
  = match find_cell k isl with Some _ => true | None => false end.
Proof.
  unfold on_island. induction isl as [| [k' c] rest IH]; [reflexivity |].
  simpl. rewrite IH.
  assert (E : coord_eqb k k' = coord_eqb k' k).
  { unfold coord_eqb. now rewrite (Z.eqb_sym (fst k)), (Z.eqb_sym (snd k)). }
  rewrite E. now destruct (coord_eqb k' k).
Qed.

Lemma Forall2_keys {A B : Type} (R' : coord * A -> coord * B -> Prop)
  (l : list (coord * A)) (l' : list (coord * B)) :
  (forall a b, R' a b -> fst a = fst b) -> Forall2 R' l l' -> map fst l = map fst l'.
Proof.
  intros Hk. induction 1 as [| a b l l' Hab _ IH]; [reflexivity |].
  simpl. now rewrite (Hk a b Hab), IH.
Qed.

(** The cell that [_create_island] leaves under the key of a letter. *)
Definition created (tt : terrain_tables) (keys : list coord) (kc : coord * cell)
  (p : coord * ascii) : Prop :=
  fst kc = fst p /\
  type_dict (snd p) = Some (terrain_of (snd kc)) /\
  herb_list (snd kc) = [] /\ carn_list (snd kc) = [] /\
  available_fodder (snd kc) = item (table_of tt (terrain_of (snd kc))) "f_max" /\
  accessability (snd kc) = negb (Ascii.eqb (snd p) "W") /\
  adjacent_cells (snd kc)
  = map (fun d => if on_island keys (shift (fst p) d) then Some (shift (fst p) d)
                  else None) direction_dict.

Lemma create_island_cells (landscape_string : string) (st st' : state) :
  _create_island landscape_string st = Ok st' ->
  let places := positions 0 (split_newline landscape_string) in
  Forall2 (created (tables st) (map fst places)) (island st') places /\
  st' = with_island (island st') st.
Proof.
  unfold _create_island.
  destruct (_check_if_consistent_rows_input landscape_string) as [[] | e];
    [| discriminate].
  cbn [bind].
  destruct (_find_island_shape landscape_string) as [shape | e]; [| discriminate].
  cbn [bind].
  destruct (_check_if_island landscape_string) as [[] | e]; [| discriminate].
  cbn [bind].
  set (rows := split_newline landscape_string).
  destruct (create_lines (tables st) 0 rows) as [isl | e] eqn:Hisl; [| discriminate].
  cbn [bind]. intros E. inversion E; subst st'. clear E. cbv zeta.
  split; [| reflexivity]. simpl island.
  pose proof (create_lines_positions _ _ _ _ Hisl) as Hfresh.
  assert (Hkeys : map fst isl = map fst (positions 0 rows)).
  { apply (Forall2_keys _ _ _ (fun a b H => proj1 H) Hfresh). }
  rewrite <- Hkeys. unfold _insert_adjacent_cells.
  set (keys := map fst isl).
  set (nb := neighbour isl).
  assert (Hn : forall k d, nb k d
                           = if on_island keys (shift k d) then Some (shift k d) else None).
  { intros k d. unfold nb, neighbour, keys. rewrite on_island_find. fold (shift k d).
    now destruct (find_cell (shift k d) isl). }
  clearbody keys nb. clear Hkeys Hisl.
  induction Hfresh as [| [k c] [k' ch] l l' [Hk [t [Ht Hc]]] _ IH]; [constructor |].
  simpl in Hk, Ht, Hc. subst k' c. simpl map. constructor; [| exact IH].
  unfold created. cbn [fst snd]. unfold with_adjacent, new_cell.
  cbn [terrain_of herb_list carn_list available_fodder accessability adjacent_cells app].
  repeat (split; [first [reflexivity | exact Ht] |]).
  split.
  - rewrite <- (type_dict_water (tables st) ch t Ht). reflexivity.
  - change (map (nb k) direction_dict
            = map (fun d => if on_island keys (shift k d) then Some (shift k d) else None)
                  direction_dict).
    apply map_ext. intros d. apply Hn.
Qed.




(** ** island.py: the layouts that are refused *)












(** ** island.py: the cells that the stages visit *)




(** ** island.py: the insertion of a population *)

(** The class that an entry of a population names, if any. *)
Definition tagged_species (d : descriptor) : option species :=
  if String.eqb (species_tag d) "Herbivore" then Some Herbivore
  else if String.eqb (species_tag d) "Carnivore" then Some Carnivore
       else None.

(** The entries that the constructors accept. *)
Definition valid_descriptor (d : descriptor) : Prop :=
  tagged_species d <> None /\ 0 < given_weight d /\ (0 <= given_age d)%Z.

(** The references that the animals of species [s] of the population get,
    the first animal of the population getting [n]. *)
Fixpoint newcomers (s : species) (n : nat) (pop : list descriptor) : list entry :=
  match pop with
  | [] => []
  | d :: rest =>
      match tagged_species d with
      | Some s' =>
          if species_eqb s' s then Ref n :: newcomers s (S n) rest
          else newcomers s (S n) rest
      | None => newcomers s (S n) rest
      end
  end.

Lemma init_valid (s : species) (w : R) (n : Z) (cl : classes) :
  0 < w -> (0 <= n)%Z -> init s w n cl = Ok (mkAnimal s w n, count_new s cl).
Proof.
  intros Hw Hn. unfold init, initiate_weight, initiate_age.
  replace (leb_R w 0) with false by (symmetry; apply leb_R_false; lra).
  cbn [bind]. replace (n <? 0)%Z with false by (symmetry; apply Z.ltb_ge; lia).
  reflexivity.
Qed.

Lemma init_invalid (s : species) (w : R) (n : Z) (cl : classes) :
  ~ (0 < w /\ (0 <= n)%Z) -> exists e, init s w n cl = Raise e.
Proof.
  intros Hbad. unfold init, initiate_weight, initiate_age.
  destruct (leb_R w 0) eqn:Hw; [simpl; eauto |]. cbn [bind].
  destruct (n <? 0)%Z eqn:Hn; [simpl; eauto |].
  exfalso. apply Hbad. apply leb_R_false in Hw. apply Z.ltb_ge in Hn. now split.
Qed.

Lemma add_population_step (loc : coord) (d : descriptor) (rest : list descriptor)
  (s : species) (st : state) :
  tagged_species d = Some s -> 0 < given_weight d -> (0 <= given_age d)%Z ->
  add_population loc (d :: rest) st
  = add_population loc rest
      (append_animal s loc (next_ref st)
         (with_next_ref (S (next_ref st))
            (update_object (next_ref st)
                           (mkAnimal s (given_weight d) (given_age d))
                           (with_classes (count_new s (classes_of st)) st)))).
Proof.
  intros Htag Hw Hn. cbn [add_population].
  unfold tagged_species in Htag. rewrite Htag.
  rewrite (init_valid s _ _ _ Hw Hn). reflexivity.
Qed.

Lemma add_population_valid (loc : coord) (pop : list descriptor) (st : state) (c : cell) :
  find_cell loc (island st) = Some c -> Forall valid_descriptor pop ->
  exists st',
    add_population loc pop st = (st', None) /\
    next_ref st' = (next_ref st + List.length pop)%nat /\
    (forall s, contents s (island st') loc
               = contents s (island st) loc ++ newcomers s (next_ref st) pop) /\
    (forall i d s,
        nth_error pop i = Some d -> tagged_species d = Some s ->
        objects st' (next_ref st + i)%nat
        = mkAnimal s (given_weight d) (given_age d)) /\
    (forall r, (r < next_ref st)%nat -> objects st' r = objects st r).
Proof.
  intros Hc Hall. revert st c Hc.
  induction Hall as [| d rest [Htag [Hw Hn]] _ IH]; intros st c Hc.
  - exists st. split; [reflexivity | split; [simpl; lia | split; [| split]]].
    + intros s. simpl. now rewrite app_nil_r.
    + intros i d s H. destruct i; discriminate.
    + reflexivity.
  - destruct (tagged_species d) as [s |] eqn:Hs; [| contradiction].
    rewrite (add_population_step loc d rest s st Hs Hw Hn).
    set (st1 := append_animal s loc (next_ref st) _).
    assert (Hisl1 : island st1
                    = replace_cell loc (with_animals s (animals_of s c ++ [Ref (next_ref st)]) c)
                                   (island st)).
    { unfold st1, append_animal. simpl island. now rewrite Hc. }
    assert (Hc1 : find_cell loc (island st1)
                  = Some (with_animals s (animals_of s c ++ [Ref (next_ref st)]) c)).
    { rewrite Hisl1. apply (find_replace_same loc _ c _ Hc). }
    assert (Hn1 : next_ref st1 = S (next_ref st)).
    { unfold st1, append_animal. simpl island. now rewrite Hc. }
    assert (Ho1 : forall r, objects st1 r
                            = if Nat.eqb r (next_ref st)
                              then mkAnimal s (given_weight d) (given_age d)
                              else objects st r).
    { intros r. unfold st1, append_animal. simpl island. now rewrite Hc. }
    destruct (IH st1 _ Hc1) as [st' [Hrun [Hnext [Hlists [Hnew Hold]]]]].
    exists st'. split; [exact Hrun | split; [| split; [| split]]].
    + rewrite Hnext, Hn1. simpl. lia.
    + intros s0. rewrite Hlists, Hn1. unfold contents at 1. rewrite Hc1.
      unfold contents. rewrite Hc. cbn [newcomers]. rewrite Hs.
      destruct s, s0; simpl; rewrite <- ?app_assoc; reflexivity.
    + intros [| i] d' s' Hd' Hs'.
      * simpl in Hd'. inversion Hd'; subst d'. rewrite Nat.add_0_r.
        rewrite Hold by lia. rewrite Ho1, Nat.eqb_refl. congruence.
      * simpl in Hd'. replace (next_ref st + S i)%nat with (next_ref st1 + i)%nat by lia.
        now apply (Hnew i d' s').
    + intros r Hr. rewrite Hold by lia. rewrite Ho1.
      destruct (Nat.eqb r (next_ref st)) eqn:E; [| reflexivity].
      apply Nat.eqb_eq in E. lia.
Qed.

Lemma add_population_stops (loc : coord) (good : list descriptor) (bad : descriptor)
  (rest : list descriptor) (st : state) :
  Forall valid_descriptor good -> ~ valid_descriptor bad ->
  exists e,
    add_population loc (good ++ bad :: rest) st
    = (fst (add_population loc good st), Some e).
Proof.
  intros Hall Hbad. revert st.
  induction Hall as [| d good' [Htag [Hw Hn]] _ IH]; intros st.
  - cbn [app add_population fst].
    fold (tagged_species bad).
    destruct (tagged_species bad) as [s |] eqn:Hs; [| eauto].
    destruct (init_invalid s (given_weight bad) (given_age bad) (classes_of st))
      as [e He].
    + intros [H1 H2]. apply Hbad. split; [congruence | now split].
    + rewrite He. eauto.
  - destruct (tagged_species d) as [s |] eqn:Hs; [| contradiction].
    cbn [app]. rewrite !(add_population_step loc d _ s st Hs Hw Hn). apply IH.
Qed.

(** X10.  The inner loop of [_add_animal_to_island] for a cell of the
    island.  When every entry of the population names one of the two
    species and has a positive weight and an age that is not negative, the
    loop returns without raising: the animals get the references from
    [next_ref] on in the order of the population, each is appended to the
    list of its species behind the animals that were there, and each has
    the species, the weight and the age of its entry.  When the population
    goes on with an entry that is not valid, the loop raises at that entry,
    and the animals before it stay inserted. *)
Theorem add_population_inserts_until_the_first_invalid_entry
  (loc : coord) (good : list descriptor) (st : state) (c : cell) :
  find_cell loc (island st) = Some c -> Forall valid_descriptor good ->
  let st' := fst (add_population loc good st) in
  snd (add_population loc good st) = None /\
  next_ref st' = (next_ref st + List.length good)%nat /\
  (forall s, contents s (island st') loc
             = contents s (island st) loc ++ newcomers s (next_ref st) good) /\
  (forall i d s,
      nth_error good i = Some d -> tagged_species d = Some s ->
      objects st' (next_ref st + i)%nat = mkAnimal s (given_weight d) (given_age d)) /\
  (forall bad rest,
      ~ valid_descriptor bad ->
      exists e, add_population loc (good ++ bad :: rest) st = (st', Some e)).
Proof.
  intros Hc Hall. cbv zeta.
  destruct (add_population_valid loc good st c Hc Hall)
    as [st' [Hrun [Hnext [Hlists [Hnew _]]]]].
  rewrite Hrun. cbn [fst snd].
  split; [reflexivity | split; [exact Hnext | split; [exact Hlists | split]]].
  - exact Hnew.
  - intros bad rest Hbad.
    destruct (add_population_stops loc good bad rest st Hall Hbad) as [e He].
    rewrite Hrun in He. eauto.
Qed.

Definition created_sanctuary : state :=
  or_else fresh_process (_create_island sanctuary_layout fresh_process).

Lemma add_population_inserts_witness :
  let good := [ mkDescriptor "Herbivore" 20 5 ] in
  let bad := mkDescriptor "Herbivore" (-1) 0 in
  next_ref (fst (add_population (2, 2)%Z good created_sanctuary)) = 1%nat /\
  exists e,
    add_population (2, 2)%Z (good ++ [bad]) created_sanctuary
    = (fst (add_population (2, 2)%Z good created_sanctuary), Some e).
Proof.
  cbv zeta.
  assert (Hgood : Forall valid_descriptor [ mkDescriptor "Herbivore" 20 5 ]).
  { repeat constructor; simpl; try lra; try lia. discriminate. }
  destruct (add_population_inserts_until_the_first_invalid_entry
              (2, 2)%Z [ mkDescriptor "Herbivore" 20 5 ] created_sanctuary _
              eq_refl Hgood) as [_ [Hnext [_ [_ Hstop]]]].
  split; [exact Hnext |].
  apply (Hstop (mkDescriptor "Herbivore" (-1) 0) []).
  intros [_ [Hw _]]. simpl in Hw. lra.
Defined.


(** ** The animals on the island, counted *)

(** How often the entry [x] stands in the lists of species [s], and how
    many entries these lists have, all cells taken together. *)
Definition tally (s : species) (x : entry) (isl : list (coord * cell)) : nat :=
  count_occ entry_eq_dec (population s isl) x.

Definition size (s : species) (isl : list (coord * cell)) : nat :=
  List.length (population s isl).

Lemma tally_occurrences (s : species) (r : nat) (isl : list (coord * cell)) :
  tally s (Ref r) isl = occurrences s r isl.
Proof. unfold tally. now rewrite occurrences_population. Qed.

Lemma population_replace (s : species) (k : coord) (c : cell)
  (isl : list (coord * cell)) :
  find_cell k isl = Some c ->
  exists front back,
    population s isl = front ++ animals_of s c ++ back /\
    forall c', population s (replace_cell k c' isl) = front ++ animals_of s c' ++ back.
Proof.
  unfold population. induction isl as [| [k' c0] rest IH]; [discriminate |].
  simpl. destruct (coord_eqb k' k).
  - intros E. inversion E; subst c0. exists [], (flat_map (fun kc => animals_of s (snd kc)) rest).
    split; [reflexivity |]. intros c'. reflexivity.
  - intros Hc. destruct (IH Hc) as [front [back [H1 H2]]].
    exists (animals_of s c0 ++ front), back. split.
    + rewrite H1. now rewrite <- app_assoc.
    + intros c'. simpl. rewrite H2. now rewrite <- app_assoc.
Qed.

Lemma tally_replace (s : species) (x : entry) (k : coord) (c c' : cell)
  (isl : list (coord * cell)) :
  find_cell k isl = Some c ->
  (tally s x (replace_cell k c' isl) + count_occ entry_eq_dec (animals_of s c) x
   = tally s x isl + count_occ entry_eq_dec (animals_of s c') x)%nat.
Proof.
  intros Hc. destruct (population_replace s k c isl Hc) as [front [back [H1 H2]]].
  unfold tally. rewrite H1, (H2 c'), !count_occ_app. lia.
Qed.

Lemma size_replace (s : species) (k : coord) (c c' : cell)
  (isl : list (coord * cell)) :
  find_cell k isl = Some c ->
  (size s (replace_cell k c' isl) + List.length (animals_of s c)
   = size s isl + List.length (animals_of s c'))%nat.
Proof.
  intros Hc. destruct (population_replace s k c isl Hc) as [front [back [H1 H2]]].
  unfold size. rewrite H1, (H2 c'), !length_app. lia.
Qed.

Lemma tally_bound (s : species) (x : entry) (k : coord) (c : cell)
  (isl : list (coord * cell)) :
  find_cell k isl = Some c ->
  (count_occ entry_eq_dec (animals_of s c) x <= tally s x isl)%nat.
Proof.
  intros Hc. destruct (population_replace s k c isl Hc) as [front [back [H1 _]]].
  unfold tally. rewrite H1, !count_occ_app. lia.
Qed.

(** The references that are handed out between two states. *)
Definition fresh_between (n n' : nat) (x : entry) : nat :=
  match x with
  | Sentinel => 0
  | Ref r => if (n <=? r)%nat && (r <? n')%nat then 1 else 0
  end.

Lemma fresh_between_none (n : nat) (x : entry) : fresh_between n n x = 0%nat.
Proof.
  destruct x as [| r]; [reflexivity |]. simpl.
  destruct (n <=? r)%nat eqn:E1; [| reflexivity].
  destruct (r <? n)%nat eqn:E2; [| reflexivity].
  apply Nat.leb_le in E1. apply Nat.ltb_lt in E2. lia.
Qed.

Lemma fresh_between_split (n n' n'' : nat) (x : entry) :
  (n <= n')%nat -> (n' <= n'')%nat ->
  (fresh_between n n' x + fresh_between n' n'' x = fresh_between n n'' x)%nat.
Proof.
  intros H1 H2. destruct x as [| r]; [reflexivity |]. simpl.
  destruct (n <=? r)%nat eqn:E1, (r <? n')%nat eqn:E2, (n' <=? r)%nat eqn:E3,
           (r <? n'')%nat eqn:E4; simpl; try reflexivity;
    repeat match goal with
           | H : (_ <=? _)%nat = true |- _ => apply Nat.leb_le in H
           | H : (_ <=? _)%nat = false |- _ => apply Nat.leb_gt in H
           | H : (_ <? _)%nat = true |- _ => apply Nat.ltb_lt in H
           | H : (_ <? _)%nat = false |- _ => apply Nat.ltb_ge in H
           end; lia.
Qed.

Lemma fresh_between_spec (n n' r : nat) :
  (fresh_between n n' (Ref r) = 1%nat /\ (n <= r < n')%nat) \/
  (fresh_between n n' (Ref r) = 0%nat /\ ~ (n <= r < n')%nat).
Proof.
  simpl. destruct (n <=? r)%nat eqn:E1, (r <? n')%nat eqn:E2; simpl;
    repeat match goal with
           | H : (_ <=? _)%nat = true |- _ => apply Nat.leb_le in H
           | H : (_ <=? _)%nat = false |- _ => apply Nat.leb_gt in H
           | H : (_ <? _)%nat = true |- _ => apply Nat.ltb_lt in H
           | H : (_ <? _)%nat = false |- _ => apply Nat.ltb_ge in H
           end; [left | right | right | right]; split; try reflexivity; lia.
Qed.

Lemma count_refs_seq (n m : nat) (x : entry) :
  count_occ entry_eq_dec (map Ref (seq n m)) x = fresh_between n (n + m) x.
Proof.
  revert n. induction m as [| m IH]; intros n.
  - simpl. rewrite Nat.add_0_r. now rewrite fresh_between_none.
  - cbn [seq map]. destruct x as [| r].
    + rewrite count_occ_cons_neq by discriminate. now rewrite IH.
    + destruct (Nat.eq_dec n r) as [-> | Hne].
      * rewrite count_occ_cons_eq by reflexivity. rewrite IH.
        destruct (fresh_between_spec (S r) (S r + m) r) as [[_ H] | [-> _]]; [lia |].
        destruct (fresh_between_spec r (r + S m) r) as [[-> _] | [_ H]]; [reflexivity | lia].
      * rewrite count_occ_cons_neq by congruence. rewrite IH.
        destruct (fresh_between_spec (S n) (S n + m) r) as [[-> H] | [-> H]];
          destruct (fresh_between_spec n (n + S m) r) as [[-> H'] | [-> H']];
          try reflexivity; lia.
Qed.

(** What the counter of a class shows beyond the number of entries of the
    lists of its species. *)
Definition surplus (s : species) (st : state) : Z :=
  (amount (classes_of st) s - Z.of_nat (size s (island st)))%Z.

(** What every step of the simulation does to the lists: an entry comes to
    stand in them at most as often as before, except for the references
    handed out in the step, which come in at most once; the counters follow
    the lists. *)
Record grows (st st' : state) : Prop := {
  grows_refs : (next_ref st <= next_ref st')%nat;
  grows_tally :
    forall s x,
      (tally s x (island st')
       <= tally s x (island st) + fresh_between (next_ref st) (next_ref st') x)%nat;
  grows_balance : forall s, surplus s st' = surplus s st
}.

Lemma grows_refl (st : state) : grows st st.
Proof.
  split; [lia | | reflexivity]. intros s x. rewrite fresh_between_none. lia.
Qed.

Lemma grows_trans (a b c : state) : grows a b -> grows b c -> grows a c.
Proof.
  intros [R1 T1 B1] [R2 T2 B2]. split; [lia | | intros s; now rewrite B2, B1].
  intros s x. specialize (T1 s x). specialize (T2 s x).
  pose proof (fresh_between_split _ _ _ x R1 R2). lia.
Qed.

Lemma grows_same (st st' : state) :
  island st' = island st -> next_ref st' = next_ref st ->
  classes_of st' = classes_of st -> grows st st'.
Proof.
  intros Hi Hn Hc. split.
  - lia.
  - intros s x. rewrite Hi, Hn, fresh_between_none. lia.
  - intros s. unfold surplus. now rewrite Hi, Hc.
Qed.

(** The lists of a state are in order: no marker, no animal twice in the
    lists of its species, and no reference that has not been handed out. *)
Record census (st : state) : Prop := {
  census_marker : forall s, tally s Sentinel (island st) = 0%nat;
  census_once : forall s r, (tally s (Ref r) (island st) <= 1)%nat;
  census_known :
    forall s r, (next_ref st <= r)%nat -> tally s (Ref r) (island st) = 0%nat
}.

Lemma census_grows (st st' : state) : grows st st' -> census st -> census st'.
Proof.
  intros [HR HT _] [C1 C2 C3]. split.
  - intros s. specialize (HT s Sentinel). specialize (C1 s). simpl in HT. lia.
  - intros s r. specialize (HT s (Ref r)). specialize (C2 s r).
    destruct (fresh_between_spec (next_ref st) (next_ref st') r) as [[E H] | [E H]];
      rewrite E in HT; [| lia].
    rewrite (C3 s r) in HT by lia. lia.
  - intros s r Hr. specialize (HT s (Ref r)).
    destruct (fresh_between_spec (next_ref st) (next_ref st') r) as [[E H] | [E H]];
      rewrite E in HT; [lia |].
    rewrite (C3 s r) in HT by lia. lia.
Qed.

Lemma census_lists (st : state) :
  census st ->
  no_sentinel (island st) /\ distinct_animals (island st) /\
  forall s r, In (Ref r) (population s (island st)) -> (r < next_ref st)%nat.
Proof.
  intros [C1 C2 C3]. split; [| split].
  - intros k c Hin.
    assert (H : forall s, ~ In Sentinel (animals_of s c)).
    { intros s Hs. specialize (C1 s). unfold tally in C1.
      apply (count_occ_not_In entry_eq_dec) in C1. apply C1.
      unfold population. apply in_flat_map. exists (k, c). now split. }
    split; [apply (H Herbivore) | apply (H Carnivore)].
  - intros s. apply (NoDup_count_occ entry_eq_dec). intros [| r].
    + specialize (C1 s). unfold tally in C1. lia.
    + apply (C2 s r).
  - intros s r Hin. destruct (Nat.lt_ge_cases r (next_ref st)) as [H | H]; [exact H |].
    specialize (C3 s r H). unfold tally in C3.
    apply (count_occ_not_In entry_eq_dec) in C3. contradiction.
Qed.

(** *** The methods that only read the lists *)

Lemma population_put_same (s : species) (k : coord) (c c' : cell)
  (isl : list (coord * cell)) :
  find_cell k isl = Some c -> animals_of s c' = animals_of s c ->
  population s (replace_cell k c' isl) = population s isl.
Proof.
  intros Hc E. destruct (population_replace s k c isl Hc) as [front [back [H1 H2]]].
  now rewrite H1, (H2 c'), E.
Qed.

(** The lists hold the same entries in the same order, the counters have
    not moved, and every object is of the class it was. *)
Definition same_lists (st st' : state) : Prop :=
  (forall s, population s (island st') = population s (island st)) /\
  next_ref st' = next_ref st /\ classes_of st' = classes_of st /\
  forall r, kind (objects st' r) = kind (objects st r).

Lemma same_lists_refl (st : state) : same_lists st st.
Proof. now repeat split. Qed.

Lemma same_lists_trans (a b c : state) :
  same_lists a b -> same_lists b c -> same_lists a c.
Proof.
  intros [P1 [N1 [C1 K1]]] [P2 [N2 [C2 K2]]].
  split; [| split; [congruence | split; [congruence |]]].
  - intros s. now rewrite P2, P1.
  - intros r. now rewrite K2, K1.
Qed.

Lemma same_lists_grows (st st' : state) : same_lists st st' -> grows st st'.
Proof.
  intros [HP [HN [HC _]]]. split.
  - lia.
  - intros s x. unfold tally. rewrite HP, HN, fresh_between_none. lia.
  - intros s. unfold surplus, size. now rewrite HC, HP.
Qed.

Lemma same_lists_put (k : coord) (c c' : cell) (st : state) :
  find_cell k (island st) = Some c ->
  herb_list c' = herb_list c -> carn_list c' = carn_list c ->
  same_lists st (put_cell k c' st).
Proof.
  intros Hc H1 H2. repeat split. intros s. simpl island.
  apply (population_put_same s k c c' _ Hc). now destruct s.
Qed.

Lemma kind_update_object (r r' : nat) (a : animal) (st : state) :
  kind a = kind (objects st r) ->
  kind (objects (update_object r a st) r') = kind (objects st r').
Proof.
  intros E. simpl. destruct (Nat.eqb r' r) eqn:Er; [| reflexivity].
  apply Nat.eqb_eq in Er. now subst r'.
Qed.

Lemma for_each_same_lists {A : Type} (body : A -> state -> result state) (l : list A) :
  (forall x st st', body x st = Ok st' -> same_lists st st') ->
  forall st st', for_each body l st = Ok st' -> same_lists st st'.
Proof.
  intros Hbody. induction l as [| x rest IH]; intros st st' Hrun.
  - inversion Hrun. apply same_lists_refl.
  - cbn [for_each] in Hrun.
    destruct (body x st) as [st1 | e] eqn:E; [| discriminate]. cbn [bind] in Hrun.
    apply (same_lists_trans st st1 st'); [now apply (Hbody x) | now apply IH].
Qed.

Lemma set_fodder_same_lists (k : coord) (st st' : state) :
  set_fodder k st = Ok st' -> same_lists st st'.
Proof.
  unfold set_fodder, get_cell.
  destruct (find_cell k (island st)) as [c |] eqn:Hc; [| discriminate].
  cbn [bind]. intros E. inversion E.
  now apply (same_lists_put k c (with_fodder _ c) st Hc).
Qed.

Lemma feed_loop_same_lists (herbs : list nat) (k : coord) (st st' : state) :
  feed_loop herbs k st = Ok st' -> same_lists st st'.
Proof.
  revert st. induction herbs as [| herb rest IH]; intros st; cbn [feed_loop].
  - intros E. inversion E. apply same_lists_refl.
  - unfold get_cell. destruct (find_cell k (island st)) as [c |] eqn:Hc;
      [| discriminate].
    cbn [bind]. destruct (ltb_R 0 (available_fodder c)).
    + intros E. apply IH in E. eapply same_lists_trans; [| exact E].
      match goal with
      | |- same_lists st (record _ (update_object herb _ (put_cell k ?c' st))) =>
          destruct (same_lists_put k c c' st Hc eq_refl eq_refl) as [P [N [C K]]]
      end.
      split; [exact P | split; [exact N | split; [exact C |]]].
      intros r. cbn [record objects]. now rewrite kind_update_object.
    + intros E. inversion E. apply same_lists_refl.
Qed.

Lemma feed_herbivores_same_lists (k : coord) (st st' : state) :
  feed_herbivores k st = Ok st' -> same_lists st st'.
Proof.
  unfold feed_herbivores.
  destruct (_sort_fitness true k st) as [herbs | e]; [| discriminate].
  cbn [bind]. apply feed_loop_same_lists.
Qed.

Lemma touch_same_lists (body : entry -> state -> result state) :
  (forall r st, exists a, kind a = kind (objects st r) /\
                          body (Ref r) st = Ok (update_object r a st)) ->
  (forall st, body Sentinel st = Raise AttributeError) ->
  forall x st st', body x st = Ok st' -> same_lists st st'.
Proof.
  intros Href Hs [| r] st st' E.
  - rewrite Hs in E. discriminate.
  - destruct (Href r st) as [a [Hk Ha]]. rewrite Ha in E. inversion E.
    split; [reflexivity | split; [reflexivity | split; [reflexivity |]]].
    intros r'. now apply kind_update_object.
Qed.

Lemma age_animals_same_lists (k : coord) (st st' : state) :
  age_animals k st = Ok st' -> same_lists st st'.
Proof.
  unfold age_animals. destruct (get_cell k st) as [c | e]; [| discriminate].
  cbn [bind]. apply for_each_same_lists. apply touch_same_lists.
  - intros r a. eexists. split; [| reflexivity]. reflexivity.
  - reflexivity.
Qed.

Lemma animals_lose_weight_same_lists (k : coord) (st st' : state) :
  animals_lose_weight k st = Ok st' -> same_lists st st'.
Proof.
  unfold animals_lose_weight. destruct (get_cell k st) as [c | e]; [| discriminate].
  cbn [bind]. apply for_each_same_lists. apply touch_same_lists.
  - intros r a. eexists. split; [| reflexivity]. reflexivity.
  - reflexivity.
Qed.

(** *** The methods that take animals out of the lists *)

Lemma remove_first_count (x y : entry) (l l' : list entry) :
  remove_first x l = Some l' ->
  count_occ entry_eq_dec l y
  = (count_occ entry_eq_dec l' y + if entry_eq_dec x y then 1 else 0)%nat.
Proof.
  revert l'. induction l as [| z rest IH]; intros l'; simpl; [discriminate |].
  destruct (entry_eqb z x) eqn:E.
  - apply entry_eqb_eq in E. subst z. intros H. inversion H; subst l'.
    destruct (entry_eq_dec x y); lia.
  - destruct (remove_first x rest) as [rest' |]; [| discriminate].
    intros H. inversion H; subst l'. specialize (IH rest' eq_refl).
    simpl. destruct (entry_eq_dec z y); lia.
Qed.


Lemma amount_add_count (d : Z) (s s0 : species) (cl : classes) :
  amount (add_count d s cl) s0
  = (amount cl s0 + if species_eqb s0 s then d else 0)%Z.
Proof. destruct s, s0; simpl; lia. Qed.

(** Nothing but the lists, the generator and the trace has changed. *)
Definition only_moves (st st' : state) : Prop :=
  next_ref st' = next_ref st /\ classes_of st' = classes_of st /\
  objects st' = objects st /\ tables st' = tables st.

Lemma only_moves_refl (st : state) : only_moves st st.
Proof. now repeat split. Qed.

Lemma only_moves_trans (a b c : state) :
  only_moves a b -> only_moves b c -> only_moves a c.
Proof. unfold only_moves. intuition congruence. Qed.

(** [l.remove(x)]: the list is one entry shorter, and nothing else has
    changed. *)
Lemma list_remove_effect (s : species) (k : coord) (r : nat) (st st' : state) :
  list_remove s k r st = Ok st' ->
  only_moves st st' /\
  (forall s0 x, (tally s0 x (island st') <= tally s0 x (island st))%nat) /\
  (forall s0, (size s0 (island st') + (if species_eqb s0 s then 1 else 0)
               = size s0 (island st))%nat).
Proof.
  unfold list_remove, get_cell.
  destruct (find_cell k (island st)) as [c |] eqn:Hc; [| discriminate]. cbn [bind].
  destruct (remove_first (Ref r) (animals_of s c)) as [l |] eqn:Hl; [| discriminate].
  intros E. inversion E. clear E.
  split; [now repeat split | split].
  - intros s0 x. simpl island.
    pose proof (tally_replace s0 x k c (with_animals s l c) _ Hc) as H.
    pose proof (remove_first_count (Ref r) x _ _ Hl) as Hcount.
    destruct s0, s; simpl in H |- *; simpl in Hcount; lia.
  - intros s0. simpl island.
    pose proof (size_replace s0 k c (with_animals s l c) _ Hc) as H1.
    pose proof (remove_first_length _ _ _ Hl) as Hlen.
    destruct s0, s; simpl in H1, Hlen |- *; lia.
Qed.

(** An animal dies: its class counts one less, and it is taken out of the
    list of its species. *)
Lemma grows_death (s : species) (k : coord) (r : nat) (st st1 st' : state) :
  island st1 = island st -> next_ref st1 = next_ref st ->
  classes_of st1 = remove_one_count s (classes_of st) ->
  list_remove s k r st1 = Ok st' -> grows st st'.
Proof.
  intros Hi Hn Hc Hrm.
  destruct (list_remove_effect s k r st1 st' Hrm) as [[N [C _]] [T S]].
  split.
  - lia.
  - intros s0 x. specialize (T s0 x). rewrite Hi in T. lia.
  - intros s0. unfold surplus. rewrite C, Hc. specialize (S s0). rewrite Hi in S.
    unfold remove_one_count. rewrite amount_add_count.
    destruct (species_eqb s0 s); lia.
Qed.

(** *** The classes of the objects *)

(** The step hands out no reference and changes the class of no object. *)
Definition quiet (st st' : state) : Prop :=
  next_ref st' = next_ref st /\ forall r, kind (objects st' r) = kind (objects st r).

Lemma quiet_refl (st : state) : quiet st st.
Proof. now split. Qed.

Lemma quiet_trans (a b c : state) : quiet a b -> quiet b c -> quiet a c.
Proof.
  intros [N1 K1] [N2 K2]. split; [congruence |]. intros r. now rewrite K2, K1.
Qed.

Lemma only_moves_quiet (st st' : state) : only_moves st st' -> quiet st st'.
Proof. intros [N [_ [O _]]]. split; [exact N |]. intros r. now rewrite O. Qed.

Lemma same_lists_quiet (st st' : state) : same_lists st st' -> quiet st st'.
Proof. intros [_ [N [_ K]]]. now split. Qed.

(** Every entry of a list of species [s] refers to an object of class [s]. *)
Definition typed (st : state) : Prop :=
  forall s r, In (Ref r) (population s (island st)) -> kind (objects st r) = s.

Record sound (st : state) : Prop := {
  sound_census : census st;
  sound_typed : typed st
}.

(** A step of the simulation: the lists grow by new references only, the
    objects that were there keep their class, and a new entry of a list of
    species [s] refers to an object of class [s]. *)
Record evolves (st st' : state) : Prop := {
  evolves_grows : grows st st';
  evolves_kinds :
    forall r, (r < next_ref st)%nat -> kind (objects st' r) = kind (objects st r);
  evolves_new :
    forall s r, (next_ref st <= r < next_ref st')%nat ->
                In (Ref r) (population s (island st')) -> kind (objects st' r) = s
}.

Lemma tally_In (s : species) (x : entry) (isl : list (coord * cell)) :
  In x (population s isl) <-> (1 <= tally s x isl)%nat.
Proof. unfold tally. rewrite (count_occ_In entry_eq_dec). lia. Qed.

Lemma grows_old (s : species) (r : nat) (st st' : state) :
  grows st st' -> (r < next_ref st)%nat ->
  In (Ref r) (population s (island st')) -> In (Ref r) (population s (island st)).
Proof.
  intros [_ HT _] Hr Hin. apply tally_In in Hin. apply tally_In.
  specialize (HT s (Ref r)).
  destruct (fresh_between_spec (next_ref st) (next_ref st') r) as [[E H] | [E H]];
    rewrite E in HT; lia.
Qed.

Lemma evolves_refl (st : state) : evolves st st.
Proof. split; [apply grows_refl | reflexivity | intros s r H; lia]. Qed.

Lemma evolves_trans (a b c : state) : evolves a b -> evolves b c -> evolves a c.
Proof.
  intros [G1 K1 N1] [G2 K2 N2].
  pose proof (grows_refs _ _ G1) as R1. pose proof (grows_refs _ _ G2) as R2.
  split.
  - now apply (grows_trans a b c).
  - intros r Hr. rewrite K2 by lia. now apply K1.
  - intros s r Hr Hin.
    destruct (Nat.lt_ge_cases r (next_ref b)) as [Hlt | Hge].
    + rewrite K2 by exact Hlt. apply N1; [lia |]. now apply (grows_old s r b c).
    + apply N2; [lia | exact Hin].
Qed.

Lemma sound_evolves (st st' : state) : evolves st st' -> sound st -> sound st'.
Proof.
  intros [G K N] [HC HT].
  pose proof (census_grows st st' G HC) as HC'.
  split; [exact HC' |]. intros s r Hin.
  destruct (Nat.lt_ge_cases r (next_ref st)) as [Hlt | Hge].
  - rewrite K by exact Hlt. apply HT. now apply (grows_old s r st st').
  - destruct (Nat.lt_ge_cases r (next_ref st')) as [Hlt' | Hge'].
    + apply N; [lia | exact Hin].
    + apply tally_In in Hin. rewrite (census_known st' HC' s r Hge') in Hin. lia.
Qed.

(** A step that is quiet. *)
Definition calm (st st' : state) : Prop := grows st st' /\ quiet st st'.

Lemma calm_refl (st : state) : calm st st.
Proof. split; [apply grows_refl | apply quiet_refl]. Qed.

Lemma calm_trans (a b c : state) : calm a b -> calm b c -> calm a c.
Proof.
  intros [G1 Q1] [G2 Q2].
  split; [now apply (grows_trans a b c) | now apply (quiet_trans a b c)].
Qed.

Lemma calm_evolves (st st' : state) : calm st st' -> evolves st st'.
Proof.
  intros [G [N K]]. split; [exact G | intros r _; apply K | intros s r H; lia].
Qed.

Lemma same_lists_calm (st st' : state) : same_lists st st' -> calm st st'.
Proof. intros H. split; [now apply same_lists_grows | now apply same_lists_quiet]. Qed.

Lemma for_each_calm {A : Type} (body : A -> state -> result state) (l : list A) :
  (forall x st st', body x st = Ok st' -> calm st st') ->
  forall st st', for_each body l st = Ok st' -> calm st st'.
Proof.
  intros Hbody. induction l as [| x rest IH]; intros st st' Hrun.
  - inversion Hrun. apply calm_refl.
  - cbn [for_each] in Hrun.
    destruct (body x st) as [st1 | e] eqn:E; [| discriminate]. cbn [bind] in Hrun.
    apply (calm_trans st st1 st'); [now apply (Hbody x) | now apply IH].
Qed.

Lemma for_each_evolves {A : Type} (body : A -> state -> result state) (l : list A) :
  (forall x st st', sound st -> body x st = Ok st' -> evolves st st') ->
  forall st st', sound st -> for_each body l st = Ok st' -> evolves st st'.
Proof.
  intros Hbody. induction l as [| x rest IH]; intros st st' Hs Hrun.
  - inversion Hrun. apply evolves_refl.
  - cbn [for_each] in Hrun.
    destruct (body x st) as [st1 | e] eqn:E; [| discriminate]. cbn [bind] in Hrun.
    pose proof (Hbody x st st1 Hs E) as H1.
    apply (evolves_trans st st1 st' H1). apply IH; [| exact Hrun].
    now apply (sound_evolves st st1).
Qed.

(** *** [random.shuffle] *)

Lemma set_nth_split {A : Type} (x : list A) (i : nat) (a : A) :
  nth_error x i = Some a ->
  exists l1 l2,
    x = l1 ++ a :: l2 /\ List.length l1 = i /\
    forall b, firstn i x ++ b :: skipn (S i) x = l1 ++ b :: l2.
Proof.
  intros H. destruct (nth_error_split x i H) as [l1 [l2 [E Hlen]]].
  exists l1, l2. split; [exact E | split; [exact Hlen |]]. intros b. subst x i.
  rewrite firstn_app, Nat.sub_diag, firstn_all. cbn [firstn]. rewrite app_nil_r.
  replace (S (List.length l1)) with (List.length l1 + 1)%nat by lia.
  rewrite skipn_app, skipn_all2 by lia.
  replace (List.length l1 + 1 - List.length l1)%nat with 1%nat by lia.
  reflexivity.
Qed.

Lemma nth_error_middle {A : Type} (l1 l2 : list A) (a b : A) (j : nat) :
  j <> List.length l1 -> nth_error (l1 ++ b :: l2) j = nth_error (l1 ++ a :: l2) j.
Proof.
  revert j. induction l1 as [| z l1 IH]; intros j Hj.
  - destruct j; [contradiction | reflexivity].
  - destruct j; [reflexivity |]. simpl. apply IH. simpl in Hj. lia.
Qed.

Lemma nth_error_at_length {A : Type} (l1 l2 : list A) (b : A) :
  nth_error (l1 ++ b :: l2) (List.length l1) = Some b.
Proof. induction l1 as [| z l1 IH]; [reflexivity | exact IH]. Qed.

Lemma exchange_count (i j : nat) (x : list entry) (y : entry) :
  count_occ entry_eq_dec (Random.exchange i j x) y = count_occ entry_eq_dec x y /\
  List.length (Random.exchange i j x) = List.length x.
Proof.
  unfold Random.exchange.
  destruct (nth_error x i) as [a |] eqn:Ha; [| now split].
  destruct (nth_error x j) as [b |] eqn:Hb; [| now split].
  destruct (set_nth_split x i a Ha) as [l1 [l2 [Ex [Hlen Hset]]]].
  rewrite (Hset b).
  assert (Hj : nth_error (l1 ++ b :: l2) j = Some b).
  { destruct (Nat.eq_dec j (List.length l1)) as [-> | Hne].
    - apply nth_error_at_length.
    - rewrite (nth_error_middle l1 l2 a b j Hne). now rewrite <- Ex. }
  destruct (set_nth_split _ j b Hj) as [m1 [m2 [Em [_ Hset']]]].
  rewrite (Hset' a). rewrite Ex.
  rewrite !count_occ_app, !length_app. simpl.
  assert (Hc : (count_occ entry_eq_dec (l1 ++ b :: l2) y
                = count_occ entry_eq_dec (m1 ++ b :: m2) y)%nat) by now rewrite <- Em.
  assert (Hl : List.length (l1 ++ b :: l2) = List.length (m1 ++ b :: m2))
    by now rewrite <- Em.
  rewrite !count_occ_app in Hc. rewrite !length_app in Hl. simpl in Hc, Hl.
  destruct (entry_eq_dec a y), (entry_eq_dec b y); simpl in *; lia.
Qed.

Lemma shuffle_count (x : list entry) (g : Random.generator) (y : entry) :
  count_occ entry_eq_dec (fst (Random.shuffle x g)) y = count_occ entry_eq_dec x y /\
  List.length (fst (Random.shuffle x g)) = List.length x.
Proof.
  unfold Random.shuffle. generalize (List.length x - 1)%nat as i.
  intros i. revert x g. induction i as [| i IH]; intros x g; [now split |].
  cbn [Random.shuffle_from].
  destruct (Random.choice_range (S (S i)) g) as [j g'].
  destruct (IH (Random.exchange (S i) j x) g') as [H1 H2].
  destruct (exchange_count (S i) j x y) as [H3 H4].
  split; congruence.
Qed.


(** *** Hunting *)

Lemma instances_refs (l : list entry) (rs : list nat) :
  instances l = Ok rs -> l = map Ref rs.
Proof.
  revert rs. induction l as [| [| r] rest IH]; intros rs; simpl.
  - intros E. now inversion E.
  - discriminate.
  - destruct (instances rest) as [rs' |]; [| discriminate]. cbn [bind].
    intros E. inversion E. simpl. now rewrite (IH rs' eq_refl).
Qed.

Lemma hunt_loop_calm (carnivore : nat) (herbs : list nat) (eaten_so_far : R)
  (k : coord) (st st' : state) :
  (forall h, In h herbs -> kind (objects st h) = Herbivore) ->
  hunt_loop carnivore herbs eaten_so_far k st = Ok st' -> calm st st'.
Proof.
  revert eaten_so_far st. induction herbs as [| herbivore rest IH];
    intros w st Hherbs; cbn [hunt_loop].
  - intros E. inversion E. apply calm_refl.
  - destruct (ltb_R w _); [| intros E; inversion E; apply calm_refl].
    destruct (kind (objects st carnivore)) eqn:Hkind; [discriminate |].
    destruct (killing_probability _ _ _ _ _) as [kills g].
    destruct kills.
    + rewrite (Hherbs herbivore (or_introl eq_refl)).
      destruct (list_remove Herbivore k herbivore _) as [st4 | e] eqn:E4;
        [| discriminate].
      cbn [bind]. intros E.
      assert (Hq : quiet st st4).
      { destruct (list_remove_effect _ _ _ _ _ E4) as [[N [_ [O _]]] _].
        split; [exact N |]. intros r. rewrite O. simpl.
        destruct (Nat.eqb r carnivore) eqn:Er; [| reflexivity].
        apply Nat.eqb_eq in Er. subst r. simpl. now rewrite Hkind. }
      assert (H4 : calm st st4).
      { split; [| exact Hq].
        eapply (grows_death Herbivore k herbivore st); [| | | exact E4]; reflexivity. }
      apply (calm_trans st st4 st' H4). eapply (IH _ st4); [| exact E].
      intros h Hh. rewrite (proj2 Hq h). apply Hherbs. now right.
    + intros E. apply (calm_trans st (with_gen g st) st').
      * split; [now apply grows_same | now split].
      * eapply IH; [| exact E]. intros h Hh. apply Hherbs. now right.
Qed.

Lemma hunt_calm (k : coord) (x : entry) (st st' : state) :
  typed st -> hunt k x st = Ok st' -> calm st st'.
Proof.
  intros Htyped. destruct x as [| carnivore]; [discriminate |]. cbn [hunt].
  unfold _sort_fitness, get_cell.
  destruct (find_cell k (island st)) as [c |] eqn:Hc; [| discriminate]. cbn [bind].
  destruct (instances (herb_list c)) as [rs |] eqn:Hrs; [| discriminate]. cbn [bind].
  apply hunt_loop_calm. intros h Hh.
  apply (Htyped Herbivore). apply tally_In.
  pose proof (tally_bound Herbivore (Ref h) k c _ Hc) as Hb.
  assert (Hin : In (Ref h) (herb_list c)).
  { rewrite (instances_refs _ _ Hrs). apply in_map.
    apply (Permutation_in h (sorted_by_fitness_perm (fitness_of st) false rs) Hh). }
  apply (count_occ_In entry_eq_dec) in Hin. simpl in Hb. lia.
Qed.

Lemma shuffle_calm (k : coord) (c : cell) (shuffled : list entry)
  (g : Random.generator) (st : state) :
  find_cell k (island st) = Some c ->
  Random.shuffle (carn_list c) (gen st) = (shuffled, g) ->
  calm st (put_cell k (with_animals Carnivore shuffled c) (with_gen g st)) /\
  forall x, In x shuffled <-> In x (carn_list c).
Proof.
  intros Hc Hsh.
  assert (Hcount : forall y, count_occ entry_eq_dec shuffled y
                             = count_occ entry_eq_dec (carn_list c) y).
  { intros y. pose proof (proj1 (shuffle_count (carn_list c) (gen st) y)) as H.
    now rewrite Hsh in H. }
  assert (Hlen : List.length shuffled = List.length (carn_list c)).
  { pose proof (proj2 (shuffle_count (carn_list c) (gen st) Sentinel)) as H.
    now rewrite Hsh in H. }
  split; [split; [split | now split] |].
  - simpl. lia.
  - intros s x. simpl island. simpl next_ref. rewrite fresh_between_none.
    pose proof (tally_replace s x k c (with_animals Carnivore shuffled c) _ Hc) as H.
    specialize (Hcount x). destruct s; simpl in H |- *; lia.
  - intros s. unfold surplus. simpl island. simpl classes_of.
    pose proof (size_replace s k c (with_animals Carnivore shuffled c) _ Hc) as H.
    destruct s; simpl in H |- *; lia.
  - intros x. rewrite !(count_occ_In entry_eq_dec), Hcount. reflexivity.
Qed.

Lemma facilitate_hunting_evolves (k : coord) (st st' : state) :
  sound st -> facilitate_hunting k st = Ok st' -> evolves st st'.
Proof.
  intros Hsound. unfold facilitate_hunting, get_cell.
  destruct (find_cell k (island st)) as [c |] eqn:Hc; [| discriminate]. cbn [bind].
  destruct (Random.shuffle (carn_list c) (gen st)) as [shuffled g] eqn:Hsh.
  intros E.
  set (st1 := put_cell k (with_animals Carnivore shuffled c) (with_gen g st)) in *.
  destruct (shuffle_calm k c shuffled g st Hc Hsh) as [H1 _]. fold st1 in H1.
  apply calm_evolves in H1.
  apply (evolves_trans st st1 st' H1).
  apply (for_each_evolves (hunt k) shuffled); [| now apply (sound_evolves st st1) | exact E].
  intros x a b Ha Hrun. apply calm_evolves. apply (hunt_calm k x a b); [| exact Hrun].
  apply (sound_typed a Ha).
Qed.

(** *** Death *)

Lemma check_life_calm (k : coord) (x : entry) (st st' : state) :
  check_life k x st = Ok st' -> calm st st'.
Proof.
  destruct x as [| r]; [discriminate |]. cbn [check_life].
  unfold update_life_status.
  destruct (prob_true_or_false _ _) as [dead g]. destruct dead.
  - intros E. split.
    + eapply (grows_death _ k r st); [| | | exact E]; reflexivity.
    + destruct (list_remove_effect _ _ _ _ _ E) as [[N [_ [O _]]] _].
      split; [exact N |]. intros r'. now rewrite O.
  - intros E. inversion E. split; [now apply grows_same | now split].
Qed.

Lemma iterate_live_calm (fuel : nat) (s : species) (i : nat) (k : coord)
  (st st' : state) :
  iterate_live fuel s i k st = Ok st' -> calm st st'.
Proof.
  revert i st. induction fuel as [| fuel IH]; intros i st; cbn [iterate_live].
  - intros E. inversion E. apply calm_refl.
  - destruct (get_cell k st) as [c | e]; [| discriminate]. cbn [bind].
    destruct (nth_error (animals_of s c) i) as [x |];
      [| intros E; inversion E; apply calm_refl].
    destruct (check_life k x st) as [st1 | e] eqn:E1; [| discriminate].
    cbn [bind]. intros E.
    apply (calm_trans st st1 st'); [now apply (check_life_calm k x) | now apply IH in E].
Qed.

Lemma update_life_status_of_animals_calm (k : coord) (st st' : state) :
  update_life_status_of_animals k st = Ok st' -> calm st st'.
Proof.
  unfold update_life_status_of_animals.
  destruct (get_cell k st) as [c | e]; [| discriminate]. cbn [bind].
  destruct (iterate_live _ Herbivore 0 k st) as [st1 | e] eqn:E1; [| discriminate].
  cbn [bind]. destruct (get_cell k st1) as [c1 | e]; [| discriminate]. cbn [bind].
  intros E. apply (calm_trans st st1 st').
  - now apply iterate_live_calm in E1.
  - now apply iterate_live_calm in E.
Qed.

(** *** Procreation *)

Lemma birth_counts (a : animal) (cl cl' : classes) (g g' : Random.generator)
  (mother : animal) (child : option animal) :
  birth a cl g = Ok (mother, child, cl', g') ->
  match child with
  | Some new_animal => cl' = count_new (kind a) cl /\ kind new_animal = kind a
  | None => cl' = cl
  end /\ kind mother = kind a.
Proof.
  unfold birth. destruct (Random.gauss _ _ g) as [birth_weight g1].
  destruct (ltb_R 0 birth_weight); [| intros E; inversion E; now split].
  destruct (leb_R _ (weight a)); [| intros E; inversion E; now split].
  unfold init. destruct (initiate_weight birth_weight) as [w |]; [| discriminate].
  cbn [bind]. destruct (initiate_age 0) as [n |]; [| discriminate].
  cbn [bind fst snd]. intros E. inversion E. now repeat split.
Qed.

(** The loop of [procreate_...] leaves the lists alone; the newborn get the
    references from [next_ref] on, in the order of their birth, they are of
    the class of their mothers, and the counter of that class grows with
    them. *)
Lemma procreate_loop_effect (s : species) (N : Z) (l : list entry) (st st' : state)
  (new_list : list entry) :
  (forall r, In (Ref r) l -> kind (objects st r) = s /\ (r < next_ref st)%nat) ->
  procreate_loop N l st = Ok (new_list, st') ->
  island st' = island st /\ (next_ref st <= next_ref st')%nat /\
  new_list = map Ref (seq (next_ref st) (next_ref st' - next_ref st)) /\
  (forall s0, amount (classes_of st') s0
              = (amount (classes_of st) s0
                 + if species_eqb s0 s then Z.of_nat (next_ref st' - next_ref st)
                   else 0)%Z) /\
  (List.length new_list <= List.length l)%nat /\
  (forall r, (r < next_ref st)%nat -> kind (objects st' r) = kind (objects st r)) /\
  (forall r, (next_ref st <= r < next_ref st')%nat -> kind (objects st' r) = s).
Proof.
  revert st new_list. induction l as [| [| r] rest IH]; intros st new_list Hl;
    cbn [procreate_loop].
  - intros E. inversion E. rewrite Nat.sub_diag. simpl.
    repeat split; try lia; try reflexivity.
    intros s0. destruct (species_eqb s0 s); lia.
  - discriminate.
  - destruct (Hl r (or_introl eq_refl)) as [Hkind Hr].
    assert (Hrest : forall st1,
               next_ref st1 = next_ref st ->
               (forall r', kind (objects st1 r') = kind (objects st r')) ->
               forall r', In (Ref r') rest ->
                          kind (objects st1 r') = s /\ (r' < next_ref st1)%nat).
    { intros st1 Hn Hk r' Hin. rewrite Hk, Hn. apply Hl. now right. }
    destruct (calculate_procreation_probability _ _ _ _) as [procreates g1].
    destruct procreates.
    2:{ intros E. apply IH in E; [| now apply Hrest]. simpl in E.
        destruct E as [E1 [E2 [E3 [E4 [E5 [E6 E7]]]]]].
        repeat (split; [assumption |]). split; [simpl; lia | now split]. }
    destruct (birth _ _ _) as [[[[mother child] cl] g2] | e] eqn:Hbirth;
      [| discriminate].
    cbn [bind]. apply birth_counts in Hbirth. destruct Hbirth as [Hcl Hmother].
    simpl classes_of in Hcl. rewrite Hkind in Hcl, Hmother.
    assert (Hk2 : forall r',
               kind (objects (update_object r mother
                                (with_classes cl (with_gen g2 (with_gen g1 st)))) r')
               = kind (objects st r')).
    { intros r'. simpl. destruct (Nat.eqb r' r) eqn:Er; [| reflexivity].
      apply Nat.eqb_eq in Er. subst r'. congruence. }
    destruct child as [new_animal |].
    + destruct Hcl as [Hcl Hchild]. unfold allocate.
      destruct (procreate_loop N rest _) as [[more st3] | e] eqn:E3; [| discriminate].
      cbn [bind fst snd]. intros E. inversion E; subst st' new_list. clear E.
      apply IH in E3.
      2:{ intros r' Hin. destruct (Hl r' (or_intror Hin)) as [Hk' Hr'].
          simpl next_ref. split; [| lia].
          simpl. destruct (Nat.eqb r' (next_ref st)) eqn:En.
          - apply Nat.eqb_eq in En. lia.
          - destruct (Nat.eqb r' r) eqn:Er; [| exact Hk'].
            apply Nat.eqb_eq in Er. subst r'. congruence. }
      simpl in E3. destruct E3 as [E1 [E2 [E3 [E4 [E5 [E6 E7]]]]]].
      split; [exact E1 | split; [lia | split; [| split; [| split; [| split]]]]].
      * replace (next_ref st3 - next_ref st)%nat
          with (S (next_ref st3 - S (next_ref st))) by lia.
        cbn [seq map]. now rewrite E3 at 1.
      * intros s0. rewrite E4, Hcl. unfold count_new. rewrite amount_add_count.
        destruct (species_eqb s0 s); lia.
      * simpl. lia.
      * intros r' Hr'. rewrite E6 by lia.
        destruct (Nat.eqb r' (next_ref st)) eqn:En.
        { apply Nat.eqb_eq in En. lia. }
        destruct (Nat.eqb r' r) eqn:Er; [| reflexivity].
        apply Nat.eqb_eq in Er. subst r'. congruence.
      * intros r' Hr'. destruct (Nat.eq_dec r' (next_ref st)) as [-> | Hne].
        { rewrite E6 by lia. rewrite Nat.eqb_refl. exact Hchild. }
        apply E7. lia.
    + subst cl. intros E. apply IH in E.
      2:{ intros r' Hin. destruct (Hl r' (or_intror Hin)) as [Hk' Hr'].
          split; [| exact Hr']. now rewrite Hk2. }
      simpl in E. destruct E as [E1 [E2 [E3 [E4 [E5 [E6 E7]]]]]].
      split; [exact E1 | split; [exact E2 | split; [exact E3 | split; [exact E4 |]]]].
      split; [simpl; lia | split; [| exact E7]].
      intros r' Hr'. rewrite E6 by exact Hr'.
      destruct (Nat.eqb r' r) eqn:Er; [| reflexivity].
      apply Nat.eqb_eq in Er. subst r'. congruence.
Qed.

Lemma sound_resident (s : species) (k : coord) (c : cell) (r : nat) (st : state) :
  sound st -> find_cell k (island st) = Some c -> In (Ref r) (animals_of s c) ->
  kind (objects st r) = s /\ (r < next_ref st)%nat.
Proof.
  intros [HC HT] Hc Hin.
  assert (Hpop : In (Ref r) (population s (island st))).
  { apply tally_In. pose proof (tally_bound s (Ref r) k c _ Hc) as Hb.
    apply (count_occ_In entry_eq_dec) in Hin. lia. }
  split; [now apply HT |].
  destruct (Nat.lt_ge_cases r (next_ref st)) as [H | H]; [exact H |].
  apply tally_In in Hpop. rewrite (census_known st HC s r H) in Hpop. lia.
Qed.

Lemma procreate_evolves (s : species) (k : coord) (st st' : state) :
  sound st -> procreate s k st = Ok st' -> evolves st st'.
Proof.
  intros Hsound. unfold procreate, get_cell.
  destruct (find_cell k (island st)) as [c |] eqn:Hc; [| discriminate]. cbn [bind].
  destruct (procreate_loop _ _ st) as [[new_list st1] | e] eqn:E1; [| discriminate].
  cbn [bind]. apply (procreate_loop_effect s) in E1.
  2:{ intros r Hin. now apply (sound_resident s k c r st). }
  destruct E1 as [Hi [Hn [Hnew [Hcount [_ [Hold Hborn]]]]]].
  rewrite Hi, Hc. cbn [bind]. intros E. inversion E. clear E.
  set (m := (next_ref st1 - next_ref st)%nat) in *.
  assert (Hfresh : forall x, count_occ entry_eq_dec new_list x
                             = fresh_between (next_ref st) (next_ref st1) x).
  { intros x. rewrite Hnew, count_refs_seq. f_equal. unfold m. lia. }
  assert (Hlen : List.length new_list = m).
  { rewrite Hnew. now rewrite length_map, length_seq. }
  assert (Htally : forall s0 x,
             tally s0 x (replace_cell k (with_animals s (animals_of s c ++ new_list) c)
                                      (island st))
             = (tally s0 x (island st)
                + if species_eqb s0 s then count_occ entry_eq_dec new_list x else 0)%nat).
  { intros s0 x.
    pose proof (tally_replace s0 x k c
                  (with_animals s (animals_of s c ++ new_list) c) _ Hc) as H.
    destruct s0, s; simpl in H |- *; rewrite ?count_occ_app in H; lia. }
  split; [split | |].
  - simpl. exact Hn.
  - intros s0 x. simpl island. simpl next_ref. rewrite Hi, Htally.
    specialize (Hfresh x). destruct (species_eqb s0 s); lia.
  - intros s0. unfold surplus. simpl island. simpl classes_of. rewrite Hi, Hcount.
    pose proof (size_replace s0 k c
                  (with_animals s (animals_of s c ++ new_list) c) _ Hc) as H1.
    fold m.
    destruct s0, s; simpl in H1 |- *; rewrite ?length_app in *; lia.
  - intros r Hr. simpl objects. now apply Hold.
  - intros s0 r Hr Hin. simpl objects. simpl next_ref in Hr.
    apply tally_In in Hin. simpl island in Hin. rewrite Hi, Htally in Hin.
    rewrite (census_known st (sound_census st Hsound) s0 r) in Hin by lia.
    destruct (species_eqb s0 s) eqn:Es; [| lia].
    apply species_eqb_eq in Es. subst s0. now apply Hborn.
Qed.

(** *** Insertion of a population *)

Lemma init_effect (s : species) (w : R) (n : Z) (cl cl' : classes) (a : animal) :
  init s w n cl = Ok (a, cl') -> a = mkAnimal s w n /\ cl' = count_new s cl.
Proof.
  unfold init, initiate_weight, initiate_age.
  destruct (leb_R w 0); [discriminate |]. cbn [bind].
  destruct (n <? 0)%Z; [discriminate |]. cbn [bind].
  intros E. now inversion E.
Qed.

Lemma add_population_evolves (loc : coord) (pop : list descriptor) (st : state) :
  sound st -> (exists c, find_cell loc (island st) = Some c) ->
  evolves st (fst (add_population loc pop st)).
Proof.
  revert st. induction pop as [| animal rest IH]; intros st Hsound [c Hc];
    cbn [add_population]; [apply evolves_refl |].
  destruct (if String.eqb (species_tag animal) "Herbivore" then Some Herbivore
            else if String.eqb (species_tag animal) "Carnivore" then Some Carnivore
                 else None) as [s |]; [| apply evolves_refl].
  destruct (init s _ _ _) as [[a cl] | e] eqn:Hinit; [| apply evolves_refl].
  apply init_effect in Hinit. destruct Hinit as [Ha Hcl].
  unfold allocate. cbn [next_ref with_classes].
  match goal with
  | |- evolves st (fst (add_population loc rest ?st2)) =>
      assert (H1 : evolves st st2); [| apply (evolves_trans st st2 _ H1); apply IH]
  end.
  - unfold append_animal. simpl island. rewrite Hc.
    assert (Htally : forall s0 x,
               tally s0 x (replace_cell loc
                             (with_animals s (animals_of s c ++ [Ref (next_ref st)]) c)
                             (island st))
               = (tally s0 x (island st)
                  + if species_eqb s0 s
                    then fresh_between (next_ref st) (S (next_ref st)) x else 0)%nat).
    { intros s0 x.
      pose proof (tally_replace s0 x loc c
                    (with_animals s (animals_of s c ++ [Ref (next_ref st)]) c) _ Hc) as H.
      pose proof (count_refs_seq (next_ref st) 1 x) as Hone.
      replace (next_ref st + 1)%nat with (S (next_ref st)) in Hone by lia.
      cbn [seq map] in Hone.
      destruct s0, s; simpl in H |- *; rewrite ?count_occ_app in H; lia. }
    split; [split | |].
    + simpl. lia.
    + intros s0 x. simpl island. simpl next_ref. rewrite Htally.
      destruct (species_eqb s0 s); lia.
    + intros s0. unfold surplus. simpl island. simpl classes_of. rewrite Hcl.
      unfold count_new. rewrite amount_add_count.
      pose proof (size_replace s0 loc c
                    (with_animals s (animals_of s c ++ [Ref (next_ref st)]) c) _ Hc) as H1.
      destruct s0, s; simpl in H1 |- *; rewrite ?length_app in *; simpl in *; lia.
    + intros r Hr. simpl.
      destruct (Nat.eqb r (next_ref st)) eqn:En; [| reflexivity].
      apply Nat.eqb_eq in En. lia.
    + intros s0 r Hr Hin. simpl next_ref in Hr. assert (r = next_ref st) by lia. subst r.
      simpl objects. rewrite Nat.eqb_refl.
      apply tally_In in Hin. simpl island in Hin. rewrite Htally in Hin.
      rewrite (census_known st (sound_census st Hsound) s0 (next_ref st)) in Hin by lia.
      destruct (species_eqb s0 s) eqn:Es; [| lia].
      apply species_eqb_eq in Es. subst s0 a. reflexivity.
  - now apply (sound_evolves st).
  - unfold append_animal. simpl island. rewrite Hc. simpl island.
    apply find_cell_in_keys. rewrite keys_replace. apply find_cell_in_keys. eauto.
Qed.

Lemma add_animal_to_island_evolves (entries : list (coord * list descriptor))
  (st : state) :
  sound st -> evolves st (fst (_add_animal_to_island entries st)).
Proof.
  revert st. induction entries as [| [loc pop] rest IH]; intros st Hsound;
    cbn [_add_animal_to_island]; [apply evolves_refl |].
  destruct (find_cell loc (island st)) as [c |] eqn:Hc; [| apply evolves_refl].
  destruct (accessability c); [| apply evolves_refl].
  assert (H1 : evolves st (fst (add_population loc pop st))).
  { apply add_population_evolves; [exact Hsound | eauto]. }
  destruct (add_population loc pop st) as [st1 [e |]]; cbn [fst] in *;
    [exact H1 |].
  apply (evolves_trans st st1 _ H1). apply IH. now apply (sound_evolves st).
Qed.

(** *** Migration *)

Lemma for_each_only_moves {A : Type} (body : A -> state -> result state) (l : list A) :
  (forall x st st', body x st = Ok st' -> only_moves st st') ->
  forall st st', for_each body l st = Ok st' -> only_moves st st'.
Proof.
  intros Hbody. induction l as [| x rest IH]; intros st st' Hrun.
  - inversion Hrun. apply only_moves_refl.
  - cbn [for_each] in Hrun.
    destruct (body x st) as [st1 | e] eqn:E; [| discriminate]. cbn [bind] in Hrun.
    apply (only_moves_trans st st1 st'); [now apply (Hbody x) | now apply IH].
Qed.

Lemma list_remove_only_moves (s : species) (k : coord) (r : nat) (st st' : state) :
  list_remove s k r st = Ok st' -> only_moves st st'.
Proof.
  unfold list_remove. destruct (get_cell k st) as [c |]; [| discriminate]. cbn [bind].
  destruct (remove_first _ _); [| discriminate]. intros E. inversion E.
  now repeat split.
Qed.

Lemma migrate_one_only_moves (s : species) (k : coord) (x : entry) (st st' : state) :
  migrate_one s k x st = Ok st' -> only_moves st st'.
Proof.
  destruct x as [| r]; [discriminate |]. cbn [migrate_one].
  destruct (migrate_or_not _ _ _) as [migrates g1].
  destruct migrates; [| intros E; inversion E; now repeat split].
  destruct (migration_direction g1) as [d g2].
  destruct (get_cell k _) as [c |]; [| discriminate]. cbn [bind].
  destruct (nth_error (adjacent_cells c) d) as [[dst |] |]; try discriminate.
  destruct (get_cell dst _) as [dc |]; [| discriminate]. cbn [bind].
  destruct (accessability dc); [| intros E; inversion E; now repeat split].
  destruct (list_remove s k r _) as [st4 | e] eqn:E4; [| discriminate].
  cbn [bind]. intros E. inversion E; subst st'.
  apply list_remove_only_moves in E4. destruct E4 as [H1 [H2 [H3 H4]]].
  repeat split; assumption.
Qed.

Lemma migrate_only_moves (s : species) (k : coord) (st st' : state) :
  migrate s k st = Ok st' -> only_moves st st'.
Proof.
  unfold migrate. destruct (get_cell k st) as [c |]; [| discriminate]. cbn [bind].
  destruct (for_each _ _ st) as [st1 | e] eqn:E1; [| discriminate]. cbn [bind].
  apply (for_each_only_moves _ _ (migrate_one_only_moves s k)) in E1.
  destruct (get_cell k st1) as [c1 |]; [| discriminate]. cbn [bind].
  intros E. inversion E. destruct E1 as [H1 [H2 [H3 H4]]]. now repeat split.
Qed.

Lemma migration_stage_only_moves (cells : list coord) (st st' : state) :
  _migration_stage cells st = Ok st' -> only_moves st st'.
Proof.
  unfold _migration_stage. apply for_each_only_moves. intros k a b.
  unfold migrate_herbivores, migrate_carnivores.
  destruct (migrate Herbivore k a) as [a1 |] eqn:Ea; [| discriminate]. cbn [bind].
  intros Eb. apply (only_moves_trans a a1 b); now apply migrate_only_moves in Ea, Eb.
Qed.


Lemma migration_stage_calm (st st' : state) :
  wf_island (island st) -> census st ->
  _migration_stage (_get_cells st) st = Ok st' -> calm st st'.
Proof.
  intros Hwf Hcensus Hrun.
  destruct (census_lists st Hcensus) as [Hclean [Hdistinct _]].
  destruct (migration_stage_invariant st Hwf Hclean Hdistinct)
    as [st'' [ev [Hrun' [_ HI]]]].
  rewrite Hrun in Hrun'. inversion Hrun'; subst st''. clear Hrun'.
  pose proof (migration_stage_only_moves _ _ _ Hrun) as Hmoves.
  split; [| now apply only_moves_quiet].
  destruct Hmoves as [Hn [Hc _]].
  assert (Hsorted : StronglySorted coord_lt (map fst (island st'))).
  { rewrite (stable_keys _ _ (inv_stable _ _ _ _ _ (HI Herbivore))).
    apply (wf_order _ Hwf). }
  assert (Hcount : forall s x, tally s x (island st') = tally s x (island st)).
  { intros s [| r].
    - rewrite (census_marker st Hcensus s). unfold tally.
      apply (count_occ_not_In entry_eq_dec). unfold population. intros Hin.
      apply in_flat_map in Hin. destruct Hin as [[k c] [Hkc Hin]]. simpl in Hin.
      apply (In_find_cell k c _ Hsorted) in Hkc.
      apply (inv_done _ _ _ _ _ (HI s) k (fun H => H)).
      unfold contents. now rewrite Hkc.
    - rewrite !tally_occurrences. apply (inv_occ _ _ _ _ _ (HI s) r). }
  split.
  - lia.
  - intros s x. rewrite Hcount. lia.
  - intros s. unfold surplus, size. rewrite Hc.
    assert (Hlen : List.length (population s (island st'))
                   = List.length (population s (island st))).
    { apply Permutation_length.
      apply (Permutation_count_occ entry_eq_dec). intros x. apply (Hcount s x). }
    now rewrite Hlen.
Qed.

(** *** The stages and the cycle *)

Lemma stage_evolves (stage : list coord -> state -> result state) (st st' : state) :
  In stage stages -> wf_island (island st) -> sound st ->
  stage (_get_cells st) st = Ok st' -> evolves st st'.
Proof.
  intros Hstage Hwf Hsound. simpl in Hstage.
  destruct Hstage as [<- | [<- | [<- | [<- | [<- | [<- | [<- | []]]]]]]]; intros E.
  - apply calm_evolves. apply (for_each_calm _ (_get_cells st)) in E; [exact E |].
    intros k a b. cbv beta.
    destruct (set_fodder k a) as [a1 | e] eqn:Ea; [| discriminate]. cbn [bind].
    intros Eb. apply (calm_trans a a1 b); apply same_lists_calm.
    + now apply set_fodder_same_lists in Ea.
    + now apply feed_herbivores_same_lists in Eb.
  - apply (for_each_evolves _ (_get_cells st)) in E; [exact E | | exact Hsound].
    intros k a b. apply facilitate_hunting_evolves.
  - apply (for_each_evolves _ (_get_cells st)) in E; [exact E | | exact Hsound].
    intros k a b Ha. cbv beta. unfold procreate_herbivores, procreate_carnivores.
    destruct (procreate Herbivore k a) as [a1 | e] eqn:Ea; [| discriminate].
    cbn [bind]. intros Eb.
    pose proof (procreate_evolves _ _ _ _ Ha Ea) as H1.
    apply (evolves_trans a a1 b H1).
    apply (procreate_evolves Carnivore k a1 b); [| exact Eb].
    now apply (sound_evolves a a1).
  - apply calm_evolves. apply migration_stage_calm; [exact Hwf | | exact E].
    apply (sound_census st Hsound).
  - apply calm_evolves. apply (for_each_calm _ (_get_cells st)) in E; [exact E |].
    intros k a b H. apply same_lists_calm. now apply age_animals_same_lists in H.
  - apply calm_evolves. apply (for_each_calm _ (_get_cells st)) in E; [exact E |].
    intros k a b H. apply same_lists_calm.
    now apply animals_lose_weight_same_lists in H.
  - apply calm_evolves. apply (for_each_calm _ (_get_cells st)) in E; [exact E |].
    intros k a b. apply update_life_status_of_animals_calm.
Qed.

(** One stage of a cycle that started in [st0]: the layout is the one of
    [st0], so the cells are the same. *)
Lemma cycle_stage (stage : list coord -> state -> result state) (st0 st st' : state) :
  In stage stages -> wf_island (island st0) -> sound st0 ->
  keeps st0 st -> evolves st0 st ->
  stage (_get_cells st0) st = Ok st' ->
  keeps st0 st' /\ evolves st0 st'.
Proof.
  intros Hstage Hwf Hsound Hk Hg Hrun.
  assert (Hwf' : wf_island (island st)) by now apply (stable_wf _ _ Hk).
  assert (Hcells : _get_cells st = _get_cells st0) by now apply stable_get_cells.
  rewrite <- Hcells in Hrun. split.
  - apply (keeps_trans st0 st st' Hk).
    apply (stage_run_keeps stage (_get_cells st) st st' Hstage); [| exact Hrun].
    apply get_cells_accessible. apply (wf_order _ Hwf').
  - apply (evolves_trans st0 st st' Hg).
    apply (stage_evolves stage st st' Hstage Hwf'); [| exact Hrun].
    now apply (sound_evolves st0 st).
Qed.

Lemma cycle_evolves (st st' : state) :
  wf_island (island st) -> sound st -> _cycle st = Ok st' ->
  keeps st st' /\ evolves st st'.
Proof.
  intros Hwf Hsound. unfold _cycle.
  set (cells := _get_cells st) in *.
  destruct (_feed_herbivores_stage cells st) as [st1 | e] eqn:E1; [| discriminate].
  cbn [bind].
  destruct (_feed_carnivores_stage cells st1) as [st2 | e] eqn:E2; [| discriminate].
  cbn [bind].
  destruct (_procreation_stage cells st2) as [st3 | e] eqn:E3; [| discriminate].
  cbn [bind].
  destruct (_migration_stage cells st3) as [st4 | e] eqn:E4; [| discriminate].
  cbn [bind].
  destruct (_aging_stage cells st4) as [st5 | e] eqn:E5; [| discriminate].
  cbn [bind].
  destruct (_weight_loss_stage cells st5) as [st6 | e] eqn:E6; [| discriminate].
  cbn [bind]. intros E7.
  assert (H0 : keeps st st /\ evolves st st)
    by (split; [apply keeps_refl | apply evolves_refl]).
  assert (Hstep : forall stage a b,
             In stage stages -> keeps st a /\ evolves st a -> stage cells a = Ok b ->
             keeps st b /\ evolves st b).
  { intros stage a b Hin [Hk Hg] E.
    now apply (cycle_stage stage st a b Hin Hwf Hsound Hk Hg). }
  pose proof (Hstep _feed_herbivores_stage st st1 ltac:(simpl; tauto) H0 E1) as H1.
  pose proof (Hstep _feed_carnivores_stage st1 st2 ltac:(simpl; tauto) H1 E2) as H2.
  pose proof (Hstep _procreation_stage st2 st3 ltac:(simpl; tauto) H2 E3) as H3.
  pose proof (Hstep _migration_stage st3 st4 ltac:(simpl; tauto) H3 E4) as H4.
  pose proof (Hstep _aging_stage st4 st5 ltac:(simpl; tauto) H4 E5) as H5.
  pose proof (Hstep _weight_loss_stage st5 st6 ltac:(simpl; tauto) H5 E6) as H6.
  exact (Hstep _death_stage st6 st' ltac:(simpl; tauto) H6 E7).
Qed.

(** *** Every reachable state *)

Lemma population_empty (s : species) (isl : list (coord * cell)) :
  (forall k c, In (k, c) isl -> herb_list c = [] /\ carn_list c = []) ->
  population s isl = [].
Proof.
  unfold population. induction isl as [| [k c] rest IH]; intros H; [reflexivity |].
  destruct (H k c (or_introl eq_refl)) as [H1 H2].
  cbn [flat_map snd].
  assert (Hrest : forall k' c', In (k', c') rest -> herb_list c' = [] /\ carn_list c' = []).
  { intros k' c' Hin. apply (H k' c'). right. exact Hin. }
  rewrite (IH Hrest).
  destruct s; cbn [animals_of]; [rewrite H1 | rewrite H2]; reflexivity.
Qed.

Lemma created_census (landscape_string : string) (st st' : state) :
  _create_island landscape_string st = Ok st' -> census st'.
Proof.
  intros Hcreate.
  destruct (created_island landscape_string st st' Hcreate) as [_ Hempty].
  split; intros s; intros; unfold tally; rewrite (population_empty s _ Hempty);
    simpl; lia.
Qed.

Lemma set_animal_parameters_refs (title : string) (parameters : list (string * R))
  (st : state) :
  next_ref (fst (_set_animal_parameters title parameters st)) = next_ref st.
Proof.
  unfold _set_animal_parameters, set_animal_parameters.
  destruct (String.eqb title "Herbivore").
  - now destruct (Animal.set_params Herbivore parameters (classes_of st)).
  - destruct (String.eqb title "Carnivore"); [| reflexivity].
    now destruct (Animal.set_params Carnivore parameters (classes_of st)).
Qed.

Lemma set_landscape_parameters_refs (landscape : ascii)
  (parameters : list (string * R)) (st : state) :
  next_ref (fst (_set_landscape_parameters landscape parameters st)) = next_ref st.
Proof.
  unfold _set_landscape_parameters.
  destruct (type_dict landscape) as [t |]; [| reflexivity].
  now destruct (Landscape.set_params t parameters (tables st)).
Qed.

Lemma census_same (st st' : state) :
  island st' = island st -> next_ref st' = next_ref st -> census st -> census st'.
Proof.
  intros Hi Hn [C1 C2 C3]. split; intros s; intros; rewrite Hi; auto.
  apply C3. lia.
Qed.


Lemma created_sound (landscape_string : string) (st st' : state) :
  _create_island landscape_string st = Ok st' -> sound st'.
Proof.
  intros Hcreate. split; [now apply (created_census landscape_string st) |].
  destruct (created_island landscape_string st st' Hcreate) as [_ Hempty].
  intros s r Hin. rewrite (population_empty s _ Hempty) in Hin. contradiction.
Qed.

Lemma set_animal_parameters_objects (title : string) (parameters : list (string * R))
  (st : state) :
  objects (fst (_set_animal_parameters title parameters st)) = objects st.
Proof.
  unfold _set_animal_parameters, set_animal_parameters.
  destruct (String.eqb title "Herbivore").
  - now destruct (Animal.set_params Herbivore parameters (classes_of st)).
  - destruct (String.eqb title "Carnivore"); [| reflexivity].
    now destruct (Animal.set_params Carnivore parameters (classes_of st)).
Qed.

Lemma set_landscape_parameters_objects (landscape : ascii)
  (parameters : list (string * R)) (st : state) :
  objects (fst (_set_landscape_parameters landscape parameters st)) = objects st.
Proof.
  unfold _set_landscape_parameters.
  destruct (type_dict landscape) as [t |]; [| reflexivity].
  now destruct (Landscape.set_params t parameters (tables st)).
Qed.

Lemma sound_same (st st' : state) :
  island st' = island st -> next_ref st' = next_ref st -> objects st' = objects st ->
  sound st -> sound st'.
Proof.
  intros Hi Hn Ho [HC HT]. split; [now apply (census_same st) |].
  intros s r. rewrite Hi, Ho. apply HT.
Qed.

Lemma reachable_sound (st : state) : reachable st -> sound st.
Proof.
  induction 1 as [layout st st' Hcreate
                 | entries st _ IH
                 | title parameters st _ IH
                 | landscape parameters st _ IH
                 | stage st st' Hstage Hreach IH Hrun
                 | st st' Hreach IH Hrun].
  - now apply (created_sound layout st).
  - apply (sound_evolves st); [now apply add_animal_to_island_evolves | exact IH].
  - apply (sound_same st); [apply set_animal_parameters_island
                           | apply set_animal_parameters_refs
                           | apply set_animal_parameters_objects | exact IH].
  - apply (sound_same st); [apply set_landscape_parameters_island
                           | apply set_landscape_parameters_refs
                           | apply set_landscape_parameters_objects | exact IH].
  - apply (sound_evolves st); [| exact IH].
    apply (stage_evolves stage st st' Hstage); [| exact IH | exact Hrun].
    apply (proj1 (reachable_invariant st Hreach)).
  - apply (sound_evolves st); [| exact IH].
    apply (cycle_evolves st st'); [| exact IH | exact Hrun].
    apply (proj1 (reachable_invariant st Hreach)).
Qed.

(** X11.  In every reachable state the lists are in order: no list holds
    the marker [","], no animal stands twice in the lists of a species,
    every entry refers to an object that has been made (its reference is
    below [next_ref]) and that is of the class of its list, and no animal
    stands in a list of herbivores and in a list of carnivores.  So the
    conditions under which the migration stage has been verified hold
    whenever the stage is run. *)
Theorem reachable_lists_in_order (st : state) :
  reachable st ->
  no_sentinel (island st) /\ distinct_animals (island st) /\
  (forall s r, In (Ref r) (population s (island st)) ->
               (r < next_ref st)%nat /\ kind (objects st r) = s) /\
  (forall r, ~ (In (Ref r) (population Herbivore (island st)) /\
                In (Ref r) (population Carnivore (island st)))).
Proof.
  intros Hreach. destruct (reachable_sound st Hreach) as [HC HT].
  destruct (census_lists st HC) as [H1 [H2 H3]].
  split; [exact H1 | split; [exact H2 | split]].
  - intros s r Hin. split; [now apply (H3 s) | now apply HT].
  - intros r [Hh Hc]. apply HT in Hh. apply HT in Hc. congruence.
Qed.

Lemma reachable_lists_in_order_witness :
  no_sentinel (island sanctuary) /\ distinct_animals (island sanctuary).
Proof.
  destruct (reachable_lists_in_order sanctuary sanctuary_reachable) as [H1 [H2 _]].
  now split.
Defined.


(** ** A year of the simulation does not raise *)

Lemma for_each_total {A : Type} (body : A -> state -> result state)
  (P : state -> Prop) (l : list A) :
  (forall x st, In x l -> P st -> exists st', body x st = Ok st' /\ P st') ->
  forall st, P st -> exists st', for_each body l st = Ok st' /\ P st'.
Proof.
  induction l as [| x rest IH]; intros Hbody st Hst.
  - exists st. now split.
  - destruct (Hbody x st (or_introl eq_refl) Hst) as [st1 [E1 H1]].
    destruct (IH (fun y a Hy => Hbody y a (or_intror Hy)) st1 H1) as [st' [E' H']].
    exists st'. split; [| exact H']. cbn [for_each]. rewrite E1. exact E'.
Qed.

Lemma instances_total (l : list entry) :
  ~ In Sentinel l -> exists rs, instances l = Ok rs.
Proof.
  induction l as [| [| r] rest IH]; intros Hno.
  - now exists [].
  - exfalso. apply Hno. now left.
  - destruct IH as [rs Hrs]; [intros H; apply Hno; now right |].
    exists (r :: rs). simpl. now rewrite Hrs.
Qed.

Lemma remove_first_total (x : entry) (l : list entry) :
  In x l -> exists l', remove_first x l = Some l'.
Proof.
  induction l as [| y rest IH]; intros Hin; [contradiction |].
  simpl. destruct (entry_eqb y x) eqn:E; [eauto |].
  destruct Hin as [-> | Hin]; [rewrite entry_eqb_refl in E; discriminate |].
  destruct (IH Hin) as [l' Hl']. rewrite Hl'. eauto.
Qed.

Lemma remove_first_other (x y : entry) (l l' : list entry) :
  remove_first x l = Some l' -> y <> x -> In y l -> In y l'.
Proof.
  intros Hrm Hne Hin. apply (count_occ_In entry_eq_dec).
  apply (count_occ_In entry_eq_dec) in Hin.
  pose proof (remove_first_count x y l l' Hrm) as H.
  destruct (entry_eq_dec x y); [congruence | lia].
Qed.

(** What the lists of a cell are like in a state whose lists are in
    order. *)
Lemma sound_cell (s : species) (k : coord) (c : cell) (st : state) :
  sound st -> find_cell k (island st) = Some c ->
  ~ In Sentinel (animals_of s c) /\ NoDup (animals_of s c).
Proof.
  intros [HC _] Hc. split.
  - intros Hin. apply (count_occ_In entry_eq_dec) in Hin.
    pose proof (tally_bound s Sentinel k c _ Hc) as Hb.
    rewrite (census_marker st HC s) in Hb. lia.
  - apply (NoDup_count_occ entry_eq_dec). intros [| r].
    + pose proof (tally_bound s Sentinel k c _ Hc) as Hb.
      rewrite (census_marker st HC s) in Hb. lia.
    + pose proof (tally_bound s (Ref r) k c _ Hc) as Hb.
      pose proof (census_once st HC s r). lia.
Qed.

Lemma sort_fitness_total (descending : bool) (k : coord) (c : cell) (st : state) :
  sound st -> find_cell k (island st) = Some c ->
  exists rs,
    _sort_fitness descending k st = Ok rs /\ NoDup rs /\
    forall h, In h rs -> In (Ref h) (herb_list c).
Proof.
  intros Hsound Hc. destruct (sound_cell Herbivore k c st Hsound Hc) as [Hno Hnd].
  simpl in Hno, Hnd. destruct (instances_total _ Hno) as [rs Hrs].
  exists (sorted_by_fitness descending (fitness_of st) rs).
  unfold _sort_fitness, get_cell. rewrite Hc. cbn [bind]. rewrite Hrs. cbn [bind].
  split; [reflexivity |].
  pose proof (sorted_by_fitness_perm (fitness_of st) descending rs) as Hperm.
  rewrite (instances_refs _ _ Hrs) in Hnd |- *.
  split.
  - apply (Permutation_NoDup (Permutation_sym Hperm)).
    apply (NoDup_map_inv Ref). exact Hnd.
  - intros h Hh. apply in_map. now apply (Permutation_in h Hperm).
Qed.

(** *** Feeding *)

Lemma feed_cell_total (k : coord) (st : state) :
  sound st -> accessible_in k st ->
  exists st', (st1 <- set_fodder k st ;; feed_herbivores k st1) = Ok st'.
Proof.
  intros Hsound [c [Hc Hacc]]. unfold set_fodder, get_cell. rewrite Hc. cbn [bind].
  set (st1 := put_cell k _ st).
  assert (Hs1 : sound st1).
  { apply (sound_evolves st); [| exact Hsound]. apply calm_evolves, same_lists_calm.
    now apply (same_lists_put k c). }
  assert (Hc1 : exists c1, find_cell k (island st1) = Some c1).
  { unfold st1. simpl island. rewrite (find_replace_same k _ c _ Hc). eauto. }
  destruct Hc1 as [c1 Hc1].
  destruct (sort_fitness_total true k c1 st1 Hs1 Hc1) as [herbs [Hsort _]].
  unfold feed_herbivores. rewrite Hsort. cbn [bind].
  destruct (feed_loop_spec herbs k st1 c1 Hc1) as [meals [hungry [st' [Hrun _]]]].
  eauto.
Qed.

(** *** Hunting *)

Lemma hunt_loop_total (carnivore : nat) (herbs : list nat) (eaten_so_far : R)
  (k : coord) (c : cell) (st : state) :
  find_cell k (island st) = Some c -> NoDup herbs ->
  (forall h, In h herbs -> In (Ref h) (herb_list c)) ->
  kind (objects st carnivore) = Carnivore ->
  exists st', hunt_loop carnivore herbs eaten_so_far k st = Ok st'.
Proof.
  revert eaten_so_far c st. induction herbs as [| herbivore rest IH];
    intros w c st Hc Hnd Hin Hkind; cbn [hunt_loop]; [eauto |].
  destruct (ltb_R w _); [| eauto]. rewrite Hkind.
  destruct (killing_probability _ _ _ _ _) as [kills g].
  inversion Hnd as [| ? ? Hfirst Hrest]; subst.
  destruct kills.
  - unfold list_remove, get_cell. simpl island. rewrite Hc. cbn [bind].
    destruct (remove_first_total (Ref herbivore) (herb_list c)
                                 (Hin herbivore (or_introl eq_refl))) as [l' Hl'].
    cbn [animals_of]. rewrite Hl'. cbn [bind].
    apply (IH _ (with_animals Herbivore l' c)).
    + simpl island. apply (find_replace_same k _ c _ Hc).
    + exact Hrest.
    + intros h Hh. simpl. apply (remove_first_other _ _ _ _ Hl').
      * intros E. inversion E. subst h. contradiction.
      * apply Hin. now right.
    + simpl. destruct (Nat.eqb carnivore carnivore); [simpl; exact Hkind | exact Hkind].
  - apply (IH _ c); [exact Hc | exact Hrest | | exact Hkind].
    intros h Hh. apply Hin. now right.
Qed.

Lemma hunt_total (k : coord) (carnivore : nat) (st : state) :
  sound st -> accessible_in k st -> kind (objects st carnivore) = Carnivore ->
  exists st', hunt k (Ref carnivore) st = Ok st'.
Proof.
  intros Hsound [c [Hc _]] Hkind. cbn [hunt].
  destruct (sort_fitness_total false k c st Hsound Hc) as [herbs [Hsort [Hnd Hin]]].
  rewrite Hsort. cbn [bind]. now apply (hunt_loop_total carnivore herbs 0 k c).
Qed.


Lemma facilitate_hunting_total (k : coord) (st : state) :
  sound st -> accessible_in k st ->
  exists st', facilitate_hunting k st = Ok st'.
Proof.
  intros Hsound Hk. pose proof Hk as [c [Hc Hacc]].
  unfold facilitate_hunting, get_cell. rewrite Hc. cbn [bind].
  destruct (Random.shuffle (carn_list c) (gen st)) as [shuffled g] eqn:Hsh.
  set (st1 := put_cell k (with_animals Carnivore shuffled c) (with_gen g st)).
  destruct (shuffle_calm k c shuffled g st Hc Hsh) as [H1 Hmember]. fold st1 in H1.
  destruct (sound_cell Carnivore k c st Hsound Hc) as [Hno _]. simpl in Hno.
  assert (Hs1 : sound st1) by (apply (sound_evolves st); [now apply calm_evolves | easy]).
  assert (Hk1 : accessible_in k st1).
  { apply (keeps_accessible k st); [| exact Hk]. unfold keeps, st1. simpl island.
    apply (stable_replace k c (with_animals Carnivore shuffled c) _ Hc).
    now apply cell_stable_with_animals. }
  assert (Hkinds : forall r, In (Ref r) shuffled -> kind (objects st1 r) = Carnivore).
  { intros r Hr. rewrite (proj2 (proj2 H1) r).
    apply (sound_resident Carnivore k c r st Hsound Hc). now apply Hmember. }
  destruct (for_each_total (hunt k)
              (fun a => sound a /\ accessible_in k a /\
                        forall r, In (Ref r) shuffled -> kind (objects a r) = Carnivore)
              shuffled) with (st := st1) as [st' [Hrun _]].
  - intros [| r] a Hx [Ha [Hka Hkinds_a]].
    + exfalso. apply Hno. now apply Hmember.
    + destruct (hunt_total k r a Ha Hka (Hkinds_a r Hx)) as [b Hb].
      exists b. split; [exact Hb |].
      pose proof (hunt_calm k (Ref r) a b (sound_typed a Ha) Hb) as Hcalm.
      split; [| split].
      * apply (sound_evolves a); [now apply calm_evolves | exact Ha].
      * apply (keeps_accessible k a); [| exact Hka]. now apply (hunt_keeps k (Ref r)).
      * intros r' Hr'. rewrite (proj2 (proj2 Hcalm) r'). now apply Hkinds_a.
  - split; [exact Hs1 | split; [exact Hk1 | exact Hkinds]].
  - eauto.
Qed.

(** *** Procreation *)

Lemma birth_total (a : animal) (cl : classes) (g : Random.generator) :
  exists out, birth a cl g = Ok out.
Proof.
  unfold birth. destruct (Random.gauss _ _ g) as [birth_weight g'].
  destruct (ltb_R 0 birth_weight) eqn:Hpos; [| eauto].
  destruct (leb_R _ (weight a)); [| eauto].
  unfold init, initiate_weight, initiate_age.
  apply ltb_R_true in Hpos.
  replace (leb_R birth_weight 0) with false by (symmetry; apply leb_R_false; lra).
  simpl. eauto.
Qed.

Lemma procreate_loop_total (N : Z) (l : list entry) (st : state) :
  ~ In Sentinel l -> exists out, procreate_loop N l st = Ok out.
Proof.
  revert st. induction l as [| [| r] rest IH]; intros st Hno; cbn [procreate_loop].
  - eauto.
  - exfalso. apply Hno. now left.
  - assert (Hrest : ~ In Sentinel rest) by (intros H; apply Hno; now right).
    destruct (calculate_procreation_probability _ _ _ _) as [procreates g1].
    destruct procreates; [| now apply IH].
    destruct (birth_total (objects st r) (classes_of (with_gen g1 st))
                          (gen (with_gen g1 st))) as [[[[mother child] cl] g2] Hbirth].
    rewrite Hbirth. cbn [bind]. destruct child as [new_animal |]; [| now apply IH].
    unfold allocate.
    match goal with
    | |- context [procreate_loop N rest ?st3] =>
        destruct (IH st3 Hrest) as [[more st4] Hmore]; rewrite Hmore
    end.
    cbn [bind]. eauto.
Qed.

Lemma procreate_total (s : species) (k : coord) (st : state) :
  sound st -> accessible_in k st -> exists st', procreate s k st = Ok st'.
Proof.
  intros Hsound [c [Hc _]]. unfold procreate, get_cell. rewrite Hc. cbn [bind].
  destruct (sound_cell s k c st Hsound Hc) as [Hno _].
  destruct (procreate_loop_total (Z.of_nat (List.length (animals_of s c)))
                                 (animals_of s c) st Hno) as [[new_list st1] Hloop].
  rewrite Hloop. cbn [bind].
  rewrite (procreate_loop_island _ _ _ _ _ Hloop), Hc. cbn [bind]. eauto.
Qed.

(** *** Aging and loss of weight *)

Lemma for_each_refs_total (body : entry -> state -> result state) (l : list entry) :
  (forall r st, exists st', body (Ref r) st = Ok st') ->
  ~ In Sentinel l -> forall st, exists st', for_each body l st = Ok st'.
Proof.
  intros Hbody. induction l as [| [| r] rest IH]; intros Hno st.
  - now exists st.
  - exfalso. apply Hno. now left.
  - cbn [for_each]. destruct (Hbody r st) as [st1 E1]. rewrite E1. cbn [bind].
    apply IH. intros H. apply Hno. now right.
Qed.

Lemma sound_get_animals (k : coord) (c : cell) (st : state) :
  sound st -> find_cell k (island st) = Some c -> ~ In Sentinel (get_animals c).
Proof.
  intros Hsound Hc. unfold get_animals. rewrite in_app_iff.
  destruct (sound_cell Herbivore k c st Hsound Hc) as [H1 _].
  destruct (sound_cell Carnivore k c st Hsound Hc) as [H2 _]. simpl in H1, H2. tauto.
Qed.

Lemma age_animals_total (k : coord) (st : state) :
  sound st -> accessible_in k st -> exists st', age_animals k st = Ok st'.
Proof.
  intros Hsound [c [Hc _]]. unfold age_animals, get_cell. rewrite Hc. cbn [bind].
  apply for_each_refs_total; [| now apply (sound_get_animals k c st)].
  intros r a. eexists. reflexivity.
Qed.

Lemma animals_lose_weight_total (k : coord) (st : state) :
  sound st -> accessible_in k st -> exists st', animals_lose_weight k st = Ok st'.
Proof.
  intros Hsound [c [Hc _]]. unfold animals_lose_weight, get_cell. rewrite Hc. cbn [bind].
  apply for_each_refs_total; [| now apply (sound_get_animals k c st)].
  intros r a. eexists. reflexivity.
Qed.

(** *** Death *)

Lemma check_life_total (s : species) (k : coord) (c : cell) (x : entry) (st : state) :
  sound st -> find_cell k (island st) = Some c -> In x (animals_of s c) ->
  exists st', check_life k x st = Ok st'.
Proof.
  intros Hsound Hc Hin. destruct (sound_cell s k c st Hsound Hc) as [Hno _].
  destruct x as [| r]; [contradiction |]. cbn [check_life].
  destruct (sound_resident s k c r st Hsound Hc Hin) as [Hkind _].
  destruct (update_life_status _ _ _) as [[dead cl] g].
  destruct dead; [| eauto].
  unfold list_remove, get_cell. simpl island. rewrite Hc. cbn [bind]. rewrite Hkind.
  destruct (remove_first_total (Ref r) (animals_of s c) Hin) as [l' Hl'].
  rewrite Hl'. eauto.
Qed.

Lemma iterate_live_total (fuel : nat) (s : species) (i : nat) (k : coord) (st : state) :
  sound st -> accessible_in k st ->
  exists st', iterate_live fuel s i k st = Ok st'.
Proof.
  revert i st. induction fuel as [| fuel IH]; intros i st Hsound Hk;
    cbn [iterate_live]; [eauto |].
  pose proof Hk as [c [Hc _]]. unfold get_cell. rewrite Hc. cbn [bind].
  destruct (nth_error (animals_of s c) i) as [x |] eqn:Hx; [| eauto].
  destruct (check_life_total s k c x st Hsound Hc (nth_error_In _ _ Hx)) as [st1 E1].
  rewrite E1. cbn [bind]. apply IH.
  - apply (sound_evolves st); [| exact Hsound].
    apply calm_evolves. now apply (check_life_calm k x).
  - apply (keeps_accessible k st); [| exact Hk]. now apply (check_life_keeps k x).
Qed.

Lemma update_life_status_of_animals_total (k : coord) (st : state) :
  sound st -> accessible_in k st ->
  exists st', update_life_status_of_animals k st = Ok st'.
Proof.
  intros Hsound Hk. pose proof Hk as [c [Hc _]].
  unfold update_life_status_of_animals, get_cell at 1. rewrite Hc. cbn [bind].
  destruct (iterate_live_total (List.length (herb_list c)) Herbivore 0 k st Hsound Hk)
    as [st1 E1].
  rewrite E1. cbn [bind].
  assert (Hs1 : sound st1).
  { apply (sound_evolves st); [| exact Hsound].
    apply calm_evolves. now apply iterate_live_calm in E1. }
  assert (Hk1 : accessible_in k st1).
  { apply (keeps_accessible k st); [| exact Hk].
    now apply (iterate_live_keeps _ _ _ _ _ _ Hk E1). }
  pose proof Hk1 as [c1 [Hc1 _]]. unfold get_cell. rewrite Hc1. cbn [bind].
  now apply iterate_live_total.
Qed.

(** *** The stages and the cycle *)

(** The methods that a stage other than migration calls on a cell. *)
Definition visits : list (coord -> state -> result state) :=
  [ (fun cell st => st1 <- set_fodder cell st ;; feed_herbivores cell st1);
    facilitate_hunting;
    (fun cell st => st1 <- procreate_herbivores cell st ;; procreate_carnivores cell st1);
    age_animals; animals_lose_weight; update_life_status_of_animals ].

Lemma visit_step (f : coord -> state -> result state) (k : coord) (a b : state) :
  In f visits -> sound a -> accessible_in k a -> f k a = Ok b ->
  keeps a b /\ evolves a b.
Proof.
  intros Hf Ha Hk. simpl in Hf.
  destruct Hf as [<- | [<- | [<- | [<- | [<- | [<- | []]]]]]]; intros E.
  - destruct (set_fodder k a) as [a1 | e] eqn:Ea; [| discriminate]. cbn [bind] in E.
    split.
    + apply (keeps_trans a a1 b);
        [exact (set_fodder_keeps k a a1 Ea) | exact (feed_herbivores_keeps k a1 b E)].
    + apply calm_evolves. apply (calm_trans a a1 b); apply same_lists_calm.
      * now apply set_fodder_same_lists in Ea.
      * now apply feed_herbivores_same_lists in E.
  - split; [exact (facilitate_hunting_keeps k a b Hk E)
           | exact (facilitate_hunting_evolves k a b Ha E)].
  - unfold procreate_herbivores, procreate_carnivores in E.
    destruct (procreate Herbivore k a) as [a1 | e] eqn:Ea; [| discriminate].
    cbn [bind] in E.
    pose proof (procreate_keeps _ _ _ _ Hk Ea) as K1.
    pose proof (procreate_evolves _ _ _ _ Ha Ea) as E1.
    split.
    + apply (keeps_trans a a1 b K1).
      apply (procreate_keeps Carnivore k a1 b); [| exact E].
      now apply (keeps_accessible k a).
    + apply (evolves_trans a a1 b E1).
      apply (procreate_evolves Carnivore k a1 b); [| exact E].
      now apply (sound_evolves a a1).
  - split; [exact (age_animals_keeps k a b E) |].
    apply calm_evolves, same_lists_calm. now apply age_animals_same_lists in E.
  - split; [exact (animals_lose_weight_keeps k a b E) |].
    apply calm_evolves, same_lists_calm. now apply animals_lose_weight_same_lists in E.
  - split; [exact (update_life_status_of_animals_keeps k a b Hk E) |].
    apply calm_evolves. now apply update_life_status_of_animals_calm in E.
Qed.

Lemma visit_total (f : coord -> state -> result state) (k : coord) (a : state) :
  In f visits -> sound a -> accessible_in k a -> exists b, f k a = Ok b.
Proof.
  intros Hf Ha Hk. simpl in Hf.
  destruct Hf as [<- | [<- | [<- | [<- | [<- | [<- | []]]]]]].
  - now apply feed_cell_total.
  - now apply facilitate_hunting_total.
  - unfold procreate_herbivores, procreate_carnivores.
    destruct (procreate_total Herbivore k a Ha Hk) as [a1 Ea]. rewrite Ea. cbn [bind].
    apply procreate_total.
    + apply (sound_evolves a); [now apply (procreate_evolves Herbivore k) | exact Ha].
    + apply (keeps_accessible k a); [now apply (procreate_keeps Herbivore k) | exact Hk].
  - now apply age_animals_total.
  - now apply animals_lose_weight_total.
  - now apply update_life_status_of_animals_total.
Qed.

Lemma visits_total (f : coord -> state -> result state) (cells : list coord)
  (st : state) :
  In f visits -> sound st -> Forall (fun k => accessible_in k st) cells ->
  exists st', for_each f cells st = Ok st'.
Proof.
  intros Hf Hsound Hcells.
  destruct (for_each_total f
              (fun a => sound a /\ Forall (fun k => accessible_in k a) cells) cells)
    with (st := st) as [st' [Hrun _]]; [| now split | eauto].
  intros k a Hk [Ha Hall].
  assert (Hka : accessible_in k a) by (rewrite Forall_forall in Hall; now apply Hall).
  destruct (visit_total f k a Hf Ha Hka) as [b Hb]. exists b. split; [exact Hb |].
  destruct (visit_step f k a b Hf Ha Hka Hb) as [Hkeeps Hev]. split.
  - now apply (sound_evolves a).
  - eapply Forall_impl; [| exact Hall]. intros k' Hk'. now apply (keeps_accessible k' a).
Qed.

Lemma stage_total (stage : list coord -> state -> result state) (st : state) :
  In stage stages -> wf_island (island st) -> sound st ->
  exists st', stage (_get_cells st) st = Ok st'.
Proof.
  intros Hstage Hwf Hsound.
  pose proof (get_cells_accessible st (wf_order _ Hwf)) as Hcells.
  simpl in Hstage.
  destruct Hstage as [<- | [<- | [<- | [<- | [<- | [<- | [<- | []]]]]]]].
  - apply visits_total; [simpl; tauto | exact Hsound | exact Hcells].
  - apply visits_total; [simpl; tauto | exact Hsound | exact Hcells].
  - apply visits_total; [simpl; tauto | exact Hsound | exact Hcells].
  - destruct (census_lists st (sound_census st Hsound)) as [Hclean [Hdistinct _]].
    destruct (migration_stage_invariant st Hwf Hclean Hdistinct) as [st' [ev [Hrun _]]].
    eauto.
  - apply visits_total; [simpl; tauto | exact Hsound | exact Hcells].
  - apply visits_total; [simpl; tauto | exact Hsound | exact Hcells].
  - apply visits_total; [simpl; tauto | exact Hsound | exact Hcells].
Qed.

Lemma cycle_stage_total (stage : list coord -> state -> result state)
  (st0 st : state) :
  In stage stages -> wf_island (island st0) -> sound st0 ->
  keeps st0 st /\ evolves st0 st ->
  exists st', stage (_get_cells st0) st = Ok st' /\ keeps st0 st' /\ evolves st0 st'.
Proof.
  intros Hstage Hwf Hsound [Hk Hg].
  assert (Hwf' : wf_island (island st)) by now apply (stable_wf _ _ Hk).
  assert (Hcells : _get_cells st = _get_cells st0) by now apply stable_get_cells.
  destruct (stage_total stage st Hstage Hwf' (sound_evolves st0 st Hg Hsound))
    as [st' Hrun].
  rewrite Hcells in Hrun. exists st'. split; [exact Hrun |].
  now apply (cycle_stage stage st0 st st').
Qed.

Lemma cycle_total (st : state) :
  wf_island (island st) -> sound st -> exists st', _cycle st = Ok st'.
Proof.
  intros Hwf Hsound. unfold _cycle. set (cells := _get_cells st).
  assert (H0 : keeps st st /\ evolves st st)
    by (split; [apply keeps_refl | apply evolves_refl]).
  destruct (cycle_stage_total _feed_herbivores_stage st st ltac:(simpl; tauto)
              Hwf Hsound H0) as [st1 [E1 H1]].
  fold cells in E1. rewrite E1. cbn [bind].
  destruct (cycle_stage_total _feed_carnivores_stage st st1 ltac:(simpl; tauto)
              Hwf Hsound H1) as [st2 [E2 H2]].
  fold cells in E2. rewrite E2. cbn [bind].
  destruct (cycle_stage_total _procreation_stage st st2 ltac:(simpl; tauto)
              Hwf Hsound H2) as [st3 [E3 H3]].
  fold cells in E3. rewrite E3. cbn [bind].
  destruct (cycle_stage_total _migration_stage st st3 ltac:(simpl; tauto)
              Hwf Hsound H3) as [st4 [E4 H4]].
  fold cells in E4. rewrite E4. cbn [bind].
  destruct (cycle_stage_total _aging_stage st st4 ltac:(simpl; tauto)
              Hwf Hsound H4) as [st5 [E5 H5]].
  fold cells in E5. rewrite E5. cbn [bind].
  destruct (cycle_stage_total _weight_loss_stage st st5 ltac:(simpl; tauto)
              Hwf Hsound H5) as [st6 [E6 H6]].
  fold cells in E6. rewrite E6. cbn [bind].
  destruct (cycle_stage_total _death_stage st st6 ltac:(simpl; tauto)
              Hwf Hsound H6) as [st7 [E7 H7]].
  fold cells in E7. eauto.
Qed.

(** X12.  A year of the simulation does not raise: in every reachable
    state each of the seven stages, run over the accessible cells, returns,
    and so does the whole cycle; the state that it returns is reachable
    again.  (Numbers are real numbers here, as everywhere in this
    development.) *)
Theorem cycle_never_raises (st : state) :
  reachable st ->
  (forall stage, In stage stages ->
                 exists st', stage (_get_cells st) st = Ok st' /\ reachable st') /\
  exists st', _cycle st = Ok st' /\ reachable st'.
Proof.
  intros Hreach. pose proof (reachable_sound st Hreach) as Hsound.
  destruct (reachable_invariant st Hreach) as [Hwf _]. split.
  - intros stage Hstage.
    destruct (stage_total stage st Hstage Hwf Hsound) as [st' Hrun].
    exists st'. split; [exact Hrun |]. now apply (reach_stage stage st st').
  - destruct (cycle_total st Hwf Hsound) as [st' Hrun].
    exists st'. split; [exact Hrun |]. now apply (reach_cycle st st').
Qed.

Lemma cycle_never_raises_witness :
  exists st', _cycle sanctuary = Ok st' /\ reachable st'.
Proof. exact (proj2 (cycle_never_raises sanctuary sanctuary_reachable)). Defined.

(** ** simulation.py: the simulations of a [BioSim] object *)

(** The states of the process after a [BioSim] object has been made and its
    methods have been called. *)
Inductive simulated : state -> Prop :=
| sim_new (island_map : string) (ini_pop : list (coord * list descriptor))
    (seed : Random.generator) (vis_years : Z) (img_years : option Z)
    (st0 st : state) (self : Simulation.BioSim) :
    Simulation.__init__ island_map ini_pop seed vis_years img_years st0 = Ok (st, self) ->
    simulated st
| sim_add_population (population : list (coord * list descriptor)) (st : state) :
    simulated st -> simulated (fst (Simulation.add_population population st))
| sim_set_animal_parameters (title : string) (parameters : list (string * R))
    (st : state) :
    simulated st -> simulated (fst (Simulation.set_animal_parameters title parameters st))
| sim_set_landscape_parameters (landscape : ascii) (parameters : list (string * R))
    (st : state) :
    simulated st ->
    simulated (fst (Simulation.set_landscape_parameters landscape parameters st))
| sim_simulate (num_years : Z) (vis_years img_steps : option Z)
    (self self' : Simulation.BioSim) (st st' : state) :
    simulated st ->
    Simulation.simulate num_years vis_years img_steps self st = Ok (st', self') ->
    simulated st'.

(** The counters agree with the lists. *)
Definition registered (st : state) : Prop :=
  forall s, amount (classes_of st) s = Z.of_nat (size s (island st)).

Lemma registered_surplus (st : state) : registered st <-> forall s, surplus s st = 0%Z.
Proof. unfold registered, surplus. split; intros H s; specialize (H s); lia. Qed.

Lemma registered_evolves (st st' : state) :
  evolves st st' -> registered st -> registered st'.
Proof.
  intros [G _ _] H. apply registered_surplus. intros s.
  rewrite (grows_balance st st' G s). now apply registered_surplus.
Qed.

Lemma reset_counter_amount (st : state) (s : species) :
  amount (classes_of (_reset_counter st)) s = 0%Z.
Proof.
  unfold _reset_counter, reset_counter. destruct s; simpl; lia.
Qed.

Lemma init_registered (island_map : string) (ini_pop : list (coord * list descriptor))
  (seed : Random.generator) (vis_years : Z) (img_years : option Z)
  (st0 st : state) (self : Simulation.BioSim) :
  Simulation.__init__ island_map ini_pop seed vis_years img_years st0 = Ok (st, self) ->
  reachable st /\ registered st /\ self = Simulation.mkBioSim vis_years img_years 0.
Proof.
  unfold Simulation.__init__.
  set (st1 := Simulation.reset_counter (Simulation.set_seed seed st0)).
  destruct (_create_island island_map st1) as [st2 |] eqn:Hcreate; [| discriminate].
  cbn [bind].
  destruct (_add_animal_to_island ini_pop st2) as [st3 [e |]] eqn:Hadd; [discriminate |].
  intros E. inversion E; subst st3 self. clear E.
  assert (Hreach : reachable st2) by now apply (reach_create island_map st1).
  assert (Hst : st = fst (_add_animal_to_island ini_pop st2)) by now rewrite Hadd.
  split; [| split; [| reflexivity]].
  - rewrite Hst. now apply reach_add.
  - rewrite Hst.
    apply (registered_evolves st2);
      [apply add_animal_to_island_evolves; now apply reachable_sound |].
    intros s. unfold size.
    destruct (created_island island_map st1 st2 Hcreate) as [_ Hempty].
    rewrite (population_empty s _ Hempty).
    destruct (create_island_cells island_map st1 st2 Hcreate) as [_ Hrest].
    rewrite Hrest. simpl classes_of. apply reset_counter_amount.
Qed.

Lemma simulate_loop_effect (n : nat) (self self' : Simulation.BioSim) (st st' : state) :
  reachable st -> registered st ->
  Simulation.simulate_loop n self st = Ok (st', self') ->
  reachable st' /\ registered st' /\ keeps st st' /\
  self' = Simulation.mkBioSim (Simulation._vis_years self) (Simulation._img_years self)
                              (Simulation.years self + Z.of_nat n).
Proof.
  revert self st. induction n as [| n IH]; intros self st Hreach Hreg;
    cbn [Simulation.simulate_loop].
  - intros E. inversion E; subst. split; [exact Hreach | split; [exact Hreg | split]].
    + apply keeps_refl.
    + destruct self'. simpl. f_equal. lia.
  - destruct (_cycle st) as [st1 |] eqn:Hcycle; [| discriminate]. cbn [bind].
    intros E. apply IH in E.
    + destruct E as [E1 [E2 [E3 E4]]]. split; [exact E1 | split; [exact E2 | split]].
      * apply (keeps_trans st st1 st'); [| exact E3].
        apply cycle_keeps; [| exact Hcycle].
        apply (wf_order _ (proj1 (reachable_invariant st Hreach))).
      * rewrite E4. simpl. f_equal. lia.
    + now apply (reach_cycle st).
    + apply (registered_evolves st); [| exact Hreg].
      apply (cycle_evolves st st1); [| now apply reachable_sound | exact Hcycle].
      apply (proj1 (reachable_invariant st Hreach)).
Qed.

Lemma simulate_unfold (num_years : Z) (vis_years img_steps : option Z)
  (self self' : Simulation.BioSim) (st st' : state) :
  Simulation.simulate num_years vis_years img_steps self st = Ok (st', self') ->
  Simulation.simulate_loop (Z.to_nat num_years) self st = Ok (st', self').
Proof.
  unfold Simulation.simulate.
  destruct (negb _ && negb _); [discriminate | easy].
Qed.

Lemma set_animal_parameters_amount (title : string) (parameters : list (string * R))
  (st : state) (s : species) :
  amount (classes_of (fst (_set_animal_parameters title parameters st))) s
  = amount (classes_of st) s.
Proof.
  unfold _set_animal_parameters, set_animal_parameters.
  destruct (String.eqb title "Herbivore").
  - pose proof (animal_set_params_table Herbivore parameters (classes_of st)) as H.
    destruct (Animal.set_params Herbivore parameters (classes_of st)) as [cl e].
    simpl in *. apply H.
  - destruct (String.eqb title "Carnivore"); [| reflexivity].
    pose proof (animal_set_params_table Carnivore parameters (classes_of st)) as H.
    destruct (Animal.set_params Carnivore parameters (classes_of st)) as [cl e].
    simpl in *. apply H.
Qed.

Lemma set_landscape_parameters_classes (landscape : ascii)
  (parameters : list (string * R)) (st : state) :
  classes_of (fst (_set_landscape_parameters landscape parameters st)) = classes_of st.
Proof.
  unfold _set_landscape_parameters.
  destruct (type_dict landscape) as [t |]; [| reflexivity].
  now destruct (Landscape.set_params t parameters (tables st)).
Qed.

Lemma simulated_registered (st : state) :
  simulated st -> reachable st /\ registered st.
Proof.
  induction 1 as [island_map ini_pop seed vis img st0 st self Hinit
                 | population st _ [IH1 IH2]
                 | title parameters st _ [IH1 IH2]
                 | landscape parameters st _ [IH1 IH2]
                 | n vis img self self' st st' _ [IH1 IH2] Hrun].
  - destruct (init_registered _ _ _ _ _ _ _ _ Hinit) as [H1 [H2 _]]. now split.
  - unfold Simulation.add_population. split; [now apply reach_add |].
    apply (registered_evolves st); [| exact IH2].
    apply add_animal_to_island_evolves. now apply reachable_sound.
  - unfold Simulation.set_animal_parameters.
    split; [now apply reach_animal_parameters |].
    intros s. rewrite set_animal_parameters_amount, set_animal_parameters_island.
    apply IH2.
  - unfold Simulation.set_landscape_parameters.
    split; [now apply reach_landscape_parameters |].
    intros s. rewrite set_landscape_parameters_classes, set_landscape_parameters_island.
    apply IH2.
  - apply simulate_unfold in Hrun.
    destruct (simulate_loop_effect _ _ _ _ _ IH1 IH2 Hrun) as [H1 [H2 _]]. now split.
Qed.

(** X13.  The counters of the classes are the numbers of animals: after a
    [BioSim] object has been made, and whatever of [add_population],
    [set_animal_parameters], [set_landscape_parameters] and [simulate] has
    been called since, [num_animals_per_species] gives for each species the
    number of entries of the lists of that species on the island, and
    [num_animals] their sum. *)
Theorem counters_agree_with_the_lists (st : state) :
  simulated st ->
  Simulation.num_animals_per_species st
  = [ ("Herbivore", Z.of_nat (List.length (population Herbivore (island st))));
      ("Carnivore", Z.of_nat (List.length (population Carnivore (island st)))) ]%string /\
  Simulation.num_animals st
  = Z.of_nat (List.length (population Herbivore (island st))
              + List.length (population Carnivore (island st))).
Proof.
  intros Hsim. destruct (simulated_registered st Hsim) as [_ Hreg].
  pose proof (Hreg Herbivore) as HH. pose proof (Hreg Carnivore) as HC.
  unfold size in HH, HC.
  unfold Simulation.num_animals_per_species, Simulation.num_animals, _num_animals,
    _num_animals_per_species, num_animals_per_species.
  rewrite HH, HC. split; [reflexivity |]. simpl. lia.
Qed.

Definition sanctuary_population : list (coord * list descriptor) :=
  [ ((2, 2)%Z, [ mkDescriptor "Herbivore" 20 5 ]) ].

(** The process after [BioSim(sanctuary_layout, sanctuary_population, ...)]. *)
Definition simulation_start : state :=
  fst (_add_animal_to_island
         sanctuary_population
         (or_else fresh_process
                  (_create_island sanctuary_layout
                                  (Simulation.reset_counter
                                     (Simulation.set_seed (gen fresh_process)
                                                          fresh_process))))).

Lemma simulation_start_made :
  Simulation.__init__ sanctuary_layout sanctuary_population (gen fresh_process) 1 None
                      fresh_process
  = Ok (simulation_start, Simulation.mkBioSim 1 None 0).
Proof.
  unfold Simulation.__init__, simulation_start, sanctuary_population,
    _add_animal_to_island, _create_island.
  cbn -[init item]. unfold init, initiate_weight, initiate_age.
  replace (leb_R 20 0) with false by (symmetry; apply leb_R_false; lra).
  reflexivity.
Qed.

Lemma simulation_start_simulated : simulated simulation_start.
Proof. exact (sim_new _ _ _ _ _ _ _ _ simulation_start_made). Qed.

Lemma counters_agree_with_the_lists_witness :
  Simulation.num_animals simulation_start
  = Z.of_nat (List.length (population Herbivore (island simulation_start))
              + List.length (population Carnivore (island simulation_start))).
Proof.
  exact (proj2 (counters_agree_with_the_lists simulation_start
                                              simulation_start_simulated)).
Defined.

(** *** [simulate] *)

Lemma simulate_loop_app (a b : nat) (self : Simulation.BioSim) (st : state) :
  Simulation.simulate_loop (a + b) self st
  = (out <- Simulation.simulate_loop a self st ;;
     Simulation.simulate_loop b (snd out) (fst out)).
Proof.
  revert self st. induction a as [| a IH]; intros self st; [reflexivity |].
  cbn [Nat.add Simulation.simulate_loop].
  destruct (_cycle st) as [st1 |]; [| reflexivity]. cbn [bind]. apply IH.
Qed.

Lemma simulate_loop_settings (n : nat) (self self' : Simulation.BioSim) (st st' : state) :
  Simulation.simulate_loop n self st = Ok (st', self') ->
  Simulation._vis_years self' = Simulation._vis_years self /\
  Simulation._img_years self' = Simulation._img_years self.
Proof.
  revert self st. induction n as [| n IH]; intros self st; cbn [Simulation.simulate_loop].
  - intros E. inversion E. now split.
  - destruct (_cycle st) as [st1 |]; [| discriminate]. cbn [bind].
    intros E. apply IH in E. exact E.
Qed.

(** X14.  Two simulations in a row are one simulation: for [a] and [b] not
    negative, [simulate(a + b)] does what [simulate(a)] followed by
    [simulate(b)] does with the same visualisation arguments, also when
    one of them raises. *)
Theorem simulate_composes (a b : Z) (vis_years img_steps : option Z)
  (self : Simulation.BioSim) (st : state) :
  (0 <= a)%Z -> (0 <= b)%Z ->
  Simulation.simulate (a + b) vis_years img_steps self st
  = (out <- Simulation.simulate a vis_years img_steps self st ;;
     Simulation.simulate b vis_years img_steps (snd out) (fst out)).
Proof.
  intros Ha Hb. unfold Simulation.simulate.
  set (vis := match vis_years with
              | None => Simulation._vis_years self
              | Some given => given
              end).
  destruct (negb (vis =? 0)%Z
            && negb ((match img_steps with
                      | None => match Simulation._img_years self with
                                | None => vis
                                | Some given => given
                                end
                      | Some given => given
                      end) mod vis =? 0)%Z) eqn:Hcheck; [reflexivity |].
  rewrite Z2Nat.inj_add by assumption. rewrite simulate_loop_app.
  destruct (Simulation.simulate_loop (Z.to_nat a) self st) as [[st1 self1] |] eqn:E1;
    [| reflexivity].
  cbn [bind fst snd].
  destruct (simulate_loop_settings _ _ _ _ _ E1) as [Hv Hi]. rewrite Hv, Hi.
  fold vis. now rewrite Hcheck.
Qed.

Lemma simulate_composes_witness :
  Simulation.simulate (1 + 2) None None (Simulation.mkBioSim 1 None 0) simulation_start
  = (out <- Simulation.simulate 1 None None (Simulation.mkBioSim 1 None 0)
                                simulation_start ;;
     Simulation.simulate 2 None None (snd out) (fst out)).
Proof. apply simulate_composes; lia. Defined.

Lemma simulate_loop_total (n : nat) (self : Simulation.BioSim) (st : state) :
  reachable st -> exists out, Simulation.simulate_loop n self st = Ok out.
Proof.
  revert self st. induction n as [| n IH]; intros self st Hreach;
    cbn [Simulation.simulate_loop]; [eauto |].
  destruct (cycle_total st (proj1 (reachable_invariant st Hreach))
                        (reachable_sound st Hreach)) as [st1 Hcycle].
  rewrite Hcycle. cbn [bind]. apply IH. now apply (reach_cycle st).
Qed.




(** ** landscape.py: what a year does to the age and the weight *)

(** The entries of the cells [cells], herbivores before carnivores in every
    cell: what [get_animals()] yields, cell after cell. *)
Definition residents (isl : list (coord * cell)) (cells : list coord) : list entry :=
  flat_map (fun k => match find_cell k isl with
                     | Some c => get_animals c
                     | None => []
                     end) cells.

Lemma for_each_app {A : Type} (body : A -> state -> result state) (l1 l2 : list A)
  (st : state) :
  for_each body (l1 ++ l2) st = (st1 <- for_each body l1 st ;; for_each body l2 st1).
Proof.
  revert st. induction l1 as [| x rest IH]; intros st; [reflexivity |].
  cbn [app for_each]. destruct (body x st) as [st1 |]; [| reflexivity].
  cbn [bind]. apply IH.
Qed.

(** A stage that leaves the island alone is one loop over the residents. *)
Lemma stage_flatten (body : entry -> state -> result state) (cells : list coord)
  (st : state) :
  (forall x a b, body x a = Ok b -> island b = island a) ->
  Forall (fun k => exists c, find_cell k (island st) = Some c) cells ->
  for_each (fun k a => c <- get_cell k a ;; for_each body (get_animals c) a) cells st
  = for_each body (residents (island st) cells) st.
Proof.
  intros Hbody. revert st. induction cells as [| k rest IH]; intros st Hall;
    [reflexivity |].
  inversion Hall as [| ? ? [c Hc] Hrest]; subst.
  cbn [for_each residents flat_map]. unfold get_cell at 1. rewrite Hc. cbn [bind].
  rewrite for_each_app.
  destruct (for_each body (get_animals c) st) as [st1 |] eqn:E1; [| reflexivity].
  cbn [bind].
  assert (Hi : island st1 = island st).
  { apply (for_each_island body (get_animals c) Hbody st st1 E1). }
  rewrite IH by now rewrite Hi. unfold residents. now rewrite Hi.
Qed.

(** The loop [for animal in ...: animal.method()] for a method that
    replaces the object by [f] of it. *)
Lemma for_each_touch (f : animal -> animal) (body : entry -> state -> result state)
  (P : state -> Prop) (l : list entry) :
  (forall r a, P a -> body (Ref r) a = Ok (update_object r (f (objects a r)) a)) ->
  (forall r x a, P a -> P (update_object r x a)) ->
  ~ In Sentinel l ->
  forall st, P st ->
    exists st',
      for_each body l st = Ok st' /\ P st' /\
      island st' = island st /\ classes_of st' = classes_of st /\
      tables st' = tables st /\ next_ref st' = next_ref st /\
      gen st' = gen st /\ trace st' = trace st /\
      forall r, objects st' r
                = Nat.iter (count_occ entry_eq_dec l (Ref r)) f (objects st r).
Proof.
  intros Hbody HP. induction l as [| [| r0] rest IH]; intros Hno st Hst.
  - exists st. repeat split; try reflexivity. exact Hst.
  - exfalso. apply Hno. now left.
  - cbn [for_each]. rewrite (Hbody r0 st Hst). cbn [bind].
    destruct (IH (fun H => Hno (or_intror H)) (update_object r0 (f (objects st r0)) st)
                 (HP _ _ _ Hst))
      as [st' [Hrun [HP' [H1 [H2 [H3 [H4 [H5 [H6 H7]]]]]]]]].
    exists st'. split; [exact Hrun | split; [exact HP' |]].
    repeat (split; [assumption |]).
    intros r. rewrite H7. simpl objects.
    destruct (Nat.eqb r r0) eqn:E.
    + apply Nat.eqb_eq in E. subst r0.
      rewrite count_occ_cons_eq by reflexivity. now rewrite Nat.iter_succ_r.
    + apply Nat.eqb_neq in E. rewrite count_occ_cons_neq by congruence. reflexivity.
Qed.

(** The residents of the accessible cells are the populations. *)
Lemma residents_of_cells (isl sub : list (coord * cell)) :
  StronglySorted coord_lt (map fst isl) -> incl sub isl ->
  residents isl (map fst sub) = flat_map (fun kc => get_animals (snd kc)) sub.
Proof.
  intros Hs. induction sub as [| [k c] rest IH]; intros Hincl; [reflexivity |].
  cbn [map fst residents flat_map snd].
  rewrite (In_find_cell k c isl Hs (Hincl (k, c) (or_introl eq_refl))).
  f_equal. apply IH. intros x Hx. apply Hincl. now right.
Qed.

Lemma count_accessible (x : entry) (isl : list (coord * cell)) :
  Forall (fun kc : coord * cell =>
            accessability (snd kc) = false ->
            herb_list (snd kc) = [] /\ carn_list (snd kc) = []) isl ->
  count_occ entry_eq_dec
            (flat_map (fun kc => get_animals (snd kc))
                      (filter (fun kc : coord * cell => accessability (snd kc)) isl)) x
  = (tally Herbivore x isl + tally Carnivore x isl)%nat.
Proof.
  unfold tally, population.
  induction 1 as [| [k c] rest Hc _ IH]; [reflexivity |].
  cbn [filter flat_map snd]. rewrite !count_occ_app.
  change (animals_of Herbivore c) with (herb_list c).
  change (animals_of Carnivore c) with (carn_list c).
  destruct (accessability c) eqn:Hacc.
  - cbn [flat_map snd]. unfold get_animals at 1. rewrite !count_occ_app, IH. lia.
  - destruct (Hc Hacc) as [H1 H2]. simpl in H1, H2. rewrite H1, H2, IH.
    simpl. lia.
Qed.

Lemma residents_count (x : entry) (st : state) :
  wf_island (island st) -> water_empty (island st) ->
  count_occ entry_eq_dec (residents (island st) (_get_cells st)) x
  = (tally Herbivore x (island st) + tally Carnivore x (island st))%nat.
Proof.
  intros Hwf Hwater. unfold _get_cells.
  rewrite (residents_of_cells _ _ (wf_order _ Hwf)) by apply incl_filter.
  apply count_accessible. rewrite Forall_forall. intros [k c] Hin. simpl.
  now apply (Hwater k c).
Qed.

(** [r] is an animal of the island. *)
Definition lives (st : state) (r : nat) : Prop :=
  In (Ref r) (population Herbivore (island st)) \/
  In (Ref r) (population Carnivore (island st)).

Lemma residents_once (r : nat) (st : state) :
  wf_island (island st) -> water_empty (island st) -> sound st ->
  (lives st r /\
   count_occ entry_eq_dec (residents (island st) (_get_cells st)) (Ref r) = 1%nat) \/
  (~ lives st r /\
   count_occ entry_eq_dec (residents (island st) (_get_cells st)) (Ref r) = 0%nat).
Proof.
  intros Hwf Hwater [HC HT]. rewrite (residents_count _ st Hwf Hwater). unfold lives.
  pose proof (census_once st HC Herbivore r) as H1.
  pose proof (census_once st HC Carnivore r) as H2.
  rewrite !tally_In.
  destruct (Nat.eq_dec (tally Herbivore (Ref r) (island st)) 0) as [E1 | E1];
    destruct (Nat.eq_dec (tally Carnivore (Ref r) (island st)) 0) as [E2 | E2].
  - right. split; lia.
  - left. split; lia.
  - left. split; lia.
  - exfalso.
    assert (Hh : kind (objects st r) = Herbivore) by (apply HT, tally_In; lia).
    assert (Hc : kind (objects st r) = Carnivore) by (apply HT, tally_In; lia).
    congruence.
Qed.

Lemma residents_clean (st : state) :
  wf_island (island st) -> water_empty (island st) -> sound st ->
  ~ In Sentinel (residents (island st) (_get_cells st)).
Proof.
  intros Hwf Hwater [HC _] Hin. apply (count_occ_In entry_eq_dec) in Hin.
  rewrite (residents_count _ st Hwf Hwater) in Hin.
  rewrite !(census_marker st HC) in Hin. lia.
Qed.

(** Only the objects differ between the two states. *)
Definition same_but_objects (st st' : state) : Prop :=
  island st' = island st /\ classes_of st' = classes_of st /\
  tables st' = tables st /\ next_ref st' = next_ref st /\
  gen st' = gen st /\ trace st' = trace st.

Lemma stage_touch (f : animal -> animal) (body : entry -> state -> result state)
  (P : state -> Prop) (st : state) :
  (forall r a, P a -> body (Ref r) a = Ok (update_object r (f (objects a r)) a)) ->
  (forall x a b, body x a = Ok b -> island b = island a) ->
  (forall r x a, P a -> P (update_object r x a)) ->
  P st -> reachable st ->
  exists st',
    for_each (fun k a => c <- get_cell k a ;; for_each body (get_animals c) a)
             (_get_cells st) st = Ok st' /\
    same_but_objects st st' /\
    forall r, (lives st r -> objects st' r = f (objects st r)) /\
              (~ lives st r -> objects st' r = objects st r).
Proof.
  intros Href Hisl HP Hst Hreach.
  destruct (reachable_invariant st Hreach) as [Hwf Hwater].
  pose proof (reachable_sound st Hreach) as Hsound.
  rewrite (stage_flatten body (_get_cells st) st Hisl).
  2:{ pose proof (get_cells_accessible st (wf_order _ Hwf)) as Hall.
      eapply Forall_impl; [| exact Hall]. intros k [c [Hc _]]. eauto. }
  destruct (for_each_touch f body P (residents (island st) (_get_cells st)) Href HP
                           (residents_clean st Hwf Hwater Hsound) st Hst)
    as [st' [Hrun [_ [H1 [H2 [H3 [H4 [H5 [H6 H7]]]]]]]]].
  exists st'. split; [exact Hrun | split; [now repeat split |]].
  intros r. rewrite H7.
  destruct (residents_once r st Hwf Hwater Hsound) as [[Hl ->] | [Hl ->]]; simpl;
    split; intros H; try reflexivity; contradiction.
Qed.

(** X16.  The aging stage and the stage of weight loss, run in a reachable
    state over the accessible cells, return; they change the objects only.
    After the aging stage every animal of the island is exactly one year
    older and nothing else of it has changed; after the stage of weight
    loss every animal of the island has the weight [(1 - eta) * w], with
    the [eta] of its class, and its age is unchanged.  An object that is in
    no list is not touched. *)
Theorem aging_and_weight_loss_stages (st : state) :
  reachable st ->
  (exists st',
      _aging_stage (_get_cells st) st = Ok st' /\ same_but_objects st st' /\
      forall r, (lives st r -> objects st' r = aging (objects st r)) /\
                (~ lives st r -> objects st' r = objects st r)) /\
  (exists st',
      _weight_loss_stage (_get_cells st) st = Ok st' /\ same_but_objects st st' /\
      forall r,
        (lives st r ->
         objects st' r
         = weight_loss (params_of (classes_of st) (kind (objects st r))) (objects st r)) /\
        (~ lives st r -> objects st' r = objects st r)).
Proof.
  intros Hreach. split.
  - apply (stage_touch aging age_one (fun _ => True) st); trivial.
    intros [| r] a b E; [discriminate |]. cbn [age_one] in E. now inversion E.
  - apply (stage_touch
             (fun x => weight_loss (params_of (classes_of st) (kind x)) x)
             lose_weight_one (fun a => classes_of a = classes_of st) st); trivial.
    + intros r a Ha. cbn [lose_weight_one]. now rewrite Ha.
    + intros [| r] a b E; [discriminate |]. cbn [lose_weight_one] in E. now inversion E.
Qed.

Lemma sanctuary_lives : lives sanctuary 0.
Proof.
  left. unfold sanctuary, sanctuary_layout, _add_animal_to_island, _create_island.
  cbn -[init item]. unfold init, initiate_weight, initiate_age.
  replace (leb_R 20 0) with false by (symmetry; apply leb_R_false; lra).
  simpl. now left.
Qed.

Lemma aging_and_weight_loss_stages_witness :
  exists st',
    _aging_stage (_get_cells sanctuary) sanctuary = Ok st' /\
    objects st' 0%nat = aging (objects sanctuary 0%nat).
Proof.
  destruct (proj1 (aging_and_weight_loss_stages sanctuary sanctuary_reachable))
    as [st' [Hrun [_ Hobj]]].
  exists st'. split; [exact Hrun |]. apply (proj1 (Hobj 0%nat)). exact sanctuary_lives.
Defined.

(** ** island.py: the vitals of the animals *)

(** The references among the entries of a list. *)
Fixpoint refs_of (l : list entry) : list nat :=
  match l with
  | [] => []
  | Sentinel :: rest => refs_of rest
  | Ref r :: rest => r :: refs_of rest
  end.

Lemma refs_of_app (l1 l2 : list entry) : refs_of (l1 ++ l2) = refs_of l1 ++ refs_of l2.
Proof.
  induction l1 as [| [| r] rest IH]; simpl; [reflexivity | exact IH | now rewrite IH].
Qed.

Lemma refs_of_clean (l : list entry) : ~ In Sentinel l -> l = map Ref (refs_of l).
Proof.
  induction l as [| [| r] rest IH]; intros Hno; simpl.
  - reflexivity.
  - exfalso. apply Hno. now left.
  - f_equal. apply IH. intros H. apply Hno. now right.
Qed.

Lemma instances_refs_of (l : list entry) :
  ~ In Sentinel l -> instances l = Ok (refs_of l).
Proof.
  intros Hno. rewrite (refs_of_clean l Hno) at 1. apply instances_of_refs.
Qed.

Lemma attributes_clean {A : Type} (f : nat -> A) (c : cell) :
  ~ In Sentinel (herb_list c) -> ~ In Sentinel (carn_list c) ->
  attributes f c = Ok (map f (refs_of (herb_list c)), map f (refs_of (carn_list c))).
Proof.
  intros H1 H2. unfold attributes.
  rewrite (instances_refs_of _ H1). cbn [bind].
  rewrite (instances_refs_of _ H2). reflexivity.
Qed.

(** The values [f] of the animals of the cells [sub], by species. *)
Definition report {A : Type} (f : nat -> A) (sub : list (coord * cell))
  : list A * list A :=
  (map f (refs_of (flat_map (fun kc => herb_list (snd kc)) sub)),
   map f (refs_of (flat_map (fun kc => carn_list (snd kc)) sub))).

Lemma extend_report {A : Type} (f : nat -> A) (acc : list A * list A) (c : cell)
  (k : coord) (rest : list (coord * cell)) :
  extend (extend acc (map f (refs_of (herb_list c)), map f (refs_of (carn_list c))))
         (report f rest)
  = extend acc (report f ((k, c) :: rest)).
Proof.
  unfold extend, report. cbn [fst snd flat_map].
  now rewrite !refs_of_app, !map_app, !app_assoc.
Qed.

Lemma vitals_loop_cells (st : state) (sub : list (coord * cell)) (acc : vitals) :
  StronglySorted coord_lt (map fst (island st)) -> incl sub (island st) ->
  no_sentinel (island st) ->
  vitals_loop (map fst sub) acc st
  = Ok (mkVitals
          (extend (vital_age acc) (report (fun r => age (objects st r)) sub))
          (extend (vital_weight acc) (report (fun r => weight (objects st r)) sub))
          (extend (vital_fitness acc) (report (fitness_of st) sub))).
Proof.
  intros Hs Hincl Hclean. revert acc.
  induction sub as [| [k c] rest IH]; intros acc.
  - destruct acc as [[a1 a2] [w1 w2] [f1 f2]]. unfold extend, report. simpl.
    now rewrite !app_nil_r.
  - assert (Hin : In (k, c) (island st)) by (apply Hincl; now left).
    destruct (Hclean k c Hin) as [H1 H2].
    cbn [map fst vitals_loop]. unfold get_cell.
    rewrite (In_find_cell k c _ Hs Hin). cbn [bind].
    unfold get_age, get_weight, get_fitness.
    rewrite !(attributes_clean _ c H1 H2). cbn [bind].
    rewrite IH by (intros x Hx; apply Hincl; now right).
    cbn [vital_age vital_weight vital_fitness].
    now rewrite !(extend_report _ _ c k rest).
Qed.

Lemma population_accessible (s : species) (isl : list (coord * cell)) :
  water_empty isl ->
  flat_map (fun kc => animals_of s (snd kc))
           (filter (fun kc : coord * cell => accessability (snd kc)) isl)
  = population s isl.
Proof.
  unfold population. induction isl as [| [k c] rest IH]; intros Hw; [reflexivity |].
  assert (Hrest : water_empty rest).
  { intros k' c' Hin. apply (Hw k' c'). now right. }
  cbn [filter flat_map snd]. destruct (accessability c) eqn:Hacc.
  - cbn [flat_map snd]. now rewrite (IH Hrest).
  - destruct (Hw k c (or_introl eq_refl) Hacc) as [H1 H2].
    rewrite (IH Hrest). destruct s; simpl; now rewrite ?H1, ?H2.
Qed.

(** X17.  In a reachable state [_get_animal_vitals] returns, and its lists
    report every animal of the island exactly once: the ages, the weights
    and the fitnesses of the herbivores, and of the carnivores, in the
    order of the cells (row by row) and, in a cell, in the order of its
    list. *)
Theorem vitals_list_every_animal (st : state) :
  reachable st ->
  let herbivores := refs_of (population Herbivore (island st)) in
  let carnivores := refs_of (population Carnivore (island st)) in
  population Herbivore (island st) = map Ref herbivores /\
  population Carnivore (island st) = map Ref carnivores /\
  _get_animal_vitals st
  = Ok (mkVitals
          (map (fun r => age (objects st r)) herbivores,
           map (fun r => age (objects st r)) carnivores)
          (map (fun r => weight (objects st r)) herbivores,
           map (fun r => weight (objects st r)) carnivores)
          (map (fitness_of st) herbivores, map (fitness_of st) carnivores)).
Proof.
  intros Hreach. cbv zeta.
  destruct (reachable_invariant st Hreach) as [Hwf Hwater].
  destruct (census_lists st (sound_census st (reachable_sound st Hreach)))
    as [Hclean [_ _]].
  assert (Hpop : forall s, ~ In Sentinel (population s (island st))).
  { intros s Hin. unfold population in Hin. apply in_flat_map in Hin.
    destruct Hin as [[k c] [Hkc Hin]]. destruct (Hclean k c Hkc) as [H1 H2].
    destruct s; simpl in Hin; contradiction. }
  split; [now apply refs_of_clean | split; [now apply refs_of_clean |]].
  unfold _get_animal_vitals, _get_cells.
  rewrite (vitals_loop_cells st _ _ (wf_order _ Hwf) (incl_filter _ _) Hclean).
  unfold report, extend. cbn [vital_age vital_weight vital_fitness fst snd app].
  rewrite (population_accessible Herbivore _ Hwater : flat_map (fun kc => herb_list (snd kc)) _ = _).
  rewrite (population_accessible Carnivore _ Hwater : flat_map (fun kc => carn_list (snd kc)) _ = _).
  reflexivity.
Qed.

Lemma vitals_list_every_animal_witness :
  population Herbivore (island sanctuary)
  = map Ref (refs_of (population Herbivore (island sanctuary))).
Proof. exact (proj1 (vitals_list_every_animal sanctuary sanctuary_reachable)). Defined.

(** ** landscape.py: procreation *)





(** ** landscape.py: what feeding does to the animals *)

Lemma feed_loop_objects (herbs : list nat) (k : coord) (st st' : state) :
  NoDup herbs -> feed_loop herbs k st = Ok st' ->
  exists (meals : list (nat * R)) (hungry : list nat),
    herbs = map fst meals ++ hungry /\
    trace st' = trace st ++ map ate meals /\
    (forall r F,
        In (r, F) meals ->
        objects st' r
        = eat (params_of (classes_of st) (kind (objects st r))) F (objects st r)) /\
    (forall r, ~ In r (map fst meals) -> objects st' r = objects st r) /\
    classes_of st' = classes_of st /\ next_ref st' = next_ref st /\
    gen st' = gen st /\ tables st' = tables st.
Proof.
  revert st. induction herbs as [| herb rest IH]; intros st Hnd; cbn [feed_loop].
  - intros E. inversion E; subst. exists [], []. simpl. rewrite app_nil_r.
    repeat split; try reflexivity. intros r F [].
  - inversion Hnd as [| ? ? Hfirst Hrest]; subst.
    destruct (get_cell k st) as [c |]; [| discriminate]. cbn [bind].
    destruct (ltb_R 0 (available_fodder c)).
    2:{ intros E. inversion E; subst. exists [], (herb :: rest). simpl.
        rewrite app_nil_r. repeat split; try reflexivity. intros r F []. }
    set (p := params_of (classes_of st) (kind (objects st herb))).
    set (F := if leb_R 0 (available_fodder c - item p "F") then item p "F"
              else available_fodder c).
    intros E. apply (IH _ Hrest) in E.
    destruct E as [meals [hungry [Hsplit [Htrace [Hfed [Hother [H1 [H2 [H3 H4]]]]]]]]].
    assert (Hnot : ~ In herb (map fst meals)).
    { intros Hin. apply Hfirst. rewrite Hsplit. apply in_or_app. now left. }
    exists ((herb, F) :: meals), hungry. simpl in *.
    split; [now rewrite Hsplit | split; [now rewrite Htrace, <- app_assoc |]].
    split; [| split; [| now repeat split]].
    + intros r F' [Erf | Hin].
      * inversion Erf; subst r F'. rewrite (Hother herb Hnot).
        now rewrite Nat.eqb_refl.
      * rewrite (Hfed r F' Hin).
        assert (Hne : r <> herb).
        { intros ->. apply Hnot. apply in_map_iff. exists (herb, F'). now split. }
        apply Nat.eqb_neq in Hne. now rewrite Hne.
    + intros r Hr. rewrite Hother by tauto.
      destruct (Nat.eqb r herb) eqn:Er; [| reflexivity].
      apply Nat.eqb_eq in Er. subst r. tauto.
Qed.

(** The island differs in the fodder of its cells only. *)
Definition fodder_only (isl isl' : list (coord * cell)) : Prop :=
  Forall2 (fun kc kc' : coord * cell =>
             fst kc' = fst kc /\
             snd kc' = with_fodder (available_fodder (snd kc')) (snd kc)) isl isl'.

Lemma with_fodder_same (c : cell) : with_fodder (available_fodder c) c = c.
Proof. now destruct c. Qed.

Lemma fodder_only_refl (isl : list (coord * cell)) : fodder_only isl isl.
Proof.
  induction isl as [| kc rest IH]; constructor; [| exact IH].
  split; [reflexivity | now rewrite with_fodder_same].
Qed.

Lemma fodder_only_trans (a b c : list (coord * cell)) :
  fodder_only a b -> fodder_only b c -> fodder_only a c.
Proof.
  intros Hab. revert c. induction Hab as [| x y a b [Hk Hc] Hab IH]; intros c Hbc.
  - inversion Hbc. constructor.
  - inversion Hbc as [| ? z ? c' [Hk' Hc'] Hbc']; subst.
    constructor; [| now apply IH].
    split; [congruence |]. rewrite Hc', Hc. reflexivity.
Qed.

Lemma fodder_only_replace (k : coord) (f : R) (c : cell) (isl : list (coord * cell)) :
  find_cell k isl = Some c -> fodder_only isl (replace_cell k (with_fodder f c) isl).
Proof.
  induction isl as [| [k0 c0] rest IH]; simpl; [discriminate |].
  destruct (coord_eqb k0 k).
  - intros E. inversion E; subst. constructor; [now split | apply fodder_only_refl].
  - intros E. constructor; [| now apply IH].
    split; [reflexivity | simpl; now rewrite with_fodder_same].
Qed.

Lemma fodder_only_find (isl isl' : list (coord * cell)) (k : coord) :
  fodder_only isl isl' ->
  match find_cell k isl, find_cell k isl' with
  | Some c, Some c' => c' = with_fodder (available_fodder c') c
  | None, None => True
  | _, _ => False
  end.
Proof.
  induction 1 as [| [k1 c1] [k2 c2] a b [Hk Hc] _ IH]; simpl; [exact I |].
  simpl in Hk, Hc. subst k2. destruct (coord_eqb k1 k); [exact Hc | exact IH].
Qed.

Lemma fodder_only_population (s : species) (isl isl' : list (coord * cell)) :
  fodder_only isl isl' -> population s isl' = population s isl.
Proof.
  unfold population.
  induction 1 as [| [k1 c1] [k2 c2] a b [Hk Hc] _ IH]; [reflexivity |].
  simpl in *. rewrite IH, Hc. now destruct s.
Qed.

Lemma fodder_only_residents (cells : list coord) (isl isl' : list (coord * cell)) :
  fodder_only isl isl' -> residents isl' cells = residents isl cells.
Proof.
  intros H. unfold residents. apply flat_map_ext. intros k.
  pose proof (fodder_only_find isl isl' k H) as Hk.
  destruct (find_cell k isl) as [c |], (find_cell k isl') as [c' |];
    try contradiction; [| reflexivity].
  rewrite Hk. reflexivity.
Qed.

Lemma fodder_only_stable (isl isl' : list (coord * cell)) :
  fodder_only isl isl' -> stable isl isl'.
Proof.
  induction 1 as [| [k1 c1] [k2 c2] a b [Hk Hc] _ IH]; constructor; [| exact IH].
  simpl in *. split; [congruence |]. rewrite Hc. apply cell_stable_with_fodder.
Qed.

Lemma feed_loop_island (herbs : list nat) (k : coord) (st st' : state) :
  feed_loop herbs k st = Ok st' -> fodder_only (island st) (island st').
Proof.
  revert st. induction herbs as [| herb rest IH]; intros st; cbn [feed_loop].
  - intros E. inversion E. apply fodder_only_refl.
  - unfold get_cell. destruct (find_cell k (island st)) as [c |] eqn:Hc;
      [| discriminate]. cbn [bind].
    destruct (ltb_R 0 (available_fodder c));
      [| intros E; inversion E; apply fodder_only_refl].
    intros E. apply IH in E. simpl in E.
    eapply fodder_only_trans; [| exact E]. now apply fodder_only_replace.
Qed.

(** What a state is left with after some animals have eaten: [meals] lists
    who ate and how much. *)
Record fed (meals : list (nat * R)) (st st' : state) : Prop := {
  fed_trace : trace st' = trace st ++ map ate meals;
  fed_once : NoDup (map fst meals);
  fed_weight : forall r F,
      In (r, F) meals ->
      objects st' r
      = eat (params_of (classes_of st) (kind (objects st r))) F (objects st r);
  fed_others : forall r, ~ In r (map fst meals) -> objects st' r = objects st r;
  fed_island : fodder_only (island st) (island st');
  fed_classes : classes_of st' = classes_of st;
  fed_tables : tables st' = tables st;
  fed_next_ref : next_ref st' = next_ref st;
  fed_gen : gen st' = gen st
}.

Lemma fed_nothing (st : state) : fed [] st st.
Proof.
  split; try reflexivity.
  - simpl. now rewrite app_nil_r.
  - constructor.
  - intros r F [].
  - apply fodder_only_refl.
Qed.

Lemma in_meals (r : nat) (F : R) (meals : list (nat * R)) :
  In (r, F) meals -> In r (map fst meals).
Proof. intros H. apply in_map_iff. exists (r, F). now split. Qed.

Lemma fed_app (m1 m2 : list (nat * R)) (a b c : state) :
  (forall r, In r (map fst m1) -> ~ In r (map fst m2)) ->
  fed m1 a b -> fed m2 b c -> fed (m1 ++ m2) a c.
Proof.
  intros Hdis [T1 O1 W1 R1 I1 C1 B1 N1 G1] [T2 O2 W2 R2 I2 C2 B2 N2 G2].
  split; try congruence.
  - now rewrite T2, T1, map_app, app_assoc.
  - rewrite map_app. apply NoDup_app; [exact O1 | exact O2 | exact Hdis].
  - intros r F Hin. apply in_app_or in Hin. destruct Hin as [Hin | Hin].
    + rewrite R2; [now apply W1 |]. apply Hdis. now apply (in_meals r F).
    + rewrite (W2 r F Hin), C1. rewrite R1; [reflexivity |].
      intros H1. apply (Hdis r H1). now apply (in_meals r F).
  - intros r Hr. rewrite map_app in Hr.
    rewrite R2, R1; [reflexivity | |]; intros H; apply Hr, in_or_app; tauto.
  - eapply fodder_only_trans; eassumption.
Qed.

Lemma feed_cell_fed (k : coord) (c : cell) (st st' : state) :
  find_cell k (island st) = Some c ->
  ~ In Sentinel (herb_list c) -> NoDup (herb_list c) ->
  (st1 <- set_fodder k st ;; feed_herbivores k st1) = Ok st' ->
  exists meals,
    fed meals st st' /\ forall r, In r (map fst meals) -> In (Ref r) (herb_list c).
Proof.
  intros Hc Hno Hnd. unfold set_fodder, get_cell. rewrite Hc. cbn [bind].
  set (c1 := with_fodder _ c). set (st1 := put_cell k c1 st).
  assert (Hc1 : find_cell k (island st1) = Some c1).
  { unfold st1. simpl. now apply find_replace_same with c. }
  unfold feed_herbivores, _sort_fitness, get_cell. rewrite Hc1. cbn [bind].
  change (herb_list c1) with (herb_list c).
  destruct (instances_total _ Hno) as [rs Hrs]. rewrite Hrs. cbn [bind].
  pose proof (instances_refs _ _ Hrs) as Hl. rewrite Hl in Hnd.
  apply (NoDup_map_inv Ref) in Hnd.
  pose proof (sorted_by_fitness_perm (fitness_of st1) true rs) as Hperm.
  intros Hrun.
  destruct (feed_loop_objects _ k st1 st'
              (Permutation_NoDup (Permutation_sym Hperm) Hnd) Hrun)
    as [meals [hungry [Hsplit [Htrace [Hfed [Hother [H1 [H2 [H3 H4]]]]]]]]].
  exists meals. split.
  - split; try assumption.
    + apply (Permutation_NoDup (Permutation_sym Hperm)) in Hnd.
      rewrite Hsplit in Hnd. now apply NoDup_app_remove_r in Hnd.
    + eapply fodder_only_trans; [| exact (feed_loop_island _ k st1 st' Hrun)].
      unfold st1, c1. simpl. now apply fodder_only_replace.
  - intros r Hr. rewrite Hl. apply in_map. apply (Permutation_in r Hperm).
    rewrite Hsplit. apply in_or_app. now left.
Qed.

Lemma NoDup_app_parts {A : Type} (l1 l2 : list A) :
  NoDup (l1 ++ l2) -> NoDup l1 /\ NoDup l2 /\ forall x, In x l1 -> ~ In x l2.
Proof.
  intros H. split; [now apply NoDup_app_remove_r in H |].
  split; [now apply NoDup_app_remove_l in H |].
  induction l1 as [| a rest IH]; [intros x [] |].
  inversion H as [| ? ? Hfirst Hrest]; subst.
  intros x [-> | Hx] Hin.
  - apply Hfirst, in_or_app. now right.
  - now apply (IH Hrest x).
Qed.

Lemma feed_stage_fed (cells : list coord) (st st' : state) :
  (forall k, In k cells -> exists c, find_cell k (island st) = Some c) ->
  ~ In Sentinel (residents (island st) cells) ->
  NoDup (residents (island st) cells) ->
  _feed_herbivores_stage cells st = Ok st' ->
  exists meals,
    fed meals st st' /\
    forall r, In r (map fst meals) ->
              In (Ref r) (residents (island st) cells) /\
              In (Ref r) (population Herbivore (island st)).
Proof.
  unfold _feed_herbivores_stage. revert st.
  induction cells as [| k rest IH]; intros st Hall Hno Hnd; cbn [for_each].
  - intros E. inversion E; subst. exists []. split; [apply fed_nothing | intros r []].
  - destruct (Hall k (or_introl eq_refl)) as [c Hc].
    cbn [residents flat_map] in Hno, Hnd |- *. rewrite Hc in Hno, Hnd |- *.
    fold (residents (island st) rest) in Hno, Hnd |- *.
    destruct (NoDup_app_parts _ _ Hnd) as [Hnd1 [Hnd2 Hdis]].
    unfold get_animals in Hnd1, Hno, Hdis.
    destruct (st1 <- set_fodder k st ;; feed_herbivores k st1) as [st1 |] eqn:E1;
      [| discriminate].
    cbn [bind]. intros Hrun.
    destruct (feed_cell_fed k c st st1 Hc) as [m1 [Hfed1 Hin1]]; trivial.
    { intros H. apply Hno. apply in_or_app. left. apply in_or_app. now left. }
    { now apply NoDup_app_remove_r in Hnd1. }
    pose proof (fed_island _ _ _ Hfed1) as Hisl.
    pose proof (fodder_only_residents rest _ _ Hisl) as Hres.
    destruct (IH st1) as [m2 [Hfed2 Hin2]]; trivial.
    { intros k' Hk'. destruct (Hall k' (or_intror Hk')) as [c' Hc'].
      pose proof (fodder_only_find _ _ k' Hisl) as Hf. rewrite Hc' in Hf.
      destruct (find_cell k' (island st1)); [eauto | contradiction]. }
    { rewrite Hres. intros H. apply Hno. apply in_or_app. now right. }
    { now rewrite Hres. }
    exists (m1 ++ m2). split.
    + apply (fed_app m1 m2 st st1 st'); trivial.
      intros r Hr1 Hr2. apply (Hdis (Ref r)).
      * apply in_or_app. left. now apply Hin1.
      * rewrite <- Hres. now apply Hin2.
    + intros r Hr. rewrite map_app in Hr. apply in_app_or in Hr.
      destruct Hr as [Hr | Hr].
      * split.
        -- apply in_or_app. left. unfold get_animals. apply in_or_app. left.
           now apply Hin1.
        -- apply tally_In.
           pose proof (tally_bound Herbivore (Ref r) k c _ Hc) as Hb.
           specialize (Hin1 r Hr). apply (count_occ_In entry_eq_dec) in Hin1.
           simpl in Hb. lia.
      * destruct (Hin2 r Hr) as [H1 H2]. split.
        -- apply in_or_app. right. now rewrite <- Hres.
        -- now rewrite <- (fodder_only_population Herbivore _ _ Hisl).
Qed.

(** X19.  The feeding stage, run in a reachable state over the accessible
    cells, returns.  [meals] lists the calls [herb.eat(F)] of the stage in
    order: nobody eats twice, everyone who eats is a herbivore of the
    island, and its object is what [eat] makes of it, so its weight has
    grown by [beta * F], with the [beta] of its class, and nothing else of
    it has changed.  No other object is touched; the island differs in the
    fodder of its cells only; the classes, the tables, the references and
    the generator are the ones they were. *)
Theorem feeding_stage_feeds_each_herbivore_once (st : state) :
  reachable st ->
  exists (st' : state) (meals : list (nat * R)),
    _feed_herbivores_stage (_get_cells st) st = Ok st' /\
    fed meals st st' /\
    forall r, In r (map fst meals) -> In (Ref r) (population Herbivore (island st)).
Proof.
  intros Hreach.
  destruct (reachable_invariant st Hreach) as [Hwf Hwater].
  pose proof (reachable_sound st Hreach) as Hsound.
  destruct (stage_total _feed_herbivores_stage st) as [st' Hrun];
    [simpl; tauto | exact Hwf | exact Hsound |].
  destruct (feed_stage_fed (_get_cells st) st st') as [meals [Hfed Hin]]; trivial.
  - pose proof (get_cells_accessible st (wf_order _ Hwf)) as Hall.
    rewrite Forall_forall in Hall. intros k Hk.
    destruct (Hall k Hk) as [c [Hc _]]. eauto.
  - now apply residents_clean.
  - apply (NoDup_count_occ entry_eq_dec). intros [| r].
    + pose proof (residents_clean st Hwf Hwater Hsound) as Hno.
      apply (count_occ_not_In entry_eq_dec) in Hno. lia.
    + destruct (residents_once r st Hwf Hwater Hsound) as [[_ E] | [_ E]]; lia.
  - exists st', meals. split; [exact Hrun | split; [exact Hfed |]].
    intros r Hr. now apply Hin.
Qed.

Lemma feeding_stage_feeds_each_herbivore_once_witness :
  exists (st' : state) (meals : list (nat * R)),
    _feed_herbivores_stage (_get_cells sanctuary) sanctuary = Ok st' /\
    NoDup (map fst meals) /\
    trace st' = trace sanctuary ++ map ate meals.
Proof.
  destruct (feeding_stage_feeds_each_herbivore_once sanctuary sanctuary_reachable)
    as [st' [meals [Hrun [Hfed _]]]].
  exists st', meals. split; [exact Hrun |].
  split; [exact (fed_once _ _ _ Hfed) | exact (fed_trace _ _ _ Hfed)].
Defined.

(** ** landscape.py: what the hunt does to the cell *)

(** The weight of the animals [l], taken together. *)
Definition total_weight (st : state) (l : list nat) : R :=
  fold_right (fun r total => weight (objects st r) + total) 0 l.



Lemma total_weight_perm (st : state) (l1 l2 : list nat) :
  Permutation l1 l2 -> total_weight st l1 = total_weight st l2.
Proof.
  induction 1; simpl; lra.
Qed.

Lemma refs_of_perm (l1 l2 : list entry) :
  Permutation l1 l2 -> Permutation (refs_of l1) (refs_of l2).
Proof.
  induction 1 as [| x l1 l2 _ IH | x y l | l1 l2 l3 _ IH1 _ IH2].
  - constructor.
  - destruct x; simpl; [exact IH | now constructor].
  - destruct x, y; simpl; try reflexivity. constructor.
  - now transitivity (refs_of l2).
Qed.















(** ** island.py: what a year does to the ages and to the parameters *)

(** A step that is no birthday: the parameters are the ones they were, no
    reference is taken back, every object that was there has the age it
    had, and the new ones are of age 0. *)
Record passes (st st' : state) : Prop := {
  passes_params : forall s, params_of (classes_of st') s = params_of (classes_of st) s;
  passes_tables : tables st' = tables st;
  passes_refs : (next_ref st <= next_ref st')%nat;
  passes_old :
    forall r, (r < next_ref st)%nat -> age (objects st' r) = age (objects st r);
  passes_new :
    forall r, (next_ref st <= r < next_ref st')%nat -> age (objects st' r) = 0%Z
}.

Lemma passes_still (st st' : state) :
  (forall s, params_of (classes_of st') s = params_of (classes_of st) s) ->
  tables st' = tables st -> next_ref st' = next_ref st ->
  (forall r, age (objects st' r) = age (objects st r)) ->
  passes st st'.
Proof.
  intros P T N A. split; trivial; [lia | intros r H; lia].
Qed.

Lemma passes_refl (st : state) : passes st st.
Proof. now apply passes_still. Qed.

Lemma passes_trans (a b c : state) : passes a b -> passes b c -> passes a c.
Proof.
  intros [P1 T1 N1 O1 W1] [P2 T2 N2 O2 W2]. split.
  - intros s. now rewrite P2, P1.
  - congruence.
  - lia.
  - intros r Hr. rewrite O2 by lia. now apply O1.
  - intros r Hr. destruct (Nat.lt_ge_cases r (next_ref b)) as [Hlt | Hge].
    + rewrite O2 by exact Hlt. apply W1. lia.
    + apply W2. lia.
Qed.

Lemma for_each_passes {A : Type} (body : A -> state -> result state) (l : list A) :
  (forall x st st', body x st = Ok st' -> passes st st') ->
  forall st st', for_each body l st = Ok st' -> passes st st'.
Proof.
  intros Hbody. induction l as [| x rest IH]; intros st st' Hrun.
  - inversion Hrun. apply passes_refl.
  - cbn [for_each] in Hrun.
    destruct (body x st) as [st1 | e] eqn:E; [| discriminate]. cbn [bind] in Hrun.
    apply (passes_trans st st1 st'); [now apply (Hbody x) | now apply IH].
Qed.

Lemma only_moves_passes (st st' : state) : only_moves st st' -> passes st st'.
Proof.
  intros [N [C [O T]]]. apply passes_still; trivial.
  - intros s. now rewrite C.
  - intros r. now rewrite O.
Qed.

Lemma params_of_add_count (d : Z) (s s0 : species) (cl : classes) :
  params_of (add_count d s cl) s0 = params_of cl s0.
Proof. now destruct s, s0. Qed.

(** *** Feeding *)

Lemma feed_loop_passes (herbs : list nat) (k : coord) (st st' : state) :
  feed_loop herbs k st = Ok st' -> passes st st'.
Proof.
  revert st. induction herbs as [| herb rest IH]; intros st; cbn [feed_loop].
  - intros E. inversion E. apply passes_refl.
  - destruct (get_cell k st) as [c |]; [| discriminate]. cbn [bind].
    destruct (ltb_R 0 (available_fodder c));
      [| intros E; inversion E; apply passes_refl].
    intros E. apply IH in E. eapply passes_trans; [| exact E].
    apply passes_still; try reflexivity.
    intros r. simpl. destruct (Nat.eqb r herb) eqn:Er; [| reflexivity].
    apply Nat.eqb_eq in Er. now subst r.
Qed.

Lemma feed_cell_passes (k : coord) (st st' : state) :
  (st1 <- set_fodder k st ;; feed_herbivores k st1) = Ok st' -> passes st st'.
Proof.
  unfold set_fodder. destruct (get_cell k st) as [c |]; [| discriminate]. cbn [bind].
  unfold feed_herbivores.
  destruct (_sort_fitness true k _) as [herbs |]; [| discriminate]. cbn [bind].
  intros E. apply feed_loop_passes in E. eapply passes_trans; [| exact E].
  now apply passes_still.
Qed.

(** *** Hunting *)

Lemma hunt_loop_passes (carnivore : nat) (herbs : list nat) (eaten_so_far : R)
  (k : coord) (st st' : state) :
  hunt_loop carnivore herbs eaten_so_far k st = Ok st' -> passes st st'.
Proof.
  revert eaten_so_far st. induction herbs as [| herbivore rest IH];
    intros w st; cbn [hunt_loop].
  - intros E. inversion E. apply passes_refl.
  - destruct (ltb_R w _); [| intros E; inversion E; apply passes_refl].
    destruct (kind (objects st carnivore)) eqn:Hkind; [discriminate |].
    destruct (killing_probability _ _ _ _ _) as [kills g].
    destruct kills.
    + destruct (list_remove Herbivore k herbivore _) as [st4 | e] eqn:E4;
        [| discriminate].
      cbn [bind]. intros E. apply IH in E. eapply passes_trans; [| exact E].
      apply list_remove_only_moves in E4. destruct E4 as [N [C [O T]]].
      simpl in N, C, O, T. apply passes_still; trivial.
      * intros s. rewrite C. apply params_of_add_count.
      * intros r. rewrite O. destruct (Nat.eqb r carnivore) eqn:Er; [| reflexivity].
        apply Nat.eqb_eq in Er. now subst r.
    + intros E. apply IH in E. eapply passes_trans; [| exact E].
      now apply passes_still.
Qed.

Lemma facilitate_hunting_passes (k : coord) (st st' : state) :
  facilitate_hunting k st = Ok st' -> passes st st'.
Proof.
  unfold facilitate_hunting. destruct (get_cell k st) as [c |]; [| discriminate].
  cbn [bind]. destruct (Random.shuffle (carn_list c) (gen st)) as [shuffled g].
  intros E. apply (for_each_passes (hunt k)) in E.
  - eapply passes_trans; [| exact E]. now apply passes_still.
  - intros [| carnivore] a b; [discriminate |]. cbn [hunt].
    destruct (_sort_fitness false k a) as [herbs |]; [| discriminate]. cbn [bind].
    apply hunt_loop_passes.
Qed.

(** *** Procreation *)

Lemma birth_ages (a : animal) (cl cl' : classes) (g g' : Random.generator)
  (mother : animal) (child : option animal) :
  birth a cl g = Ok (mother, child, cl', g') ->
  age mother = age a /\
  (forall s, params_of cl' s = params_of cl s) /\
  match child with
  | Some new_animal => age new_animal = 0%Z
  | None => True
  end.
Proof.
  unfold birth. destruct (Random.gauss _ _ g) as [birth_weight g1].
  destruct (ltb_R 0 birth_weight); [| intros E; inversion E; now repeat split].
  destruct (leb_R _ (weight a)); [| intros E; inversion E; now repeat split].
  unfold init. destruct (initiate_weight birth_weight) as [w |]; [| discriminate].
  cbn [bind]. unfold initiate_age. cbn [Z.ltb Z.compare bind fst snd].
  intros E. inversion E. repeat split. intros s. apply params_of_add_count.
Qed.

Lemma procreate_loop_passes (N : Z) (l : list entry) (st : state)
  (out : list entry * state) :
  procreate_loop N l st = Ok out -> passes st (snd out).
Proof.
  revert st out. induction l as [| [| r] rest IH]; intros st out; cbn [procreate_loop].
  - intros E. inversion E. apply passes_refl.
  - discriminate.
  - destruct (calculate_procreation_probability _ _ _ _) as [procreates g1].
    destruct procreates.
    + destruct (birth _ _ _) as [[[[mother child] cl] g2] |] eqn:Hb; [| discriminate].
      cbn [bind]. destruct (birth_ages _ _ _ _ _ _ _ Hb) as [Hm [Hp Hchild]].
      simpl in Hp.
      destruct child as [new_animal |].
      * unfold allocate.
        destruct (procreate_loop N rest _) as [more |] eqn:Hmore; [| discriminate].
        cbn [bind]. intros E. inversion E; subst out. cbn [snd].
        apply IH in Hmore. eapply passes_trans; [| exact Hmore].
        split; simpl; trivial; [lia | |].
        -- intros r0 Hr0.
           replace (Nat.eqb r0 (next_ref st)) with false
             by (symmetry; apply Nat.eqb_neq; lia).
           destruct (Nat.eqb r0 r) eqn:Er; [| reflexivity].
           apply Nat.eqb_eq in Er. now subst r0.
        -- intros r0 Hr0. replace r0 with (next_ref st) by lia.
           now rewrite Nat.eqb_refl.
      * intros E. apply IH in E. eapply passes_trans; [| exact E].
        apply passes_still; trivial. intros r0. simpl.
        destruct (Nat.eqb r0 r) eqn:Er; [| reflexivity].
        apply Nat.eqb_eq in Er. now subst r0.
    + intros E. apply IH in E. eapply passes_trans; [| exact E].
      now apply passes_still.
Qed.

Lemma procreate_passes (s : species) (k : coord) (st st' : state) :
  procreate s k st = Ok st' -> passes st st'.
Proof.
  unfold procreate. destruct (get_cell k st) as [c |]; [| discriminate]. cbn [bind].
  destruct (procreate_loop _ _ st) as [[new_list st1] |] eqn:E1; [| discriminate].
  cbn [bind]. destruct (get_cell k st1) as [c1 |]; [| discriminate]. cbn [bind].
  intros E. inversion E. apply procreate_loop_passes in E1. simpl in E1.
  eapply passes_trans; [exact E1 |]. now apply passes_still.
Qed.

(** *** Weight loss and death *)

Lemma animals_lose_weight_passes (k : coord) (st st' : state) :
  animals_lose_weight k st = Ok st' -> passes st st'.
Proof.
  unfold animals_lose_weight. destruct (get_cell k st) as [c |]; [| discriminate].
  cbn [bind]. apply for_each_passes. intros [| r] a b; [discriminate |].
  cbn [lose_weight_one]. intros E. inversion E. apply passes_still; try reflexivity.
  intros r0. simpl. destruct (Nat.eqb r0 r) eqn:Er; [| reflexivity].
  apply Nat.eqb_eq in Er. now subst r0.
Qed.

(** The death stage leaves the objects alone. *)
Record buries (st st' : state) : Prop := {
  buries_params : forall s, params_of (classes_of st') s = params_of (classes_of st) s;
  buries_tables : tables st' = tables st;
  buries_refs : next_ref st' = next_ref st;
  buries_objects : objects st' = objects st
}.

Lemma buries_trans (a b c : state) : buries a b -> buries b c -> buries a c.
Proof.
  intros [P1 T1 N1 O1] [P2 T2 N2 O2].
  split; [intros s; now rewrite P2, P1 | congruence | congruence | congruence].
Qed.

Lemma check_life_buries (k : coord) (x : entry) (st st' : state) :
  check_life k x st = Ok st' -> buries st st'.
Proof.
  destruct x as [| r]; [discriminate |]. cbn [check_life].
  unfold update_life_status.
  destruct (prob_true_or_false _ _) as [dead g]. destruct dead.
  - intros E. apply list_remove_only_moves in E. destruct E as [N [C [O T]]].
    simpl in N, C, O, T. split; trivial.
    intros s. rewrite C. apply params_of_add_count.
  - intros E. inversion E. now split.
Qed.

Lemma iterate_live_buries (fuel : nat) (s : species) (i : nat) (k : coord)
  (st st' : state) :
  iterate_live fuel s i k st = Ok st' -> buries st st'.
Proof.
  revert i st. induction fuel as [| fuel IH]; intros i st; cbn [iterate_live].
  - intros E. inversion E. now split.
  - destruct (get_cell k st) as [c | e]; [| discriminate]. cbn [bind].
    destruct (nth_error (animals_of s c) i) as [x |];
      [| intros E; inversion E; now split].
    destruct (check_life k x st) as [st1 | e] eqn:E1; [| discriminate].
    cbn [bind]. intros E.
    apply (buries_trans st st1 st'); [now apply (check_life_buries k x) | now apply IH in E].
Qed.

Lemma death_stage_buries (cells : list coord) (st st' : state) :
  _death_stage cells st = Ok st' -> buries st st'.
Proof.
  unfold _death_stage. revert st. induction cells as [| k rest IH]; intros st;
    cbn [for_each].
  - intros E. inversion E. now split.
  - destruct (update_life_status_of_animals k st) as [st1 |] eqn:E1; [| discriminate].
    cbn [bind]. intros E. apply IH in E. eapply buries_trans; [| exact E].
    revert E1. unfold update_life_status_of_animals.
    destruct (get_cell k st) as [c | e]; [| discriminate]. cbn [bind].
    destruct (iterate_live _ Herbivore 0 k st) as [st0 | e] eqn:E0; [| discriminate].
    cbn [bind]. destruct (get_cell k st0) as [c1 | e]; [| discriminate]. cbn [bind].
    intros E1. apply (buries_trans st st0 st1); now apply iterate_live_buries in E0, E1.
Qed.

Lemma buries_passes (st st' : state) : buries st st' -> passes st st'.
Proof.
  intros [P T N O]. apply passes_still; trivial. intros r. now rewrite O.
Qed.

(** *** The stages *)

Lemma early_stages_pass (cells : list coord) (st st4 : state) :
  (st1 <- _feed_herbivores_stage cells st ;;
   st2 <- _feed_carnivores_stage cells st1 ;;
   st3 <- _procreation_stage cells st2 ;;
   _migration_stage cells st3) = Ok st4 ->
  passes st st4.
Proof.
  destruct (_feed_herbivores_stage cells st) as [st1 |] eqn:E1; [| discriminate].
  cbn [bind].
  destruct (_feed_carnivores_stage cells st1) as [st2 |] eqn:E2; [| discriminate].
  cbn [bind].
  destruct (_procreation_stage cells st2) as [st3 |] eqn:E3; [| discriminate].
  cbn [bind]. intros E4.
  apply (passes_trans st st1 st4).
  { apply (for_each_passes _ cells) in E1; [exact E1 |]. intros k a b.
    apply feed_cell_passes. }
  apply (passes_trans st1 st2 st4).
  { apply (for_each_passes _ cells) in E2; [exact E2 |]. intros k a b.
    apply facilitate_hunting_passes. }
  apply (passes_trans st2 st3 st4).
  { apply (for_each_passes _ cells) in E3; [exact E3 |]. intros k a b.
    unfold procreate_herbivores, procreate_carnivores.
    destruct (procreate Herbivore k a) as [a1 |] eqn:Ea; [| discriminate].
    cbn [bind]. intros Eb.
    apply (passes_trans a a1 b); now apply procreate_passes in Ea, Eb. }
  apply only_moves_passes. now apply (migration_stage_only_moves cells).
Qed.






(** *** The parameters *)

(** The parameters are the ones they were, and no reference is taken
    back. *)
Definition settled (st st' : state) : Prop :=
  (forall s, params_of (classes_of st') s = params_of (classes_of st) s) /\
  tables st' = tables st /\ (next_ref st <= next_ref st')%nat.

Lemma settled_refl (st : state) : settled st st.
Proof. now repeat split. Qed.

Lemma settled_trans (a b c : state) : settled a b -> settled b c -> settled a c.
Proof.
  intros [P1 [T1 N1]] [P2 [T2 N2]]. split; [| split; [congruence | lia]].
  intros s. now rewrite P2, P1.
Qed.

Lemma passes_settled (st st' : state) : passes st st' -> settled st st'.
Proof. intros [P T N _ _]. now repeat split. Qed.

Lemma aging_stage_settled (cells : list coord) (st st' : state) :
  _aging_stage cells st = Ok st' -> settled st st'.
Proof.
  unfold _aging_stage. revert st. induction cells as [| k rest IH]; intros st;
    cbn [for_each].
  - intros E. inversion E. apply settled_refl.
  - destruct (age_animals k st) as [st1 |] eqn:E1; [| discriminate]. cbn [bind].
    intros E. apply IH in E. eapply settled_trans; [| exact E].
    revert E1. unfold age_animals. destruct (get_cell k st) as [c |]; [| discriminate].
    cbn [bind]. generalize (get_animals c) as l. intros l. revert st.
    induction l as [| [| r] l IHl]; intros st; cbn [for_each].
    + intros E1. inversion E1. apply settled_refl.
    + discriminate.
    + cbn [age_one bind]. intros E1. apply IHl in E1.
      eapply settled_trans; [| exact E1]. now repeat split.
Qed.

Lemma cycle_settled (st st' : state) : _cycle st = Ok st' -> settled st st'.
Proof.
  unfold _cycle. set (cells := _get_cells st).
  destruct (_feed_herbivores_stage cells st) as [st1 |] eqn:E1; [| discriminate].
  cbn [bind].
  destruct (_feed_carnivores_stage cells st1) as [st2 |] eqn:E2; [| discriminate].
  cbn [bind].
  destruct (_procreation_stage cells st2) as [st3 |] eqn:E3; [| discriminate].
  cbn [bind].
  destruct (_migration_stage cells st3) as [st4 |] eqn:E4; [| discriminate].
  cbn [bind].
  destruct (_aging_stage cells st4) as [st5 |] eqn:E5; [| discriminate].
  cbn [bind].
  destruct (_weight_loss_stage cells st5) as [st6 |] eqn:E6; [| discriminate].
  cbn [bind]. intros E7.
  apply (settled_trans st st4 st').
  { apply passes_settled. apply (early_stages_pass cells). rewrite E1. cbn [bind].
    rewrite E2. cbn [bind]. rewrite E3. cbn [bind]. exact E4. }
  apply (settled_trans st4 st5 st'); [now apply (aging_stage_settled cells) |].
  apply (settled_trans st5 st6 st').
  { apply passes_settled.
    apply (for_each_passes animals_lose_weight cells animals_lose_weight_passes _ _ E6). }
  apply passes_settled, buries_passes. now apply (death_stage_buries cells).
Qed.

(** X22.  [simulate] changes no parameter: when it returns, the parameters
    of both species and the tables of the landscapes are the ones it
    started with, and no reference has been taken back. *)
Theorem a_simulation_keeps_the_parameters (num_years : Z)
  (vis_years img_steps : option Z) (self self' : Simulation.BioSim) (st st' : state) :
  Simulation.simulate num_years vis_years img_steps self st = Ok (st', self') ->
  (forall s, params_of (classes_of st') s = params_of (classes_of st) s) /\
  tables st' = tables st /\ (next_ref st <= next_ref st')%nat.
Proof.
  unfold Simulation.simulate. destruct (_ && _); [discriminate |].
  generalize (Z.to_nat num_years) as n. intros n. revert self st.
  induction n as [| n IH]; intros self st; cbn [Simulation.simulate_loop].
  - intros E. inversion E. apply settled_refl.
  - destruct (_cycle st) as [st1 |] eqn:Hcycle; [| discriminate]. cbn [bind].
    intros E. apply IH in E.
    apply (settled_trans st st1 st'); [now apply cycle_settled | exact E].
Qed.

Lemma a_simulation_keeps_the_parameters_witness :
  exists st' self',
    Simulation.simulate 3 None None (Simulation.mkBioSim 1 None 0) simulation_start
    = Ok (st', self') /\
    tables st' = tables simulation_start.
Proof.
  destruct (simulate_loop_total 3 (Simulation.mkBioSim 1 None 0) simulation_start
              (proj1 (simulated_registered _ simulation_start_simulated)))
    as [[st' self'] Hrun].
  assert (Hsim : Simulation.simulate 3 None None (Simulation.mkBioSim 1 None 0)
                                     simulation_start = Ok (st', self'))
    by exact Hrun.
  exists st', self'. split; [exact Hsim |].
  exact (proj1 (proj2 (a_simulation_keeps_the_parameters 3 None None _ _ _ _ Hsim))).
Defined.
